(** * Motion and toolpath simulation core: a shallow embedding

    The C++ headers under [core/] are translated function by function.
    Every [double] computation is written over the interface [Scalar]
    and read at its instance [binary64]: IEEE 754 double precision
    (Rocq's primitive floats), the arithmetic the compiled program
    performs.  A theorem stated for every [Scalar] holds there.

    The real number that a finite double stands for is [F2R].  The
    rounding error of the binary64 operations is derived from their
    specification in [SpecFloat], and a bound on a computed result is a
    bound on its real value.

    [std::uint64_t] is [Z] with the wrap-around written out.  A C++
    exception ([std::logic_error]) is a value of [ValidationError]: one
    constructor per [throw] site, carrying the move index that the
    message names.  Virtual member functions are type classes. *)

From Stdlib Require Import Floats.
From Stdlib Require Uint63.
From Stdlib Require Import ZArith Bool List String Lia.
From Stdlib Require Import Reals Lra Psatz.
Import ListNotations.

Set Implicit Arguments.

(* ================================================================== *)
(** * 1. The arithmetic of [double]                                   *)
(* ================================================================== *)

(** The operations the sources apply to [double] values.  Comparison
    operators return [bool] as in C++; [a > b] is [b < a] and [a >= b]
    is [b <= a] (also on NaN, where all four are false). *)
Class Scalar (D : Type) : Type := {
  of_Z      : Z -> D;           (* an integral literal such as [1000.0] *)
  dadd      : D -> D -> D;      (* a + b *)
  dsub      : D -> D -> D;      (* a - b *)
  dmul      : D -> D -> D;      (* a * b *)
  ddiv      : D -> D -> D;      (* a / b *)
  dopp      : D -> D;           (* -a *)
  dabs      : D -> D;           (* std::abs *)
  dsqrt     : D -> D;           (* std::sqrt *)
  dltb      : D -> D -> bool;   (* a < b *)
  dleb      : D -> D -> bool;   (* a <= b *)
  deqb      : D -> D -> bool;   (* a == b *)
  disfinite : D -> bool         (* std::isfinite *)
}.

(** The two libm functions [ToolSweep::slerp] and the arc length call. *)
Class Libm (D : Type) : Type := {
  dsin  : D -> D;               (* std::sin *)
  dacos : D -> D                (* std::acos *)
}.

Declare Scope scalar_scope.
Delimit Scope scalar_scope with D.
Notation "a + b" := (dadd a b) : scalar_scope.
Notation "a - b" := (dsub a b) : scalar_scope.
Notation "a * b" := (dmul a b) : scalar_scope.
Notation "a / b" := (ddiv a b) : scalar_scope.
Notation "- a" := (dopp a) : scalar_scope.
Notation "a <? b" := (dltb a b) : scalar_scope.
Notation "a >? b" := (dltb b a) (at level 70, only parsing) : scalar_scope.
Notation "a <=? b" := (dleb a b) : scalar_scope.
Notation "a >=? b" := (dleb b a) (at level 70, only parsing) : scalar_scope.
Notation "a =? b" := (deqb a b) : scalar_scope.

(** A decimal literal [m * 10^-k].  At [binary64] the quotient of two
    exactly representable integers is correctly rounded, so this is the
    double nearest to the decimal, the value a C++ compiler stores. *)
Definition lit {D} `{Scalar D} (m : Z) (k : nat) : D :=
  (of_Z m / of_Z (10 ^ Z.of_nat k))%D.

(** ** IEEE 754 binary64 *)

Definition float_of_Z (z : Z) : float :=
  match z with
  | Z0 => PrimFloat.zero
  | Zpos _ => PrimFloat.of_uint63 (Uint63.of_Z z)
  | Zneg p => PrimFloat.opp (PrimFloat.of_uint63 (Uint63.of_Z (Zpos p)))
  end.

#[export] Instance binary64 : Scalar float := {|
  of_Z      := float_of_Z;
  dadd      := PrimFloat.add;
  dsub      := PrimFloat.sub;
  dmul      := PrimFloat.mul;
  ddiv      := PrimFloat.div;
  dopp      := PrimFloat.opp;
  dabs      := PrimFloat.abs;
  dsqrt     := PrimFloat.sqrt;
  dltb      := PrimFloat.ltb;
  dleb      := PrimFloat.leb;
  deqb      := PrimFloat.eqb;
  disfinite := PrimFloat.is_finite
|}.

(* ================================================================== *)
(** * 2. common/Types.h                                               *)
(* ================================================================== *)

(** [enum class Axis], with its underlying values. *)
Inductive Axis : Type := AxisX | AxisY | AxisZ | AxisA | AxisB | AxisC.

Definition Axis_index (a : Axis) : nat :=
  match a with
  | AxisX => 0 | AxisY => 1 | AxisZ => 2
  | AxisA => 3 | AxisB => 4 | AxisC => 5
  end.

Section Types.
Context {D : Type} `{Scalar D}.
Local Open Scope scalar_scope.

Record Vec3 : Type := mkVec3 { vx : D; vy : D; vz : D }.

Definition Vec3_add (a b : Vec3) : Vec3 :=
  mkVec3 (vx a + vx b) (vy a + vy b) (vz a + vz b).

Definition Vec3_sub (a b : Vec3) : Vec3 :=
  mkVec3 (vx a - vx b) (vy a - vy b) (vz a - vz b).

Definition Vec3_scale (a : Vec3) (scalar : D) : Vec3 :=
  mkVec3 (vx a * scalar) (vy a * scalar) (vz a * scalar).

Definition Vec3_length (a : Vec3) : D :=
  dsqrt (vx a * vx a + vy a * vy a + vz a * vz a).

Definition Vec3_lengthSquared (a : Vec3) : D :=
  vx a * vx a + vy a * vy a + vz a * vz a.

(** [std::array<double, 6>], indexed by [Axis]. *)
Record Axes6 : Type := mkAxes6 {
  axX : D; axY : D; axZ : D; axA : D; axB : D; axC : D
}.

Definition Axes6_get (p : Axes6) (a : Axis) : D :=
  match a with
  | AxisX => axX p | AxisY => axY p | AxisZ => axZ p
  | AxisA => axA p | AxisB => axB p | AxisC => axC p
  end.

Definition Axes6_set (p : Axes6) (a : Axis) (v : D) : Axes6 :=
  match a with
  | AxisX => mkAxes6 v (axY p) (axZ p) (axA p) (axB p) (axC p)
  | AxisY => mkAxes6 (axX p) v (axZ p) (axA p) (axB p) (axC p)
  | AxisZ => mkAxes6 (axX p) (axY p) v (axA p) (axB p) (axC p)
  | AxisA => mkAxes6 (axX p) (axY p) (axZ p) v (axB p) (axC p)
  | AxisB => mkAxes6 (axX p) (axY p) (axZ p) (axA p) v (axC p)
  | AxisC => mkAxes6 (axX p) (axY p) (axZ p) (axA p) (axB p) v
  end.

Definition Axes6_fill (v : D) : Axes6 := mkAxes6 v v v v v v.

(** [struct AABB]; [AABB()] leaves both corners at the origin. *)
Record AABB : Type := mkAABB { aabb_min : Vec3; aabb_max : Vec3 }.

Definition AABB_default : AABB :=
  mkAABB (mkVec3 (of_Z 0) (of_Z 0) (of_Z 0)) (mkVec3 (of_Z 0) (of_Z 0) (of_Z 0)).

Definition AABB_isValid (b : AABB) : bool :=
  (vx (aabb_min b) <=? vx (aabb_max b)) &&
  (vy (aabb_min b) <=? vy (aabb_max b)) &&
  (vz (aabb_min b) <=? vz (aabb_max b)).

Definition AABB_size (b : AABB) : Vec3 := Vec3_sub (aabb_max b) (aabb_min b).

Definition AABB_contains (b : AABB) (point : Vec3) : bool :=
  (vx point >=? vx (aabb_min b)) && (vx point <=? vx (aabb_max b)) &&
  (vy point >=? vy (aabb_min b)) && (vy point <=? vy (aabb_max b)) &&
  (vz point >=? vz (aabb_min b)) && (vz point <=? vz (aabb_max b)).

End Types.

Arguments Vec3 D : clear implicits.
Arguments Axes6 D : clear implicits.
Arguments AABB D : clear implicits.

(* ================================================================== *)
(** * 3. geometry/Transform.h                                         *)
(* ================================================================== *)

Section Transform.
Context {D : Type} `{Scalar D}.
Local Open Scope scalar_scope.

Record Quaternion : Type := mkQuaternion { qw : D; qx : D; qy : D; qz : D }.

Definition Quaternion_identity : Quaternion :=
  mkQuaternion (of_Z 1) (of_Z 0) (of_Z 0) (of_Z 0).

Definition Quaternion_magnitude (q : Quaternion) : D :=
  dsqrt (qw q * qw q + qx q * qx q + qy q * qy q + qz q * qz q).

Definition Quaternion_normalized (q : Quaternion) : Quaternion :=
  let mag := Quaternion_magnitude q in
  if mag >? of_Z 0
  then mkQuaternion (qw q / mag) (qx q / mag) (qy q / mag) (qz q / mag)
  else Quaternion_identity.

Definition Quaternion_conjugate (q : Quaternion) : Quaternion :=
  mkQuaternion (qw q) (- qx q) (- qy q) (- qz q).

(** [Quaternion::operator*]; C++ evaluates [a - b - c - d] and
    [a + b + c - d] from the left. *)
Definition Quaternion_mul (a b : Quaternion) : Quaternion :=
  mkQuaternion
    (qw a * qw b - qx a * qx b - qy a * qy b - qz a * qz b)
    (qw a * qx b + qx a * qw b + qy a * qz b - qz a * qy b)
    (qw a * qy b - qx a * qz b + qy a * qw b + qz a * qx b)
    (qw a * qz b + qx a * qy b - qy a * qx b + qz a * qw b).

Definition Quaternion_rotate (q : Quaternion) (v : Vec3 D) : Vec3 D :=
  let qv := mkQuaternion (of_Z 0) (vx v) (vy v) (vz v) in
  let result := Quaternion_mul (Quaternion_mul q qv) (Quaternion_conjugate q) in
  mkVec3 (qx result) (qy result) (qz result).

(** The class keeps [position_] and [rotation_] private: a [Transform]
    is only ever produced by the three constructors below. *)
Record Transform : Type := mkTransformRaw {
  position_ : Vec3 D;
  rotation_ : Quaternion
}.

(** [Transform()] *)
Definition Transform_default : Transform :=
  mkTransformRaw (mkVec3 (of_Z 0) (of_Z 0) (of_Z 0)) Quaternion_identity.

(** [Transform(position, rotation)]: the rotation is renormalized. *)
Definition Transform_make (position : Vec3 D) (rotation : Quaternion) : Transform :=
  mkTransformRaw position (Quaternion_normalized rotation).

(** [explicit Transform(position)] *)
Definition Transform_of_position (position : Vec3 D) : Transform :=
  mkTransformRaw position Quaternion_identity.

Definition Transform_identity : Transform := Transform_default.

Definition Transform_getPosition (t : Transform) : Vec3 D := position_ t.
Definition Transform_getRotation (t : Transform) : Quaternion := rotation_ t.

Definition Transform_setPosition (t : Transform) (pos : Vec3 D) : Transform :=
  mkTransformRaw pos (rotation_ t).

(** [setRotation] renormalizes, as the constructor does. *)
Definition Transform_setRotation (t : Transform) (rot : Quaternion) : Transform :=
  mkTransformRaw (position_ t) (Quaternion_normalized rot).

Definition Transform_transformPoint (t : Transform) (point : Vec3 D) : Vec3 D :=
  Vec3_add (position_ t) (Quaternion_rotate (rotation_ t) point).

Definition Transform_transformDirection (t : Transform) (direction : Vec3 D) : Vec3 D :=
  Quaternion_rotate (rotation_ t) direction.

(** [Transform::translation] and [Transform::rotation]. *)
Definition Transform_translation (translation : Vec3 D) : Transform :=
  Transform_of_position translation.

Definition Transform_rotation (rotation : Quaternion) : Transform :=
  Transform_make (mkVec3 (of_Z 0) (of_Z 0) (of_Z 0)) rotation.

Definition Transform_inverse (t : Transform) : Transform :=
  let invRot := Quaternion_conjugate (rotation_ t) in
  let invPos :=
    Quaternion_rotate invRot
      (mkVec3 (- vx (position_ t)) (- vy (position_ t)) (- vz (position_ t))) in
  Transform_make invPos invRot.

(** [Transform::operator*]: [this * other]. *)
Definition Transform_compose (t other : Transform) : Transform :=
  let newPos := Transform_transformPoint t (position_ other) in
  let newRot := Quaternion_mul (rotation_ t) (rotation_ other) in
  Transform_make newPos newRot.

(** The values a [Transform] object can hold: the images of the
    constructors. *)
Inductive Transform_constructed : Transform -> Prop :=
| constructed_default : Transform_constructed Transform_default
| constructed_make : forall p q, Transform_constructed (Transform_make p q)
| constructed_of_position : forall p, Transform_constructed (Transform_of_position p).

(** Quaternion dot product, as [ToolSweep] computes it. *)
Definition Quaternion_dot (a b : Quaternion) : D :=
  qw a * qw b + qx a * qx b + qy a * qy b + qz a * qz b.

(** The squared magnitude: what [magnitude] takes the root of. *)
Definition norm2 (q : Quaternion) : D :=
  qw q * qw q + qx q * qx q + qy q * qy q + qz q * qz q.

End Transform.

Arguments Quaternion D : clear implicits.
Arguments Transform D : clear implicits.

(* ================================================================== *)
(** * 4. geometry/ToolSweep.h                                         *)
(* ================================================================== *)

Section ToolSweep.
Context {D : Type} `{Scalar D} `{Libm D}.
(** [class Tool] (tool/Tool.h) is only carried around by the sweep. *)
Variable Tool : Type.
Local Open Scope scalar_scope.

(** [std::min(a, b)] is [(b < a) ? b : a]; [std::max(a, b)] is
    [(a < b) ? b : a]. *)
Definition std_min (a b : D) : D := if b <? a then b else a.
Definition std_max (a b : D) : D := if a <? b then b else a.

Record ToolSweep : Type := mkToolSweep {
  tool_ : Tool;
  startTransform_ : Transform D;
  endTransform_ : Transform D;
  resolutionHint_ : D
}.

Definition ToolSweep_slerp (q1 q2 : Quaternion D) (t : D) : Quaternion D :=
  let dot := qw q1 * qw q2 + qx q1 * qx q2 + qy q1 * qy q2 + qz q1 * qz q2 in
  (* If dot < 0, negate one quaternion to take shorter path *)
  let '(q2Adjusted, dot) :=
    if dot <? of_Z 0
    then (mkQuaternion (- qw q2) (- qx q2) (- qy q2) (- qz q2), - dot)
    else (q2, dot) in
  (* If quaternions are very close, use linear interpolation *)
  if dot >? lit 9995 4
  then
    Quaternion_normalized
      (mkQuaternion
         (qw q1 + (qw q2Adjusted - qw q1) * t)
         (qx q1 + (qx q2Adjusted - qx q1) * t)
         (qy q1 + (qy q2Adjusted - qy q1) * t)
         (qz q1 + (qz q2Adjusted - qz q1) * t))
  else
    (* Spherical interpolation *)
    let theta := dacos dot in
    let sinTheta := dsin theta in
    let w1 := dsin ((of_Z 1 - t) * theta) / sinTheta in
    let w2 := dsin (t * theta) / sinTheta in
    Quaternion_normalized
      (mkQuaternion
         (qw q1 * w1 + qw q2Adjusted * w2)
         (qx q1 * w1 + qx q2Adjusted * w2)
         (qy q1 * w1 + qy q2Adjusted * w2)
         (qz q1 * w1 + qz q2Adjusted * w2)).

Definition ToolSweep_getTransformAt (s : ToolSweep) (t : D) : Transform D :=
  (* Clamp t to [0, 1] *)
  let t := std_max (of_Z 0) (std_min (of_Z 1) t) in
  let startPos := Transform_getPosition (startTransform_ s) in
  let endPos := Transform_getPosition (endTransform_ s) in
  let pos := Vec3_add startPos (Vec3_scale (Vec3_sub endPos startPos) t) in
  let startRot := Transform_getRotation (startTransform_ s) in
  let endRot := Transform_getRotation (endTransform_ s) in
  let rot := ToolSweep_slerp startRot endRot t in
  Transform_make pos rot.

Definition ToolSweep_getStartTransform (s : ToolSweep) : Transform D := startTransform_ s.
Definition ToolSweep_getEndTransform (s : ToolSweep) : Transform D := endTransform_ s.

Definition ToolSweep_isTranslationOnly (s : ToolSweep) : bool :=
  let startRot := Transform_getRotation (startTransform_ s) in
  let endRot := Transform_getRotation (endTransform_ s) in
  (* Check if rotations are approximately equal *)
  let dot := qw startRot * qw endRot + qx startRot * qx endRot +
             qy startRot * qy endRot + qz startRot * qz endRot in
  dabs (dot - of_Z 1) <? lit 1 6.

Definition ToolSweep_getDistance (s : ToolSweep) : D :=
  let delta := Vec3_sub (Transform_getPosition (endTransform_ s))
                        (Transform_getPosition (startTransform_ s)) in
  Vec3_length delta.

(** [std::min({a, ...})] and [std::max({a, ...})] on an initializer
    list: the first smallest and the first largest element, found with
    [operator<] from the left. *)
Definition std_min_list (first : D) (rest : list D) : D :=
  fold_left (fun smallest x => if x <? smallest then x else smallest) rest first.

Definition std_max_list (first : D) (rest : list D) : D :=
  fold_left (fun largest x => if largest <? x then x else largest) rest first.

End ToolSweep.

Arguments ToolSweep D Tool : clear implicits.

(* ================================================================== *)
(** * 5. machine/MachineKinematics.h, machine/Cartesian3Axis.h        *)
(* ================================================================== *)

Section Kinematics.
Context {D : Type} `{Scalar D}.
Local Open Scope scalar_scope.

(** [axisPositions] has no initializer in the struct: a result that
    was only default-initialized holds [None] there. *)
Record ForwardKinematicsResult : Type := mkFK {
  fk_toolPose : Transform D;
  fk_axisPositions : option (Axes6 D);
  fk_valid : bool
}.

Record InverseKinematicsResult : Type := mkIK {
  ik_axisPositions : Axes6 D;
  ik_toolPose : Transform D;
  ik_valid : bool
}.

(** [class MachineKinematics]: the two pure virtual functions the
    callers use. *)
Class MachineKinematics (K : Type) : Type := {
  forwardKinematics : K -> Axes6 D -> ForwardKinematicsResult;
  inverseKinematics : K -> Transform D -> list InverseKinematicsResult
}.

(** [MachineKinematics::isPoseReachable], the default implementation. *)
Definition isPoseReachable {K} `{MachineKinematics K} (k : K) (targetPose : Transform D) : bool :=
  match inverseKinematics k targetPose with
  | [] => false
  | s0 :: _ => ik_valid s0
  end.

Record Cartesian3Axis : Type := mkCartesian3Axis {
  xLimits_ : D * D;
  yLimits_ : D * D;
  zLimits_ : D * D
}.

(** The constructor's default arguments. *)
Definition Cartesian3Axis_default : Cartesian3Axis :=
  mkCartesian3Axis (of_Z (-1000), of_Z 1000) (of_Z (-1000), of_Z 1000)
                   (of_Z (-100), of_Z 100).

Definition Cartesian3Axis_getAxisLimits (k : Cartesian3Axis) : list (D * D) :=
  [xLimits_ k; yLimits_ k; zLimits_ k;
   (of_Z 0, of_Z 0); (of_Z 0, of_Z 0); (of_Z 0, of_Z 0)].

(** The limit test shared, textually, by both directions. *)
Definition Cartesian3Axis_outOfLimits (k : Cartesian3Axis) (x y z : D) : bool :=
  (x <? fst (xLimits_ k)) || (x >? snd (xLimits_ k)) ||
  (y <? fst (yLimits_ k)) || (y >? snd (yLimits_ k)) ||
  (z <? fst (zLimits_ k)) || (z >? snd (zLimits_ k)).

Definition Cartesian3Axis_forwardKinematics
  (k : Cartesian3Axis) (axisPositions : Axes6 D) : ForwardKinematicsResult :=
  let x := Axes6_get axisPositions AxisX in
  let y := Axes6_get axisPositions AxisY in
  let z := Axes6_get axisPositions AxisZ in
  if Cartesian3Axis_outOfLimits k x y z
  then mkFK Transform_default None false
  else
    let toolPosition := mkVec3 x y z in
    let toolRotation := Quaternion_identity in
    mkFK (Transform_make toolPosition toolRotation) (Some axisPositions) true.

Definition Cartesian3Axis_inverseKinematics
  (k : Cartesian3Axis) (targetPose : Transform D) : list InverseKinematicsResult :=
  let targetPosition := Transform_getPosition targetPose in
  let x := vx targetPosition in
  let y := vy targetPosition in
  let z := vz targetPosition in
  if Cartesian3Axis_outOfLimits k x y z
  then []
  else
    let a := Axes6_fill (of_Z 0) in
    let a := Axes6_set a AxisX x in
    let a := Axes6_set a AxisY y in
    let a := Axes6_set a AxisZ z in
    let a := Axes6_set a AxisA (of_Z 0) in
    let a := Axes6_set a AxisB (of_Z 0) in
    let a := Axes6_set a AxisC (of_Z 0) in
    (* Verify by forward kinematics *)
    let fkResult := Cartesian3Axis_forwardKinematics k a in
    [mkIK a (fk_toolPose fkResult) (fk_valid fkResult)].

Definition Cartesian3Axis_getWorkEnvelope (k : Cartesian3Axis) : AABB D :=
  mkAABB (mkVec3 (fst (xLimits_ k)) (fst (yLimits_ k)) (fst (zLimits_ k)))
         (mkVec3 (snd (xLimits_ k)) (snd (yLimits_ k)) (snd (zLimits_ k))).

Definition Cartesian3Axis_isValid (k : Cartesian3Axis) : bool :=
  (fst (xLimits_ k) <? snd (xLimits_ k)) &&
  (fst (yLimits_ k) <? snd (yLimits_ k)) &&
  (fst (zLimits_ k) <? snd (zLimits_ k)).

#[export] Instance Cartesian3Axis_kinematics : MachineKinematics Cartesian3Axis := {|
  forwardKinematics := Cartesian3Axis_forwardKinematics;
  inverseKinematics := Cartesian3Axis_inverseKinematics
|}.

End Kinematics.

Arguments ForwardKinematicsResult D : clear implicits.
Arguments InverseKinematicsResult D : clear implicits.
Arguments Cartesian3Axis D : clear implicits.

(* ================================================================== *)
(** * 6. common/Error.h                                               *)
(* ================================================================== *)

Inductive ErrorSeverity : Type :=
| SeverityInfo | SeverityWarning | SeverityError | SeverityFatal.

Inductive ErrorCode : Type :=
| Success
| SimulationInvalidState | SimulationOutOfBounds | SimulationToolCollision
| SimulationMaterialError | SimulationStepFailed | SimulationInvalidTool
| SimulationInvalidMachine
| GeometryInvalidTransform | GeometryInvalidBounds | GeometryInvalidOperation
| MaterialGridInvalid | MaterialGridOutOfBounds | MaterialGridResolutionError
| MachineInvalidPosition | MachineKinematicsError | MachineLimitExceeded
| ToolInvalidGeometry | ToolInvalidParameters
| InvalidArgument | InvalidState | NotImplemented | UnknownError.

(** The enumerators' [std::uint32_t] values. *)
Definition ErrorCode_value (c : ErrorCode) : Z :=
  match c with
  | Success => 0
  | SimulationInvalidState => 1000 | SimulationOutOfBounds => 1001
  | SimulationToolCollision => 1002 | SimulationMaterialError => 1003
  | SimulationStepFailed => 1004 | SimulationInvalidTool => 1005
  | SimulationInvalidMachine => 1006
  | GeometryInvalidTransform => 2000 | GeometryInvalidBounds => 2001
  | GeometryInvalidOperation => 2002
  | MaterialGridInvalid => 3000 | MaterialGridOutOfBounds => 3001
  | MaterialGridResolutionError => 3002
  | MachineInvalidPosition => 4000 | MachineKinematicsError => 4001
  | MachineLimitExceeded => 4002
  | ToolInvalidGeometry => 5000 | ToolInvalidParameters => 5001
  | InvalidArgument => 9000 | InvalidState => 9001
  | NotImplemented => 9002 | UnknownError => 9999
  end%Z.

Definition ErrorCode_eqb (a b : ErrorCode) : bool :=
  (ErrorCode_value a =? ErrorCode_value b)%Z.

Definition ErrorCode_between (lo c hi : ErrorCode) : bool :=
  ((ErrorCode_value lo <=? ErrorCode_value c) &&
   (ErrorCode_value c <=? ErrorCode_value hi))%Z.

Record Error : Type := mkError {
  code_ : ErrorCode;
  severity_ : ErrorSeverity;
  message_ : string;
  recoverable_ : bool
}.

(** [Error()] *)
Definition Error_default : Error := mkError Success SeverityInfo EmptyString true.

Definition Error_isSuccess (e : Error) : bool := ErrorCode_eqb (code_ e) Success.
Definition Error_isError (e : Error) : bool := negb (ErrorCode_eqb (code_ e) Success).
Definition Error_getCode (e : Error) : ErrorCode := code_ e.
Definition Error_getMessage (e : Error) : string := message_ e.
Definition Error_isRecoverable (e : Error) : bool := recoverable_ e.
Definition Error_getSeverity (e : Error) : ErrorSeverity := severity_ e.

Definition Error_isFatal (e : Error) : bool :=
  match severity_ e with
  | SeverityFatal => true
  | _ => false
  end.

Definition Error_success : Error := Error_default.

(** [Error::make]; the parameter [recoverable] defaults to [false]. *)
Definition Error_make (code : ErrorCode) (message : string) (recoverable : bool) : Error :=
  let severity :=
    if ErrorCode_between SimulationInvalidState code SimulationInvalidMachine
    then SeverityError
    else if ErrorCode_between GeometryInvalidTransform code GeometryInvalidOperation
    then SeverityError
    else if ErrorCode_between MaterialGridInvalid code MaterialGridResolutionError
    then SeverityError
    else if ErrorCode_eqb code MachineLimitExceeded
    then SeverityWarning
    else SeverityError in
  mkError code severity message recoverable.

(* ================================================================== *)
(** * 7. [std::uint64_t]                                              *)
(* ================================================================== *)

Definition uint64_modulus : Z := 2 ^ 64.

(** [++n] on a [std::uint64_t]. *)
Definition uint64_incr (n : Z) : Z := ((n + 1) mod uint64_modulus)%Z.

Definition is_uint64 (n : Z) : Prop := (0 <= n < uint64_modulus)%Z.

(* ================================================================== *)
(** * 8. sim/StepResult.h, common/Time.h, sim/SimulationState.h       *)
(* ================================================================== *)

(** [class MaterialGrid] is abstract; the stepping contract calls only
    [isValid] on it. *)
Class MaterialGrid (G : Type) : Type := {
  MaterialGrid_isValid : G -> bool
}.

Section Simulation.
Context {D : Type} `{Scalar D}.
Context {G : Type} `{MaterialGrid G}.
Variable Tool : Type.
Local Open Scope scalar_scope.

Record StepResult : Type := mkStepResult {
  error : Error;
  materialRemovedVolume : D;
  collisionDetected : bool;
  toolContact : bool;
  timeDelta : D;
  cellsProcessed : Z
}.

(** The default member initializers. *)
Definition StepResult_default : StepResult :=
  mkStepResult Error_success (of_Z 0) false false (of_Z 0) 0%Z.

Definition StepResult_isSuccess (r : StepResult) : bool :=
  Error_isSuccess (error r) && negb (collisionDetected r).

Definition StepResult_hasError (r : StepResult) : bool :=
  Error_isError (error r).

(** [StepResult::success(timeDelta = 0.0)] *)
Definition StepResult_success (td : D) : StepResult :=
  mkStepResult Error_success (of_Z 0) false false td 0%Z.

(** [StepResult::makeError(code, message, recoverable = false)] *)
Definition StepResult_makeError (code : ErrorCode) (message : string) (recoverable : bool) : StepResult :=
  mkStepResult (Error_make code message recoverable) (of_Z 0) false false (of_Z 0) 0%Z.

(** [StepResult::collision(message)] *)
Definition StepResult_collision (message : string) : StepResult :=
  mkStepResult (Error_make SimulationToolCollision message true)
               (of_Z 0) true false (of_Z 0) 0%Z.

Record SimulationTime : Type := mkSimulationTime {
  fixedTimeStep_ : D;
  accumulatedTime_ : D;
  time_stepCount_ : Z
}.

(** [SimulationTime(fixedTimeStep = 0.001)] *)
Definition SimulationTime_make (fixedTimeStep : D) : SimulationTime :=
  mkSimulationTime (if fixedTimeStep >? of_Z 0 then fixedTimeStep else lit 1 3)
                   (of_Z 0) 0%Z.

Definition SimulationTime_step (t : SimulationTime) : SimulationTime :=
  mkSimulationTime (fixedTimeStep_ t)
                   (accumulatedTime_ t + fixedTimeStep_ t)
                   (uint64_incr (time_stepCount_ t)).

Definition SimulationTime_getTimeDelta (t : SimulationTime) : D := fixedTimeStep_ t.

Definition SimulationTime_getFixedTimeStep (t : SimulationTime) : D := fixedTimeStep_ t.
Definition SimulationTime_getAccumulatedTime (t : SimulationTime) : D := accumulatedTime_ t.
Definition SimulationTime_getStepCount (t : SimulationTime) : Z := time_stepCount_ t.

(** [setFixedTimeStep]: a time step that is not [> 0] is ignored. *)
Definition SimulationTime_setFixedTimeStep (t : SimulationTime) (timeStep : D) : SimulationTime :=
  if timeStep >? of_Z 0
  then mkSimulationTime timeStep (accumulatedTime_ t) (time_stepCount_ t)
  else t.

Definition SimulationTime_reset (t : SimulationTime) : SimulationTime :=
  mkSimulationTime (fixedTimeStep_ t) (of_Z 0) 0%Z.

Definition SimulationTime_isValid (t : SimulationTime) : bool :=
  (fixedTimeStep_ t >? of_Z 0) && disfinite (accumulatedTime_ t)
  && disfinite (fixedTimeStep_ t).

(** [materialGrid_] is a [std::unique_ptr]: [None] is the null pointer. *)
Record SimulationState : Type := mkSimulationState {
  materialGrid_ : option G;
  toolPose_ : Transform D;
  machineAxes_ : Axes6 D;
  stepCount_ : Z;
  timeAccumulator_ : D;
  deterministicSeed_ : Z
}.

(** [SimulationState(materialGrid, initialToolPose)] *)
Definition SimulationState_make (materialGrid : option G) (initialToolPose : Transform D) : SimulationState :=
  mkSimulationState materialGrid initialToolPose (Axes6_fill (of_Z 0)) 0%Z (of_Z 0) 0%Z.

Definition SimulationState_getStepCount (s : SimulationState) : Z := stepCount_ s.
Definition SimulationState_getTimeAccumulator (s : SimulationState) : D := timeAccumulator_ s.
Definition SimulationState_getDeterministicSeed (s : SimulationState) : Z := deterministicSeed_ s.

Definition SimulationState_incrementStepCount (s : SimulationState) : SimulationState :=
  mkSimulationState (materialGrid_ s) (toolPose_ s) (machineAxes_ s)
                    (uint64_incr (stepCount_ s)) (timeAccumulator_ s)
                    (deterministicSeed_ s).

Definition SimulationState_addTime (s : SimulationState) (deltaTime : D) : SimulationState :=
  mkSimulationState (materialGrid_ s) (toolPose_ s) (machineAxes_ s)
                    (stepCount_ s) (timeAccumulator_ s + deltaTime)
                    (deterministicSeed_ s).

Definition SimulationState_setDeterministicSeed (s : SimulationState) (seed : Z) : SimulationState :=
  mkSimulationState (materialGrid_ s) (toolPose_ s) (machineAxes_ s)
                    (stepCount_ s) (timeAccumulator_ s) seed.

Definition SimulationState_isValid (s : SimulationState) : bool :=
  match materialGrid_ s with
  | None => false
  | Some g => MaterialGrid_isValid g
  end.

Definition SimulationState_getToolPose (s : SimulationState) : Transform D := toolPose_ s.
Definition SimulationState_getMachineAxes (s : SimulationState) : Axes6 D := machineAxes_ s.

Definition SimulationState_setToolPose (s : SimulationState) (pose : Transform D) : SimulationState :=
  mkSimulationState (materialGrid_ s) pose (machineAxes_ s)
                    (stepCount_ s) (timeAccumulator_ s) (deterministicSeed_ s).

Definition SimulationState_setMachineAxes (s : SimulationState) (axes : Axes6 D) : SimulationState :=
  mkSimulationState (materialGrid_ s) (toolPose_ s) axes
                    (stepCount_ s) (timeAccumulator_ s) (deterministicSeed_ s).

Definition SimulationState_setAxis (s : SimulationState) (axis : Axis) (value : D) : SimulationState :=
  mkSimulationState (materialGrid_ s) (toolPose_ s) (Axes6_set (machineAxes_ s) axis value)
                    (stepCount_ s) (timeAccumulator_ s) (deterministicSeed_ s).

Definition SimulationState_getAxis (s : SimulationState) (axis : Axis) : D :=
  Axes6_get (machineAxes_ s) axis.

(* ================================================================== *)
(** * 9. sim/ISimulationEngine.h, sim/SimulationEngineBase.h          *)
(* ================================================================== *)

(** [class ISimulationEngine].  A member function that mutates the
    engine and the [SimulationState&] it is handed returns both. *)
Class ISimulationEngine (E : Type) : Type := {
  initialize : E -> SimulationState -> Error * E * SimulationState;
  step : E -> SimulationState -> ToolSweep D Tool -> StepResult * E * SimulationState;
  reset : E -> SimulationState -> Error * E * SimulationState;
  engine_isValid : E -> bool
}.

(** The protected virtual hooks of [SimulationEngineBase], over the
    data members [X] of the derived class.  The overrides modelled are
    those that work on their own members, the state and the sweep:
    they may change the members and the state.  [engineType_], [time_]
    and [initialized_] are private to the base; an override can still
    reach the clock through the public [getTime()], and one that does
    is not an instance of this class. *)
Class EngineHooks (X : Type) : Type := {
  doInitialize : X -> SimulationState -> Error * X * SimulationState;
  doStep : X -> SimulationState -> ToolSweep D Tool -> StepResult * X * SimulationState;
  doReset : X -> SimulationState -> Error * X * SimulationState
}.

(** The defaults [SimulationEngineBase] gives [doInitialize] and
    [doReset]: no-op, success. *)
Definition doInitialize_default {X} (x : X) (s : SimulationState) : Error * X * SimulationState :=
  (Error_success, x, s).
Definition doReset_default {X} (x : X) (s : SimulationState) : Error * X * SimulationState :=
  (Error_success, x, s).

Record SimulationEngineBase (X : Type) : Type := mkSimulationEngineBase {
  engineType_ : string;
  time_ : SimulationTime;
  initialized_ : bool;
  derived_ : X
}.

Section EngineBase.
Context {X : Type} `{EngineHooks X}.

(** [SimulationEngineBase(engineType, fixedTimeStep = 0.001)] *)
Definition SimulationEngineBase_make (engineType : string) (fixedTimeStep : D) (x : X) : SimulationEngineBase X :=
  mkSimulationEngineBase engineType (SimulationTime_make fixedTimeStep) false x.

Definition SimulationEngineBase_initialize (e : SimulationEngineBase X) (state : SimulationState)
  : Error * SimulationEngineBase X * SimulationState :=
  if negb (SimulationState_isValid state)
  then (Error_make SimulationInvalidState "Simulation state is invalid" false, e, state)
  else
    let '(result, x, state) := doInitialize (derived_ e) state in
    if Error_isSuccess result
    then (result,
          mkSimulationEngineBase (engineType_ e) (SimulationTime_reset (time_ e)) true x,
          state)
    else (result,
          mkSimulationEngineBase (engineType_ e) (time_ e) (initialized_ e) x,
          state).

Definition SimulationEngineBase_step (e : SimulationEngineBase X) (state : SimulationState)
  (sweep : ToolSweep D Tool) : StepResult * SimulationEngineBase X * SimulationState :=
  if negb (initialized_ e)
  then (StepResult_makeError SimulationInvalidState
          "Engine not initialized. Call initialize() first." true, e, state)
  else if negb (SimulationState_isValid state)
  then (StepResult_makeError SimulationInvalidState
          "Simulation state is invalid" false, e, state)
  else
    (* Update state step counter *)
    let state := SimulationState_incrementStepCount state in
    (* Execute engine-specific step logic *)
    let '(result, x, state) := doStep (derived_ e) state sweep in
    (* Accumulate time in state *)
    let state := SimulationState_addTime state (SimulationTime_getTimeDelta (time_ e)) in
    (* Advance time for next step *)
    (result,
     mkSimulationEngineBase (engineType_ e) (SimulationTime_step (time_ e)) (initialized_ e) x,
     state).

Definition SimulationEngineBase_reset (e : SimulationEngineBase X) (state : SimulationState)
  : Error * SimulationEngineBase X * SimulationState :=
  let '(result, x, state) := doReset (derived_ e) state in
  if Error_isSuccess result
  then (result,
        mkSimulationEngineBase (engineType_ e) (SimulationTime_reset (time_ e)) false x,
        state)
  else (result,
        mkSimulationEngineBase (engineType_ e) (time_ e) (initialized_ e) x,
        state).

Definition SimulationEngineBase_isValid (e : SimulationEngineBase X) : bool :=
  SimulationTime_isValid (time_ e) && negb (String.eqb (engineType_ e) EmptyString).

Definition SimulationEngineBase_isInitialized (e : SimulationEngineBase X) : bool :=
  initialized_ e.

Definition SimulationEngineBase_getTime (e : SimulationEngineBase X) : SimulationTime :=
  time_ e.

#[export] Instance SimulationEngineBase_engine : ISimulationEngine (SimulationEngineBase X) := {|
  initialize := SimulationEngineBase_initialize;
  step := SimulationEngineBase_step;
  reset := SimulationEngineBase_reset;
  engine_isValid := SimulationEngineBase_isValid
|}.

End EngineBase.

(* ================================================================== *)
(** * 10. sim/StepController.h                                        *)
(* ================================================================== *)

(** [engine_] is a [std::unique_ptr<ISimulationEngine>]: [None] is the
    null pointer. *)
Record StepController (E : Type) : Type := mkStepController {
  engine_ : option E;
  lastResult_ : StepResult
}.

Section Controller.
Context {E : Type} `{ISimulationEngine E}.

(** [explicit StepController(std::unique_ptr<ISimulationEngine>)] *)
Definition StepController_make (engine : option E) : StepController E :=
  match engine with
  | None => mkStepController None
              (StepResult_makeError InvalidArgument "Engine cannot be null" false)
  | Some _ => mkStepController engine StepResult_default
  end.

Definition StepController_initialize (c : StepController E) (state : SimulationState)
  : bool * StepController E * SimulationState :=
  match engine_ c with
  | None =>
      (false,
       mkStepController None (StepResult_makeError InvalidState "Engine is null" false),
       state)
  | Some e =>
      let '(err, e, state) := initialize e state in
      if Error_isSuccess err
      then (true, mkStepController (Some e) (StepResult_success (of_Z 0)), state)
      else (false,
            mkStepController (Some e)
              (StepResult_makeError (Error_getCode err) (Error_getMessage err)
                                    (Error_isRecoverable err)),
            state)
  end.

Definition StepController_stepOnce (c : StepController E) (state : SimulationState)
  (sweep : ToolSweep D Tool) : bool * StepController E * SimulationState :=
  match engine_ c with
  | None =>
      (false,
       mkStepController None (StepResult_makeError InvalidState "Engine is null" false),
       state)
  | Some e =>
      if negb (SimulationState_isValid state)
      then (false,
            mkStepController (Some e)
              (StepResult_makeError SimulationInvalidState "Simulation state is invalid" false),
            state)
      else
        let '(r, e, state) := step e state sweep in
        (StepResult_isSuccess r, mkStepController (Some e) r, state)
  end.

(** The loop of [stepN(state, sweep, numSteps)], [remaining] iterations
    from [executed].  The last component is not in the source: it lists
    [lastResult_] after each call of [stepOnce], the sequence of step
    results of the run. *)
Fixpoint StepController_stepN_loop (remaining : nat) (c : StepController E)
  (state : SimulationState) (sweep : ToolSweep D Tool) (executed : Z)
  : Z * StepController E * SimulationState * list StepResult :=
  match remaining with
  | O => (executed, c, state, [])
  | S remaining =>
      let '(ok, c, state) := StepController_stepOnce c state sweep in
      if negb ok
      then (executed, c, state, [lastResult_ c])
      else
        let '(n, c', state', rs) :=
          StepController_stepN_loop remaining c state sweep (uint64_incr executed) in
        (n, c', state', lastResult_ c :: rs)
  end.

(** [stepN(state, sweep, numSteps)], with the results of the run. *)
Definition StepController_stepN_run (c : StepController E) (state : SimulationState)
  (sweep : ToolSweep D Tool) (numSteps : Z)
  : Z * StepController E * SimulationState * list StepResult :=
  match engine_ c with
  | None => (0%Z, c, state, [])
  | Some _ =>
      if negb (SimulationState_isValid state)
      then (0%Z, c, state, [])
      else StepController_stepN_loop (Z.to_nat numSteps) c state sweep 0%Z
  end.

Definition StepController_stepN (c : StepController E) (state : SimulationState)
  (sweep : ToolSweep D Tool) (numSteps : Z) : Z * StepController E * SimulationState :=
  let '(n, c, state, _) := StepController_stepN_run c state sweep numSteps in
  (n, c, state).

(** The loop of [stepN(state, sweeps)], one sweep per step. *)
Fixpoint StepController_stepN_sweeps_loop (sweeps : list (ToolSweep D Tool))
  (c : StepController E) (state : SimulationState) (executed : Z)
  : Z * StepController E * SimulationState * list StepResult :=
  match sweeps with
  | [] => (executed, c, state, [])
  | sweep :: sweeps =>
      let '(ok, c, state) := StepController_stepOnce c state sweep in
      if negb ok
      then (executed, c, state, [lastResult_ c])
      else
        let '(n, c', state', rs) :=
          StepController_stepN_sweeps_loop sweeps c state (uint64_incr executed) in
        (n, c', state', lastResult_ c :: rs)
  end.

Definition StepController_stepN_sweeps_run (c : StepController E) (state : SimulationState)
  (sweeps : list (ToolSweep D Tool))
  : Z * StepController E * SimulationState * list StepResult :=
  match engine_ c with
  | None => (0%Z, c, state, [])
  | Some _ =>
      if negb (SimulationState_isValid state)
      then (0%Z, c, state, [])
      else
        match sweeps with
        | [] => (0%Z, c, state, [])
        | _ => StepController_stepN_sweeps_loop sweeps c state 0%Z
        end
  end.

Definition StepController_stepN_sweeps (c : StepController E) (state : SimulationState)
  (sweeps : list (ToolSweep D Tool)) : Z * StepController E * SimulationState :=
  let '(n, c, state, _) := StepController_stepN_sweeps_run c state sweeps in
  (n, c, state).

Definition StepController_reset (c : StepController E) (state : SimulationState)
  : bool * StepController E * SimulationState :=
  match engine_ c with
  | None =>
      (false,
       mkStepController None (StepResult_makeError InvalidState "Engine is null" false),
       state)
  | Some e =>
      let '(err, e, state) := reset e state in
      if Error_isSuccess err
      then (true, mkStepController (Some e) (StepResult_success (of_Z 0)), state)
      else (false,
            mkStepController (Some e)
              (StepResult_makeError (Error_getCode err) (Error_getMessage err)
                                    (Error_isRecoverable err)),
            state)
  end.

Definition StepController_getLastStepResult (c : StepController E) : StepResult :=
  lastResult_ c.
Definition StepController_isValid (c : StepController E) : bool :=
  match engine_ c with
  | None => false
  | Some e => engine_isValid e
  end.
Definition StepController_lastStepSucceeded (c : StepController E) : bool :=
  StepResult_isSuccess (lastResult_ c).
Definition StepController_lastStepHadCollision (c : StepController E) : bool :=
  collisionDetected (lastResult_ c).
Definition StepController_lastStepHadError (c : StepController E) : bool :=
  StepResult_hasError (lastResult_ c).

End Controller.

End Simulation.

Arguments StepResult D : clear implicits.
Arguments SimulationTime D : clear implicits.
Arguments SimulationState D G : clear implicits.
Arguments SimulationEngineBase D X : clear implicits.
Arguments StepController D E : clear implicits.

(* ================================================================== *)
(** * 11. toolpath/MoveType.h, toolpath/ToolpathState.h               *)
(* ================================================================== *)

Inductive MoveType : Type :=
| Rapid | Linear | ArcCW | ArcCCW | Dwell | ToolChange | SpindleStart | SpindleStop.

Definition MoveType_eqb (a b : MoveType) : bool :=
  match a, b with
  | Rapid, Rapid | Linear, Linear | ArcCW, ArcCW | ArcCCW, ArcCCW
  | Dwell, Dwell | ToolChange, ToolChange
  | SpindleStart, SpindleStart | SpindleStop, SpindleStop => true
  | _, _ => false
  end.

Definition isCuttingMove (type : MoveType) : bool :=
  MoveType_eqb type Linear || MoveType_eqb type ArcCW || MoveType_eqb type ArcCCW.

Definition isArcMove (type : MoveType) : bool :=
  MoveType_eqb type ArcCW || MoveType_eqb type ArcCCW.

Definition requiresFeedrate (type : MoveType) : bool := isCuttingMove type.

Definition isControlMove (type : MoveType) : bool :=
  MoveType_eqb type ToolChange || MoveType_eqb type SpindleStart ||
  MoveType_eqb type SpindleStop.

Inductive CoordinateMode : Type := Absolute | Incremental.
Inductive CoolantState : Type := CoolantOff | CoolantFlood | CoolantMist | CoolantThrough.

Definition CoordinateMode_eqb (a b : CoordinateMode) : bool :=
  match a, b with
  | Absolute, Absolute | Incremental, Incremental => true
  | _, _ => false
  end.

Definition CoolantState_eqb (a b : CoolantState) : bool :=
  match a, b with
  | CoolantOff, CoolantOff | CoolantFlood, CoolantFlood
  | CoolantMist, CoolantMist | CoolantThrough, CoolantThrough => true
  | _, _ => false
  end.

(** [enum class AxisType] (machine/AxisType.h). *)
Inductive AxisType : Type :=
| AxisTypeX | AxisTypeY | AxisTypeZ | AxisTypeA | AxisTypeB | AxisTypeC | AxisTypeCustom.

Section Toolpath.
Context {D : Type} `{Scalar D}.
Local Open Scope scalar_scope.

Record ToolpathState : Type := mkToolpathStateRaw {
  state_position_ : Vec3 D;
  rotaryAxes_ : D * D * D;          (* A, B, C *)
  feedRate_ : D;
  spindleRPM_ : D;
  activeToolId_ : string;
  coolantState_ : CoolantState;
  coordinateMode_ : CoordinateMode
}.

(** The constructor with rotary axes; negative rates are stored as 0. *)
Definition ToolpathState_make_rotary (position : Vec3 D) (rotaryAxes : D * D * D)
  (feedRate spindleRPM : D) (activeToolId : string)
  (coolantState : CoolantState) (coordinateMode : CoordinateMode) : ToolpathState :=
  mkToolpathStateRaw position rotaryAxes
    (if feedRate >=? of_Z 0 then feedRate else of_Z 0)
    (if spindleRPM >=? of_Z 0 then spindleRPM else of_Z 0)
    activeToolId coolantState coordinateMode.

(** The constructor without rotary axes: A, B, C default to 0. *)
Definition ToolpathState_make (position : Vec3 D) (feedRate spindleRPM : D)
  (activeToolId : string) (coolantState : CoolantState)
  (coordinateMode : CoordinateMode) : ToolpathState :=
  ToolpathState_make_rotary position (of_Z 0, of_Z 0, of_Z 0)
    feedRate spindleRPM activeToolId coolantState coordinateMode.

Definition ToolpathState_getPosition (s : ToolpathState) : Vec3 D := state_position_ s.
Definition ToolpathState_getFeedRate (s : ToolpathState) : D := feedRate_ s.
Definition ToolpathState_hasFeedRate (s : ToolpathState) : bool := feedRate_ s >? of_Z 0.
Definition ToolpathState_getSpindleRPM (s : ToolpathState) : D := spindleRPM_ s.
Definition ToolpathState_isSpindleRunning (s : ToolpathState) : bool := spindleRPM_ s >? of_Z 0.
Definition ToolpathState_getActiveToolId (s : ToolpathState) : string := activeToolId_ s.
Definition ToolpathState_hasActiveTool (s : ToolpathState) : bool :=
  negb (String.eqb (activeToolId_ s) EmptyString).

Definition ToolpathState_isValid (s : ToolpathState) : bool :=
  let '(a, b, c) := rotaryAxes_ s in
  disfinite (vx (state_position_ s)) &&
  disfinite (vy (state_position_ s)) &&
  disfinite (vz (state_position_ s)) &&
  disfinite a && disfinite b && disfinite c &&
  disfinite (feedRate_ s) &&
  disfinite (spindleRPM_ s).

Definition ToolpathState_isCoolantOn (s : ToolpathState) : bool :=
  negb (CoolantState_eqb (coolantState_ s) CoolantOff).

(** [operator==]: member by member, the [double]s with [==]. *)
Definition ToolpathState_eqb (s other : ToolpathState) : bool :=
  let '(a, b, c) := rotaryAxes_ s in
  let '(a', b', c') := rotaryAxes_ other in
  (vx (state_position_ s) =? vx (state_position_ other)) &&
  (vy (state_position_ s) =? vy (state_position_ other)) &&
  (vz (state_position_ s) =? vz (state_position_ other)) &&
  (a =? a') && (b =? b') && (c =? c') &&
  (feedRate_ s =? feedRate_ other) &&
  (spindleRPM_ s =? spindleRPM_ other) &&
  String.eqb (activeToolId_ s) (activeToolId_ other) &&
  CoolantState_eqb (coolantState_ s) (coolantState_ other) &&
  CoordinateMode_eqb (coordinateMode_ s) (coordinateMode_ other).

(** [operator!=] *)
Definition ToolpathState_neqb (s other : ToolpathState) : bool :=
  negb (ToolpathState_eqb s other).

(* ================================================================== *)
(** * 12. toolpath/ToolpathMove.h, toolpath/Toolpath.h                *)
(* ================================================================== *)

(** The constructor is private: a move is built by the factories only. *)
Record ToolpathMove : Type := mkToolpathMoveRaw {
  moveType_ : MoveType;
  startState_ : ToolpathState;
  endState_ : ToolpathState;
  arcCenter_ : option (Vec3 D);
  dwellDuration_ : D;
  rapidAllowed_ : bool
}.

Definition ToolpathMove_rapid (start end_ : ToolpathState) : ToolpathMove :=
  mkToolpathMoveRaw Rapid start end_ None (of_Z 0) true.

Definition ToolpathMove_linear (start end_ : ToolpathState) : ToolpathMove :=
  mkToolpathMoveRaw Linear start end_ None (of_Z 0) false.

Definition ToolpathMove_arc (arcType : MoveType) (start end_ : ToolpathState)
  (center : Vec3 D) : ToolpathMove :=
  mkToolpathMoveRaw arcType start end_ (Some center) (of_Z 0) false.

Definition ToolpathMove_dwell (state : ToolpathState) (duration : D) : ToolpathMove :=
  mkToolpathMoveRaw Dwell state state None duration false.

Definition ToolpathMove_toolChange (state : ToolpathState) (newToolId : string) : ToolpathMove :=
  let endState := state in
  (* Note: In real implementation, endState would have newToolId set *)
  mkToolpathMoveRaw ToolChange state endState None (of_Z 0) false.

Definition ToolpathMove_spindleStart (state : ToolpathState) (rpm : D) : ToolpathMove :=
  let endState := state in
  mkToolpathMoveRaw SpindleStart state endState None (of_Z 0) false.

Definition ToolpathMove_spindleStop (state : ToolpathState) : ToolpathMove :=
  let endState := state in
  mkToolpathMoveRaw SpindleStop state endState None (of_Z 0) false.

Definition ToolpathMove_getMoveType (m : ToolpathMove) : MoveType := moveType_ m.
Definition ToolpathMove_getStartState (m : ToolpathMove) : ToolpathState := startState_ m.
Definition ToolpathMove_getEndState (m : ToolpathMove) : ToolpathState := endState_ m.
Definition ToolpathMove_getArcCenter (m : ToolpathMove) : option (Vec3 D) := arcCenter_ m.
Definition ToolpathMove_isRapidAllowed (m : ToolpathMove) : bool := rapidAllowed_ m.

Definition ToolpathMove_isValid (m : ToolpathMove) : bool :=
  if negb (ToolpathState_isValid (startState_ m)) || negb (ToolpathState_isValid (endState_ m))
  then false
  else if requiresFeedrate (moveType_ m) && negb (ToolpathState_hasFeedRate (endState_ m))
  then false
  else if isArcMove (moveType_ m) && negb (match arcCenter_ m with Some _ => true | None => false end)
  then false
  else if MoveType_eqb (moveType_ m) Rapid && negb (rapidAllowed_ m)
  then false
  else true.

Definition ToolpathMove_isZeroLength (m : ToolpathMove) : bool :=
  if MoveType_eqb (moveType_ m) Dwell ||
     MoveType_eqb (moveType_ m) ToolChange ||
     MoveType_eqb (moveType_ m) SpindleStart ||
     MoveType_eqb (moveType_ m) SpindleStop
  then false
  else
    let delta := Vec3_sub (ToolpathState_getPosition (endState_ m))
                          (ToolpathState_getPosition (startState_ m)) in
    Vec3_lengthSquared delta <? lit 1 12.

Definition ToolpathMove_getDwellDuration (m : ToolpathMove) : D := dwellDuration_ m.

(** The arc length calls [std::acos]. *)
Context `{Libm D}.

Definition ToolpathMove_calculateArcLength (m : ToolpathMove) : D :=
  match arcCenter_ m with
  | None => of_Z 0
  | Some center =>
      let start := ToolpathState_getPosition (startState_ m) in
      let end_ := ToolpathState_getPosition (endState_ m) in
      (* Calculate radius *)
      let startVec := Vec3_sub start center in
      let endVec := Vec3_sub end_ center in
      let radius := Vec3_length startVec in
      if radius <? lit 1 9
      then of_Z 0
      else
        (* Calculate angle *)
        let dot := (vx startVec * vx endVec + vy startVec * vy endVec +
                    vz startVec * vz endVec) / (radius * radius) in
        let dot := std_max (of_Z (-1)) (std_min (of_Z 1) dot) in (* Clamp to [-1, 1] *)
        let angle := dacos dot in
        (* Arc length = radius * angle *)
        radius * angle
  end.

Definition ToolpathMove_getLength (m : ToolpathMove) : D :=
  if MoveType_eqb (moveType_ m) Dwell ||
     MoveType_eqb (moveType_ m) ToolChange ||
     MoveType_eqb (moveType_ m) SpindleStart ||
     MoveType_eqb (moveType_ m) SpindleStop
  then of_Z 0
  else if isArcMove (moveType_ m)
  then ToolpathMove_calculateArcLength m
  else
    (* Linear or rapid *)
    let delta := Vec3_sub (ToolpathState_getPosition (endState_ m))
                          (ToolpathState_getPosition (startState_ m)) in
    Vec3_length delta.

(** [getEstimatedTime(defaultRapidRate = 10000.0)], in seconds. *)
Definition ToolpathMove_getEstimatedTime (m : ToolpathMove) (defaultRapidRate : D) : D :=
  if MoveType_eqb (moveType_ m) Dwell
  then dwellDuration_ m
  else if MoveType_eqb (moveType_ m) ToolChange
  then of_Z 5 (* Estimate 5 seconds for tool change *)
  else if MoveType_eqb (moveType_ m) SpindleStart || MoveType_eqb (moveType_ m) SpindleStop
  then lit 1 1 (* Estimate 0.1 seconds for spindle control *)
  else
    let length := ToolpathMove_getLength m in
    let rate := if MoveType_eqb (moveType_ m) Rapid
                then defaultRapidRate
                else ToolpathState_getFeedRate (endState_ m) in
    if rate <=? of_Z 0
    then of_Z 0
    else (length / rate) * of_Z 60. (* Convert to seconds *)

(** [toolUsage_] is a [std::unordered_map<std::string, std::size_t>]:
    here an association list with one entry per key. *)
Fixpoint toolUsage_increment (toolId : string) (usage : list (string * nat)) : list (string * nat) :=
  match usage with
  | [] => [(toolId, 1)]
  | (k, n) :: rest =>
      if String.eqb k toolId then (k, S n) :: rest
      else (k, n) :: toolUsage_increment toolId rest
  end.

Record Toolpath : Type := mkToolpath {
  id_ : string;
  machineId_ : string;
  moves_ : list ToolpathMove;
  toolUsage_ : list (string * nat)
}.

(** [Toolpath(id, machineId)]: an empty toolpath. *)
Definition Toolpath_make (id machineId : string) : Toolpath :=
  mkToolpath id machineId [] [].

Definition Toolpath_appendMove (tp : Toolpath) (move : ToolpathMove) : Toolpath :=
  mkToolpath (id_ tp) (machineId_ tp) (moves_ tp ++ [move])
    (if ToolpathState_hasActiveTool (ToolpathMove_getEndState move)
     then toolUsage_increment (ToolpathState_getActiveToolId (ToolpathMove_getEndState move))
                              (toolUsage_ tp)
     else toolUsage_ tp).

Definition Toolpath_isEmpty (tp : Toolpath) : bool :=
  match moves_ tp with [] => true | _ => false end.

Definition Toolpath_getMoves (tp : Toolpath) : list ToolpathMove := moves_ tp.

(** [getLastState()]: the origin state for an empty toolpath. *)
Definition Toolpath_getLastState (tp : Toolpath) : ToolpathState :=
  match rev (moves_ tp) with
  | [] => ToolpathState_make (mkVec3 (of_Z 0) (of_Z 0) (of_Z 0)) (of_Z 0) (of_Z 0)
            EmptyString CoolantOff Absolute
  | m :: _ => ToolpathMove_getEndState m
  end.

Definition Toolpath_getId (tp : Toolpath) : string := id_ tp.
Definition Toolpath_getMachineId (tp : Toolpath) : string := machineId_ tp.

Definition Toolpath_getMoveCount (tp : Toolpath) : nat := List.length (moves_ tp).

(** [getMove(index)] is [moves_[index]], without a bounds check: it is
    defined for [index < getMoveCount()] only. *)
Definition Toolpath_getMove (tp : Toolpath) (index : nat) : option ToolpathMove :=
  nth_error (moves_ tp) index.

(** One iteration of the loop of [getBoundingBox]. *)
Definition Toolpath_extendBounds (corners : Vec3 D * Vec3 D) (move : ToolpathMove)
  : Vec3 D * Vec3 D :=
  let '(minCorner, maxCorner) := corners in
  let start := ToolpathState_getPosition (ToolpathMove_getStartState move) in
  let end_ := ToolpathState_getPosition (ToolpathMove_getEndState move) in
  (mkVec3 (std_min_list (vx minCorner) [vx start; vx end_])
          (std_min_list (vy minCorner) [vy start; vy end_])
          (std_min_list (vz minCorner) [vz start; vz end_]),
   mkVec3 (std_max_list (vx maxCorner) [vx start; vx end_])
          (std_max_list (vy maxCorner) [vy start; vy end_])
          (std_max_list (vz maxCorner) [vz start; vz end_])).

Definition Toolpath_getBoundingBox (tp : Toolpath) : AABB D :=
  match moves_ tp with
  | [] => AABB_default
  | move0 :: _ =>
      let firstPos := ToolpathState_getPosition (ToolpathMove_getStartState move0) in
      let '(minCorner, maxCorner) :=
        fold_left Toolpath_extendBounds (moves_ tp) (firstPos, firstPos) in
      mkAABB minCorner maxCorner
  end.

Definition Toolpath_getTotalLength (tp : Toolpath) : D :=
  fold_left (fun total move => total + ToolpathMove_getLength move) (moves_ tp) (of_Z 0).

(** [getEstimatedMachiningTime(defaultRapidRate = 10000.0)] *)
Definition Toolpath_getEstimatedMachiningTime (tp : Toolpath) (defaultRapidRate : D) : D :=
  fold_left (fun total move => total + ToolpathMove_getEstimatedTime move defaultRapidRate)
            (moves_ tp) (of_Z 0).

Definition Toolpath_getToolUsageSummary (tp : Toolpath) : list (string * nat) :=
  toolUsage_ tp.

(** [getUsedToolIds()]: the keys of [toolUsage_], in the map's
    iteration order (unspecified in C++; here the order of first use). *)
Definition Toolpath_getUsedToolIds (tp : Toolpath) : list string :=
  map fst (toolUsage_ tp).

(** [getFirstState()]: the origin state for an empty toolpath. *)
Definition Toolpath_getFirstState (tp : Toolpath) : ToolpathState :=
  match moves_ tp with
  | [] => ToolpathState_make (mkVec3 (of_Z 0) (of_Z 0) (of_Z 0)) (of_Z 0) (of_Z 0)
            EmptyString CoolantOff Absolute
  | m :: _ => ToolpathMove_getStartState m
  end.

(** [Toolpath::isValid()]: every move is valid. *)
Definition Toolpath_isValid (tp : Toolpath) : bool :=
  forallb ToolpathMove_isValid (moves_ tp).

End Toolpath.

Arguments ToolpathState D : clear implicits.
Arguments ToolpathMove D : clear implicits.
Arguments Toolpath D : clear implicits.

(* ================================================================== *)
(** * 13. toolpath/ToolpathValidator.h                                *)
(* ================================================================== *)

Inductive Endpoint : Type := AtStart | AtEnd.

Section Validator.
Context {D : Type} `{Scalar D}.
Local Open Scope scalar_scope.

(** What the validator reads of [class Machine]: [getAxis(type)] (null
    when the axis is absent), the travel limits of an axis, and the
    spindle's RPM range. *)
Record AxisDefinition : Type := mkAxisDefinition {
  minPosition_ : D;
  maxPosition_ : D
}.

Record Spindle : Type := mkSpindle {
  maxRPM_ : D;
  minRPM_ : D
}.

Record Machine : Type := mkMachine {
  axes_ : AxisType -> option AxisDefinition;
  spindle_ : Spindle
}.

Definition Machine_getAxis (m : Machine) (type : AxisType) : option AxisDefinition :=
  axes_ m type.

(** The travel limits the [AxisDefinition] constructor stores for
    [minPosition] and [maxPosition]: swapped when given in the wrong
    order.  (Its other parameters set members not modelled here.) *)
Definition AxisDefinition_make (minPosition maxPosition : D) : AxisDefinition :=
  if minPosition >? maxPosition
  then mkAxisDefinition maxPosition minPosition
  else mkAxisDefinition minPosition maxPosition.

Definition AxisDefinition_getMinPosition (a : AxisDefinition) : D := minPosition_ a.
Definition AxisDefinition_getMaxPosition (a : AxisDefinition) : D := maxPosition_ a.

Definition AxisDefinition_getTravelRange (a : AxisDefinition) : D :=
  maxPosition_ a - minPosition_ a.

Definition AxisDefinition_isPositionValid (a : AxisDefinition) (position : D) : bool :=
  (position >=? minPosition_ a) && (position <=? maxPosition_ a).

Definition AxisDefinition_clampPosition (a : AxisDefinition) (position : D) : D :=
  std_max (minPosition_ a) (std_min (maxPosition_ a) position).

(** The RPM range the [Spindle] constructor stores: a maximum that is
    not [> 0] and a minimum that is not [>= 0] become 0, then the two
    are swapped when in the wrong order. *)
Definition Spindle_make (maxRPM minRPM : D) : Spindle :=
  let maxRPM_0 := if maxRPM >? of_Z 0 then maxRPM else of_Z 0 in
  let minRPM_0 := if minRPM >=? of_Z 0 then minRPM else of_Z 0 in
  if minRPM_0 >? maxRPM_0
  then mkSpindle minRPM_0 maxRPM_0
  else mkSpindle maxRPM_0 minRPM_0.

Definition Spindle_isRPMValid (s : Spindle) (rpm : D) : bool :=
  (rpm >=? minRPM_ s) && (rpm <=? maxRPM_ s).

Definition Spindle_clampRPM (s : Spindle) (rpm : D) : D :=
  std_max (minRPM_ s) (std_min (maxRPM_ s) rpm).

(** One constructor per [throw std::logic_error(...)] of the validator,
    with the values its message prints. *)
Inductive ValidationError : Type :=
| MoveInvalid (index : nat)
| MoveZeroLength (index : nat)
| MoveNoFeedrate (index : nat)
| ArcNoCenter (index : nat)
| ArcInconsistentRadius (index : nat) (startRadius endRadius radiusError : D)
| ArcZeroRadius (index : nat)
| RapidNotAllowed (index : nat)
| Discontinuity (index1 : nat) (end1 start2 : Vec3 D) (distance : D)
| AxisLimitExceeded (index : nat) (which : Endpoint) (axis : AxisType)
                    (value lo hi : D)
| SpindleRPMExceeded (index : nat) (rpm lo hi : D)
| ToolChangeNoToolId (index : nat)
| CuttingNoActiveTool (index : nat).

(** The move index an error message names. *)
Definition ValidationError_index (e : ValidationError) : nat :=
  match e with
  | MoveInvalid i | MoveZeroLength i | MoveNoFeedrate i | ArcNoCenter i
  | ArcInconsistentRadius i _ _ _ | ArcZeroRadius i | RapidNotAllowed i
  | Discontinuity i _ _ _ | AxisLimitExceeded i _ _ _ _ _
  | SpindleRPMExceeded i _ _ _ | ToolChangeNoToolId i
  | CuttingNoActiveTool i => i
  end.

(** How a [void] validation function ends. *)
Inductive Outcome : Type :=
| Returned
| Thrown (e : ValidationError).

(** Statement sequencing: the second statement runs if the first
    returned. *)
Definition andThen (a b : Outcome) : Outcome :=
  match a with
  | Returned => b
  | Thrown e => Thrown e
  end.

Notation "a ;; b" := (andThen a b) (at level 61, right associativity).

Definition throwIf (cond : bool) (e : ValidationError) : Outcome :=
  if cond then Thrown e else Returned.

Definition ToolpathValidator_validateArc (move : ToolpathMove D) (index : nat) : Outcome :=
  match ToolpathMove_getArcCenter move with
  | None => Thrown (ArcNoCenter index)
  | Some center =>
      let start := ToolpathState_getPosition (ToolpathMove_getStartState move) in
      let end_ := ToolpathState_getPosition (ToolpathMove_getEndState move) in
      let startVec := Vec3_sub start center in
      let endVec := Vec3_sub end_ center in
      let startRadius := Vec3_length startVec in
      let endRadius := Vec3_length endVec in
      (* Check radius consistency (allow small tolerance for floating point) *)
      let radiusError := dabs (startRadius - endRadius) in
      throwIf (radiusError >? lit 1 6)
              (ArcInconsistentRadius index startRadius endRadius radiusError) ;;
      (* Check for zero radius *)
      throwIf (startRadius <? lit 1 9) (ArcZeroRadius index)
  end.

Definition ToolpathValidator_validateMove (move : ToolpathMove D) (index : nat) : Outcome :=
  (* Check move validity *)
  throwIf (negb (ToolpathMove_isValid move)) (MoveInvalid index) ;;
  (* Check zero-length moves (except control moves) *)
  throwIf (ToolpathMove_isZeroLength move &&
           negb (MoveType_eqb (ToolpathMove_getMoveType move) Dwell) &&
           negb (MoveType_eqb (ToolpathMove_getMoveType move) ToolChange) &&
           negb (MoveType_eqb (ToolpathMove_getMoveType move) SpindleStart) &&
           negb (MoveType_eqb (ToolpathMove_getMoveType move) SpindleStop))
          (MoveZeroLength index) ;;
  (* Check feedrate for cutting motions *)
  throwIf (requiresFeedrate (ToolpathMove_getMoveType move) &&
           negb (ToolpathState_hasFeedRate (ToolpathMove_getEndState move)))
          (MoveNoFeedrate index) ;;
  (* Validate arc geometry *)
  (if isArcMove (ToolpathMove_getMoveType move)
   then ToolpathValidator_validateArc move index
   else Returned) ;;
  (* Check rapid safety *)
  throwIf (MoveType_eqb (ToolpathMove_getMoveType move) Rapid &&
           negb (ToolpathMove_isRapidAllowed move))
          (RapidNotAllowed index).

Definition ToolpathValidator_validateContinuity (move1 move2 : ToolpathMove D)
  (index1 : nat) : Outcome :=
  let end1 := ToolpathState_getPosition (ToolpathMove_getEndState move1) in
  let start2 := ToolpathState_getPosition (ToolpathMove_getStartState move2) in
  let delta := Vec3_sub end1 start2 in
  let distance := Vec3_length delta in
  (* Allow small tolerance for floating point errors *)
  throwIf (distance >? lit 1 6) (Discontinuity index1 end1 start2 distance).

(** The pattern the source repeats for each axis and each endpoint:
    [if (axis) { if (v < axis->getMinPosition() || v > axis->getMaxPosition()) throw ...; }]. *)
Definition checkAxisLimit (axis : option AxisDefinition) (type : AxisType)
  (which : Endpoint) (v : D) (index : nat) : Outcome :=
  match axis with
  | None => Returned
  | Some a =>
      throwIf ((v <? minPosition_ a) || (v >? maxPosition_ a))
              (AxisLimitExceeded index which type v (minPosition_ a) (maxPosition_ a))
  end.

Definition ToolpathValidator_validateMachineLimits (move : ToolpathMove D)
  (machine : Machine) (index : nat) : Outcome :=
  let xAxis := Machine_getAxis machine AxisTypeX in
  let yAxis := Machine_getAxis machine AxisTypeY in
  let zAxis := Machine_getAxis machine AxisTypeZ in
  let start := ToolpathState_getPosition (ToolpathMove_getStartState move) in
  let end_ := ToolpathState_getPosition (ToolpathMove_getEndState move) in
  checkAxisLimit xAxis AxisTypeX AtStart (vx start) index ;;
  checkAxisLimit xAxis AxisTypeX AtEnd (vx end_) index ;;
  checkAxisLimit yAxis AxisTypeY AtStart (vy start) index ;;
  checkAxisLimit yAxis AxisTypeY AtEnd (vy end_) index ;;
  checkAxisLimit zAxis AxisTypeZ AtStart (vz start) index ;;
  checkAxisLimit zAxis AxisTypeZ AtEnd (vz end_) index ;;
  let aAxis := Machine_getAxis machine AxisTypeA in
  let bAxis := Machine_getAxis machine AxisTypeB in
  let cAxis := Machine_getAxis machine AxisTypeC in
  let '(startA, startB, startC) := rotaryAxes_ (ToolpathMove_getStartState move) in
  let '(endA, endB, endC) := rotaryAxes_ (ToolpathMove_getEndState move) in
  checkAxisLimit aAxis AxisTypeA AtStart startA index ;;
  checkAxisLimit aAxis AxisTypeA AtEnd endA index ;;
  checkAxisLimit bAxis AxisTypeB AtStart startB index ;;
  checkAxisLimit bAxis AxisTypeB AtEnd endB index ;;
  checkAxisLimit cAxis AxisTypeC AtStart startC index ;;
  checkAxisLimit cAxis AxisTypeC AtEnd endC index ;;
  (* Check spindle RPM limits *)
  (if ToolpathState_isSpindleRunning (ToolpathMove_getEndState move)
   then
     let rpm := ToolpathState_getSpindleRPM (ToolpathMove_getEndState move) in
     throwIf ((rpm <? minRPM_ (spindle_ machine)) || (rpm >? maxRPM_ (spindle_ machine)))
             (SpindleRPMExceeded index rpm (minRPM_ (spindle_ machine))
                                 (maxRPM_ (spindle_ machine)))
   else Returned).
  (* The safe-Z block that follows in the source has an empty body. *)

(** The loop of [validateToolConsistency], from move [i] on.  The local
    [currentToolId] is assigned but never read, and [machine] is unused. *)
Fixpoint validateToolConsistency_loop (moves : list (ToolpathMove D)) (i : nat) : Outcome :=
  match moves with
  | [] => Returned
  | move :: rest =>
      (* Check tool change moves *)
      (if MoveType_eqb (ToolpathMove_getMoveType move) ToolChange
       then
         let newToolId := ToolpathState_getActiveToolId (ToolpathMove_getEndState move) in
         throwIf (String.eqb newToolId EmptyString) (ToolChangeNoToolId i)
       else Returned) ;;
      (* Check that cutting motions have a tool *)
      (if isCuttingMove (ToolpathMove_getMoveType move)
       then
         let toolId := ToolpathState_getActiveToolId (ToolpathMove_getEndState move) in
         throwIf (String.eqb toolId EmptyString) (CuttingNoActiveTool i)
       else Returned) ;;
      validateToolConsistency_loop rest (S i)
  end.

Definition ToolpathValidator_validateToolConsistency (toolpath : Toolpath D)
  (machine : Machine) : Outcome :=
  validateToolConsistency_loop (Toolpath_getMoves toolpath) 0.

(** The loop of [validate], from move [i] on. *)
Fixpoint validate_loop (moves : list (ToolpathMove D)) (machine : option Machine)
  (i : nat) : Outcome :=
  match moves with
  | [] => Returned
  | move :: rest =>
      ToolpathValidator_validateMove move i ;;
      (* Check continuity with next move *)
      (match rest with
       | next :: _ => ToolpathValidator_validateContinuity move next i
       | [] => Returned
       end) ;;
      (* Check machine limits if machine provided *)
      (match machine with
       | Some m => ToolpathValidator_validateMachineLimits move m i
       | None => Returned
       end) ;;
      validate_loop rest machine (S i)
  end.

(** [validate(toolpath, machine = nullptr)] *)
Definition ToolpathValidator_validate (toolpath : Toolpath D) (machine : option Machine)
  : Outcome :=
  if Toolpath_isEmpty toolpath
  then Returned (* Empty toolpath is valid *)
  else
    validate_loop (Toolpath_getMoves toolpath) machine 0 ;;
    (* Check tool consistency *)
    match machine with
    | Some m => ToolpathValidator_validateToolConsistency toolpath m
    | None => Returned
    end.

(** [isValid]: [validate] under [try]/[catch]. *)
Definition ToolpathValidator_isValid (toolpath : Toolpath D) (machine : option Machine) : bool :=
  match ToolpathValidator_validate toolpath machine with
  | Returned => true
  | Thrown _ => false
  end.

End Validator.

Arguments ValidationError D : clear implicits.
Arguments Outcome D : clear implicits.
Arguments Machine D : clear implicits.
Arguments AxisDefinition D : clear implicits.
Arguments Spindle D : clear implicits.

(* ================================================================== *)
(** * 14. Specification predicates and test fixtures                  *)
(* ================================================================== *)

Section KinematicsPredicates.
Context {D : Type} `{Scalar D}.
Local Open Scope scalar_scope.

(** "All axes within the configured limits": each of the six positions
    lies in the pair [getAxisLimits()] lists for it. *)
Definition Axes6_withinLimits (limits : list (D * D)) (p : Axes6 D) : bool :=
  forallb
    (fun a =>
       let '(lo, hi) := nth (Axis_index a) limits (of_Z 0, of_Z 0) in
       (lo <=? Axes6_get p a) && (Axes6_get p a <=? hi))
    [AxisX; AxisY; AxisZ; AxisA; AxisB; AxisC].

(** Two positions agree within the absolute tolerance 1e-9. *)
Definition within_1e_9 (a b : D) : bool := dabs (a - b) <=? lit 1 9.

End KinematicsPredicates.

Section ToolpathPredicates.
Context {D : Type} `{Scalar D}.
Local Open Scope scalar_scope.

(** The distance the continuity check measures between a move and the
    next one. *)
Definition continuity_gap (move1 move2 : ToolpathMove D) : D :=
  Vec3_length (Vec3_sub (ToolpathState_getPosition (ToolpathMove_getEndState move1))
                        (ToolpathState_getPosition (ToolpathMove_getStartState move2))).

(** A sequence of moves built by chaining: each move starts in the
    state the previous one ended in. *)
Definition chained (moves : list (ToolpathMove D)) : Prop :=
  forall i move1 move2,
    nth_error moves i = Some move1 -> nth_error moves (S i) = Some move2 ->
    ToolpathMove_getStartState move2 = ToolpathMove_getEndState move1.

(** The error is the one [validateContinuity] throws. *)
Definition ValidationError_isDiscontinuity (e : ValidationError D) : bool :=
  match e with
  | Discontinuity _ _ _ _ => true
  | _ => false
  end.

(** The checks the loop of [validate] makes before it compares move [i]
    with its successor all return: [validateMove] on the moves
    [0 .. i], and on each move before [i] the continuity check with its
    successor and, with a machine, [validateMachineLimits]. *)
Definition checks_before_pass (moves : list (ToolpathMove D))
  (machine : option (Machine D)) (i : nat) : Prop :=
  (forall k move, k <= i -> nth_error moves k = Some move ->
     ToolpathValidator_validateMove move k = Returned) /\
  (forall k move next, k < i ->
     nth_error moves k = Some move -> nth_error moves (S k) = Some next ->
     ToolpathValidator_validateContinuity move next k = Returned) /\
  (forall k move m, k < i -> machine = Some m -> nth_error moves k = Some move ->
     ToolpathValidator_validateMachineLimits move m k = Returned).

(** The two radii [validateArc] compares. *)
Definition arc_startRadius (move : ToolpathMove D) (center : Vec3 D) : D :=
  Vec3_length (Vec3_sub (ToolpathState_getPosition (ToolpathMove_getStartState move)) center).

Definition arc_endRadius (move : ToolpathMove D) (center : Vec3 D) : D :=
  Vec3_length (Vec3_sub (ToolpathState_getPosition (ToolpathMove_getEndState move)) center).

End ToolpathPredicates.

(** A full circle: an arc from (1, 0, 0) back to (1, 0, 0) around the
    origin, at feed rate 100 with tool T1. *)
Definition full_circle_state : ToolpathState float :=
  ToolpathState_make (mkVec3 (of_Z 1) (of_Z 0) (of_Z 0)) (of_Z 100) (of_Z 0)
                     "T1" CoolantOff Absolute.

Definition full_circle_arc : ToolpathMove float :=
  ToolpathMove_arc ArcCW full_circle_state full_circle_state
                   (mkVec3 (of_Z 0) (of_Z 0) (of_Z 0)).

(** A quarter circle from (1, 0, 0) to (0, 1, 0) around the origin. *)
Definition quarter_circle_end : ToolpathState float :=
  ToolpathState_make (mkVec3 (of_Z 0) (of_Z 1) (of_Z 0)) (of_Z 100) (of_Z 0)
                     "T1" CoolantOff Absolute.

Definition quarter_circle_arc : ToolpathMove float :=
  ToolpathMove_arc ArcCCW full_circle_state quarter_circle_end
                   (mkVec3 (of_Z 0) (of_Z 0) (of_Z 0)).

(** Two linear moves: (0,0,0) to (1,0,0), then one that starts half a
    unit higher, at (1,0,0.5), and goes to (2,0,0). *)
Definition cut_state (x y z : float) : ToolpathState float :=
  ToolpathState_make (mkVec3 x y z) (of_Z 100) (of_Z 8000) "T1" CoolantOff Absolute.

Definition gapped_toolpath : Toolpath float :=
  Toolpath_appendMove
    (Toolpath_appendMove (Toolpath_make "job" "mill")
       (ToolpathMove_linear (cut_state (of_Z 0) (of_Z 0) (of_Z 0))
                            (cut_state (of_Z 1) (of_Z 0) (of_Z 0))))
    (ToolpathMove_linear (cut_state (of_Z 1) (of_Z 0) (lit 5 1))
                         (cut_state (of_Z 2) (of_Z 0) (of_Z 0))).

(** Three moves with a gap after the first and after the second. *)
Definition two_gap_toolpath : Toolpath float :=
  Toolpath_appendMove gapped_toolpath
    (ToolpathMove_linear (cut_state (of_Z 2) (of_Z 0) (lit 5 1))
                         (cut_state (of_Z 3) (of_Z 0) (of_Z 0))).

(** The same two moves, the second starting where the first ends. *)
Definition chained_toolpath : Toolpath float :=
  Toolpath_appendMove
    (Toolpath_appendMove (Toolpath_make "job" "mill")
       (ToolpathMove_linear (cut_state (of_Z 0) (of_Z 0) (of_Z 0))
                            (cut_state (of_Z 1) (of_Z 0) (of_Z 0))))
    (ToolpathMove_linear (cut_state (of_Z 1) (of_Z 0) (of_Z 0))
                         (cut_state (of_Z 2) (of_Z 0) (of_Z 0))).

(** The default 3-axis machine and a position inside its travel. *)
Definition sample_machine : Cartesian3Axis float := Cartesian3Axis_default.

Definition sample_axes : Axes6 float :=
  mkAxes6 (of_Z 10) (of_Z (-20)) (of_Z 5) (of_Z 0) (of_Z 0) (of_Z 0).

(** A state with no active tool, and a machine with no axes. *)
Definition no_tool_state : ToolpathState float :=
  ToolpathState_make (mkVec3 (of_Z 0) (of_Z 0) (of_Z 0)) (of_Z 0) (of_Z 0)
                     EmptyString CoolantOff Absolute.

Definition bare_machine : Machine float :=
  mkMachine (fun _ => None) (mkSpindle (of_Z 24000) (of_Z 0)).

(** A material grid that only knows whether it is valid. *)
#[export] Instance FlagGrid : MaterialGrid bool := {|
  MaterialGrid_isValid := fun g => g
|}.

(** A pose ten kilometres (in millimetres) from the origin on each
    axis, turned a quarter turn about X: the rotation (1, 1, 0, 0) is
    normalized by the constructor. *)
Definition far_pose : Transform float :=
  Transform_make (mkVec3 (of_Z 10000000) (of_Z 10000000) (of_Z 10000000))
                 (mkQuaternion (of_Z 1) (of_Z 1) (of_Z 0) (of_Z 0)).

(** A pose whose rotation is handed to the constructor with a
    component of 2^700: the squared magnitude overflows. *)
Definition overflow_pose : Transform float :=
  Transform_make (mkVec3 (of_Z 1) (of_Z 0) (of_Z 0))
                 (mkQuaternion 0x1p700%float (of_Z 0) (of_Z 0) (of_Z 0)).

(** A pose whose rotation argument is so small that the squares of
    its components are subnormal. *)
Definition underflow_pose : Transform float :=
  Transform_make (mkVec3 (of_Z 1) (of_Z 1) (of_Z 0))
                 (mkQuaternion 0x1.8p-537%float 0x1p-537%float (of_Z 0) (of_Z 0)).

(** A pose within a metre (in millimetres) of the origin, turned a
    quarter turn about X. *)
Definition quarter_turn_pose : Transform float :=
  Transform_make (mkVec3 (of_Z 1000) (of_Z 500) (of_Z 250))
                 (mkQuaternion (of_Z 1) (of_Z 1) (of_Z 0) (of_Z 0)).

(** The identity rotation and its negative, the same orientation. *)
Definition minus_identity : Quaternion float :=
  mkQuaternion (of_Z (-1)) (of_Z 0) (of_Z 0) (of_Z 0).

(** A mock engine derived from [SimulationEngineBase]: it keeps the
    inherited [doInitialize] and [doReset], and its [doStep] plays back
    a script of step results (success once the script is over). *)
#[export] Instance ScriptedEngine {D} `{Scalar D} {G} `{MaterialGrid G} {Tool : Type}
  : EngineHooks (G := G) Tool (list (StepResult D)) := {|
  doInitialize := fun x s => doInitialize_default x s;
  doStep := fun x s _ =>
    match x with
    | [] => (StepResult_success (of_Z 0), [], s)
    | r :: rest => (r, rest, s)
    end;
  doReset := fun x s => doReset_default x s
|}.

(** A valid state at the identity pose, a sweep that stays there, and
    a mock engine with the default time step 0.001. *)
Definition demo_state : SimulationState float bool :=
  SimulationState_make (Some true) Transform_identity.

Definition demo_sweep : ToolSweep float unit :=
  mkToolSweep tt Transform_identity Transform_identity (of_Z 0).

Definition demo_engine (script : list (StepResult float))
  : SimulationEngineBase float (list (StepResult float)) :=
  SimulationEngineBase_make "mock" (lit 1 3) script.

(** The mock engine after [initialize]. *)
Definition demo_engine_ready (script : list (StepResult float))
  : SimulationEngineBase float (list (StepResult float)) :=
  snd (fst (SimulationEngineBase_initialize (Tool := unit) (demo_engine script) demo_state)).

(** A script: two successful steps, then a collision. *)
Definition demo_script : list (StepResult float) :=
  [StepResult_success (lit 1 3); StepResult_success (lit 1 3);
   StepResult_collision "Collision detected"].

(** A controller over the initialized mock engine, playing
    [demo_script]. *)
Definition demo_controller_1 : StepController float (SimulationEngineBase float (list (StepResult float))) :=
  StepController_make (Some (demo_engine_ready demo_script)).

(** The mock engine and the state after [initialize] and two [step]s. *)
Definition demo_stepped
  : SimulationEngineBase float (list (StepResult float)) * SimulationState float bool :=
  let '(_, e, s) := SimulationEngineBase_initialize (Tool := unit) (demo_engine []) demo_state in
  let '(_, e, s) := SimulationEngineBase_step e s demo_sweep in
  let '(_, e, s) := SimulationEngineBase_step e s demo_sweep in
  (e, s).

(** ... and then [reset]. *)
Definition demo_lifecycle
  : Error * SimulationEngineBase float (list (StepResult float)) * SimulationState float bool :=
  SimulationEngineBase_reset (Tool := unit) (fst demo_stepped) (snd demo_stepped).

Section ValidationErrorKinds.
Context {D : Type} `{Scalar D}.

(** The errors of the validator, by the check that throws them: the
    checks [validateMove] makes on its own account or through
    [validateArc] on an arc with a center ... *)
Definition ValidationError_fromMoveCheck (e : ValidationError D) : bool :=
  match e with
  | MoveInvalid _ | MoveZeroLength _
  | ArcInconsistentRadius _ _ _ _ | ArcZeroRadius _ => true
  | _ => false
  end.

(** ... the three [throw] sites behind a condition that [isValid] has
    already tested ... *)
Definition ValidationError_shadowed (e : ValidationError D) : bool :=
  match e with
  | MoveNoFeedrate _ | ArcNoCenter _ | RapidNotAllowed _ => true
  | _ => false
  end.

(** ... and the checks made only against a machine. *)
Definition ValidationError_needsMachine (e : ValidationError D) : bool :=
  match e with
  | AxisLimitExceeded _ _ _ _ _ _ | SpindleRPMExceeded _ _ _ _
  | ToolChangeNoToolId _ | CuttingNoActiveTool _ => true
  | _ => false
  end.

(** The moves [validateToolConsistency] asks a tool id of. *)
Definition needsToolId (type : MoveType) : bool :=
  MoveType_eqb type ToolChange || isCuttingMove type.

End ValidationErrorKinds.

Section ToolpathSummaries.
Context {D : Type} `{Scalar D}.
Local Open Scope scalar_scope.

(** No coordinate is NaN: each compares [==] with itself. *)
Definition Vec3_noNaN (v : Vec3 D) : bool :=
  (vx v =? vx v) && (vy v =? vy v) && (vz v =? vz v).

(** The count [toolUsage_] holds for a tool id: 0 when the id is not a
    key of the map. *)
Fixpoint toolUsage_count (usage : list (string * nat)) (toolId : string) : nat :=
  match usage with
  | [] => 0
  | (k, n) :: rest => if String.eqb k toolId then n else toolUsage_count rest toolId
  end.

(** The number of moves that end with the tool [toolId] active. *)
Definition moves_using (moves : list (ToolpathMove D)) (toolId : string) : nat :=
  List.length
    (filter (fun move =>
               String.eqb (ToolpathState_getActiveToolId (ToolpathMove_getEndState move))
                          toolId)
            moves).

(** What [toolUsage_] holds: one key per tool id in use, with the number
    of moves that use it.  An invariant of [appendMove]. *)
Definition usage_matches (toolpath : Toolpath D) : Prop :=
  NoDup (map fst (toolUsage_ toolpath)) /\
  (forall toolId : string,
     In toolId (map fst (toolUsage_ toolpath)) <->
     (0 < toolUsage_count (toolUsage_ toolpath) toolId)%nat) /\
  (forall toolId : string,
     toolUsage_count (toolUsage_ toolpath) toolId =
     if String.eqb toolId EmptyString then 0%nat
     else moves_using (moves_ toolpath) toolId).

(** A toolpath as client code builds it: the constructor, then one
    [appendMove] per move. *)
Definition Toolpath_build (id machineId : string) (moves : list (ToolpathMove D))
  : Toolpath D :=
  fold_left Toolpath_appendMove moves (Toolpath_make id machineId).

End ToolpathSummaries.

(** A state whose material grid pointer is null. *)
Definition gridless_state : SimulationState float bool :=
  SimulationState_make None Transform_identity.

Section CallSequences.
Context {D : Type} `{Scalar D}.

(** The mutating member functions of [SimulationTime], as values: a
    sequence of calls on one object is a list of them. *)
Inductive SimulationTime_call : Type :=
| CallStep
| CallReset
| CallSetFixedTimeStep (timeStep : D).

Definition SimulationTime_apply (t : SimulationTime D) (call : SimulationTime_call)
  : SimulationTime D :=
  match call with
  | CallStep => SimulationTime_step t
  | CallReset => SimulationTime_reset t
  | CallSetFixedTimeStep timeStep => SimulationTime_setFixedTimeStep t timeStep
  end.

(** [n] additions of [delta], one after the other: what [n] calls of
    [addTime(delta)] leave in an accumulator. *)
Definition accumulate (n : nat) (delta start : D) : D :=
  Nat.iter n (fun total => dadd total delta) start.

End CallSequences.

Arguments SimulationTime_call D : clear implicits.

Section HookContracts.
Context {D : Type} `{Scalar D} {G : Type} `{MaterialGrid G}.
Context {Tool X : Type} `{EngineHooks (D := D) (G := G) Tool X}.

(** A [doStep] that leaves the bookkeeping to the base class: it does
    not touch the state's step counter or time accumulator, and it
    keeps a valid state valid. *)
Definition doStep_keeps_bookkeeping : Prop :=
  forall (x : X) (s : SimulationState D G) (sweep : ToolSweep D Tool),
    let s' := snd (doStep x s sweep) in
    SimulationState_getStepCount s' = SimulationState_getStepCount s /\
    SimulationState_getTimeAccumulator s' = SimulationState_getTimeAccumulator s /\
    SimulationState_isValid s' = SimulationState_isValid s.

End HookContracts.

(* ================================================================== *)
(** * 15. The real values of doubles                                  *)
(* ================================================================== *)

Section RealValues.
Local Open Scope R_scope.

Definition bpow (e : Z) : R := powerRZ 2 e.

(** The real [x] lies in [[m, m + 1)], at the place the location says. *)
Definition inbet (m : Z) (l : location) (x : R) : Prop :=
  match l with
  | loc_Exact => x = IZR m
  | loc_Inexact Lt => IZR m < x < IZR m + /2
  | loc_Inexact Eq => x = IZR m + /2
  | loc_Inexact Gt => IZR m + /2 < x < IZR m + 1
  end.

Definition fexp64 (e : Z) : Z := SpecFloat.fexp prec emax e.

(** The real number a finite [spec_float] stands for; 0 for the others. *)
Definition SF2R (x : spec_float) : R :=
  match x with
  | S754_finite s m e => (if s then -1 else 1) * (IZR (Zpos m) * bpow e)
  | _ => 0
  end.

Definition SFfinite (x : spec_float) : bool :=
  match x with
  | S754_finite _ _ _ | S754_zero _ => true
  | _ => false
  end.

Definition sgn (s : bool) : R := if s then -1 else 1.

Definition eps : R := bpow (-51).
Definition eta : R := bpow (-1073).

Definition F2R (x : float) : R := SF2R (Prim2SF x).
Definition Ffinite (x : float) : bool := SFfinite (Prim2SF x).

(** The real values of the components of a vector and of a quaternion,
    and whether all of them are finite. *)
Definition V2R (v : Vec3 float) : Vec3 R :=
  mkVec3 (F2R (vx v)) (F2R (vy v)) (F2R (vz v)).

Definition Q2R (q : Quaternion float) : Quaternion R :=
  mkQuaternion (F2R (qw q)) (F2R (qx q)) (F2R (qy q)) (F2R (qz q)).

Definition Vfinite (v : Vec3 float) : bool :=
  Ffinite (vx v) && Ffinite (vy v) && Ffinite (vz v).

Definition Qfinite (q : Quaternion float) : bool :=
  Ffinite (qw q) && Ffinite (qx q) && Ffinite (qy q) && Ffinite (qz q).

(** [x + y] or [x - y], on doubles and on real numbers. *)
Definition fop (s : bool) (x y : float) : float :=
  if s then PrimFloat.sub x y else PrimFloat.add x y.

Definition rop (s : bool) (x y : R) : R := if s then x - y else x + y.

(** The double [x] is finite and within [e] of the real [r], which is
    at most [b] in magnitude. *)
Definition approx (x : float) (r e b : R) : Prop :=
  Ffinite x = true /\ Rabs (F2R x - r) <= e /\ Rabs r <= b.

Definition vapprox (v : Vec3 float) (V : Vec3 R) (e b : R) : Prop :=
  approx (vx v) (vx V) e b /\ approx (vy v) (vy V) e b /\ approx (vz v) (vz V) e b.

Definition qapprox (q : Quaternion float) (Q : Quaternion R) (e b : R) : Prop :=
  approx (qw q) (qw Q) e b /\ approx (qx q) (qx Q) e b /\
  approx (qy q) (qy Q) e b /\ approx (qz q) (qz Q) e b.

(** The quaternion operations of [Transform.h] on real numbers. *)
Definition Rq_mul (a b : Quaternion R) : Quaternion R :=
  mkQuaternion
    (qw a * qw b - qx a * qx b - qy a * qy b - qz a * qz b)
    (qw a * qx b + qx a * qw b + qy a * qz b - qz a * qy b)
    (qw a * qy b - qx a * qz b + qy a * qw b + qz a * qx b)
    (qw a * qz b + qx a * qy b - qy a * qx b + qz a * qw b).

Definition Rq_conjugate (q : Quaternion R) : Quaternion R :=
  mkQuaternion (qw q) (- qx q) (- qy q) (- qz q).

Definition Rq_norm2 (q : Quaternion R) : R :=
  qw q * qw q + qx q * qx q + qy q * qy q + qz q * qz q.

Definition Rq_scale (c : R) (q : Quaternion R) : Quaternion R :=
  mkQuaternion (c * qw q) (c * qx q) (c * qy q) (c * qz q).

Definition Rq_pure (v : Vec3 R) : Quaternion R :=
  mkQuaternion 0 (vx v) (vy v) (vz v).

Definition Rq_rotate (q : Quaternion R) (v : Vec3 R) : Vec3 R :=
  let result := Rq_mul (Rq_mul q (Rq_pure v)) (Rq_conjugate q) in
  mkVec3 (qx result) (qy result) (qz result).

Definition Rv_opp (v : Vec3 R) : Vec3 R := mkVec3 (- vx v) (- vy v) (- vz v).

Definition Rv_add (a b : Vec3 R) : Vec3 R :=
  mkVec3 (vx a + vx b) (vy a + vy b) (vz a + vz b).

Definition Rv_scale (c : R) (v : Vec3 R) : Vec3 R :=
  mkVec3 (c * vx v) (c * vy v) (c * vz v).

(** A quaternion, a vector of doubles whose components are finite and
    at most [c] in magnitude. *)
Definition qbounded (q : Quaternion float) (c : R) : Prop :=
  qapprox q (Q2R q) 0 c.

Definition vbounded (v : Vec3 float) (c : R) : Prop :=
  vapprox v (V2R v) 0 c.

Definition Rv_sub (a b : Vec3 R) : Vec3 R :=
  mkVec3 (vx a - vx b) (vy a - vy b) (vz a - vz b).

(** A rotation as a [Transform] stores it: finite components of at
    most 1.01 and a squared magnitude within [nu] of 1. *)
Definition qunit (r : Quaternion float) (nu : R) : Prop :=
  qbounded r (101 / 100) /\ Rabs (Rq_norm2 (Q2R r) - 1) <= nu.

(** The Euclidean length of a real vector. *)
Definition Rv_length (v : Vec3 R) : R :=
  sqrt (vx v * vx v + vy v * vy v + vz v * vz v).

(** The transforms that the constructors build from a position with
    finite coordinates of at most [M] in magnitude and, for
    [Transform(position, rotation)], a rotation argument that is
    either zero or has finite components of at most 2^480 in magnitude
    and a squared magnitude of at least 2^-1000: one whose
    normalization neither overflows nor underflows. *)
Inductive Transform_built (M : R) : Transform float -> Prop :=
| built_default : Transform_built M Transform_default
| built_of_position (p : Vec3 float) :
    vbounded p M -> Transform_built M (Transform_of_position p)
| built_make (p : Vec3 float) (q : Quaternion float) :
    vbounded p M -> qbounded q (bpow 480) ->
    bpow (-1000) <= Rq_norm2 (Q2R q) ->
    Transform_built M (Transform_make p q)
| built_make_zero (p : Vec3 float) (q : Quaternion float) :
    vbounded p M -> qbounded q 0 ->
    Transform_built M (Transform_make p q).

End RealValues.

(* ================================================================== *)
(** * 16. Facts about binary64 arithmetic                             *)
(* ================================================================== *)

Unset Implicit Arguments.

Module Binary64.

(** The literals of the sources, as [lit] computes them, against the
    doubles nearest to the decimals (hexadecimal notation). *)
Lemma lit_1e_6 : lit (D := float) 1 6 = 0x1.0c6f7a0b5ed8dp-20%float.
Proof. reflexivity. Qed.

Lemma lit_1e_9 : lit (D := float) 1 9 = 0x1.12e0be826d695p-30%float.
Proof. reflexivity. Qed.

Lemma lit_1e_12 : lit (D := float) 1 12 = 0x1.19799812dea11p-40%float.
Proof. reflexivity. Qed.

Lemma lit_0_9995 : lit (D := float) 9995 4 = 0x1.ffbe76c8b4396p-1%float.
Proof. reflexivity. Qed.

Lemma lit_0_001 : lit (D := float) 1 3 = 0x1.0624dd2f1a9fcp-10%float.
Proof. reflexivity. Qed.

(** [x - x] is [+0] for a finite [x] and NaN otherwise. *)
Lemma sub_diag (x : float) :
  PrimFloat.sub x x = PrimFloat.zero \/ PrimFloat.sub x x = PrimFloat.nan.
Proof.
  pose proof (FloatAxioms.sub_spec x x) as Hs.
  destruct (Prim2SF x) as [s | s | | s m e]; unfold SF64sub, SFsub in Hs.
  - left. apply Prim2SF_inj. rewrite Hs. destruct s; reflexivity.
  - right. apply Prim2SF_inj. rewrite Hs. destruct s; reflexivity.
  - right. apply Prim2SF_inj. rewrite Hs. reflexivity.
  - left. apply Prim2SF_inj. rewrite Hs.
    rewrite Z.min_id. unfold shl_align. rewrite Z.sub_diag. simpl fst.
    replace (cond_Zopp s (Zpos m) - cond_Zopp s (Zpos m))%Z with 0%Z by lia.
    reflexivity.
Qed.

Lemma is_finite_SF (x : float) :
  PrimFloat.is_finite x = true ->
  (exists s, Prim2SF x = S754_zero s) \/ (exists s m e, Prim2SF x = S754_finite s m e).
Proof.
  unfold PrimFloat.is_finite, PrimFloat.is_nan, PrimFloat.is_infinity.
  rewrite !FloatAxioms.eqb_spec, FloatAxioms.abs_spec.
  replace (Prim2SF infinity) with (S754_infinity false) by reflexivity.
  destruct (Prim2SF x) as [s | s | | s m e]; intros Hf.
  - left. now exists s.
  - destruct s; discriminate Hf.
  - discriminate Hf.
  - right. now exists s, m, e.
Qed.

Lemma sub_diag_finite (x : float) :
  PrimFloat.is_finite x = true -> PrimFloat.sub x x = PrimFloat.zero.
Proof.
  intros Hf. apply is_finite_SF in Hf.
  pose proof (FloatAxioms.sub_spec x x) as Hs.
  apply Prim2SF_inj. rewrite Hs.
  destruct Hf as [[s ->] | (s & m & e & ->)]; unfold SF64sub, SFsub.
  - destruct s; reflexivity.
  - rewrite Z.min_id. unfold shl_align. rewrite Z.sub_diag. simpl fst.
    replace (cond_Zopp s (Zpos m) - cond_Zopp s (Zpos m))%Z with 0%Z by lia.
    reflexivity.
Qed.

Lemma SFcompare_antisym (a b : spec_float) :
  SFcompare b a = option_map CompOpp (SFcompare a b).
Proof.
  destruct a as [sa | sa | | sa ma ea], b as [sb | sb | | sb mb eb]; simpl;
    try reflexivity;
    try (destruct sa; reflexivity); try (destruct sb; reflexivity);
    try (destruct sa, sb; reflexivity).
  destruct sa, sb; try reflexivity;
    rewrite (Z.compare_antisym ea eb); destruct (ea ?= eb)%Z; simpl;
    try reflexivity;
    rewrite (Pos.compare_cont_antisym ma mb Eq); simpl;
    destruct (Pos.compare_cont Eq ma mb); reflexivity.
Qed.

(** [a <= b] excludes [b < a]. *)
Lemma leb_not_ltb (a b : float) :
  PrimFloat.leb a b = true -> PrimFloat.ltb b a = false.
Proof.
  rewrite FloatAxioms.leb_spec, FloatAxioms.ltb_spec. unfold SFleb, SFltb.
  rewrite (SFcompare_antisym (Prim2SF a) (Prim2SF b)).
  destruct (SFcompare (Prim2SF a) (Prim2SF b)) as [[] | ]; simpl; congruence.
Qed.

(** A value that compares [<=] with something is not NaN: it is [==] to
    itself. *)
Lemma leb_eqb_refl (a x : float) :
  PrimFloat.leb a x = true -> PrimFloat.eqb x x = true.
Proof.
  rewrite FloatAxioms.leb_spec, FloatAxioms.eqb_spec. unfold SFleb, SFeqb.
  destruct (Prim2SF x) as [s | s | | s m e].
  - reflexivity.
  - destruct s; reflexivity.
  - destruct (Prim2SF a); discriminate.
  - intros _. cbn. rewrite Z.compare_refl, Pos.compare_cont_refl.
    destruct s; reflexivity.
Qed.

(** A value compared [<=] on both sides with [+0] is a zero. *)
Lemma between_zeros (x : float) :
  PrimFloat.leb PrimFloat.zero x = true -> PrimFloat.leb x PrimFloat.zero = true ->
  x = PrimFloat.zero \/ x = PrimFloat.neg_zero.
Proof.
  rewrite !FloatAxioms.leb_spec. unfold SFleb.
  replace (Prim2SF PrimFloat.zero) with (S754_zero false) by reflexivity.
  intros H1 H2.
  destruct (Prim2SF x) as [s | s | | s m e] eqn:E; simpl in *.
  - destruct s; [right | left]; apply Prim2SF_inj; rewrite E; reflexivity.
  - destruct s; discriminate.
  - discriminate.
  - destruct s; discriminate.
Qed.

End Binary64.

(* ================================================================== *)
(** * 17. Rounding in binary64                                        *)
(* ================================================================== *)

Section Rounding.
Local Open Scope R_scope.

(** ** Powers of two *)

Lemma bpow_pos (e : Z) : 0 < bpow e.
Proof. apply powerRZ_lt. lra. Qed.

Lemma bpow_add (a b : Z) : bpow (a + b) = bpow a * bpow b.
Proof. apply powerRZ_add. lra. Qed.

Lemma bpow_0 : bpow 0 = 1.
Proof. reflexivity. Qed.

Lemma bpow_1 : bpow 1 = 2.
Proof. unfold bpow. simpl. lra. Qed.

Lemma bpow_m1 : bpow (-1) = /2.
Proof. unfold bpow. simpl. f_equal. lra. Qed.

Lemma bpow_succ (e : Z) : bpow (e + 1) = 2 * bpow e.
Proof. rewrite bpow_add, bpow_1. lra. Qed.

Lemma bpow_pred (e : Z) : bpow (e - 1) = bpow e / 2.
Proof.
  replace (e - 1)%Z with (e + -1)%Z by lia.
  rewrite bpow_add, bpow_m1. lra.
Qed.

Lemma bpow_opp (e : Z) : bpow (- e) = / bpow e.
Proof.
  assert (H : bpow (- e) * bpow e = 1).
  { rewrite <- bpow_add. replace (- e + e)%Z with 0%Z by lia. reflexivity. }
  pose proof (bpow_pos e) as Hp.
  apply (Rmult_eq_reg_r (bpow e)); [ | lra].
  rewrite H. field. lra.
Qed.

Lemma bpow_ge_1 (k : Z) : (0 <= k)%Z -> 1 <= bpow k.
Proof.
  intros Hk. pattern k. apply natlike_ind; [rewrite bpow_0; lra | | exact Hk].
  intros x Hx IH. unfold Z.succ. rewrite bpow_succ. lra.
Qed.

Lemma bpow_lt (a b : Z) : (a < b)%Z -> bpow a < bpow b.
Proof.
  intros H. replace b with (a + ((b - a - 1) + 1))%Z by lia.
  rewrite bpow_add, bpow_succ.
  pose proof (bpow_ge_1 (b - a - 1) ltac:(lia)).
  pose proof (bpow_pos a). nra.
Qed.

Lemma bpow_le (a b : Z) : (a <= b)%Z -> bpow a <= bpow b.
Proof.
  intros H. destruct (Z.eq_dec a b) as [-> | Hne]; [lra | ].
  apply Rlt_le, bpow_lt. lia.
Qed.

Lemma bpow_lt_inv (a b : Z) : bpow a < bpow b -> (a < b)%Z.
Proof.
  intros H. destruct (Z_lt_le_dec a b) as [Hlt | Hle]; [exact Hlt | ].
  pose proof (bpow_le b a Hle). lra.
Qed.

Lemma IZR_pow2 (k : Z) : (0 <= k)%Z -> IZR (2 ^ k) = bpow k.
Proof.
  intros Hk. pattern k. apply natlike_ind; [reflexivity | | exact Hk].
  intros x Hx IH. rewrite Z.pow_succ_r by exact Hx.
  rewrite mult_IZR, IH. unfold Z.succ. rewrite bpow_succ. reflexivity.
Qed.

(** ** Number of binary digits *)

Lemma digits2_pos_size (p : positive) : digits2_pos p = Pos.size p.
Proof. induction p; simpl; congruence. Qed.

Lemma digits2_pos_bounds (p : positive) :
  (2 ^ (Zpos (digits2_pos p) - 1) <= Zpos p < 2 ^ Zpos (digits2_pos p))%Z.
Proof.
  rewrite digits2_pos_size.
  pose proof (Pos.size_gt p) as Hgt. pose proof (Pos.size_le p) as Hle.
  split.
  - assert (H : (2 * 2 ^ (Zpos (Pos.size p) - 1) = 2 ^ Zpos (Pos.size p))%Z).
    { rewrite <- Z.pow_succ_r by lia. f_equal. lia. }
    assert (H2 : (2 ^ Zpos (Pos.size p) <= 2 * Zpos p)%Z).
    { rewrite <- Pos2Z.inj_pow. change (2 * Zpos p)%Z with (Zpos p~0). 
      apply Pos2Z.pos_le_pos. exact Hle. }
    lia.
  - rewrite <- Pos2Z.inj_pow. apply Pos2Z.pos_lt_pos. exact Hgt.
Qed.

Lemma Zdigits2_bounds (m : Z) :
  (0 < m)%Z -> (2 ^ (Zdigits2 m - 1) <= m < 2 ^ Zdigits2 m)%Z.
Proof.
  destruct m as [ | p | p]; try lia. intros _. exact (digits2_pos_bounds p).
Qed.

Lemma Zdigits2_nonneg (m : Z) : (0 <= Zdigits2 m)%Z.
Proof. destruct m; simpl; lia. Qed.

Lemma Zdigits2_pos (m : Z) : (0 < m)%Z -> (0 < Zdigits2 m)%Z.
Proof. destruct m; simpl; lia. Qed.

(** The digits of a positive number are fixed by a pair of bounds. *)
Lemma Zdigits2_unique (m d : Z) :
  (2 ^ (d - 1) <= m < 2 ^ d)%Z -> (0 < m)%Z -> (0 < d)%Z -> Zdigits2 m = d.
Proof.
  intros [Hlo Hhi] Hm Hd.
  pose proof (Zdigits2_bounds m Hm) as [Hlo' Hhi'].
  pose proof (Zdigits2_pos m Hm) as Hd'.
  destruct (Z.lt_trichotomy (Zdigits2 m) d) as [Hlt | [Heq | Hgt]]; [ | exact Heq | ].
  - assert (2 ^ Zdigits2 m <= 2 ^ (d - 1))%Z by (apply Z.pow_le_mono_r; lia). lia.
  - assert (2 ^ d <= 2 ^ (Zdigits2 m - 1))%Z by (apply Z.pow_le_mono_r; lia). lia.
Qed.

Lemma Zdigits2_real (m : Z) :
  (0 < m)%Z -> bpow (Zdigits2 m - 1) <= IZR m < bpow (Zdigits2 m).
Proof.
  intros Hm. pose proof (Zdigits2_bounds m Hm) as [Hlo Hhi].
  pose proof (Zdigits2_pos m Hm) as Hd.
  rewrite <- !IZR_pow2 by lia. split; [apply IZR_le | apply IZR_lt]; assumption.
Qed.

(** ** Locations *)

Lemma inbet_bounds (m : Z) (l : location) (x : R) :
  inbet m l x -> IZR m <= x < IZR m + 1.
Proof. destruct l as [ | [ | | ]]; simpl; lra. Qed.

Lemma loc_of_shr_record_of_loc (m : Z) (l : location) :
  loc_of_shr_record (shr_record_of_loc m l) = l /\
  shr_m (shr_record_of_loc m l) = m.
Proof. destruct l as [ | [ | | ]]; split; reflexivity. Qed.

Lemma IZR_xO (p : positive) : IZR (Zpos p~0) = 2 * IZR (Zpos p).
Proof. rewrite Pos2Z.inj_xO, mult_IZR. reflexivity. Qed.

Lemma IZR_xI (p : positive) : IZR (Zpos p~1) = 2 * IZR (Zpos p) + 1.
Proof. rewrite Pos2Z.inj_xI, plus_IZR, mult_IZR. reflexivity. Qed.

Lemma shr_1_inbet (r : shr_record) (x : R) :
  (0 <= shr_m r)%Z ->
  inbet (shr_m r) (loc_of_shr_record r) x ->
  inbet (shr_m (shr_1 r)) (loc_of_shr_record (shr_1 r)) (x / 2) /\
  shr_m (shr_1 r) = (shr_m r / 2)%Z.
Proof.
  destruct r as [m rb sb]. cbn [shr_m].
  intros Hm Hin.
  destruct m as [ | [p | p | ] | p]; try lia.
  - split; [ | reflexivity].
    destruct rb, sb; cbn in Hin |- *; lra.
  - (* 2p + 1 *)
    split.
    + pose proof (IZR_xI p) as Hp.
      destruct rb, sb; cbn in Hin |- *; lra.
    + cbn. rewrite Pos2Z.inj_xI.
      replace (2 * Z.pos p + 1)%Z with (1 + Z.pos p * 2)%Z by lia.
      rewrite Z.div_add by lia. reflexivity.
  - split.
    + pose proof (IZR_xO p) as Hp.
      destruct rb, sb; cbn in Hin |- *; lra.
    + cbn. rewrite Pos2Z.inj_xO.
      replace (2 * Z.pos p)%Z with (0 + Z.pos p * 2)%Z by lia.
      rewrite Z.div_add by lia. reflexivity.
  - split; [ | reflexivity].
    destruct rb, sb; cbn in Hin |- *; lra.
Qed.

Lemma iter_pos_nat {A : Type} (f : A -> A) (p : positive) :
  forall x, SpecFloat.iter_pos f p x = Nat.iter (Pos.to_nat p) f x.
Proof.
  induction p as [p IH | p IH | ]; intros x; cbn [SpecFloat.iter_pos].
  - rewrite !IH, Pos2Nat.inj_xI.
    replace (S (2 * Pos.to_nat p)) with (Pos.to_nat p + S (Pos.to_nat p))%nat by lia.
    rewrite Nat.iter_add, Nat.iter_succ_r. reflexivity.
  - rewrite !IH, Pos2Nat.inj_xO.
    replace (2 * Pos.to_nat p)%nat with (Pos.to_nat p + Pos.to_nat p)%nat by lia.
    rewrite Nat.iter_add. reflexivity.
  - reflexivity.
Qed.

Lemma shr_iter_inbet (n : nat) (r : shr_record) (x : R) :
  (0 <= shr_m r)%Z ->
  inbet (shr_m r) (loc_of_shr_record r) x ->
  inbet (shr_m (Nat.iter n shr_1 r)) (loc_of_shr_record (Nat.iter n shr_1 r))
        (x * bpow (- Z.of_nat n)) /\
  shr_m (Nat.iter n shr_1 r) = (shr_m r / 2 ^ Z.of_nat n)%Z /\
  (0 <= shr_m (Nat.iter n shr_1 r))%Z.
Proof.
  intros Hm Hin. induction n as [ | n IH].
  - cbn [Nat.iter Z.of_nat Z.opp]. rewrite bpow_0, Rmult_1_r.
    rewrite Z.pow_0_r, Z.div_1_r. auto.
  - destruct IH as (Hi & Hq & Hp). rewrite !Nat.iter_succ.
    destruct (shr_1_inbet (Nat.iter n shr_1 r) _ Hp Hi) as (Hi' & Hq').
    rewrite Nat2Z.inj_succ. unfold Z.succ.
    split; [ | split].
    + replace (- (Z.of_nat n + 1))%Z with (- Z.of_nat n - 1)%Z by lia.
      rewrite bpow_pred. 
      replace (x * (bpow (- Z.of_nat n) / 2)) with (x * bpow (- Z.of_nat n) / 2) by lra.
      exact Hi'.
    + rewrite Hq', Hq. rewrite Z.pow_add_r by lia.
      rewrite Z.div_div by lia. reflexivity.
    + rewrite Hq'. apply Z.div_pos; lia.
Qed.

Lemma shr_inbet (mrs : shr_record) (e n : Z) (x : R) :
  (0 <= shr_m mrs)%Z ->
  inbet (shr_m mrs) (loc_of_shr_record mrs) x ->
  snd (shr mrs e n) = (e + Z.max n 0)%Z /\
  inbet (shr_m (fst (shr mrs e n))) (loc_of_shr_record (fst (shr mrs e n)))
        (x * bpow (- Z.max n 0)) /\
  shr_m (fst (shr mrs e n)) = (shr_m mrs / 2 ^ Z.max n 0)%Z /\
  (0 <= shr_m (fst (shr mrs e n)))%Z.
Proof.
  intros Hm Hin. unfold shr. destruct n as [ | p | p]; cbn [fst snd].
  - rewrite Z.max_id. cbn [Z.opp]. rewrite Z.add_0_r, bpow_0, Rmult_1_r, Z.pow_0_r, Z.div_1_r. auto.
  - rewrite iter_pos_nat.
    destruct (shr_iter_inbet (Pos.to_nat p) mrs x Hm Hin) as (Hi & Hq & Hp).
    rewrite positive_nat_Z in Hi, Hq.
    replace (Z.max (Z.pos p) 0) with (Z.pos p) by lia. auto.
  - replace (Z.max (Z.neg p) 0) with 0%Z by lia. cbn [Z.opp].
    rewrite Z.add_0_r, bpow_0, Rmult_1_r, Z.pow_0_r, Z.div_1_r. auto.
Qed.

(** ** The formats of binary64 *)

Lemma fexp64_eq (e : Z) : fexp64 e = Z.max (e - 53) (-1074).
Proof. reflexivity. Qed.

Lemma round_nearest_even_error (m : Z) (l : location) (x : R) :
  inbet m l x ->
  Rabs (IZR (round_nearest_even m l) - x) <= /2 /\
  (m <= round_nearest_even m l <= m + 1)%Z /\
  (l = loc_Exact -> IZR (round_nearest_even m l) = x).
Proof.
  intros Hin. unfold round_nearest_even.
  destruct l as [ | [ | | ]]; cbn in Hin.
  - subst x. rewrite Rminus_diag, Rabs_R0. 
    split; [lra | split; [lia | reflexivity]].
  - destruct (Z.even m).
    + split; [ | split; [lia | discriminate]].
      rewrite Hin. replace (IZR m - (IZR m + / 2)) with (- / 2) by lra.
      rewrite Rabs_Ropp, Rabs_pos_eq; lra.
    + split; [ | split; [lia | discriminate]].
      rewrite plus_IZR, Hin.
      replace (IZR m + 1 - (IZR m + / 2)) with (/ 2) by lra.
      rewrite Rabs_pos_eq; lra.
  - split; [ | split; [lia | discriminate]].
    apply Rabs_le. lra.
  - split; [ | split; [lia | discriminate]].
    rewrite plus_IZR. apply Rabs_le. lra.
Qed.

(** The weight of the last place is small against the value, or it is
    the weight of the subnormal numbers. *)
Lemma fexp64_weight (m e : Z) :
  (0 < m)%Z ->
  fexp64 (Zdigits2 m + e) = (-1074)%Z \/
  (fexp64 (Zdigits2 m + e) = Zdigits2 m + e - 53)%Z /\
  bpow (fexp64 (Zdigits2 m + e) + 52) <= IZR m * bpow e.
Proof.
  intros Hm. rewrite fexp64_eq.
  destruct (Z_le_gt_dec (Zdigits2 m + e - 53) (-1074)) as [Hle | Hgt].
  - left. lia.
  - right. replace (Z.max (Zdigits2 m + e - 53) (-1074)) with (Zdigits2 m + e - 53)%Z by lia.
    split; [reflexivity | ].
    replace (Zdigits2 m + e - 53 + 52)%Z with ((Zdigits2 m - 1) + e)%Z by lia.
    rewrite bpow_add.
    pose proof (Zdigits2_real m Hm) as [Hlo _].
    pose proof (bpow_pos e). nra.
Qed.

Lemma shr_fexp_spec (m e : Z) (l : location) (x : R) :
  (0 <= m)%Z -> inbet m l x ->
  let r := shr_fexp prec emax m e l in
  let n := Z.max (fexp64 (Zdigits2 m + e) - e) 0 in
  snd r = (e + n)%Z /\
  inbet (shr_m (fst r)) (loc_of_shr_record (fst r)) (x * bpow (- n)) /\
  shr_m (fst r) = (m / 2 ^ n)%Z /\
  (0 <= shr_m (fst r))%Z /\
  ((fexp64 (Zdigits2 m + e) - e <= 0)%Z -> fst r = shr_record_of_loc m l).
Proof.
  intros Hm Hin r n. unfold r, shr_fexp.
  destruct (loc_of_shr_record_of_loc m l) as (Hl & Hsm).
  assert (Hm' : (0 <= shr_m (shr_record_of_loc m l))%Z) by (rewrite Hsm; exact Hm).
  assert (Hin' : inbet (shr_m (shr_record_of_loc m l))
                       (loc_of_shr_record (shr_record_of_loc m l)) x)
    by (rewrite Hl, Hsm; exact Hin).
  destruct (shr_inbet (shr_record_of_loc m l) e
              (SpecFloat.fexp prec emax (Zdigits2 m + e) - e) x Hm' Hin')
    as (H1 & H2 & H3 & H4).
  fold (fexp64 (Zdigits2 m + e)) in H1, H2, H3, H4 |- *. fold n in H1, H2, H3.
  rewrite Hsm in H3.
  repeat split; try assumption.
  intros Hle. unfold shr.
  destruct (fexp64 (Zdigits2 m + e) - e)%Z as [ | p | p]; try reflexivity. lia.
Qed.

Lemma step_weight (m e : Z) (w : R) :
  (0 <= m)%Z -> IZR m * bpow e <= w -> 0 <= w ->
  (e <= fexp64 (Zdigits2 m + e))%Z ->
  bpow (fexp64 (Zdigits2 m + e)) <= bpow (-52) * w + bpow (-1074).
Proof.
  intros Hm Hw Hw0 Hle.
  pose proof (bpow_pos (-52)) as H52. pose proof (bpow_pos (-1074)) as H1074.
  destruct (Z.eq_dec m 0) as [-> | Hne].
  - cbn [Zdigits2] in Hle |- *. rewrite fexp64_eq in Hle |- *.
    replace (Z.max (0 + e - 53) (-1074)) with (-1074)%Z by lia. nra.
  - destruct (fexp64_weight m e ltac:(lia)) as [-> | (Hf & Hb)]; [nra | ].
    replace (fexp64 (Zdigits2 m + e)) with (-52 + (fexp64 (Zdigits2 m + e) + 52))%Z by lia.
    rewrite bpow_add. nra.
Qed.

Lemma step_exponent (m e : Z) (w : R) :
  (0 < m)%Z -> IZR m * bpow e <= w -> w < bpow 1001 ->
  (fexp64 (Zdigits2 m + e) <= 971)%Z.
Proof.
  intros Hm Hw Hlt.
  destruct (fexp64_weight m e Hm) as [-> | (Hf & Hb)]; [lia | ].
  assert (Hlt' : bpow (fexp64 (Zdigits2 m + e) + 52) < bpow 1001) by lra.
  apply bpow_lt_inv in Hlt'. lia.
Qed.

Lemma Rabs_le_inv (x a : R) : Rabs x <= a -> - a <= x <= a.
Proof. unfold Rabs. destruct (Rcase_abs x); lra. Qed.

Lemma bpow_opp_mul (e : Z) : bpow e * bpow (- e) = 1.
Proof. rewrite <- bpow_add. replace (e + - e)%Z with 0%Z by lia. reflexivity. Qed.

Lemma Rabs_sgn (s : bool) (a b : R) : Rabs (sgn s * a - sgn s * b) = Rabs (a - b).
Proof.
  destruct s; unfold sgn.
  - replace (-1 * a - -1 * b) with (- (a - b)) by lra. apply Rabs_Ropp.
  - f_equal. lra.
Qed.

(** Rounding to nearest, as [binary_round_aux] performs it on a
    positive real [v] handed over as a mantissa, an exponent and a
    location.  The bound is twice the unit roundoff: the second shift
    of the function is accounted for as if it could truncate. *)
Lemma binary_round_aux_correct (sx : bool) (mx ex : Z) (lx : location) (v : R) :
  (0 <= mx)%Z ->
  inbet mx lx (v * bpow (- ex)) ->
  (lx = loc_Exact \/ (ex <= fexp64 (Zdigits2 mx + ex))%Z) ->
  ((fexp64 (Zdigits2 mx + ex) < ex)%Z -> (ex <= 971)%Z) ->
  v < bpow 1000 ->
  SFfinite (binary_round_aux prec emax sx mx ex lx) = true /\
  Rabs (SF2R (binary_round_aux prec emax sx mx ex lx) - sgn sx * v)
    <= bpow (-51) * v + bpow (-1073).
Proof.
  intros Hm Hin HC HH Hv.
  pose proof (bpow_pos ex) as Pex. pose proof (bpow_pos (- ex)) as Pmex.
  pose proof (bpow_opp_mul ex) as Iex.
  assert (Hmv : IZR mx * bpow ex <= v).
  { pose proof (inbet_bounds _ _ _ Hin) as [Hlo _].
    replace v with (v * bpow (- ex) * bpow ex) by (rewrite Rmult_assoc, (Rmult_comm (bpow (- ex))), Iex; lra).
    apply Rmult_le_compat_r; lra. }
  assert (Hv0 : 0 <= v).
  { assert (0 <= IZR mx) by (apply IZR_le; exact Hm). nra. }
  unfold binary_round_aux.
  pose proof (shr_fexp_spec mx ex lx _ Hm Hin) as S1. cbv zeta in S1.
  destruct (shr_fexp prec emax mx ex lx) as [mrs1 e1] eqn:E1. cbn [fst snd] in S1.
  destruct S1 as (He1 & Hin1 & Hq1 & Hp1 & Hid1).
  pose proof (round_nearest_even_error _ _ _ Hin1) as (Hr & Hm2 & Hex).
  set (m2 := round_nearest_even (shr_m mrs1) (loc_of_shr_record mrs1)) in *.
  assert (Hm2pos : (0 <= m2)%Z) by lia.
  pose proof (shr_fexp_spec m2 e1 loc_Exact (IZR m2) Hm2pos eq_refl) as S2. cbv zeta in S2.
  destruct (shr_fexp prec emax m2 e1 loc_Exact) as [mrs2 e2] eqn:E2. cbn [fst snd] in S2.
  destruct S2 as (He2 & Hin2 & Hq2 & Hp2 & Hid2).
  set (f1 := fexp64 (Zdigits2 mx + ex)) in *.
  set (f2 := fexp64 (Zdigits2 m2 + e1)) in *.
  set (m3 := shr_m mrs2) in *.
  pose proof (bpow_pos e1) as Pe1. pose proof (bpow_pos e2) as Pe2.
  pose proof (bpow_opp_mul e1) as Ie1.
  (* the scaled value after the first shift *)
  assert (Hx1 : v * bpow (- ex) * bpow (- Z.max (f1 - ex) 0) = v * bpow (- e1)).
  { rewrite Rmult_assoc, <- bpow_add. f_equal. f_equal. lia. }
  rewrite Hx1 in Hin1, Hr, Hex.
  (* bounds on the powers of two of the statement *)
  assert (B53 : bpow (-53) = bpow (-52) / 2).
  { replace (-53)%Z with (-52 - 1)%Z by lia. apply bpow_pred. }
  assert (B51 : bpow (-51) = 2 * bpow (-52)).
  { replace (-51)%Z with (-52 + 1)%Z by lia. apply bpow_succ. }
  assert (B1073 : bpow (-1073) = 2 * bpow (-1074)).
  { replace (-1073)%Z with (-1074 + 1)%Z by lia. apply bpow_succ. }
  assert (B52 : bpow (-52) <= / 4).
  { assert (H : bpow (-52) <= bpow (-2)) by (apply bpow_le; lia).
    assert (H2 : bpow (-2) = /4) by (unfold bpow; simpl; lra). lra. }
  pose proof (bpow_pos (-52)) as P52. pose proof (bpow_pos (-1074)) as P1074.
  assert (B1000 : bpow 1001 = 2 * bpow 1000).
  { replace 1001%Z with (1000 + 1)%Z by lia. apply bpow_succ. }
  assert (Bsmall : bpow (-1074) <= bpow 1000) by (apply bpow_le; lia).
  (* the value after rounding *)
  set (v2 := IZR m2 * bpow e1).
  assert (F1 : Rabs (v2 - v) <= bpow (-52) / 2 * v + bpow (-1074) / 2).
  { assert (Hd : v2 - v = (IZR m2 - v * bpow (- e1)) * bpow e1).
    { unfold v2. rewrite Rmult_minus_distr_r, Rmult_assoc, (Rmult_comm (bpow (- e1))), Ie1. lra. }
    destruct (loc_of_shr_record mrs1) as [ | c] eqn:L1.
    - rewrite Hd, (Hex eq_refl), Rminus_diag, Rmult_0_l, Rabs_R0. nra.
    - assert (Hle : (ex <= f1)%Z).
      { destruct (Z_le_gt_dec ex f1) as [Hle | Hgt]; [exact Hle | ].
        destruct HC as [-> | HC]; [ | lia].
        rewrite (Hid1 ltac:(lia)) in L1. discriminate L1. }
      assert (He : e1 = f1) by lia.
      pose proof (step_weight mx ex v Hm Hmv Hv0 Hle) as Hw. fold f1 in Hw.
      rewrite Hd, Rabs_mult, (Rabs_pos_eq (bpow e1)) by lra.
      rewrite He in *.
      assert (Rabs (IZR m2 - v * bpow (- f1)) * bpow f1 <= / 2 * bpow f1)
        by (apply Rmult_le_compat_r; lra).
      lra. }
  assert (Hv2 : 0 <= v2).
  { unfold v2. assert (0 <= IZR m2) by (apply IZR_le; exact Hm2pos). nra. }
  (* the value after the second shift *)
  set (v3 := IZR m3 * bpow e2).
  assert (F3 : 0 <= v2 - v3 <= bpow (-52) * v2 + bpow (-1074)).
  { destruct (Z_le_gt_dec (f2 - e1) 0) as [Hle | Hgt].
    - assert (Hm32 : m3 = m2) by (unfold m3; rewrite (Hid2 Hle); reflexivity).
      unfold v3. rewrite Hm32. replace e2 with e1 by lia. fold v2. nra.
    - assert (He : e2 = f2) by lia.
      replace (Z.max (f2 - e1) 0) with (f2 - e1)%Z in Hin2 by lia.
      pose proof (inbet_bounds _ _ _ Hin2) as [Hlo Hhi]. fold m3 in Hlo, Hhi.
      assert (Hs : IZR m2 * bpow (- (f2 - e1)) * bpow e2 = v2).
      { unfold v2. rewrite Rmult_assoc, <- bpow_add. f_equal. f_equal. lia. }
      assert (H1 : IZR m3 * bpow e2 <= v2)
        by (rewrite <- Hs; apply Rmult_le_compat_r; lra).
      assert (H2 : v2 < (IZR m3 + 1) * bpow e2)
        by (rewrite <- Hs; apply Rmult_lt_compat_r; lra).
      pose proof (step_weight m2 e1 v2 Hm2pos (Rle_refl _) Hv2 ltac:(fold f2; lia)) as Hw.
      fold f2 in Hw. rewrite <- He in Hw. unfold v3. nra. }
  assert (F : Rabs (v3 - v) <= bpow (-51) * v + bpow (-1073)).
  { apply Rabs_le. apply Rabs_le_inv in F1. nra. }
  assert (Hv2lt : v2 < bpow 1001).
  { apply Rabs_le_inv in F1. nra. }
  (* the exponent of a non-zero result *)
  assert (F4 : (0 < m3)%Z -> (e2 <= 971)%Z).
  { intros Hm3.
    destruct (Z_le_gt_dec (f2 - e1) 0) as [Hle | Hgt].
    - assert (He : e2 = e1) by lia.
      assert (Hm32 : m3 = m2).
      { unfold m3. rewrite (Hid2 Hle). reflexivity. }
      rewrite He.
      destruct (Z_lt_le_dec f1 ex) as [Hlt | Hge].
      + specialize (HH Hlt). lia.
      + assert (He1f : e1 = f1) by lia. rewrite He1f.
        destruct (Z.eq_dec mx 0) as [Hz | Hnz].
        * (* a zero mantissa *)
          unfold f1. rewrite Hz. cbn [Zdigits2]. rewrite fexp64_eq.
          unfold f1 in Hge. rewrite Hz in Hge. cbn [Zdigits2] in Hge.
          rewrite fexp64_eq in Hge. lia.
        * apply (step_exponent mx ex v); [lia | exact Hmv | lra].
    - assert (He : e2 = f2) by lia. rewrite He.
      assert (Hm2p : (0 < m2)%Z).
      { destruct (Z.eq_dec m2 0) as [Hz | Hnz]; [ | lia].
        rewrite Hq2, Hz in Hm3. rewrite Z.div_0_l in Hm3; lia. }
      apply (step_exponent m2 e1 v2); [exact Hm2p | apply Rle_refl | exact Hv2lt]. }
  fold m3. destruct m3 as [ | p | p] eqn:Em3.
  - split; [reflexivity | ].
    cbn [SF2R]. unfold v3 in F. rewrite Rmult_0_l in F.
    replace (0 - sgn sx * v) with (sgn sx * 0 - sgn sx * v) by lra.
    rewrite Rabs_sgn. exact F.
  - specialize (F4 ltac:(lia)).
    replace (Z.leb e2 (Z.sub emax prec)) with true
      by (symmetry; apply Z.leb_le; change (Z.sub emax prec) with 971%Z; exact F4).
    split; [reflexivity | ].
    cbn [SF2R]. fold (sgn sx). fold v3. rewrite Rabs_sgn. exact F.
  - lia.
Qed.

(** ** Valid binary64 numbers *)

Lemma valid_finite (s : bool) (m : positive) (e : Z) :
  valid_binary (S754_finite s m e) = true ->
  fexp64 (Zdigits2 (Zpos m) + e) = e /\ (e <= 971)%Z.
Proof.
  cbn [SpecFloat.valid_binary]. unfold bounded, canonical_mantissa.
  intros H. apply andb_prop in H. destruct H as [H1 H2].
  apply Z.eqb_eq in H1. apply Z.leb_le in H2.
  split; [exact H1 | exact H2].
Qed.

Lemma valid_digits (s : bool) (m : positive) (e : Z) :
  valid_binary (S754_finite s m e) = true ->
  (Zdigits2 (Zpos m) <= 53)%Z /\ (-1074 <= e)%Z /\
  ((-1074 < e)%Z -> Zdigits2 (Zpos m) = 53%Z).
Proof.
  intros H. destruct (valid_finite s m e H) as [Hc _].
  rewrite fexp64_eq in Hc. repeat split; lia.
Qed.

Lemma SF2R_finite_abs (s : bool) (m : positive) (e : Z) :
  SF2R (S754_finite s m e) = sgn s * (IZR (Zpos m) * bpow e).
Proof. reflexivity. Qed.

Lemma sgn_xorb (a b : bool) : sgn (xorb a b) = sgn a * sgn b.
Proof. destruct a, b; unfold sgn; cbn; lra. Qed.

Lemma Rabs_sgn_mul (s : bool) (a : R) : 0 <= a -> Rabs (sgn s * a) = a.
Proof.
  intros Ha. destruct s; unfold sgn.
  - replace (-1 * a) with (- a) by lra. rewrite Rabs_Ropp. apply Rabs_pos_eq. exact Ha.
  - rewrite Rmult_1_l. apply Rabs_pos_eq. exact Ha.
Qed.

(** ** Multiplication *)

Lemma SFmul_correct (x y : spec_float) :
  valid_binary x = true -> valid_binary y = true ->
  SFfinite x = true -> SFfinite y = true ->
  Rabs (SF2R x * SF2R y) < bpow 1000 ->
  SFfinite (SF64mul x y) = true /\
  Rabs (SF2R (SF64mul x y) - SF2R x * SF2R y) <= eps * Rabs (SF2R x * SF2R y) + eta.
Proof.
  intros Vx Vy Fx Fy Hb.
  pose proof (bpow_pos (-51)) as P51. pose proof (bpow_pos (-1073)) as P1073.
  destruct x as [sx | sx | | sx mx ex], y as [sy | sy | | sy my ey];
    try discriminate Fx; try discriminate Fy.
  1-3: split; [reflexivity | ]; cbn [SF64mul SFmul SF2R];
       rewrite ?Rmult_0_l, ?Rmult_0_r, Rminus_diag, Rabs_R0; unfold eps, eta; lra.
  unfold SF64mul. cbn [SFmul].
  set (v := IZR (Zpos (mx * my)) * bpow (ex + ey)).
  assert (Hprod : SF2R (S754_finite sx mx ex) * SF2R (S754_finite sy my ey)
                  = sgn (xorb sx sy) * v).
  { rewrite !SF2R_finite_abs, sgn_xorb. unfold v.
    rewrite Pos2Z.inj_mul, mult_IZR, bpow_add. ring. }
  assert (Hv0 : 0 <= v).
  { unfold v. pose proof (bpow_pos (ex + ey)).
    assert (0 <= IZR (Zpos (mx * my))) by (apply IZR_le; lia). nra. }
  rewrite Hprod in Hb |- *. rewrite Rabs_sgn_mul in Hb |- * by exact Hv0.
  apply binary_round_aux_correct.
  - lia.
  - cbn [inbet]. unfold v. rewrite Rmult_assoc, bpow_opp_mul. lra.
  - left. reflexivity.
  - intros Hlt.
    destruct (Z_le_gt_dec (ex + ey) 971) as [Hle | Hgt]; [exact Hle | exfalso].
    destruct (valid_finite _ _ _ Vx) as [_ Hex], (valid_finite _ _ _ Vy) as [_ Hey].
    destruct (valid_digits _ _ _ Vx) as (_ & _ & Hdx), (valid_digits _ _ _ Vy) as (_ & _ & Hdy).
    specialize (Hdx ltac:(lia)). specialize (Hdy ltac:(lia)).
    pose proof (Zdigits2_bounds (Zpos mx) ltac:(lia)) as [Hmx _].
    pose proof (Zdigits2_bounds (Zpos my) ltac:(lia)) as [Hmy _].
    rewrite Hdx in Hmx. rewrite Hdy in Hmy.
    pose proof (Zdigits2_bounds (Zpos (mx * my)) ltac:(lia)) as [_ Hhi].
    assert (Hp : (2 ^ 104 <= Zpos (mx * my))%Z).
    { rewrite Pos2Z.inj_mul. change (2 ^ 104)%Z with (2 ^ (53 - 1) * 2 ^ (53 - 1))%Z. nia. }
    assert (Hd : (104 < Zdigits2 (Zpos (mx * my)))%Z).
    { apply (Z.pow_lt_mono_r_iff 2); [lia | apply Zdigits2_nonneg | lia]. }
    rewrite fexp64_eq in Hlt. lia.
  - exact Hb.
Qed.

(** ** Addition and subtraction *)

Lemma shl_align_spec (mx : positive) (ex ex' : Z) :
  snd (shl_align mx ex ex') = Z.min ex ex' /\
  Zpos (fst (shl_align mx ex ex')) = (Zpos mx * 2 ^ (ex - Z.min ex ex'))%Z.
Proof.
  unfold shl_align. destruct (ex' - ex)%Z as [ | d | d] eqn:Hd; cbn [fst snd].
  - replace (Z.min ex ex') with ex by lia. rewrite Z.sub_diag, Z.pow_0_r. lia.
  - replace (Z.min ex ex') with ex by lia. rewrite Z.sub_diag, Z.pow_0_r. lia.
  - replace (Z.min ex ex') with ex' by lia. split; [reflexivity | ].
    replace (ex - ex')%Z with (Zpos d) by lia.
    change (Pos.iter xO mx d) with (shift_pos d mx).
    rewrite shift_pos_correct, Z.pow_pos_fold. lia.
Qed.

Lemma Zdigits2_shift (m k : Z) :
  (0 < m)%Z -> (0 <= k)%Z -> Zdigits2 (m * 2 ^ k) = (Zdigits2 m + k)%Z.
Proof.
  intros Hm Hk.
  pose proof (Zdigits2_bounds m Hm) as [Hlo Hhi].
  pose proof (Zdigits2_pos m Hm) as Hd.
  assert (Hp : (0 < 2 ^ k)%Z) by (apply Z.pow_pos_nonneg; lia).
  apply Zdigits2_unique.
  - split.
    + replace (Zdigits2 m + k - 1)%Z with ((Zdigits2 m - 1) + k)%Z by lia.
      rewrite Z.pow_add_r by lia. nia.
    + rewrite Z.pow_add_r by lia. nia.
  - nia.
  - lia.
Qed.

Lemma binary_round_correct (s : bool) (m : positive) (e : Z) :
  IZR (Zpos m) * bpow e < bpow 1000 ->
  SFfinite (binary_round prec emax s m e) = true /\
  Rabs (SF2R (binary_round prec emax s m e) - sgn s * (IZR (Zpos m) * bpow e))
    <= eps * (IZR (Zpos m) * bpow e) + eta.
Proof.
  intros Hb. unfold binary_round.
  pose proof (shl_align_spec m e (SpecFloat.fexp prec emax (Zpos (digits2_pos m) + e)))
    as (He & Hm).
  destruct (shl_align m e (SpecFloat.fexp prec emax (Zpos (digits2_pos m) + e)))
    as [mz ez]. cbn [fst snd] in He, Hm.
  change (Zpos (digits2_pos m)) with (Zdigits2 (Zpos m)) in He, Hm.
  fold (fexp64 (Zdigits2 (Zpos m) + e)) in He, Hm.
  set (f := fexp64 (Zdigits2 (Zpos m) + e)) in *.
  assert (Hval : IZR (Zpos mz) * bpow ez = IZR (Zpos m) * bpow e).
  { rewrite Hm, mult_IZR, IZR_pow2 by lia. rewrite Rmult_assoc, <- bpow_add.
    f_equal. f_equal. lia. }
  rewrite <- Hval in Hb |- *.
  apply binary_round_aux_correct.
  - lia.
  - cbn [inbet]. rewrite Rmult_assoc, bpow_opp_mul. lra.
  - left. reflexivity.
  - intros Hlt. exfalso.
    rewrite Hm in Hlt. rewrite Zdigits2_shift in Hlt by lia.
    replace (Zdigits2 (Z.pos m) + (e - Z.min e f) + ez)%Z
      with (Zdigits2 (Z.pos m) + e)%Z in Hlt by lia.
    fold f in Hlt. lia.
  - exact Hb.
Qed.

Lemma binary_normalize_correct (m e : Z) (szero : bool) :
  Rabs (IZR m * bpow e) < bpow 1000 ->
  SFfinite (binary_normalize prec emax m e szero) = true /\
  Rabs (SF2R (binary_normalize prec emax m e szero) - IZR m * bpow e)
    <= eps * Rabs (IZR m * bpow e) + eta.
Proof.
  intros Hb. pose proof (bpow_pos e) as Pe.
  pose proof (bpow_pos (-51)) as P51. pose proof (bpow_pos (-1073)) as P1073.
  destruct m as [ | p | p]; cbn [binary_normalize].
  - split; [reflexivity | ]. cbn [SF2R].
    rewrite Rmult_0_l, Rminus_diag, Rabs_R0. unfold eps, eta. lra.
  - assert (H0 : 0 <= IZR (Zpos p) * bpow e).
    { assert (0 <= IZR (Zpos p)) by (apply IZR_le; lia). nra. }
    rewrite (Rabs_pos_eq (IZR (Zpos p) * bpow e)) in Hb |- * by exact H0.
    pose proof (binary_round_correct false p e Hb) as (Hf & He).
    unfold sgn in He. rewrite Rmult_1_l in He. split; assumption.
  - assert (Hn : IZR (Zneg p) * bpow e = - (IZR (Zpos p) * bpow e)).
    { change (Zneg p) with (- Zpos p)%Z. rewrite opp_IZR. lra. }
    assert (H0 : 0 <= IZR (Zpos p) * bpow e).
    { assert (0 <= IZR (Zpos p)) by (apply IZR_le; lia). nra. }
    rewrite Hn in Hb |- *.
    rewrite (Rabs_Ropp (IZR (Zpos p) * bpow e)) in Hb |- *.
    rewrite (Rabs_pos_eq (IZR (Zpos p) * bpow e)) in Hb |- * by exact H0.
    pose proof (binary_round_correct true p e Hb) as (Hf & He).
    unfold sgn in He.
    replace (-1 * (IZR (Zpos p) * bpow e)) with (- (IZR (Zpos p) * bpow e)) in He by lra.
    split; assumption.
Qed.

Lemma align_value (s : bool) (m : positive) (e ez : Z) :
  (ez <= e)%Z ->
  IZR (cond_Zopp s (Zpos (fst (shl_align m e ez)))) * bpow ez =
  SF2R (S754_finite s m e).
Proof.
  intros Hle. destruct (shl_align_spec m e ez) as (_ & Hm).
  replace (Z.min e ez) with ez in Hm by lia.
  rewrite SF2R_finite_abs.
  assert (Hv : IZR (Zpos (fst (shl_align m e ez))) * bpow ez = IZR (Zpos m) * bpow e).
  { rewrite Hm, mult_IZR, IZR_pow2 by lia. rewrite Rmult_assoc, <- bpow_add.
    f_equal. f_equal. lia. }
  destruct s; unfold cond_Zopp, sgn.
  - rewrite opp_IZR. lra.
  - lra.
Qed.

Lemma SFadd_correct (x y : spec_float) :
  SFfinite x = true -> SFfinite y = true ->
  Rabs (SF2R x + SF2R y) < bpow 1000 ->
  SFfinite (SF64add x y) = true /\
  Rabs (SF2R (SF64add x y) - (SF2R x + SF2R y)) <= eps * Rabs (SF2R x + SF2R y) + eta.
Proof.
  intros Fx Fy Hb.
  assert (Hexact : forall z, SFfinite z = true -> SF2R z = SF2R x + SF2R y ->
            SFfinite z = true /\
            Rabs (SF2R z - (SF2R x + SF2R y)) <= eps * Rabs (SF2R x + SF2R y) + eta).
  { intros z Hz Heq. split; [exact Hz | ].
    rewrite Heq, Rminus_diag, Rabs_R0.
    pose proof (bpow_pos (-51)). pose proof (bpow_pos (-1073)).
    pose proof (Rabs_pos (SF2R x + SF2R y)). unfold eps, eta. nra. }
  destruct x as [sx | sx | | sx mx ex], y as [sy | sy | | sy my ey];
    try discriminate Fx; try discriminate Fy.
  - apply Hexact; [destruct sx, sy; reflexivity | destruct sx, sy; cbn; lra].
  - apply Hexact; [reflexivity | cbn [SF64add SFadd SF2R]; lra].
  - apply Hexact; [reflexivity | cbn [SF64add SFadd SF2R]; lra].
  - clear Hexact. unfold SF64add. cbn [SFadd].
    set (ez := Z.min ex ey).
    pose proof (align_value sx mx ex ez ltac:(lia)) as Hx.
    pose proof (align_value sy my ey ez ltac:(lia)) as Hy.
    set (a := cond_Zopp sx (Zpos (fst (shl_align mx ex ez)))) in *.
    set (b := cond_Zopp sy (Zpos (fst (shl_align my ey ez)))) in *.
    assert (Hs : IZR (a + b) * bpow ez
                 = SF2R (S754_finite sx mx ex) + SF2R (S754_finite sy my ey)).
    { rewrite plus_IZR, Rmult_plus_distr_r, Hx, Hy. reflexivity. }
    rewrite <- Hs in Hb |- *.
    apply binary_normalize_correct. exact Hb.
Qed.

Lemma SFsub_correct (x y : spec_float) :
  SFfinite x = true -> SFfinite y = true ->
  Rabs (SF2R x - SF2R y) < bpow 1000 ->
  SFfinite (SF64sub x y) = true /\
  Rabs (SF2R (SF64sub x y) - (SF2R x - SF2R y)) <= eps * Rabs (SF2R x - SF2R y) + eta.
Proof.
  intros Fx Fy Hb.
  assert (Hexact : forall z, SFfinite z = true -> SF2R z = SF2R x - SF2R y ->
            SFfinite z = true /\
            Rabs (SF2R z - (SF2R x - SF2R y)) <= eps * Rabs (SF2R x - SF2R y) + eta).
  { intros z Hz Heq. split; [exact Hz | ].
    rewrite Heq, Rminus_diag, Rabs_R0.
    pose proof (bpow_pos (-51)). pose proof (bpow_pos (-1073)).
    pose proof (Rabs_pos (SF2R x - SF2R y)). unfold eps, eta. nra. }
  destruct x as [sx | sx | | sx mx ex], y as [sy | sy | | sy my ey];
    try discriminate Fx; try discriminate Fy.
  - apply Hexact; [destruct sx, sy; reflexivity | destruct sx, sy; cbn; lra].
  - apply Hexact; [reflexivity | ].
    cbn [SF64sub SFsub SF2R]. destruct sy; unfold sgn; cbn [negb]; lra.
  - apply Hexact; [reflexivity | cbn [SF64sub SFsub SF2R]; lra].
  - clear Hexact. unfold SF64sub. cbn [SFsub].
    set (ez := Z.min ex ey).
    pose proof (align_value sx mx ex ez ltac:(lia)) as Hx.
    pose proof (align_value sy my ey ez ltac:(lia)) as Hy.
    set (a := cond_Zopp sx (Zpos (fst (shl_align mx ex ez)))) in *.
    set (b := cond_Zopp sy (Zpos (fst (shl_align my ey ez)))) in *.
    assert (Hs : IZR (a - b) * bpow ez
                 = SF2R (S754_finite sx mx ex) - SF2R (S754_finite sy my ey)).
    { rewrite minus_IZR, Rmult_minus_distr_r, Hx, Hy. reflexivity. }
    rewrite <- Hs in Hb |- *.
    apply binary_normalize_correct. exact Hb.
Qed.

(** ** Division *)

Lemma new_location_inbet (q m2 r : Z) :
  (0 < m2)%Z -> (0 <= r < m2)%Z ->
  inbet q (new_location m2 r) (IZR q + IZR r / IZR m2).
Proof.
  intros Hm2 Hr.
  assert (Pm2 : 0 < IZR m2) by (apply IZR_lt; exact Hm2).
  assert (Hr0 : 0 <= IZR r) by (apply IZR_le; lia).
  assert (Hrm : IZR r < IZR m2) by (apply IZR_lt; lia).
  assert (Hhalf_lt : (2 * r < m2)%Z -> IZR r / IZR m2 < / 2).
  { intros H. apply IZR_lt in H. rewrite mult_IZR in H.
    apply (Rmult_lt_reg_r (IZR m2)); [exact Pm2 | ].
    unfold Rdiv. rewrite Rmult_assoc, Rinv_l by lra. lra. }
  assert (Hhalf_gt : (m2 < 2 * r)%Z -> / 2 < IZR r / IZR m2).
  { intros H. apply IZR_lt in H. rewrite mult_IZR in H.
    apply (Rmult_lt_reg_r (IZR m2)); [exact Pm2 | ].
    unfold Rdiv. rewrite Rmult_assoc, Rinv_l by lra. lra. }
  assert (Hhalf_eq : (2 * r = m2)%Z -> IZR r / IZR m2 = / 2).
  { intros H. apply (f_equal IZR) in H. rewrite mult_IZR in H.
    apply (Rmult_eq_reg_r (IZR m2)); [ | lra].
    unfold Rdiv. rewrite Rmult_assoc, Rinv_l by lra. lra. }
  assert (Hq0 : 0 <= IZR r / IZR m2).
  { unfold Rdiv. apply Rmult_le_pos; [exact Hr0 | ]. apply Rlt_le, Rinv_0_lt_compat. exact Pm2. }
  assert (Hq1 : IZR r / IZR m2 < 1).
  { apply (Rmult_lt_reg_r (IZR m2)); [exact Pm2 | ].
    unfold Rdiv. rewrite Rmult_assoc, Rinv_l by lra. lra. }
  assert (Hpos : (0 < r)%Z -> 0 < IZR r / IZR m2).
  { intros H. apply IZR_lt in H. unfold Rdiv. apply Rmult_lt_0_compat; [exact H | ].
    apply Rinv_0_lt_compat. exact Pm2. }
  unfold new_location. destruct (Z.even m2) eqn:Hev.
  - unfold new_location_even. destruct (Z.eqb_spec r 0) as [-> | Hne].
    + cbn [inbet]. unfold Rdiv. rewrite Rmult_0_l. lra.
    + destruct (Z.compare_spec (2 * r) m2) as [Heq | Hlt | Hgt]; cbn [inbet].
      * rewrite (Hhalf_eq Heq). reflexivity.
      * specialize (Hhalf_lt Hlt). specialize (Hpos ltac:(lia)). lra.
      * specialize (Hhalf_gt Hgt). lra.
  - unfold new_location_odd. destruct (Z.eqb_spec r 0) as [-> | Hne].
    + cbn [inbet]. unfold Rdiv. rewrite Rmult_0_l. lra.
    + assert (Hodd : (2 * r <> m2)%Z).
      { intros Heq. rewrite <- Heq, Z.even_mul in Hev. discriminate Hev. }
      destruct (Z.compare_spec (2 * r + 1) m2) as [Heq | Hlt | Hgt]; cbn [inbet].
      * specialize (Hhalf_lt ltac:(lia)). specialize (Hpos ltac:(lia)). lra.
      * specialize (Hhalf_lt ltac:(lia)). specialize (Hpos ltac:(lia)). lra.
      * specialize (Hhalf_gt ltac:(lia)). lra.
Qed.

Lemma SFdiv_core_correct (mx : positive) (ex : Z) (my : positive) (ey : Z) :
  let r := SFdiv_core_binary prec emax (Zpos mx) ex (Zpos my) ey in
  let q := fst (fst r) in let e' := snd (fst r) in let l := snd r in
  let v := (IZR (Zpos mx) * bpow ex) / (IZR (Zpos my) * bpow ey) in
  (0 <= q)%Z /\ inbet q l (v * bpow (- e')) /\ (e' <= fexp64 (Zdigits2 q + e'))%Z.
Proof.
  unfold SFdiv_core_binary.
  set (d1 := Zdigits2 (Zpos mx)). set (d2 := Zdigits2 (Zpos my)).
  fold (fexp64 (d1 + ex - (d2 + ey))).
  set (e' := Z.min (fexp64 (d1 + ex - (d2 + ey))) (ex - ey)).
  set (s := (ex - ey - e')%Z).
  assert (Hs : (0 <= s)%Z) by (unfold s, e'; lia).
  set (m' := match s with
             | 0%Z => Zpos mx
             | Zpos _ => Z.shiftl (Zpos mx) s
             | Zneg _ => 0%Z
             end).
  assert (Hm' : m' = (Zpos mx * 2 ^ s)%Z).
  { unfold m'. destruct s as [ | p | p] eqn:Es.
    - rewrite Z.pow_0_r. lia.
    - rewrite Z.shiftl_mul_pow2 by lia. reflexivity.
    - lia. }
  pose proof (Z_div_mod m' (Zpos my) ltac:(lia)) as Hdm.
  destruct (Z.div_eucl m' (Zpos my)) as [q r]. destruct Hdm as [Heq Hr].
  cbn [fst snd].
  assert (P2s : (0 < 2 ^ s)%Z) by (apply Z.pow_pos_nonneg; lia).
  assert (Hq0 : (0 <= q)%Z) by nia.
  split; [exact Hq0 | ]. split.
  - assert (Hv : IZR (Zpos mx) * bpow ex / (IZR (Zpos my) * bpow ey) * bpow (- e')
                 = IZR q + IZR r / IZR (Zpos my)).
    { assert (Pmy : 0 < IZR (Zpos my)) by (apply IZR_lt; lia).
      pose proof (bpow_pos ey) as Pey.
      assert (Hm'R : IZR m' = IZR (Zpos my) * IZR q + IZR r).
      { rewrite Heq, plus_IZR, mult_IZR. reflexivity. }
      assert (Hm'R2 : IZR m' = IZR (Zpos mx) * bpow s).
      { rewrite Hm', mult_IZR, IZR_pow2 by lia. reflexivity. }
      assert (Hpow : bpow ex * bpow (- e') = bpow s * bpow ey).
      { rewrite <- !bpow_add. f_equal. unfold s. lia. }
      replace (IZR (Zpos mx) * bpow ex / (IZR (Zpos my) * bpow ey) * bpow (- e'))
        with (IZR (Zpos mx) * (bpow ex * bpow (- e')) / (IZR (Zpos my) * bpow ey))
        by (field; lra).
      rewrite Hpow.
      replace (IZR (Zpos mx) * (bpow s * bpow ey) / (IZR (Zpos my) * bpow ey))
        with (IZR (Zpos mx) * bpow s / IZR (Zpos my)) by (field; lra).
      rewrite <- Hm'R2, Hm'R. field. lra. }
    rewrite Hv. apply new_location_inbet; lia.
  - rewrite fexp64_eq.
    destruct (Z_le_gt_dec e' (-1074)) as [Hle | Hgt]; [lia | ].
    assert (He' : (e' <= d1 + ex - (d2 + ey) - 53)%Z).
    { unfold e' in Hgt |- *. rewrite fexp64_eq in Hgt |- *. lia. }
    assert (Hs53 : (53 - d1 + d2 <= s)%Z) by (unfold s; lia).
    pose proof (Zdigits2_bounds (Zpos mx) ltac:(lia)) as [Hmx _]. fold d1 in Hmx.
    pose proof (Zdigits2_bounds (Zpos my) ltac:(lia)) as [_ Hmy]. fold d2 in Hmy.
    pose proof (Zdigits2_pos (Zpos mx) ltac:(lia)) as Hd1. fold d1 in Hd1.
    pose proof (Zdigits2_pos (Zpos my) ltac:(lia)) as Hd2. fold d2 in Hd2.
    assert (Hbig : (2 ^ 52 * Zpos my <= m')%Z).
    { rewrite Hm'.
      assert (H1 : (2 ^ (d1 - 1) * 2 ^ s <= Zpos mx * 2 ^ s)%Z) by nia.
      assert (H2 : (2 ^ (52 + d2) <= 2 ^ (d1 - 1) * 2 ^ s)%Z).
      { rewrite <- Z.pow_add_r by lia. apply Z.pow_le_mono_r; lia. }
      assert (H3 : (2 ^ 52 * Zpos my <= 2 ^ (52 + d2))%Z).
      { rewrite Z.pow_add_r by lia. nia. }
      lia. }
    assert (Hq52 : (2 ^ 52 <= q)%Z).
    { destruct (Z_le_gt_dec (2 ^ 52) q) as [H | H]; [exact H | exfalso]. nia. }
    assert (Hdq : (52 < Zdigits2 q)%Z).
    { pose proof (Zdigits2_bounds q ltac:(lia)) as [_ Hhi].
      apply (Z.pow_lt_mono_r_iff 2); [lia | apply Zdigits2_nonneg | lia]. }
    lia.
Qed.

Lemma SFdiv_correct (x y : spec_float) :
  SFfinite x = true -> SFfinite y = true -> SF2R y <> 0 ->
  Rabs (SF2R x / SF2R y) < bpow 1000 ->
  SFfinite (SF64div x y) = true /\
  Rabs (SF2R (SF64div x y) - SF2R x / SF2R y) <= eps * Rabs (SF2R x / SF2R y) + eta.
Proof.
  intros Fx Fy Hy0 Hb.
  pose proof (bpow_pos (-51)) as P51. pose proof (bpow_pos (-1073)) as P1073.
  destruct y as [sy | sy | | sy my ey]; try discriminate Fy;
    [exfalso; apply Hy0; reflexivity | ].
  destruct x as [sx | sx | | sx mx ex]; try discriminate Fx.
  - split; [reflexivity | ]. cbn [SF64div SFdiv SF2R].
    unfold Rdiv. rewrite Rmult_0_l, Rminus_diag, Rabs_R0. unfold eps, eta. lra.
  - unfold SF64div. cbn [SFdiv].
    pose proof (SFdiv_core_correct mx ex my ey) as Hcore. cbv zeta in Hcore.
    destruct (SFdiv_core_binary prec emax (Zpos mx) ex (Zpos my) ey) as [[q e'] l].
    cbn [fst snd] in Hcore. destruct Hcore as (Hq & Hin & HC).
    set (v := IZR (Zpos mx) * bpow ex / (IZR (Zpos my) * bpow ey)) in *.
    assert (Pmy : 0 < IZR (Zpos my) * bpow ey).
    { pose proof (bpow_pos ey). assert (0 < IZR (Zpos my)) by (apply IZR_lt; lia). nra. }
    assert (Pmx : 0 < IZR (Zpos mx) * bpow ex).
    { pose proof (bpow_pos ex). assert (0 < IZR (Zpos mx)) by (apply IZR_lt; lia). nra. }
    assert (Hv0 : 0 <= v).
    { unfold v, Rdiv. apply Rmult_le_pos; [lra | ]. apply Rlt_le, Rinv_0_lt_compat. exact Pmy. }
    assert (Hquot : SF2R (S754_finite sx mx ex) / SF2R (S754_finite sy my ey)
                    = sgn (xorb sx sy) * v).
    { rewrite !SF2R_finite_abs, sgn_xorb. unfold v.
      pose proof (bpow_pos ey) as Pey.
      assert (Pm : 0 < IZR (Zpos my)) by (apply IZR_lt; lia).
      destruct sx, sy; unfold sgn; cbn [xorb]; field; repeat split; lra. }
    rewrite Hquot in Hb |- *. rewrite Rabs_sgn_mul in Hb |- * by exact Hv0.
    apply binary_round_aux_correct.
    + exact Hq.
    + exact Hin.
    + right. exact HC.
    + intros Hlt. lia.
    + exact Hb.
Qed.

(** ** Square root *)

Lemma sqrt_lower (a b : R) : 0 <= a -> a * a < b -> a < sqrt b.
Proof.
  intros Ha Hab. rewrite <- (sqrt_square a Ha) at 1.
  apply sqrt_lt_1_alt. split; [nra | exact Hab].
Qed.

Lemma sqrt_upper (a b : R) : 0 <= a -> 0 <= b -> b < a * a -> sqrt b < a.
Proof.
  intros Ha Hb Hab. rewrite <- (sqrt_square a Ha).
  apply sqrt_lt_1_alt. split; [exact Hb | exact Hab].
Qed.

Lemma SFsqrt_core_correct (m : positive) (e : Z) :
  let r := SFsqrt_core_binary prec emax (Zpos m) e in
  let q := fst (fst r) in let e' := snd (fst r) in let l := snd r in
  let v := sqrt (IZR (Zpos m) * bpow e) in
  (0 <= q)%Z /\ inbet q l (v * bpow (- e')) /\ (e' <= fexp64 (Zdigits2 q + e'))%Z.
Proof.
  unfold SFsqrt_core_binary.
  set (d := Zdigits2 (Zpos m)).
  fold (fexp64 (Z.div2 (d + e + 1))).
  set (e' := Z.min (fexp64 (Z.div2 (d + e + 1))) (Z.div2 e)).
  set (s := (e - 2 * e')%Z).
  assert (Hdiv2 : forall z, (2 * Z.div2 z <= z < 2 * Z.div2 z + 2)%Z).
  { intros z. rewrite Z.div2_div. pose proof (Z.div_mod z 2 ltac:(lia)).
    pose proof (Z.mod_pos_bound z 2 ltac:(lia)). lia. }
  assert (Hs : (0 <= s)%Z).
  { unfold s, e'. pose proof (Hdiv2 e). lia. }
  set (m' := match s with
             | 0%Z => Zpos m
             | Zpos _ => Z.shiftl (Zpos m) s
             | Zneg _ => 0%Z
             end).
  assert (Hm' : m' = (Zpos m * 2 ^ s)%Z).
  { unfold m'. destruct s as [ | p | p] eqn:Es.
    - rewrite Z.pow_0_r. lia.
    - rewrite Z.shiftl_mul_pow2 by lia. reflexivity.
    - lia. }
  assert (P2s : (0 < 2 ^ s)%Z) by (apply Z.pow_pos_nonneg; lia).
  assert (Hm'0 : (0 < m')%Z) by nia.
  pose proof (Z.sqrtrem_spec m' ltac:(lia)) as Hsq.
  destruct (Z.sqrtrem m') as [q r]. destruct Hsq as [Heq Hr].
  cbn [fst snd].
  assert (Hq0 : (0 <= q)%Z) by nia.
  split; [exact Hq0 | ].
  assert (Hv : sqrt (IZR (Zpos m) * bpow e) * bpow (- e') = sqrt (IZR m')).
  { pose proof (bpow_pos e') as Pe'. pose proof (bpow_pos (- e')) as Pme'.
    assert (Hsplit : IZR (Zpos m) * bpow e = IZR m' * (bpow e' * bpow e')).
    { rewrite Hm', mult_IZR, IZR_pow2 by lia.
      rewrite Rmult_assoc, <- !bpow_add. f_equal. f_equal. unfold s. lia. }
    rewrite Hsplit, sqrt_mult; [ | apply IZR_le; lia | nra].
    rewrite sqrt_square by lra.
    rewrite Rmult_assoc, bpow_opp_mul. lra. }
  rewrite Hv.
  assert (HmR : IZR m' = IZR q * IZR q + IZR r).
  { rewrite Heq, plus_IZR, mult_IZR. reflexivity. }
  assert (Hq0R : 0 <= IZR q) by (apply IZR_le; exact Hq0).
  assert (Hr0R : 0 <= IZR r) by (apply IZR_le; lia).
  assert (Hr2R : IZR r <= 2 * IZR q).
  { replace (2 * IZR q) with (IZR (2 * q)) by (rewrite mult_IZR; reflexivity).
    apply IZR_le. lia. }
  split.
  - destruct (Z.eqb_spec r 0) as [-> | Hne].
    + cbn [inbet]. rewrite HmR, Rplus_0_r. apply sqrt_square. exact Hq0R.
    + assert (Hr1 : 1 <= IZR r) by (apply IZR_le; lia).
      destruct (Z.leb_spec r q) as [Hle | Hgt]; cbn [inbet].
      * assert (HleR : IZR r <= IZR q) by (apply IZR_le; exact Hle).
        split.
        -- apply sqrt_lower; [exact Hq0R | lra].
        -- apply sqrt_upper; [lra | nra | nra].
      * assert (HgtR : IZR q + 1 <= IZR r).
        { replace (IZR q + 1) with (IZR (q + 1)) by (rewrite plus_IZR; reflexivity).
          apply IZR_le. lia. }
        split.
        -- apply sqrt_lower; [lra | nra].
        -- apply sqrt_upper; [lra | nra | nra].
  - rewrite fexp64_eq.
    destruct (Z_le_gt_dec e' (-1074)) as [Hle | Hgt]; [lia | ].
    assert (He' : (e' <= Z.div2 (d + e + 1) - 53)%Z).
    { unfold e' in Hgt |- *. rewrite fexp64_eq in Hgt |- *. lia. }
    pose proof (Hdiv2 (d + e + 1)%Z) as Hd2.
    assert (Hs104 : (104 <= d - 1 + s)%Z) by (unfold s; lia).
    pose proof (Zdigits2_bounds (Zpos m) ltac:(lia)) as [Hmlo _]. fold d in Hmlo.
    pose proof (Zdigits2_pos (Zpos m) ltac:(lia)) as Hd. fold d in Hd.
    assert (Hbig : (2 ^ 104 <= m')%Z).
    { rewrite Hm'.
      assert (H1 : (2 ^ (d - 1) * 2 ^ s <= Zpos m * 2 ^ s)%Z) by nia.
      assert (H2 : (2 ^ 104 <= 2 ^ (d - 1) * 2 ^ s)%Z).
      { rewrite <- Z.pow_add_r by lia. apply Z.pow_le_mono_r; lia. }
      lia. }
    assert (Hq52 : (2 ^ 52 <= q)%Z).
    { destruct (Z_le_gt_dec (2 ^ 52) q) as [H | H]; [exact H | exfalso].
      assert (H1 : (q + 1 <= 2 ^ 52)%Z) by lia.
      assert (H2 : ((q + 1) * (q + 1) <= 2 ^ 52 * 2 ^ 52)%Z) by nia.
      change (2 ^ 52 * 2 ^ 52)%Z with (2 ^ 104)%Z in H2. nia. }
    assert (Hdq : (52 < Zdigits2 q)%Z).
    { pose proof (Zdigits2_bounds q ltac:(lia)) as [_ Hhi].
      apply (Z.pow_lt_mono_r_iff 2); [lia | apply Zdigits2_nonneg | lia]. }
    lia.
Qed.

Lemma sqrt_le_max (x : R) : 0 <= x -> sqrt x <= 1 + x.
Proof.
  intros Hx. destruct (Rle_dec x 1) as [Hle | Hgt].
  - assert (sqrt x <= 1).
    { rewrite <- sqrt_1. apply sqrt_le_1_alt. exact Hle. }
    lra.
  - assert (sqrt x <= x).
    { rewrite <- (sqrt_square x Hx) at 2. apply sqrt_le_1_alt. nra. }
    lra.
Qed.

Lemma SFsqrt_correct (x : spec_float) :
  SFfinite x = true -> 0 <= SF2R x -> SF2R x < bpow 999 ->
  SFfinite (SF64sqrt x) = true /\
  Rabs (SF2R (SF64sqrt x) - sqrt (SF2R x)) <= eps * sqrt (SF2R x) + eta.
Proof.
  intros Fx H0 Hb.
  pose proof (bpow_pos (-51)) as P51. pose proof (bpow_pos (-1073)) as P1073.
  destruct x as [sx | sx | | sx mx ex]; try discriminate Fx.
  - split; [reflexivity | ]. cbn [SF64sqrt SFsqrt SF2R].
    rewrite sqrt_0, Rminus_diag, Rabs_R0. unfold eps, eta. lra.
  - assert (Pv : 0 < IZR (Zpos mx) * bpow ex).
    { pose proof (bpow_pos ex). assert (0 < IZR (Zpos mx)) by (apply IZR_lt; lia). nra. }
    destruct sx.
    + exfalso. rewrite SF2R_finite_abs in H0. unfold sgn in H0. lra.
    + unfold SF64sqrt. cbn [SFsqrt].
      pose proof (SFsqrt_core_correct mx ex) as Hcore. cbv zeta in Hcore.
      destruct (SFsqrt_core_binary prec emax (Zpos mx) ex) as [[q e'] l].
      cbn [fst snd] in Hcore. destruct Hcore as (Hq & Hin & HC).
      rewrite SF2R_finite_abs in Hb |- *. unfold sgn in Hb |- *.
      rewrite Rmult_1_l in Hb |- *.
      set (v := sqrt (IZR (Zpos mx) * bpow ex)) in *.
      pose proof (binary_round_aux_correct false q e' l v Hq Hin (or_intror HC)) as Hbra.
      unfold sgn in Hbra. rewrite Rmult_1_l in Hbra.
      apply Hbra.
      * intros Hlt. lia.
      * pose proof (sqrt_le_max (IZR (Zpos mx) * bpow ex) ltac:(lra)) as Hs.
        fold v in Hs.
        assert (H1 : bpow 1000 = 2 * bpow 999).
        { replace 1000%Z with (999 + 1)%Z by lia. apply bpow_succ. }
        assert (H2 : 1 <= bpow 999) by (apply bpow_ge_1; lia).
        lra.
Qed.

(** ** Primitive floats *)

Lemma Fmul_correct (x y : float) :
  Ffinite x = true -> Ffinite y = true ->
  Rabs (F2R x * F2R y) < bpow 1000 ->
  Ffinite (x * y) = true /\
  Rabs (F2R (x * y) - F2R x * F2R y) <= eps * Rabs (F2R x * F2R y) + eta.
Proof.
  unfold Ffinite, F2R. rewrite mul_spec. intros Fx Fy Hb.
  apply SFmul_correct; try assumption; apply Prim2SF_valid.
Qed.

Lemma Fadd_correct (x y : float) :
  Ffinite x = true -> Ffinite y = true ->
  Rabs (F2R x + F2R y) < bpow 1000 ->
  Ffinite (x + y) = true /\
  Rabs (F2R (x + y) - (F2R x + F2R y)) <= eps * Rabs (F2R x + F2R y) + eta.
Proof.
  unfold Ffinite, F2R. rewrite add_spec. intros Fx Fy Hb.
  apply SFadd_correct; assumption.
Qed.

Lemma Fsub_correct (x y : float) :
  Ffinite x = true -> Ffinite y = true ->
  Rabs (F2R x - F2R y) < bpow 1000 ->
  Ffinite (x - y) = true /\
  Rabs (F2R (x - y) - (F2R x - F2R y)) <= eps * Rabs (F2R x - F2R y) + eta.
Proof.
  unfold Ffinite, F2R. rewrite sub_spec. intros Fx Fy Hb.
  apply SFsub_correct; assumption.
Qed.

Lemma Fdiv_correct (x y : float) :
  Ffinite x = true -> Ffinite y = true -> F2R y <> 0 ->
  Rabs (F2R x / F2R y) < bpow 1000 ->
  Ffinite (x / y) = true /\
  Rabs (F2R (x / y) - F2R x / F2R y) <= eps * Rabs (F2R x / F2R y) + eta.
Proof.
  unfold Ffinite, F2R. rewrite div_spec. intros Fx Fy Hy Hb.
  apply SFdiv_correct; assumption.
Qed.

Lemma Fsqrt_correct (x : float) :
  Ffinite x = true -> 0 <= F2R x -> F2R x < bpow 999 ->
  Ffinite (PrimFloat.sqrt x) = true /\
  Rabs (F2R (PrimFloat.sqrt x) - sqrt (F2R x)) <= eps * sqrt (F2R x) + eta.
Proof.
  unfold Ffinite, F2R. rewrite sqrt_spec. intros Fx H0 Hb.
  apply SFsqrt_correct; assumption.
Qed.

Lemma Fopp_correct (x : float) :
  Ffinite (- x) = Ffinite x /\ F2R (- x) = - F2R x.
Proof.
  unfold Ffinite, F2R. rewrite opp_spec.
  destruct (Prim2SF x) as [s | s | | s m e]; cbn [SFopp SFfinite SF2R];
    split; try reflexivity; try lra.
  destruct s; cbn [negb]; lra.
Qed.

Lemma Fzero_correct : Ffinite 0 = true /\ F2R 0 = 0.
Proof. split; reflexivity. Qed.

Lemma Fone_correct : Ffinite 1 = true /\ F2R 1 = 1.
Proof.
  unfold Ffinite, F2R.
  replace (Prim2SF 1) with (S754_finite false 4503599627370496 (-52))
    by (vm_compute; reflexivity).
  split; [reflexivity | ].
  cbn [SF2R]. change 4503599627370496%Z with (2 ^ 52)%Z.
  rewrite IZR_pow2 by lia. rewrite bpow_opp_mul. lra.
Qed.

(** A finite float with a positive value compares greater than zero. *)
Lemma Fltb_zero (x : float) :
  Ffinite x = true -> 0 < F2R x -> PrimFloat.ltb 0 x = true.
Proof.
  unfold Ffinite, F2R. rewrite ltb_spec.
  replace (Prim2SF 0) with (S754_zero false) by (vm_compute; reflexivity).
  destruct (Prim2SF x) as [s | s | | s m e]; cbn [SFfinite SF2R]; try discriminate;
    intros _ H; try lra.
  destruct s; [ | reflexivity].
  exfalso. assert (0 < IZR (Zpos m) * bpow e).
  { pose proof (bpow_pos e). assert (0 < IZR (Zpos m)) by (apply IZR_lt; lia). nra. }
  lra.
Qed.

End Rounding.

(* ================================================================== *)
(** * 18. Transform: inverse and composition, in double precision     *)
(* ================================================================== *)

(** C7, as stated, fails in double precision.  [far_pose] sits at
    1e7 on each axis, where neighbouring doubles are 2^-29 (1.9e-9)
    apart, and its rotation, (1, 1, 0, 0) normalized, has the rounded
    components 0.70710678118654746.  The position of
    [T * T.inverse()] comes out two such steps from zero on each axis,
    6.5e-9 from the origin. *)
Lemma transform_compose_inverse_binary64_counterexample :
  Transform_constructed far_pose /\
  Transform_getPosition (Transform_compose far_pose (Transform_inverse far_pose))
  = mkVec3 0x1p-28%float 0x1p-28%float 0x1p-28%float /\
  dltb (lit 1 9)
       (Vec3_length (Transform_getPosition
                       (Transform_compose far_pose (Transform_inverse far_pose))))
  = true.
Proof.
  split; [constructor | split]; vm_compute; reflexivity.
Qed.

(** The constructor does not always store a unit rotation.  For
    [overflow_pose] the magnitude is computed as infinity, every
    component is divided by it, and the stored rotation is
    (0, 0, 0, 0); [T * T.inverse()] then keeps the position of [T]. *)
Lemma transform_compose_inverse_overflow :
  Transform_constructed overflow_pose /\
  Transform_getRotation overflow_pose =
    mkQuaternion (of_Z 0) (of_Z 0) (of_Z 0) (of_Z 0) /\
  Transform_getPosition (Transform_compose overflow_pose (Transform_inverse overflow_pose))
  = mkVec3 (of_Z 1) (of_Z 0) (of_Z 0).
Proof.
  split; [constructor | split]; vm_compute; reflexivity.
Qed.

(** Nor is a rotation argument too small for its squared magnitude.
    For [underflow_pose] the squares are rounded to a multiple of
    2^-1074, the stored rotation has the squared magnitude 13/12, and
    the position of [T * T.inverse()] is more than 0.1 from the
    origin. *)
Lemma transform_compose_inverse_underflow :
  Transform_constructed underflow_pose /\
  dltb (lit 1 1)
       (Vec3_length (Transform_getPosition
                       (Transform_compose underflow_pose (Transform_inverse underflow_pose))))
  = true.
Proof.
  split; [constructor | ]; vm_compute; reflexivity.
Qed.

Section QuaternionRounding.
Local Open Scope R_scope.

Lemma eps_bounds : 0 < eps <= / 1000.
Proof.
  unfold eps. split; [apply bpow_pos | ].
  apply Rle_trans with (bpow (-10)); [apply bpow_le; lia | ].
  unfold bpow. simpl. lra.
Qed.

Lemma eta_pos : 0 < eta.
Proof. apply bpow_pos. Qed.

Lemma fop_correct (s : bool) (x y : float) :
  Ffinite x = true -> Ffinite y = true ->
  Rabs (rop s (F2R x) (F2R y)) < bpow 1000 ->
  Ffinite (fop s x y) = true /\
  Rabs (F2R (fop s x y) - rop s (F2R x) (F2R y))
    <= eps * Rabs (rop s (F2R x) (F2R y)) + eta.
Proof.
  destruct s; unfold fop, rop; [apply Fsub_correct | apply Fadd_correct].
Qed.

Lemma bpow_1000 : bpow 1000 = 1024 * bpow 990.
Proof.
  replace 1000%Z with (10 + 990)%Z by lia. rewrite bpow_add.
  f_equal. unfold bpow. simpl. lra.
Qed.

Lemma bpow_990_ge_1 : 1 <= bpow 990.
Proof. apply bpow_ge_1. lia. Qed.

Lemma eta_le_1 : eta <= 1.
Proof.
  unfold eta. replace 1 with (bpow 0) by reflexivity. apply bpow_le. lia.
Qed.

Lemma approx_weaken (x : float) (r e b e' b' : R) :
  approx x r e b -> e <= e' -> b <= b' -> approx x r e' b'.
Proof. intros (Hf & He & Hb) H1 H2. repeat split; [exact Hf | lra | lra]. Qed.

Lemma approx_bound (x : float) (r e b : R) :
  approx x r e b -> Rabs (F2R x) <= b + e.
Proof.
  intros (_ & He & Hb).
  replace (F2R x) with ((F2R x - r) + r) by lra.
  eapply Rle_trans; [apply Rabs_triang | lra].
Qed.

Lemma approx_exact (x : float) (b : R) :
  Ffinite x = true -> Rabs (F2R x) <= b -> approx x (F2R x) 0 b.
Proof.
  intros Hf Hb. repeat split; [exact Hf | | exact Hb].
  rewrite Rminus_diag, Rabs_R0. lra.
Qed.

(** A product of two doubles. *)
Lemma approx_mul (x y : float) (A B : R) :
  Ffinite x = true -> Ffinite y = true ->
  Rabs (F2R x) <= A -> Rabs (F2R y) <= B -> A * B <= bpow 990 ->
  approx (x * y)%float (F2R x * F2R y) (eps * (A * B) + eta) (A * B).
Proof.
  intros Fx Fy Hx Hy Hab.
  pose proof (Rabs_pos (F2R x)) as Px. pose proof (Rabs_pos (F2R y)) as Py.
  assert (Hp : Rabs (F2R x * F2R y) <= A * B).
  { rewrite Rabs_mult. apply Rmult_le_compat; assumption. }
  pose proof bpow_1000 as H1000. pose proof bpow_990_ge_1 as H990.
  destruct (Fmul_correct x y Fx Fy ltac:(lra)) as (Hf & He).
  pose proof eps_bounds as [He0 _].
  repeat split; [exact Hf | | exact Hp]. nra.
Qed.

(** A sum or a difference of two doubles that approximate [rx] and
    [ry]. *)
Lemma approx_op (s : bool) (x y : float) (rx ex bx ry ey by_ : R) :
  approx x rx ex bx -> approx y ry ey by_ ->
  bx + ex + by_ + ey <= bpow 990 ->
  approx (fop s x y) (rop s rx ry)
         (ex + ey + eps * (bx + ex + by_ + ey) + eta) (bx + by_).
Proof.
  intros Hx Hy Hb.
  pose proof (approx_bound _ _ _ _ Hx) as Bx. pose proof (approx_bound _ _ _ _ Hy) as By.
  destruct Hx as (Fx & Ex & Mx), Hy as (Fy & Ey & My).
  pose proof bpow_1000 as H1000. pose proof bpow_990_ge_1 as H990.
  pose proof eps_bounds as [He0 _].
  assert (Hop : Rabs (rop s (F2R x) (F2R y)) <= bx + ex + by_ + ey).
  { destruct s; unfold rop.
    - unfold Rminus. eapply Rle_trans; [apply Rabs_triang | ]. rewrite Rabs_Ropp. lra.
    - eapply Rle_trans; [apply Rabs_triang | ]. lra. }
  destruct (fop_correct s x y Fx Fy ltac:(lra)) as (Hf & He).
  repeat split; [exact Hf | | ].
  - replace (F2R (fop s x y) - rop s rx ry)
      with ((F2R (fop s x y) - rop s (F2R x) (F2R y))
            + (rop s (F2R x) (F2R y) - rop s rx ry)) by lra.
    eapply Rle_trans; [apply Rabs_triang | ].
    assert (Hd : Rabs (rop s (F2R x) (F2R y) - rop s rx ry) <= ex + ey).
    { destruct s; unfold rop.
      - replace (F2R x - F2R y - (rx - ry)) with ((F2R x - rx) + - (F2R y - ry)) by lra.
        eapply Rle_trans; [apply Rabs_triang | ]. rewrite Rabs_Ropp. lra.
      - replace (F2R x + F2R y - (rx + ry)) with ((F2R x - rx) + (F2R y - ry)) by lra.
        eapply Rle_trans; [apply Rabs_triang | ]. lra. }
    nra.
  - destruct s; unfold rop.
    + unfold Rminus. eapply Rle_trans; [apply Rabs_triang | ]. rewrite Rabs_Ropp. lra.
    + eapply Rle_trans; [apply Rabs_triang | ]. lra.
Qed.

(** Four products added or subtracted from the left, as in each
    component of a quaternion product. *)
Lemma dot4_correct (s2 s3 s4 : bool) (a1 b1 a2 b2 a3 b3 a4 b4 : float) (A B : R) :
  Ffinite a1 = true -> Ffinite b1 = true -> Ffinite a2 = true -> Ffinite b2 = true ->
  Ffinite a3 = true -> Ffinite b3 = true -> Ffinite a4 = true -> Ffinite b4 = true ->
  Rabs (F2R a1) <= A -> Rabs (F2R a2) <= A -> Rabs (F2R a3) <= A -> Rabs (F2R a4) <= A ->
  Rabs (F2R b1) <= B -> Rabs (F2R b2) <= B -> Rabs (F2R b3) <= B -> Rabs (F2R b4) <= B ->
  A * B <= bpow 980 ->
  approx (fop s4 (fop s3 (fop s2 (a1 * b1) (a2 * b2)) (a3 * b3)) (a4 * b4))%float
         (rop s4 (rop s3 (rop s2 (F2R a1 * F2R b1) (F2R a2 * F2R b2))
                         (F2R a3 * F2R b3)) (F2R a4 * F2R b4))
         (14 * (eps * (A * B)) + 8 * eta) (4 * (A * B)).
Proof.
  intros F1 G1 F2 G2 F3 G3 F4 G4 HA1 HA2 HA3 HA4 HB1 HB2 HB3 HB4 HAB.
  assert (H0 : 0 <= A * B).
  { pose proof (Rabs_pos (F2R a1)). pose proof (Rabs_pos (F2R b1)).
    apply Rmult_le_pos; lra. }
  assert (H980 : bpow 990 = 1024 * bpow 980).
  { replace 990%Z with (10 + 980)%Z by lia. rewrite bpow_add.
    f_equal. unfold bpow. simpl. lra. }
  assert (H980' : 1 <= bpow 980) by (apply bpow_ge_1; lia).
  pose proof eps_bounds as [He0 He1]. pose proof eta_pos as Ht0.
  pose proof eta_le_1 as Ht1.
  set (P := A * B) in *.
  assert (HP : P <= bpow 990) by lra.
  pose proof (approx_mul a1 b1 A B F1 G1 HA1 HB1 HP) as M1.
  pose proof (approx_mul a2 b2 A B F2 G2 HA2 HB2 HP) as M2.
  pose proof (approx_mul a3 b3 A B F3 G3 HA3 HB3 HP) as M3.
  pose proof (approx_mul a4 b4 A B F4 G4 HA4 HB4 HP) as M4.
  fold P in M1, M2, M3, M4.
  assert (HepsP : 0 <= eps * P) by nra.
  assert (HeP : eps * P <= P / 1000) by nra.
  assert (Hee : eps * (eps * P) <= eps * P / 1000) by nra.
  assert (Het : eps * eta <= eta / 1000) by nra.
  assert (Het0 : 0 <= eps * eta) by nra.
  assert (Hee0 : 0 <= eps * (eps * P)) by nra.
  pose proof (approx_op s2 _ _ _ _ _ _ _ _ M1 M2 ltac:(lra)) as S2.
  apply (approx_weaken _ _ _ _ (41 / 10 * (eps * P) + 31 / 10 * eta) (2 * P)) in S2; [ | lra | lra].
  pose proof (approx_op s3 _ _ _ _ _ _ _ _ S2 M3 ltac:(lra)) as S3.
  apply (approx_weaken _ _ _ _ (82 / 10 * (eps * P) + 52 / 10 * eta) (3 * P)) in S3; [ | lra | lra].
  pose proof (approx_op s4 _ _ _ _ _ _ _ _ S3 M4 ltac:(lra)) as S4.
  eapply approx_weaken; [exact S4 | lra | lra].
Qed.

Lemma approx_nonneg (x : float) (r e b : R) : approx x r e b -> 0 <= e /\ 0 <= b.
Proof.
  intros (_ & He & Hb). pose proof (Rabs_pos (F2R x - r)). pose proof (Rabs_pos r).
  split; lra.
Qed.

Lemma rop_diff (s : bool) (x y x' y' dx dy : R) :
  Rabs (x - x') <= dx -> Rabs (y - y') <= dy ->
  Rabs (rop s x y - rop s x' y') <= dx + dy.
Proof.
  intros Hx Hy. destruct s; unfold rop.
  - replace (x - y - (x' - y')) with ((x - x') + - (y - y')) by lra.
    eapply Rle_trans; [apply Rabs_triang | ]. rewrite Rabs_Ropp. lra.
  - replace (x + y - (x' + y')) with ((x - x') + (y - y')) by lra.
    eapply Rle_trans; [apply Rabs_triang | ]. lra.
Qed.

Lemma rop_abs (s : bool) (x y bx by_ : R) :
  Rabs x <= bx -> Rabs y <= by_ -> Rabs (rop s x y) <= bx + by_.
Proof.
  intros Hx Hy. destruct s; unfold rop.
  - unfold Rminus. eapply Rle_trans; [apply Rabs_triang | ]. rewrite Rabs_Ropp. lra.
  - eapply Rle_trans; [apply Rabs_triang | ]. lra.
Qed.

Lemma prod_abs (x y bx by_ : R) :
  Rabs x <= bx -> Rabs y <= by_ -> Rabs (x * y) <= bx * by_.
Proof.
  intros Hx Hy. rewrite Rabs_mult.
  apply Rmult_le_compat; try apply Rabs_pos; assumption.
Qed.

Lemma prod_diff (a b x y ea ba eb bb : R) :
  Rabs (a - x) <= ea -> Rabs x <= ba -> Rabs (b - y) <= eb -> Rabs y <= bb ->
  Rabs (a * b - x * y) <= ea * (bb + eb) + ba * eb.
Proof.
  intros Ha Hx Hb Hy.
  replace (a * b - x * y) with ((a - x) * b + x * (b - y)) by ring.
  eapply Rle_trans; [apply Rabs_triang | ].
  apply Rplus_le_compat.
  - apply prod_abs; [exact Ha | ].
    replace b with ((b - y) + y) by lra.
    eapply Rle_trans; [apply Rabs_triang | lra].
  - apply prod_abs; assumption.
Qed.

(** The same for doubles that approximate real numbers. *)
Lemma dot4_approx (s2 s3 s4 : bool) (a1 b1 a2 b2 a3 b3 a4 b4 : float)
    (x1 y1 x2 y2 x3 y3 x4 y4 ea ba eb bb : R) :
  approx a1 x1 ea ba -> approx a2 x2 ea ba -> approx a3 x3 ea ba -> approx a4 x4 ea ba ->
  approx b1 y1 eb bb -> approx b2 y2 eb bb -> approx b3 y3 eb bb -> approx b4 y4 eb bb ->
  (ba + ea) * (bb + eb) <= bpow 980 ->
  approx (fop s4 (fop s3 (fop s2 (a1 * b1) (a2 * b2)) (a3 * b3)) (a4 * b4))%float
         (rop s4 (rop s3 (rop s2 (x1 * y1) (x2 * y2)) (x3 * y3)) (x4 * y4))
         (14 * (eps * ((ba + ea) * (bb + eb))) + 8 * eta
          + 4 * (ea * (bb + eb) + ba * eb))
         (4 * (ba * bb)).
Proof.
  intros A1 A2 A3 A4 B1 B2 B3 B4 Hb.
  pose proof (approx_bound _ _ _ _ A1) as HA1. pose proof (approx_bound _ _ _ _ A2) as HA2.
  pose proof (approx_bound _ _ _ _ A3) as HA3. pose proof (approx_bound _ _ _ _ A4) as HA4.
  pose proof (approx_bound _ _ _ _ B1) as HB1. pose proof (approx_bound _ _ _ _ B2) as HB2.
  pose proof (approx_bound _ _ _ _ B3) as HB3. pose proof (approx_bound _ _ _ _ B4) as HB4.
  destruct A1 as (F1 & E1 & M1), A2 as (F2 & E2 & M2), A3 as (F3 & E3 & M3),
           A4 as (F4 & E4 & M4), B1 as (G1 & D1 & N1), B2 as (G2 & D2 & N2),
           B3 as (G3 & D3 & N3), B4 as (G4 & D4 & N4).
  destruct (dot4_correct s2 s3 s4 a1 b1 a2 b2 a3 b3 a4 b4 (ba + ea) (bb + eb)
              F1 G1 F2 G2 F3 G3 F4 G4 HA1 HA2 HA3 HA4 HB1 HB2 HB3 HB4 Hb)
    as (Hf & He & _).
  pose proof (prod_diff _ _ _ _ _ _ _ _ E1 M1 D1 N1) as P1.
  pose proof (prod_diff _ _ _ _ _ _ _ _ E2 M2 D2 N2) as P2.
  pose proof (prod_diff _ _ _ _ _ _ _ _ E3 M3 D3 N3) as P3.
  pose proof (prod_diff _ _ _ _ _ _ _ _ E4 M4 D4 N4) as P4.
  pose proof (prod_abs _ _ _ _ M1 N1) as Q1. pose proof (prod_abs _ _ _ _ M2 N2) as Q2.
  pose proof (prod_abs _ _ _ _ M3 N3) as Q3. pose proof (prod_abs _ _ _ _ M4 N4) as Q4.
  repeat split; [exact Hf | | ].
  - match goal with |- Rabs (?f - ?r) <= _ =>
      match type of He with Rabs (_ - ?m) <= _ =>
        replace (f - r) with ((f - m) + (m - r)) by lra
      end
    end.
    eapply Rle_trans; [apply Rabs_triang | ].
    pose proof (rop_diff s4 _ _ _ _ _ _
                  (rop_diff s3 _ _ _ _ _ _ (rop_diff s2 _ _ _ _ _ _ P1 P2) P3) P4) as Hd.
    lra.
  - pose proof (rop_abs s4 _ _ _ _
                  (rop_abs s3 _ _ _ _ (rop_abs s2 _ _ _ _ Q1 Q2) Q3) Q4) as Ha.
    lra.
Qed.

Lemma approx_opp (x : float) (r e b : R) :
  approx x r e b -> approx (- x)%float (- r) e b.
Proof.
  intros (Hf & He & Hb). destruct (Fopp_correct x) as [H1 H2].
  repeat split.
  - rewrite H1. exact Hf.
  - rewrite H2. replace (- F2R x - - r) with (- (F2R x - r)) by lra.
    rewrite Rabs_Ropp. exact He.
  - rewrite Rabs_Ropp. exact Hb.
Qed.

Lemma approx_zero (e b : R) : 0 <= e -> 0 <= b -> approx 0%float 0 e b.
Proof.
  intros He Hb. destruct Fzero_correct as [H1 H2].
  split; [exact H1 | split].
  - rewrite H2, Rminus_diag, Rabs_R0. exact He.
  - rewrite Rabs_R0. exact Hb.
Qed.

(** [Quaternion::operator*] *)
Lemma qmul_approx (a b : Quaternion float) (P Q : Quaternion R) (ea ba eb bb : R) :
  qapprox a P ea ba -> qapprox b Q eb bb ->
  (ba + ea) * (bb + eb) <= bpow 980 ->
  qapprox (Quaternion_mul a b) (Rq_mul P Q)
          (14 * (eps * ((ba + ea) * (bb + eb))) + 8 * eta
           + 4 * (ea * (bb + eb) + ba * eb))
          (4 * (ba * bb)).
Proof.
  intros (Aw & Ax & Ay & Az) (Bw & Bx & By & Bz) Hb.
  unfold qapprox, Quaternion_mul, Rq_mul; cbn [qw qx qy qz].
  split; [ | split; [ | split]].
  - exact (dot4_approx true true true _ _ _ _ _ _ _ _ _ _ _ _ _ _ _ _ _ _ _ _
             Aw Ax Ay Az Bw Bx By Bz Hb).
  - exact (dot4_approx false false true _ _ _ _ _ _ _ _ _ _ _ _ _ _ _ _ _ _ _ _
             Aw Ax Ay Az Bx Bw Bz By Hb).
  - exact (dot4_approx true false false _ _ _ _ _ _ _ _ _ _ _ _ _ _ _ _ _ _ _ _
             Aw Ax Ay Az By Bz Bw Bx Hb).
  - exact (dot4_approx false true false _ _ _ _ _ _ _ _ _ _ _ _ _ _ _ _ _ _ _ _
             Aw Ax Ay Az Bz By Bx Bw Hb).
Qed.

Lemma qconjugate_approx (a : Quaternion float) (P : Quaternion R) (e b : R) :
  qapprox a P e b -> qapprox (Quaternion_conjugate a) (Rq_conjugate P) e b.
Proof.
  intros (Aw & Ax & Ay & Az).
  unfold qapprox, Quaternion_conjugate, Rq_conjugate; cbn [qw qx qy qz].
  split; [exact Aw | split; [ | split]]; apply approx_opp; assumption.
Qed.

Lemma qapprox_weaken (a : Quaternion float) (P : Quaternion R) (e b e' b' : R) :
  qapprox a P e b -> e <= e' -> b <= b' -> qapprox a P e' b'.
Proof.
  intros (Aw & Ax & Ay & Az) He Hb.
  split; [ | split; [ | split]]; eapply approx_weaken; eassumption.
Qed.

(** [Quaternion::rotate] by a quaternion with components of at most
    1.01. *)
Lemma rotate_approx (q : Quaternion float) (v : Vec3 float) (V : Vec3 R) (ev bv : R) :
  qbounded q (101 / 100) -> vapprox v V ev bv -> bv + ev <= bpow 970 ->
  vapprox (Quaternion_rotate q v) (Rq_rotate (Q2R q) V)
          (115 * (eps * (bv + ev)) + 41 * eta + 17 * ev) (17 * bv).
Proof.
  intros Hq (Vx & Vy & Vz) Hb.
  destruct (approx_nonneg _ _ _ _ Vx) as [He0 Hb0].
  pose proof eps_bounds as [Hp0 Hp1]. pose proof eta_pos as Ht0.
  assert (H970 : bpow 980 = 1024 * bpow 970).
  { replace 980%Z with (10 + 970)%Z by lia. rewrite bpow_add.
    f_equal. unfold bpow. simpl. lra. }
  assert (H970' : 1 <= bpow 970) by (apply bpow_ge_1; lia).
  pose proof eta_le_1 as Ht1.
  assert (Hqv : qapprox (mkQuaternion (of_Z 0) (vx v) (vy v) (vz v)) (Rq_pure V) ev bv).
  { split; [ | split; [ | split]]; cbn [qw qx qy qz Rq_pure]; try assumption.
    apply approx_zero; assumption. }
  assert (E1 : 0 <= eps * bv) by nra.
  assert (E2 : 0 <= eps * ev) by nra.
  assert (E3 : eps * bv <= bv / 1000) by nra.
  assert (E4 : eps * ev <= ev / 1000) by nra.
  assert (E5 : 0 <= eps * eta) by nra.
  assert (E6 : eps * eta <= eta / 1000) by nra.
  assert (E7 : 0 <= eps * (eps * bv)) by nra.
  assert (E8 : eps * (eps * bv) <= eps * bv / 1000) by nra.
  assert (E9 : 0 <= eps * (eps * ev)) by nra.
  assert (E10 : eps * (eps * ev) <= eps * ev / 1000) by nra.
  pose proof (qmul_approx _ _ _ _ _ _ _ _ Hq Hqv ltac:(lra)) as S1.
  apply (qapprox_weaken _ _ _ _
           (1415 / 100 * (eps * (bv + ev)) + 8 * eta + 404 / 100 * ev)
           (404 / 100 * bv)) in S1; [ | lra | lra].
  pose proof (qmul_approx _ _ _ _ _ _ _ _ S1 (qconjugate_approx _ _ _ _ Hq) ltac:(lra)) as S2.
  apply (qapprox_weaken _ _ _ _
           (115 * (eps * (bv + ev)) + 41 * eta + 17 * ev) (17 * bv)) in S2; [ | lra | lra].
  destruct S2 as (_ & Sx & Sy & Sz).
  unfold vapprox, Quaternion_rotate, Rq_rotate. cbn [vx vy vz].
  split; [exact Sx | split; [exact Sy | exact Sz]].
Qed.

Lemma sqrt_between (lo hi s : R) :
  0 <= lo -> lo * lo <= s -> s <= hi * hi -> 0 <= hi -> lo <= sqrt s <= hi.
Proof.
  intros Hlo H1 H2 Hhi. split.
  - rewrite <- (sqrt_square lo Hlo). apply sqrt_le_1_alt. exact H1.
  - rewrite <- (sqrt_square hi Hhi). apply sqrt_le_1_alt. exact H2.
Qed.

Lemma bpow_split (a b : Z) : bpow (a + b) = bpow a * bpow b.
Proof. apply bpow_add. Qed.

(** Dividing by a number close to [r] instead of by [r]. *)
Lemma div_close (a m r u : R) :
  0 < r -> Rabs a <= r -> Rabs (m - r) <= u * r -> 0 <= u <= / 50 ->
  Rabs (a / m - / r * a) <= 103 / 100 * u /\ Rabs (a / m) <= 103 / 100.
Proof.
  intros Hr Ha Hm [Hu0 Hu1].
  apply Rabs_le_inv in Ha, Hm.
  assert (Hur : u * r <= r / 50) by nra.
  assert (Hm0 : 49 / 50 * r <= m) by lra.
  assert (Hmp : 0 < m) by lra.
  set (x := a / m).
  assert (Hx : x * m = a) by (unfold x; field; lra).
  assert (Hx1 : x <= 50 / 49).
  { apply (Rmult_le_reg_r m); [exact Hmp | ]. rewrite Hx. lra. }
  assert (Hx2 : - (50 / 49) <= x).
  { apply (Rmult_le_reg_r m); [exact Hmp | ]. rewrite Hx. lra. }
  split; [ | apply Rabs_le; lra].
  set (d := x - / r * a).
  assert (Hd : d * r = x * (r - m)).
  { unfold d. rewrite <- Hx. field. lra. }
  assert (Hp : Rabs (x * (r - m)) <= 50 / 49 * (u * r)).
  { apply prod_abs; [apply Rabs_le; lra | apply Rabs_le; lra]. }
  rewrite <- Hd in Hp. apply Rabs_le_inv in Hp.
  apply Rabs_le. split.
  - apply (Rmult_le_reg_r r); [exact Hr | ]. nra.
  - apply (Rmult_le_reg_r r); [exact Hr | ]. nra.
Qed.

(** [Quaternion::normalized] on a quaternion that is neither so large
    that its squared magnitude overflows nor so small that it
    underflows: the result is the quotient by the magnitude, up to 20
    roundings. *)
Lemma normalized_approx (q : Quaternion float) :
  qbounded q (bpow 480) -> bpow (-1000) <= Rq_norm2 (Q2R q) ->
  qapprox (Quaternion_normalized q)
          (Rq_scale (/ sqrt (Rq_norm2 (Q2R q))) (Q2R q)) (20 * eps) 1.
Proof.
  intros (Bw & Bx & By & Bz) HS.
  destruct q as [w x y z].
  unfold Rq_norm2, Q2R in *; cbn [qw qx qy qz] in *.
  destruct Bw as (Fw & _ & Mw), Bx as (Fx & _ & Mx), By as (Fy & _ & My),
           Bz as (Fz & _ & Mz).
  set (S := F2R w * F2R w + F2R x * F2R x + F2R y * F2R y + F2R z * F2R z) in *.
  set (r := sqrt S).
  pose proof eps_bounds as [Hp0 Hp1]. pose proof eta_pos as Ht0.
  assert (HS0 : 0 < S).
  { pose proof (bpow_pos (-1000)). lra. }
  assert (Hr0 : 0 < r) by (apply sqrt_lt_R0; exact HS0).
  assert (Hrr : r * r = S) by (apply sqrt_sqrt; lra).
  assert (Hcomp : forall a, a * a <= S -> Rabs a <= r).
  { intros a Ha. unfold r. rewrite <- sqrt_Rsqr_abs. apply sqrt_le_1_alt. exact Ha. }
  assert (Hw : Rabs (F2R w) <= r) by (apply Hcomp; unfold S; nra).
  assert (Hx : Rabs (F2R x) <= r) by (apply Hcomp; unfold S; nra).
  assert (Hy : Rabs (F2R y) <= r) by (apply Hcomp; unfold S; nra).
  assert (Hz : Rabs (F2R z) <= r) by (apply Hcomp; unfold S; nra).
  assert (H960 : bpow 480 * bpow 480 = bpow 960) by (rewrite <- bpow_add; reflexivity).
  assert (H980 : bpow 980 = bpow 20 * bpow 960) by (rewrite <- bpow_add; reflexivity).
  assert (H20 : 4 <= bpow 20) by (unfold bpow; simpl; lra).
  assert (H960' : 0 < bpow 960) by apply bpow_pos.
  assert (Hsq : forall a, Rabs a <= bpow 480 -> a * a <= bpow 960).
  { intros a Ha. rewrite <- H960. apply Rabs_le_inv in Ha. nra. }
  assert (HSmax : S <= 4 * bpow 960).
  { pose proof (Hsq _ Mw). pose proof (Hsq _ Mx). pose proof (Hsq _ My).
    pose proof (Hsq _ Mz). unfold S. lra. }
  assert (HS980 : r * r <= bpow 980) by nra.
  destruct (dot4_correct false false false w w x x y y z z r r
              Fw Fw Fx Fx Fy Fy Fz Fz Hw Hx Hy Hz Hw Hx Hy Hz HS980) as (FS & ES & _).
  cbn [fop rop] in FS, ES. fold S in ES. rewrite Hrr in ES.
  set (Sf := (w * w + x * x + y * y + z * z)%float) in *.
  (* the rounding of the sum is relative *)
  assert (Heta : 8 * eta <= eps * S).
  { assert (H1 : bpow (-1051) <= eps * S).
    { replace (-1051)%Z with (-51 + -1000)%Z by lia. rewrite bpow_add.
      unfold eps. apply Rmult_le_compat_l; [apply Rlt_le, bpow_pos | exact HS]. }
    assert (H2 : 8 * eta = bpow (-1070)).
    { unfold eta. replace (-1070)%Z with (3 + -1073)%Z by lia. rewrite bpow_add.
      f_equal. unfold bpow. simpl. lra. }
    assert (H3 : bpow (-1070) <= bpow (-1051)) by (apply bpow_le; lia).
    lra. }
  assert (ES' : Rabs (F2R Sf - S) <= 15 * eps * S) by lra.
  apply Rabs_le_inv in ES'.
  assert (HepsS : 0 <= eps * S) by nra.
  assert (HSf0 : 0 < F2R Sf) by nra.
  assert (HepsS' : eps * S <= S / 1000) by nra.
  assert (HSf1 : F2R Sf < bpow 999).
  { assert (bpow 981 < bpow 999) by (apply bpow_lt; lia).
    assert (bpow 981 = 2 * bpow 980).
    { replace 981%Z with (1 + 980)%Z by lia. rewrite bpow_add, bpow_1. reflexivity. }
    lra. }
  destruct (Fsqrt_correct Sf FS (Rlt_le _ _ HSf0) HSf1) as (Fm & Em).
  set (mag := PrimFloat.sqrt Sf) in *.
  assert (Hroot : r * (1 - 15 * eps) <= sqrt (F2R Sf) <= r * (1 + 15 * eps)).
  { apply sqrt_between; try nra. }
  assert (Hr500 : bpow (-500) <= r).
  { assert (H : bpow (-500) <= sqrt S <= S + 1).
    { apply sqrt_between; try lra.
      - apply Rlt_le, bpow_pos.
      - rewrite <- bpow_add. exact HS.
      - nra. }
    apply H. }
  assert (Heta' : eta <= eps * r / 1000).
  { assert (H1 : bpow (-551) <= eps * r).
    { replace (-551)%Z with (-51 + -500)%Z by lia. rewrite bpow_add.
      unfold eps. apply Rmult_le_compat_l; [apply Rlt_le, bpow_pos | exact Hr500]. }
    assert (H2 : 1024 * eta = bpow (-1063)).
    { unfold eta. replace (-1063)%Z with (10 + -1073)%Z by lia. rewrite bpow_add.
      f_equal. unfold bpow. simpl. lra. }
    assert (H3 : bpow (-1063) <= bpow (-551)) by (apply bpow_le; lia).
    lra. }
  assert (Hmag : Rabs (F2R mag - r) <= 17 * eps * r).
  { apply Rabs_le_inv in Em. apply Rabs_le.
    assert (0 <= eps * r) by nra.
    assert (eps * (eps * r) <= eps * r / 1000) by nra.
    assert (0 <= eps * (eps * r)) by nra.
    assert (eps * sqrt (F2R Sf) <= eps * (r * (1 + 15 * eps))).
    { apply Rmult_le_compat_l; lra. }
    assert (0 <= eps * sqrt (F2R Sf)).
    { apply Rmult_le_pos; [lra | apply sqrt_pos]. }
    lra. }
  assert (Hmag0 : 0 < F2R mag).
  { apply Rabs_le_inv in Hmag. nra. }
  unfold Quaternion_normalized, Quaternion_magnitude.
  cbn [qw qx qy qz dadd dmul dsqrt dltb ddiv of_Z binary64 float_of_Z].
  fold Sf. fold mag.
  change (PrimFloat.ltb PrimFloat.zero mag) with (PrimFloat.ltb 0 mag).
  rewrite (Fltb_zero mag Fm Hmag0).
  assert (Hu : 0 <= 17 * eps <= / 50) by lra.
  assert (Hcompo : forall a, Ffinite a = true -> Rabs (F2R a) <= r ->
            approx (a / mag)%float (/ r * F2R a) (20 * eps) 1).
  { intros a Fa Ha.
    destruct (div_close (F2R a) (F2R mag) r (17 * eps) Hr0 Ha Hmag Hu) as [D1 D2].
    assert (H1000 : 103 / 100 < bpow 1000).
    { pose proof bpow_1000. pose proof bpow_990_ge_1. lra. }
    destruct (Fdiv_correct a mag Fa Fm ltac:(lra) ltac:(lra)) as (Fd & Ed).
    split; [exact Fd | split].
    - replace (F2R (a / mag) - / r * F2R a)
        with ((F2R (a / mag) - F2R a / F2R mag) + (F2R a / F2R mag - / r * F2R a)) by lra.
      eapply Rle_trans; [apply Rabs_triang | ].
      assert (eps * Rabs (F2R a / F2R mag) <= eps * (103 / 100)).
      { apply Rmult_le_compat_l; lra. }
      assert (eta <= eps) by (unfold eta, eps; apply bpow_le; lia).
      lra.
    - rewrite Rabs_mult. rewrite (Rabs_pos_eq (/ r)).
      + apply (Rmult_le_reg_l r); [exact Hr0 | ].
        rewrite <- Rmult_assoc, Rinv_r by lra. lra.
      + apply Rlt_le, Rinv_0_lt_compat. exact Hr0. }
  unfold qapprox, Rq_scale. cbn [qw qx qy qz].
  split; [ | split; [ | split]]; apply Hcompo; assumption.
Qed.

(** ** Identities on real quaternions *)

Lemma Rq_mul_assoc (a b c : Quaternion R) :
  Rq_mul (Rq_mul a b) c = Rq_mul a (Rq_mul b c).
Proof. unfold Rq_mul; cbn [qw qx qy qz]. f_equal; ring. Qed.

Lemma Rq_conjugate_conjugate (q : Quaternion R) :
  Rq_conjugate (Rq_conjugate q) = q.
Proof.
  destruct q as [w x y z]. unfold Rq_conjugate; cbn [qw qx qy qz]. f_equal; ring.
Qed.

Lemma Rq_conjugate_norm2 (q : Quaternion R) :
  Rq_norm2 (Rq_conjugate q) = Rq_norm2 q.
Proof. unfold Rq_norm2, Rq_conjugate; cbn [qw qx qy qz]. ring. Qed.

(** [rotate] is the vector part of [q * (0, v) * conjugate(q)], whose
    scalar part is 0. *)
Lemma Rq_rotate_as_product (q : Quaternion R) (v : Vec3 R) :
  Rq_pure (Rq_rotate q v) = Rq_mul (Rq_mul q (Rq_pure v)) (Rq_conjugate q).
Proof.
  destruct q as [w x y z], v as [a b c].
  unfold Rq_rotate, Rq_mul, Rq_conjugate, Rq_pure.
  cbn [qw qx qy qz vx vy vz].
  f_equal; ring.
Qed.

Lemma Rq_pure_inj (u w : Vec3 R) : Rq_pure u = Rq_pure w -> u = w.
Proof.
  destruct u as [a b c], w as [a' b' c']. unfold Rq_pure; cbn [vx vy vz].
  intros Heq. injection Heq as -> -> ->. reflexivity.
Qed.

Lemma Rq_mul_conjugate_l (q : Quaternion R) :
  Rq_mul (Rq_conjugate q) q = mkQuaternion (Rq_norm2 q) 0 0 0.
Proof.
  destruct q as [w x y z]. unfold Rq_mul, Rq_conjugate, Rq_norm2.
  cbn [qw qx qy qz]. f_equal; ring.
Qed.

Lemma Rq_mul_real_pure_real (n : R) (v : Vec3 R) :
  Rq_mul (Rq_mul (mkQuaternion n 0 0 0) (Rq_pure v)) (mkQuaternion n 0 0 0)
  = Rq_pure (Rv_scale (n * n) v).
Proof.
  destruct v as [a b c]. unfold Rq_mul, Rq_pure, Rv_scale.
  cbn [qw qx qy qz vx vy vz]. f_equal; ring.
Qed.

(** Rotating there and back scales by the fourth power of the
    magnitude. *)
Lemma Rq_rotate_conjugate_rotate (q : Quaternion R) (v : Vec3 R) :
  Rq_rotate (Rq_conjugate q) (Rq_rotate q v)
  = Rv_scale (Rq_norm2 q * Rq_norm2 q) v.
Proof.
  apply Rq_pure_inj.
  rewrite (Rq_rotate_as_product (Rq_conjugate q) (Rq_rotate q v)).
  rewrite (Rq_rotate_as_product q v), Rq_conjugate_conjugate.
  rewrite !Rq_mul_assoc, Rq_mul_conjugate_l.
  rewrite <- (Rq_mul_assoc (Rq_conjugate q) q), Rq_mul_conjugate_l.
  rewrite <- Rq_mul_assoc.
  apply Rq_mul_real_pure_real.
Qed.

Lemma Rq_rotate_rotate_conjugate (q : Quaternion R) (v : Vec3 R) :
  Rq_rotate q (Rq_rotate (Rq_conjugate q) v)
  = Rv_scale (Rq_norm2 q * Rq_norm2 q) v.
Proof.
  pose proof (Rq_rotate_conjugate_rotate (Rq_conjugate q) v) as Hr.
  rewrite Rq_conjugate_conjugate, Rq_conjugate_norm2 in Hr. exact Hr.
Qed.

Lemma Rq_mul_scale_conjugate (q : Quaternion R) (c : R) :
  Rq_mul q (Rq_scale c (Rq_conjugate q)) = mkQuaternion (c * Rq_norm2 q) 0 0 0.
Proof.
  destruct q as [w x y z].
  unfold Rq_mul, Rq_conjugate, Rq_scale, Rq_norm2. cbn [qw qx qy qz].
  f_equal; ring.
Qed.

Lemma Rq_mul_norm2 (a b : Quaternion R) :
  Rq_norm2 (Rq_mul a b) = Rq_norm2 a * Rq_norm2 b.
Proof. unfold Rq_norm2, Rq_mul; cbn [qw qx qy qz]. ring. Qed.

(** A rotation scales the Euclidean length by the squared magnitude of
    the quaternion. *)
Lemma Rq_rotate_norm2 (q : Quaternion R) (v : Vec3 R) :
  Rq_norm2 (Rq_pure (Rq_rotate q v))
  = Rq_norm2 q * Rq_norm2 q * Rq_norm2 (Rq_pure v).
Proof.
  rewrite Rq_rotate_as_product, !Rq_mul_norm2, Rq_conjugate_norm2. ring.
Qed.

Lemma Rq_rotate_sub (q : Quaternion R) (u v : Vec3 R) :
  Rq_rotate q (Rv_sub u v) = Rv_sub (Rq_rotate q u) (Rq_rotate q v).
Proof.
  destruct q as [w x y z], u as [a b c], v as [a' b' c'].
  unfold Rq_rotate, Rq_mul, Rq_conjugate, Rq_pure, Rv_sub.
  cbn [qw qx qy qz vx vy vz]. f_equal; ring.
Qed.

Lemma Rq_norm2_nonneg (q : Quaternion R) : 0 <= Rq_norm2 q.
Proof. unfold Rq_norm2. nra. Qed.

Lemma square_le_abs (x c : R) : 0 <= c -> x * x <= c * c -> Rabs x <= c.
Proof. intros Hc H. apply Rabs_le. split; nra. Qed.

(** So a rotation by a quaternion of squared magnitude at most 1.01
    takes a vector with components of at most [b] to one with
    components of at most [7/4 b]. *)
Lemma Rq_rotate_bound (q : Quaternion R) (v : Vec3 R) (b : R) :
  Rq_norm2 q <= 101 / 100 ->
  Rabs (vx v) <= b -> Rabs (vy v) <= b -> Rabs (vz v) <= b ->
  Rabs (vx (Rq_rotate q v)) <= 7 / 4 * b /\
  Rabs (vy (Rq_rotate q v)) <= 7 / 4 * b /\
  Rabs (vz (Rq_rotate q v)) <= 7 / 4 * b.
Proof.
  intros Hn Hx Hy Hz.
  pose proof (Rq_rotate_norm2 q v) as Hr.
  pose proof (Rq_norm2_nonneg q) as Hn0.
  assert (Hb : 0 <= b) by (pose proof (Rabs_pos (vx v)); lra).
  remember (Rq_rotate q v) as w eqn:Hw. clear Hw.
  destruct w as [a b' c], v as [x y z].
  unfold Rq_norm2 at 1 4 in Hr. unfold Rq_pure in Hr. cbn [qw qx qy qz vx vy vz] in *.
  set (n := Rq_norm2 q) in *.
  apply Rabs_le_inv in Hx, Hy, Hz.
  assert (Hv : x * x + y * y + z * z <= 3 * (b * b)) by nra.
  assert (Hnn : n * n <= 10201 / 10000) by nra.
  assert (Hs : a * a + b' * b' + c * c <= 49 / 16 * (b * b)).
  { assert (H1 : n * n * (x * x + y * y + z * z) <= 10201 / 10000 * (3 * (b * b))).
    { apply Rmult_le_compat; nra. }
    nra. }
  assert (Hbb : 7 / 4 * b * (7 / 4 * b) = 49 / 16 * (b * b)) by field.
  assert (Hc : 0 <= 7 / 4 * b) by lra.
  split; [ | split]; apply square_le_abs; try exact Hc; rewrite Hbb; nra.
Qed.

Lemma approx_rebound (x : float) (r e b b' : R) :
  approx x r e b -> Rabs r <= b' -> approx x r e b'.
Proof. intros (Hf & He & _) Hb. split; [exact Hf | split; assumption]. Qed.

Lemma approx_F2R (x : float) (r e b : R) :
  approx x r e b -> approx x (F2R x) 0 (b + e).
Proof.
  intros H. pose proof (approx_bound _ _ _ _ H) as Hb. destruct H as (Hf & _).
  apply approx_exact; assumption.
Qed.

Lemma approx_shift (x : float) (r e b r' d b' : R) :
  approx x r e b -> Rabs (r - r') <= d -> Rabs r' <= b' -> approx x r' (e + d) b'.
Proof.
  intros (Hf & He & _) Hd Hb. split; [exact Hf | split; [ | exact Hb]].
  replace (F2R x - r') with ((F2R x - r) + (r - r')) by lra.
  eapply Rle_trans; [apply Rabs_triang | lra].
Qed.

(** [Quaternion::rotate] by a stored rotation, on a vector of doubles
    that approximates [V]. *)
Lemma rotate_unit_approx (q : Quaternion float) (v : Vec3 float) (V : Vec3 R) (ev bv : R) :
  qunit q (/ 100) -> vapprox v V ev bv -> bv + ev <= bpow 970 ->
  vapprox (Quaternion_rotate q v) (Rq_rotate (Q2R q) V)
          (115 * (eps * (bv + ev)) + 41 * eta + 7 / 4 * ev) (7 / 4 * bv).
Proof.
  intros [Hq Hn] (Vx & Vy & Vz) Hb.
  apply Rabs_le_inv in Hn.
  assert (Hn' : Rq_norm2 (Q2R q) <= 101 / 100) by lra.
  assert (Hv : vapprox v (V2R v) 0 (bv + ev)).
  { split; [ | split]; cbn [V2R vx vy vz]; eapply approx_F2R; eassumption. }
  pose proof (rotate_approx q v (V2R v) 0 (bv + ev) Hq Hv ltac:(lra)) as (Rx & Ry & Rz).
  destruct Vx as (_ & Ex & Mx), Vy as (_ & Ey & My), Vz as (_ & Ez & Mz).
  destruct (Rq_rotate_bound (Q2R q) (Rv_sub (V2R v) V) ev Hn') as (Dx & Dy & Dz);
    try (cbn [Rv_sub V2R vx vy vz]; assumption).
  rewrite Rq_rotate_sub in Dx, Dy, Dz. cbn [Rv_sub vx vy vz] in Dx, Dy, Dz.
  destruct (Rq_rotate_bound (Q2R q) V bv Hn' Mx My Mz) as (Bx & By & Bz).
  split; [ | split].
  - eapply approx_weaken; [exact (approx_shift _ _ _ _ _ _ _ Rx Dx Bx) | lra | lra].
  - eapply approx_weaken; [exact (approx_shift _ _ _ _ _ _ _ Ry Dy By) | lra | lra].
  - eapply approx_weaken; [exact (approx_shift _ _ _ _ _ _ _ Rz Dz Bz) | lra | lra].
Qed.

(** ** The rotation a [Transform] stores *)

Lemma eps_tiny : eps <= / 1000000.
Proof.
  unfold eps. apply Rle_trans with (bpow (-20)); [apply bpow_le; lia | ].
  unfold bpow. simpl. lra.
Qed.

Lemma eps_1024 : 1024 * eps = bpow (-41).
Proof.
  unfold eps. replace (-41)%Z with (10 + -51)%Z by lia. rewrite bpow_add.
  f_equal. unfold bpow. simpl. lra.
Qed.

Lemma eta_tiny : eta <= eps / 1000.
Proof.
  unfold eta, eps.
  apply Rle_trans with (bpow (-10) * bpow (-51)).
  - rewrite <- bpow_add. apply bpow_le. lia.
  - pose proof (bpow_pos (-51)).
    assert (bpow (-10) <= / 1000) by (unfold bpow; simpl; lra).
    nra.
Qed.

Lemma Q2R_conjugate (q : Quaternion float) :
  Q2R (Quaternion_conjugate q) = Rq_conjugate (Q2R q).
Proof.
  unfold Q2R, Quaternion_conjugate, Rq_conjugate. cbn [qw qx qy qz dopp binary64].
  rewrite !(proj2 (Fopp_correct _)). reflexivity.
Qed.

Lemma qbounded_conjugate (q : Quaternion float) (c : R) :
  qbounded q c -> qbounded (Quaternion_conjugate q) c.
Proof.
  intros H. unfold qbounded. rewrite Q2R_conjugate.
  apply qconjugate_approx. exact H.
Qed.

Lemma qunit_conjugate (q : Quaternion float) (nu : R) :
  qunit q nu -> qunit (Quaternion_conjugate q) nu.
Proof.
  intros [Hb Hn]. split; [apply qbounded_conjugate; exact Hb | ].
  rewrite Q2R_conjugate, Rq_conjugate_norm2. exact Hn.
Qed.

Lemma qunit_weaken (q : Quaternion float) (nu nu' : R) :
  qunit q nu -> nu <= nu' -> qunit q nu'.
Proof. intros [Hb Hn] H. split; [exact Hb | lra]. Qed.

Lemma square_diff (a u d : R) :
  Rabs (a - u) <= d -> Rabs u <= 1 -> Rabs (a * a - u * u) <= d * (2 + d).
Proof.
  intros Ha Hu. replace (a * a - u * u) with ((a - u) * (a + u)) by ring.
  apply prod_abs; [exact Ha | ].
  replace (a + u) with ((a - u) + (u + u)) by lra.
  eapply Rle_trans; [apply Rabs_triang | ].
  assert (Rabs (u + u) <= 1 + 1).
  { eapply Rle_trans; [apply Rabs_triang | lra]. }
  lra.
Qed.

(** Doubles close to a unit quaternion form a stored rotation. *)
Lemma qapprox_unit (b : Quaternion float) (U : Quaternion R) (d : R) :
  qapprox b U d 1 -> Rq_norm2 U = 1 -> d <= / 1000 ->
  qunit b (81 / 10 * d).
Proof.
  intros (Bw & Bx & By & Bz) HU Hd.
  destruct (approx_nonneg _ _ _ _ Bw) as [Hd0 _].
  split.
  - split; [ | split; [ | split]]; cbn [Q2R qw qx qy qz];
      (eapply approx_weaken; [eapply approx_F2R; eassumption | lra | lra]).
  - destruct Bw as (_ & Ew & Mw), Bx as (_ & Ex & Mx), By as (_ & Ey & My),
             Bz as (_ & Ez & Mz).
    pose proof (square_diff _ _ _ Ew Mw) as Sw. pose proof (square_diff _ _ _ Ex Mx) as Sx.
    pose proof (square_diff _ _ _ Ey My) as Sy. pose proof (square_diff _ _ _ Ez Mz) as Sz.
    rewrite <- HU. unfold Rq_norm2, Q2R. cbn [qw qx qy qz].
    apply Rabs_le_inv in Sw, Sx, Sy, Sz. apply Rabs_le.
    assert (d * d <= d / 1000) by nra.
    assert (0 <= d * d) by nra.
    lra.
Qed.

Lemma Rq_scale_norm2 (c : R) (q : Quaternion R) :
  Rq_norm2 (Rq_scale c q) = c * c * Rq_norm2 q.
Proof. unfold Rq_norm2, Rq_scale; cbn [qw qx qy qz]. ring. Qed.

Lemma Rq_scale_unit (q : Quaternion R) :
  0 < Rq_norm2 q -> Rq_norm2 (Rq_scale (/ sqrt (Rq_norm2 q)) q) = 1.
Proof.
  intros Hn. rewrite Rq_scale_norm2.
  pose proof (sqrt_lt_R0 _ Hn) as Hr.
  pose proof (sqrt_sqrt _ (Rlt_le _ _ Hn)) as Hrr.
  rewrite <- Hrr at 3. field. lra.
Qed.

(** [Transform(position, rotation)] stores a rotation whose squared
    magnitude is within 162 roundings of 1. *)
Lemma normalized_unit (q : Quaternion float) :
  qbounded q (bpow 480) -> bpow (-1000) <= Rq_norm2 (Q2R q) ->
  qunit (Quaternion_normalized q) (162 * eps).
Proof.
  intros Hb Hn.
  pose proof eps_tiny as He. pose proof eps_bounds as [He0 _].
  eapply qunit_weaken.
  - eapply qapprox_unit; [exact (normalized_approx q Hb Hn) | | ].
    + apply Rq_scale_unit. pose proof (bpow_pos (-1000)). lra.
    + lra.
  - lra.
Qed.

Lemma F2R_of_Z_0 : F2R (float_of_Z 0) = 0.
Proof. reflexivity. Qed.

Lemma F2R_of_Z_1 : F2R (float_of_Z 1) = 1.
Proof.
  replace (float_of_Z 1) with 1%float by (vm_compute; reflexivity).
  exact (proj2 Fone_correct).
Qed.

Lemma Ffinite_of_Z_1 : Ffinite (float_of_Z 1) = true.
Proof. vm_compute. reflexivity. Qed.

Lemma approx_of_Z_0 (b : R) : 0 <= b -> approx (float_of_Z 0) 0 0 b.
Proof. intros Hb. apply approx_zero; [lra | exact Hb]. Qed.

Lemma approx_of_Z_1 (b : R) : 1 <= b -> approx (float_of_Z 1) 1 0 b.
Proof.
  intros Hb. split; [exact Ffinite_of_Z_1 | split].
  - rewrite F2R_of_Z_1, Rminus_diag, Rabs_R0. lra.
  - rewrite Rabs_R1. exact Hb.
Qed.

(** [Transform()] and [Transform(position)] store the identity. *)
Lemma identity_unit : qunit Quaternion_identity 0.
Proof.
  split.
  - unfold qbounded, Quaternion_identity, Q2R. cbn [qw qx qy qz of_Z binary64].
    rewrite F2R_of_Z_0, F2R_of_Z_1.
    split; [ | split; [ | split]];
      first [apply approx_of_Z_1; lra | apply approx_of_Z_0; lra].
  - unfold Rq_norm2, Quaternion_identity, Q2R. cbn [qw qx qy qz of_Z binary64].
    rewrite F2R_of_Z_0, F2R_of_Z_1.
    replace (1 * 1 + 0 * 0 + 0 * 0 + 0 * 0 - 1) with 0 by ring.
    rewrite Rabs_R0. lra.
Qed.

(** ** The position of [T * T.inverse()] *)

Lemma compose_inverse_position (p : Vec3 float) (r : Quaternion float) (M : R) :
  vbounded p M -> qunit r (162 * eps) -> 1 <= M <= bpow 900 ->
  vbounded (position_ (Transform_compose (mkTransformRaw p r)
                         (Transform_inverse (mkTransformRaw p r))))
           (bpow (-41) * M).
Proof.
  intros (Px & Py & Pz) Hr [HM1 HM2].
  pose proof eps_tiny as He. pose proof eps_bounds as [He0 _].
  pose proof eta_pos as Ht0. pose proof eta_tiny as Ht1.
  assert (Hnu : 162 * eps <= / 100) by lra.
  pose proof (qunit_weaken _ _ _ Hr Hnu) as Hr'.
  pose proof (qunit_conjugate _ _ Hr') as Hc.
  assert (H970 : bpow 900 <= bpow 960) by (apply bpow_le; lia).
  assert (H970' : bpow 970 = 1024 * bpow 960).
  { replace 970%Z with (10 + 960)%Z by lia. rewrite bpow_add.
    f_equal. unfold bpow. simpl. lra. }
  assert (H990 : bpow 970 <= bpow 990) by (apply bpow_le; lia).
  assert (E1 : 0 <= eps * M) by nra.
  assert (E2 : eps * M <= M / 1000000) by nra.
  assert (E3 : 0 <= eps * (eps * M)) by nra.
  assert (E4 : eps * (eps * M) <= eps * M / 1000000) by nra.
  assert (E5 : 0 <= eps * eta) by nra.
  assert (E6 : eps * eta <= eta / 1000000) by nra.
  assert (E7 : eta <= eps * M / 1000) by nra.
  assert (E8 : 0 <= eps * (eps * (eps * M))) by nra.
  assert (E9 : eps * (eps * (eps * M)) <= eps * M / 1000000) by nra.
  assert (E10 : 0 <= eps * (eps * eta)) by nra.
  assert (E11 : eps * (eps * eta) <= eta / 1000000) by nra.
  (* the position of the inverse *)
  assert (Hneg : vapprox (mkVec3 (- vx p) (- vy p) (- vz p))%float
                         (Rv_opp (V2R p)) 0 M).
  { split; [ | split]; cbn [Rv_opp V2R vx vy vz]; apply approx_opp; assumption. }
  pose proof (rotate_unit_approx _ _ _ _ _ Hc Hneg ltac:(lra)) as S1.
  (* rotated back *)
  pose proof (rotate_unit_approx _ _ _ _ _ Hr' S1 ltac:(lra)) as S2.
  rewrite Q2R_conjugate, Rq_rotate_rotate_conjugate in S2.
  destruct Hr as [_ Hn]. set (n := Rq_norm2 (Q2R r)) in *.
  apply Rabs_le_inv in Hn.
  assert (Hnn : Rabs (1 - n * n) <= 325 * eps).
  { apply Rabs_le. split; nra. }
  assert (Hn1 : Rabs (n * n) <= 101 / 100).
  { apply Rabs_le. split; nra. }
  assert (Hcomp : forall x y : float,
            approx x (F2R x) 0 M ->
            approx y (n * n * - F2R x)
                   (115 * (eps * (7 / 4 * M + (115 * (eps * (M + 0)) + 41 * eta + 7 / 4 * 0)))
                    + 41 * eta + 7 / 4 * (115 * (eps * (M + 0)) + 41 * eta + 7 / 4 * 0))
                   (7 / 4 * (7 / 4 * M)) ->
            approx (x + y)%float (F2R (x + y)%float) 0 (bpow (-41) * M)).
  { intros x y Hx Hy.
    assert (Hy' : Rabs (n * n * - F2R x) <= 102 / 100 * M).
    { destruct Hx as (_ & _ & Hx). rewrite Rabs_mult, Rabs_Ropp.
      apply Rle_trans with (101 / 100 * M); [ | lra].
      apply Rmult_le_compat; try apply Rabs_pos; assumption. }
    pose proof (approx_op false _ _ _ _ _ _ _ _ Hx (approx_rebound _ _ _ _ _ Hy Hy')
                  ltac:(lra)) as Hs.
    cbn [fop rop] in Hs.
    assert (Hreal : Rabs (F2R x + n * n * - F2R x) <= 325 * (eps * M)).
    { replace (F2R x + n * n * - F2R x) with ((1 - n * n) * F2R x) by ring.
      destruct Hx as (_ & _ & Hx).
      replace (325 * (eps * M)) with (325 * eps * M) by ring.
      apply prod_abs; assumption. }
    pose proof (approx_bound _ _ _ _ (approx_rebound _ _ _ _ _ Hs Hreal)) as Hb.
    destruct Hs as (Hf & _).
    apply approx_exact; [exact Hf | ].
    rewrite <- eps_1024. lra. }
  destruct S2 as (Sx & Sy & Sz).
  unfold Transform_compose, Transform_inverse, Transform_make, Transform_transformPoint.
  cbn [position_ rotation_].
  unfold vbounded, vapprox, Vec3_add, Rv_scale, Rv_opp in *.
  cbn [V2R vx vy vz dadd binary64] in *.
  split; [ | split]; eapply Hcomp; eassumption.
Qed.

(** ** The rotation of [T * T.inverse()] *)

Lemma eps_256 : 256 * eps = bpow (-43).
Proof.
  unfold eps. replace (-43)%Z with (8 + -51)%Z by lia. rewrite bpow_add.
  f_equal. unfold bpow. simpl. lra.
Qed.

Lemma eps_512 : 512 * eps = bpow (-42).
Proof.
  unfold eps. replace (-42)%Z with (9 + -51)%Z by lia. rewrite bpow_add.
  f_equal. unfold bpow. simpl. lra.
Qed.

Lemma inv_mul_close (x rho t d : R) :
  0 < rho -> Rabs (x - t * rho) <= d * rho -> Rabs (/ rho * x - t) <= d.
Proof.
  intros Hr H.
  replace (/ rho * x - t) with ((x - t * rho) * / rho) by (field; lra).
  rewrite Rabs_mult, (Rabs_pos_eq (/ rho)) by (apply Rlt_le, Rinv_0_lt_compat; exact Hr).
  apply (Rmult_le_reg_r rho); [exact Hr | ].
  rewrite Rmult_assoc, Rinv_l by lra. lra.
Qed.

Lemma compose_inverse_rotation (p : Vec3 float) (r : Quaternion float) :
  qunit r (162 * eps) ->
  qapprox (rotation_ (Transform_compose (mkTransformRaw p r)
                        (Transform_inverse (mkTransformRaw p r))))
          (mkQuaternion 1 0 0 0) (bpow (-43)) 1.
Proof.
  intros Hr.
  pose proof eps_tiny as He. pose proof eps_bounds as [He0 _].
  pose proof eta_pos as Ht0. pose proof eta_tiny as Ht1.
  pose proof (qunit_conjugate _ _ Hr) as [Hcb Hcn].
  destruct Hr as [Hrb Hrn].
  rewrite Q2R_conjugate, Rq_conjugate_norm2 in Hcn.
  assert (H480 : 101 / 100 <= bpow 480).
  { pose proof (bpow_ge_1 480 ltac:(lia)).
    assert (bpow 480 < bpow 481) by (apply bpow_lt; lia).
    assert (bpow 481 = 2 * bpow 480).
    { replace 481%Z with (1 + 480)%Z by lia. rewrite bpow_add, bpow_1. reflexivity. }
    assert (2 <= bpow 480).
    { replace 2 with (bpow 1) by apply bpow_1. apply bpow_le. lia. }
    lra. }
  assert (Hlow : bpow (-1000) <= / 2).
  { rewrite <- bpow_m1. apply bpow_le. lia. }
  set (n := Rq_norm2 (Q2R r)) in *.
  apply Rabs_le_inv in Hrn.
  (* the rotation of the inverse *)
  assert (Hs : qapprox (Quaternion_normalized (Quaternion_conjugate r))
                 (Rq_scale (/ sqrt n) (Rq_conjugate (Q2R r))) (20 * eps) 1).
  { pose proof (normalized_approx (Quaternion_conjugate r)) as H.
    rewrite Q2R_conjugate, Rq_conjugate_norm2 in H. fold n in H.
    apply H; [ | lra].
    unfold qbounded in *.
    eapply qapprox_weaken; [exact Hcb | lra | lra]. }
  (* the product *)
  assert (H980 : 2 <= bpow 980).
  { replace 2 with (bpow 1) by apply bpow_1. apply bpow_le. lia. }
  assert (E1 : 0 <= eps * eps) by nra.
  assert (E2 : eps * eps <= eps / 1000000) by nra.
  pose proof (qmul_approx _ _ _ _ _ _ _ _ Hrb Hs ltac:(lra)) as Hm.
  rewrite Rq_mul_scale_conjugate in Hm. fold n in Hm.
  apply (qapprox_weaken _ _ _ _ (96 * eps) 5) in Hm; [ | lra | lra].
  assert (Hroot : 1 - 162 * eps <= sqrt n <= 1 + 162 * eps).
  { apply sqrt_between; nra. }
  assert (Hrn' : / sqrt n * n = sqrt n).
  { pose proof (sqrt_sqrt n ltac:(lra)) as Hq.
    rewrite <- Hq at 2. field. lra. }
  rewrite Hrn' in Hm.
  remember (Quaternion_mul r (Quaternion_normalized (Quaternion_conjugate r)))
    as m eqn:Hmdef.
  destruct Hm as (Mw & Mx & My & Mz). cbn [qw qx qy qz] in Mw, Mx, My, Mz.
  destruct Mw as (Fw & Ew & _), Mx as (Fx & Ex & _), My as (Fy & Ey & _),
           Mz as (Fz & Ez & _).
  rewrite Rminus_0_r in Ex, Ey, Ez.
  apply Rabs_le_inv in Ew, Ex, Ey, Ez.
  set (a := F2R (qw m)) in *. set (x := F2R (qx m)) in *.
  set (y := F2R (qy m)) in *. set (z := F2R (qz m)) in *.
  assert (Ha : 1 - 258 * eps <= a <= 1 + 258 * eps) by lra.
  (* normalizing the product *)
  assert (Hmb : qbounded m (bpow 480)).
  { split; [ | split; [ | split]]; cbn [Q2R qw qx qy qz];
      (apply approx_exact; [assumption | apply Rabs_le; fold a x y z; lra]). }
  assert (Hmn : Rq_norm2 (Q2R m) = a * a + x * x + y * y + z * z) by reflexivity.
  assert (Hmlow : bpow (-1000) <= Rq_norm2 (Q2R m)).
  { rewrite Hmn. nra. }
  pose proof (normalized_approx m Hmb Hmlow) as Hf.
  rewrite Hmn in Hf.
  set (rho := sqrt (a * a + x * x + y * y + z * z)) in *.
  assert (Hrho : a <= rho <= a + 192 * eps).
  { apply sqrt_between; nra. }
  assert (Hrho0 : 0 < rho) by lra.
  assert (Dw : Rabs (/ rho * a - 1) <= 200 * eps).
  { apply inv_mul_close; [exact Hrho0 | ]. apply Rabs_le. nra. }
  assert (Dc : forall c, - (96 * eps) <= c <= 96 * eps -> Rabs (/ rho * c - 0) <= 200 * eps).
  { intros c Hc. apply inv_mul_close; [exact Hrho0 | ]. apply Rabs_le. nra. }
  unfold Transform_compose, Transform_inverse, Transform_make.
  cbn [position_ rotation_]. rewrite <- Hmdef.
  destruct Hf as (Gw & Gx & Gy & Gz). cbn [Rq_scale Q2R qw qx qy qz] in Gw, Gx, Gy, Gz.
  fold a in Gw. fold x in Gx. fold y in Gy. fold z in Gz.
  assert (H01 : Rabs 0 <= 1) by (rewrite Rabs_R0; lra).
  assert (H11 : Rabs 1 <= 1) by (rewrite Rabs_R1; lra).
  split; [ | split; [ | split]]; cbn [qw qx qy qz]; rewrite <- eps_256.
  - eapply approx_weaken; [exact (approx_shift _ _ _ _ _ _ _ Gw Dw H11) | lra | lra].
  - eapply approx_weaken; [exact (approx_shift _ _ _ _ _ _ _ Gx (Dc x Ex) H01) | lra | lra].
  - eapply approx_weaken; [exact (approx_shift _ _ _ _ _ _ _ Gy (Dc y Ey) H01) | lra | lra].
  - eapply approx_weaken; [exact (approx_shift _ _ _ _ _ _ _ Gz (Dc z Ez) H01) | lra | lra].
Qed.

(** The dot product with the identity, as [Quaternion_dot] computes
    it. *)
Lemma dot_identity_approx (f : Quaternion float) (e : R) :
  qapprox f (mkQuaternion 1 0 0 0) e 1 -> e <= / 100 ->
  approx (Quaternion_dot f Quaternion_identity) 1 (e + 15 * eps) 1.
Proof.
  intros (Aw & Ax & Ay & Az) He. cbn [qw qx qy qz] in Aw, Ax, Ay, Az.
  pose proof eps_bounds as [He0 He1]. pose proof eta_tiny as Ht1.
  pose proof eta_pos as Ht0.
  destruct (approx_nonneg _ _ _ _ Aw) as [Hee _].
  pose proof (approx_weaken _ _ _ _ 0 (101 / 100) (approx_F2R _ _ _ _ Aw) ltac:(lra) ltac:(lra)) as Bw.
  pose proof (approx_weaken _ _ _ _ 0 (101 / 100) (approx_F2R _ _ _ _ Ax) ltac:(lra) ltac:(lra)) as Bx.
  pose proof (approx_weaken _ _ _ _ 0 (101 / 100) (approx_F2R _ _ _ _ Ay) ltac:(lra) ltac:(lra)) as By.
  pose proof (approx_weaken _ _ _ _ 0 (101 / 100) (approx_F2R _ _ _ _ Az) ltac:(lra) ltac:(lra)) as Bz.
  assert (H980 : 2 <= bpow 980).
  { replace 2 with (bpow 1) by apply bpow_1. apply bpow_le. lia. }
  pose proof (dot4_approx false false false _ _ _ _ _ _ _ _ _ _ _ _ _ _ _ _ _ _ _ _
                Bw Bx By Bz (approx_of_Z_1 1 ltac:(lra)) (approx_of_Z_0 1 ltac:(lra))
                (approx_of_Z_0 1 ltac:(lra)) (approx_of_Z_0 1 ltac:(lra)) ltac:(lra)) as Hd.
  cbn [fop rop] in Hd.
  replace (F2R (qw f) * 1 + F2R (qx f) * 0 + F2R (qy f) * 0 + F2R (qz f) * 0)
    with (F2R (qw f)) in Hd by ring.
  destruct Aw as (_ & Ew & _).
  assert (H11 : Rabs 1 <= 1) by (rewrite Rabs_R1; lra).
  eapply approx_weaken; [exact (approx_shift _ _ _ _ _ _ _ Hd Ew H11) | lra | lra].
Qed.

(** ** [T * T.inverse()] *)

Lemma approx_finite (x : float) (r e b : R) : approx x r e b -> Ffinite x = true.
Proof. intros (H & _). exact H. Qed.

Lemma approx_error (x : float) (r e b : R) : approx x r e b -> Rabs (F2R x - r) <= e.
Proof. intros (_ & H & _). exact H. Qed.

Lemma approx_magnitude (x : float) (e b : R) : approx x (F2R x) e b -> Rabs (F2R x) <= b.
Proof. intros (_ & _ & H). exact H. Qed.

(** A finite double of value 0 is [0.0] or [-0.0]. *)
Lemma Fzero_cases (x : float) :
  Ffinite x = true -> Rabs (F2R x) <= 0 -> x = 0%float \/ x = (-0)%float.
Proof.
  unfold Ffinite, F2R. intros Hf Hx.
  rewrite <- (SF2Prim_Prim2SF x).
  destruct (Prim2SF x) as [s | s | | s m e]; try discriminate Hf.
  - destruct s; [right | left]; reflexivity.
  - exfalso. cbn [SF2R] in Hx.
    pose proof (bpow_pos e). pose proof (IZR_lt 0 (Zpos m) ltac:(lia)).
    assert (0 < IZR (Zpos m) * bpow e) by nra.
    apply Rabs_le_inv in Hx. destruct s; lra.
Qed.

(** [normalized] turns a zero quaternion into the identity. *)
Lemma normalized_zero (q : Quaternion float) :
  qbounded q 0 -> Quaternion_normalized q = Quaternion_identity.
Proof.
  intros (Bw & Bx & By & Bz). destruct q as [w x y z].
  cbn [Q2R qw qx qy qz] in Bw, Bx, By, Bz.
  destruct (Fzero_cases w (approx_finite _ _ _ _ Bw) (approx_magnitude _ _ _ Bw)) as [-> | ->],
    (Fzero_cases x (approx_finite _ _ _ _ Bx) (approx_magnitude _ _ _ Bx)) as [-> | ->],
    (Fzero_cases y (approx_finite _ _ _ _ By) (approx_magnitude _ _ _ By)) as [-> | ->],
    (Fzero_cases z (approx_finite _ _ _ _ Bz) (approx_magnitude _ _ _ Bz)) as [-> | ->];
    vm_compute; reflexivity.
Qed.

Lemma built_stored (T : Transform float) (M : R) :
  0 <= M -> Transform_built M T ->
  vbounded (position_ T) M /\ qunit (rotation_ T) (162 * eps).
Proof.
  intros HM HT. pose proof eps_bounds as [He0 _].
  destruct HT as [ | p Hp | p q Hp Hq Hn | p q Hp Hq];
    cbn [Transform_default Transform_of_position Transform_make position_ rotation_].
  - split.
    + unfold vbounded, vapprox, V2R. cbn [vx vy vz of_Z binary64].
      rewrite F2R_of_Z_0.
      split; [ | split]; apply approx_of_Z_0; exact HM.
    + eapply qunit_weaken; [exact identity_unit | lra].
  - split; [exact Hp | ].
    eapply qunit_weaken; [exact identity_unit | lra].
  - split; [exact Hp | ].
    apply normalized_unit; assumption.
  - split; [exact Hp | ].
    rewrite (normalized_zero q Hq).
    eapply qunit_weaken; [exact identity_unit | lra].
Qed.

Lemma Rv_length_bound (v : Vec3 R) (b : R) :
  Rabs (vx v) <= b -> Rabs (vy v) <= b -> Rabs (vz v) <= b ->
  Rv_length v <= 2 * b.
Proof.
  intros Hx Hy Hz.
  assert (Hb : 0 <= b) by (pose proof (Rabs_pos (vx v)); lra).
  apply Rabs_le_inv in Hx, Hy, Hz.
  unfold Rv_length.
  apply (sqrt_between 0 (2 * b)); nra.
Qed.

End QuaternionRounding.

Section ComposeInverseExamples.
Local Open Scope R_scope.

Lemma approx_literal (x : float) (m : positive) (e : Z) (b : R) :
  Prim2SF x = S754_finite false m e -> IZR (Zpos m) * bpow e <= b ->
  approx x (F2R x) 0 b.
Proof.
  intros Hx Hb. apply approx_exact.
  - unfold Ffinite. rewrite Hx. reflexivity.
  - unfold F2R. rewrite Hx. cbn [SF2R].
    pose proof (bpow_pos e). pose proof (IZR_lt 0 (Zpos m) ltac:(lia)).
    rewrite Rabs_pos_eq by nra. lra.
Qed.

Lemma quarter_turn_pose_built : Transform_built 1024 quarter_turn_pose.
Proof.
  assert (H1024 : 0 <= 1024) by lra.
  assert (H480 : 1 <= bpow 480) by (apply bpow_ge_1; lia).
  apply built_make.
  - split; [ | split]; cbn [V2R vx vy vz].
    + apply (approx_literal _ 8796093022208000 (-43)); [vm_compute; reflexivity | ].
      unfold bpow. simpl. lra.
    + apply (approx_literal _ 8796093022208000 (-44)); [vm_compute; reflexivity | ].
      unfold bpow. simpl. lra.
    + apply (approx_literal _ 8796093022208000 (-45)); [vm_compute; reflexivity | ].
      unfold bpow. simpl. lra.
  - unfold qbounded, Q2R. cbn [qw qx qy qz of_Z binary64].
    rewrite F2R_of_Z_0, F2R_of_Z_1.
    split; [ | split; [ | split]];
      first [apply approx_of_Z_1; lra | apply approx_of_Z_0; lra].
  - unfold Rq_norm2, Q2R. cbn [qw qx qy qz of_Z binary64].
    rewrite F2R_of_Z_0, F2R_of_Z_1.
    assert (bpow (-1000) <= bpow 0) by (apply bpow_le; lia).
    rewrite bpow_0 in *. lra.
Qed.

End ComposeInverseExamples.

Section ComposeInverse.
Local Open Scope R_scope.

(** C7 (amended).  In binary64, for every transform [T] that the
    constructors build from a position with finite coordinates of at
    most [M] in magnitude, [1 <= M <= 2^900], and a rotation argument
    whose normalization neither overflows nor underflows
    ([Transform_built]): all components of [T * T.inverse()] are
    finite, every coordinate of its position is within [2^-41 * M] of
    zero, so that the position is within 1e-9 of the origin for
    [M <= 1024], the dot product of its rotation with the identity, as
    [Quaternion_dot] computes it, is within [2^-42] of 1, and the
    rotation is within [2^-43] of (1, 0, 0, 0) in every component. *)
Theorem transform_compose_inverse_rounding (T : Transform float) (M : R) :
  1 <= M <= bpow 900 -> Transform_built M T ->
  let I := Transform_compose T (Transform_inverse T) in
  let pos := Transform_getPosition I in
  let rot := Transform_getRotation I in
  (Vfinite pos = true /\ Qfinite rot = true) /\
  (Rabs (F2R (vx pos)) <= bpow (-41) * M /\
   Rabs (F2R (vy pos)) <= bpow (-41) * M /\
   Rabs (F2R (vz pos)) <= bpow (-41) * M) /\
  (M <= 1024 -> Rv_length (V2R pos) <= / 1000000000) /\
  (Ffinite (Quaternion_dot rot Quaternion_identity) = true /\
   Rabs (F2R (Quaternion_dot rot Quaternion_identity) - 1) <= bpow (-42)) /\
  (Rabs (F2R (qw rot) - 1) <= bpow (-43) /\
   Rabs (F2R (qx rot)) <= bpow (-43) /\
   Rabs (F2R (qy rot)) <= bpow (-43) /\
   Rabs (F2R (qz rot)) <= bpow (-43)).
Proof.
  intros HM HT.
  destruct (built_stored T M ltac:(lra) HT) as [Hp Hr].
  destruct T as [p r]. cbn [position_ rotation_] in Hp, Hr.
  pose proof (compose_inverse_position p r M Hp Hr HM) as (Px & Py & Pz).
  pose proof (compose_inverse_rotation p r Hr) as Hq.
  cbv zeta. unfold Transform_getPosition, Transform_getRotation.
  set (I := Transform_compose (mkTransformRaw p r) (Transform_inverse (mkTransformRaw p r))) in *.
  assert (H43 : bpow (-43) <= / 100).
  { apply Rle_trans with (bpow (-10)); [apply bpow_le; lia | ].
    unfold bpow. simpl. lra. }
  pose proof (dot_identity_approx _ _ Hq H43) as Hd.
  destruct Hq as (Qw & Qx & Qy & Qz). cbn [qw qx qy qz] in Qw, Qx, Qy, Qz.
  cbn [V2R vx vy vz] in Px, Py, Pz.
  pose proof (approx_magnitude _ _ _ Px) as Bx.
  pose proof (approx_magnitude _ _ _ Py) as By.
  pose proof (approx_magnitude _ _ _ Pz) as Bz.
  split; [ | split; [ | split; [ | split]]].
  - unfold Vfinite, Qfinite.
    rewrite (approx_finite _ _ _ _ Px), (approx_finite _ _ _ _ Py),
      (approx_finite _ _ _ _ Pz), (approx_finite _ _ _ _ Qw),
      (approx_finite _ _ _ _ Qx), (approx_finite _ _ _ _ Qy),
      (approx_finite _ _ _ _ Qz).
    split; reflexivity.
  - split; [exact Bx | split; [exact By | exact Bz]].
  - intros H1024.
    pose proof (Rv_length_bound (V2R (position_ I)) (bpow (-41) * M) Bx By Bz) as Hl.
    assert (H41 : bpow (-41) * 2048 <= / 1000000000).
    { replace 2048 with (bpow 11) by (unfold bpow; simpl; lra).
      rewrite <- bpow_add. unfold bpow. simpl. lra. }
    pose proof (bpow_pos (-41)). nra.
  - split; [exact (approx_finite _ _ _ _ Hd) | ].
    pose proof (approx_error _ _ _ _ Hd) as He.
    pose proof eps_bounds as [He0 _].
    rewrite <- eps_512. rewrite <- eps_256 in He. lra.
  - pose proof (approx_error _ _ _ _ Qw) as Ew. pose proof (approx_error _ _ _ _ Qx) as Ex.
    pose proof (approx_error _ _ _ _ Qy) as Ey. pose proof (approx_error _ _ _ _ Qz) as Ez.
    rewrite Rminus_0_r in Ex, Ey, Ez.
    split; [exact Ew | split; [exact Ex | split; [exact Ey | exact Ez]]].
Qed.

Lemma transform_compose_inverse_rounding_witness :
  let I := Transform_compose quarter_turn_pose (Transform_inverse quarter_turn_pose) in
  Rv_length (V2R (Transform_getPosition I)) <= / 1000000000 /\
  Rabs (F2R (Quaternion_dot (Transform_getRotation I) Quaternion_identity) - 1)
  <= bpow (-42).
Proof.
  assert (HM : 1 <= 1024 <= bpow 900).
  { split; [lra | ].
    replace 1024 with (bpow 10) by (unfold bpow; simpl; lra).
    apply bpow_le. lia. }
  pose proof (transform_compose_inverse_rounding quarter_turn_pose 1024 HM
                quarter_turn_pose_built) as H.
  cbv zeta in H. destruct H as (_ & _ & Hl & (_ & Hd) & _).
  cbv zeta. split; [apply Hl; lra | exact Hd].
Defined.

End ComposeInverse.

(* ================================================================== *)
(** * 19. Cartesian kinematics: the round trip                        *)
(* ================================================================== *)

Section CartesianRoundTrip.

Lemma outOfLimits_false (k : Cartesian3Axis float) (x y z : float) :
  PrimFloat.leb (fst (xLimits_ k)) x = true -> PrimFloat.leb x (snd (xLimits_ k)) = true ->
  PrimFloat.leb (fst (yLimits_ k)) y = true -> PrimFloat.leb y (snd (yLimits_ k)) = true ->
  PrimFloat.leb (fst (zLimits_ k)) z = true -> PrimFloat.leb z (snd (zLimits_ k)) = true ->
  Cartesian3Axis_outOfLimits k x y z = false.
Proof.
  intros X1 X2 Y1 Y2 Z1 Z2. unfold Cartesian3Axis_outOfLimits. simpl.
  rewrite (Binary64.leb_not_ltb _ _ X1), (Binary64.leb_not_ltb _ _ X2),
          (Binary64.leb_not_ltb _ _ Y1), (Binary64.leb_not_ltb _ _ Y2),
          (Binary64.leb_not_ltb _ _ Z1), (Binary64.leb_not_ltb _ _ Z2).
  reflexivity.
Qed.

Lemma within_1e_9_refl (x : float) :
  PrimFloat.is_finite x = true -> within_1e_9 x x = true.
Proof.
  intros Hf. unfold within_1e_9. simpl.
  rewrite (Binary64.sub_diag_finite _ Hf). reflexivity.
Qed.

Lemma zero_reproduced (x : float) :
  PrimFloat.leb PrimFloat.zero x = true -> PrimFloat.leb x PrimFloat.zero = true ->
  deqb (of_Z 0) x = true /\ within_1e_9 (of_Z 0) x = true.
Proof.
  intros H1 H2. destruct (Binary64.between_zeros _ H1 H2) as [-> | ->];
    split; reflexivity.
Qed.

End CartesianRoundTrip.

(** What the round trip does to the unused axes: with X, Y, Z within
    their limits, the solution carries 0 on A, B, C whatever [p] held
    there, while forward kinematics hands [p] back as it was given. *)
Lemma cartesian_unused_axes_zeroed (k : Cartesian3Axis float) (p : Axes6 float) :
  Cartesian3Axis_outOfLimits k (axX p) (axY p) (axZ p) = false ->
  fk_axisPositions (forwardKinematics k p) = Some p /\
  inverseKinematics k (fk_toolPose (forwardKinematics k p)) =
    [mkIK (mkAxes6 (axX p) (axY p) (axZ p) (of_Z 0) (of_Z 0) (of_Z 0))
          (fk_toolPose (forwardKinematics k p)) true].
Proof.
  intros Ho. destruct p as [x y z a b c].
  cbn [forwardKinematics inverseKinematics Cartesian3Axis_kinematics].
  unfold Cartesian3Axis_inverseKinematics, Cartesian3Axis_forwardKinematics.
  cbn [Axes6_get Axes6_set Axes6_fill axX axY axZ axA axB axC] in *.
  rewrite Ho.
  cbn [fk_valid fk_axisPositions fk_toolPose Transform_getPosition Transform_make
       position_ vx vy vz].
  rewrite Ho. split; reflexivity.
Qed.

(** C6.  Cartesian 3-axis round trip, in double precision.  If the six
    axis positions [p] lie within the limits [getAxisLimits()] lists
    (the machine's X, Y, Z ranges, and [0, 0] for the unused A, B, C),
    then [forwardKinematics(p)] is valid, [inverseKinematics] of its
    pose returns exactly one solution, valid, and [forwardKinematics]
    of that solution is valid, with the same tool pose and with axis
    positions equal ([==]) to those of [p] on all six axes (X, Y, Z bit
    for bit; A, B, C are zeros), each within 1e-9 of [p] when the
    position is finite. *)
Theorem cartesian_round_trip :
  forall (k : Cartesian3Axis float) (p : Axes6 float),
    Axes6_withinLimits (Cartesian3Axis_getAxisLimits k) p = true ->
    exists sol p',
      let fk1 := forwardKinematics k p in
      fk_valid fk1 = true /\
      fk_axisPositions fk1 = Some p /\
      inverseKinematics k (fk_toolPose fk1) = [sol] /\
      ik_valid sol = true /\
      let fk2 := forwardKinematics k (ik_axisPositions sol) in
      fk_valid fk2 = true /\
      fk_axisPositions fk2 = Some p' /\
      fk_toolPose fk2 = fk_toolPose fk1 /\
      axX p' = axX p /\ axY p' = axY p /\ axZ p' = axZ p /\
      (forall a, deqb (Axes6_get p' a) (Axes6_get p a) = true) /\
      (forall a, disfinite (Axes6_get p a) = true ->
                 within_1e_9 (Axes6_get p' a) (Axes6_get p a) = true).
Proof.
  intros [[xl xh] [yl yh] [zl zh]] [x y z a b c] Hlim.
  set (k := mkCartesian3Axis (xl, xh) (yl, yh) (zl, zh)) in *.
  unfold Axes6_withinLimits, Cartesian3Axis_getAxisLimits in Hlim.
  simpl in Hlim.
  repeat (apply andb_prop in Hlim; destruct Hlim as [? Hlim]).
  repeat match goal with
         | Hc : (_ && _)%bool = true |- _ => apply andb_prop in Hc; destruct Hc
         end.
  assert (Ho : Cartesian3Axis_outOfLimits k x y z = false)
    by (apply outOfLimits_false; assumption).
  destruct (zero_reproduced a) as [Ea Wa]; try assumption.
  destruct (zero_reproduced b) as [Eb Wb]; try assumption.
  destruct (zero_reproduced c) as [Ec Wc]; try assumption.
  exists (mkIK (mkAxes6 x y z (of_Z 0) (of_Z 0) (of_Z 0))
               (Transform_make (mkVec3 x y z) Quaternion_identity) true),
         (mkAxes6 x y z (of_Z 0) (of_Z 0) (of_Z 0)).
  cbn [forwardKinematics inverseKinematics Cartesian3Axis_kinematics].
  unfold Cartesian3Axis_inverseKinematics, Cartesian3Axis_forwardKinematics.
  cbn [Axes6_get Axes6_set Axes6_fill axX axY axZ axA axB axC].
  rewrite Ho.
  cbn [fk_valid fk_axisPositions fk_toolPose Transform_getPosition Transform_make
       position_ vx vy vz ik_valid ik_axisPositions axX axY axZ axA axB axC].
  rewrite Ho.
  cbn [fk_valid fk_axisPositions fk_toolPose].
  repeat split.
  - intros [ | | | | | ]; cbn [Axes6_get axX axY axZ axA axB axC];
      try assumption; cbn [deqb binary64];
      eapply Binary64.leb_eqb_refl; eassumption.
  - intros [ | | | | | ] Hf; cbn [Axes6_get axX axY axZ axA axB axC] in *;
      try assumption; apply within_1e_9_refl; exact Hf.
Qed.

Lemma cartesian_round_trip_witness :
  Axes6_withinLimits (Cartesian3Axis_getAxisLimits sample_machine) sample_axes = true /\
  fk_valid (forwardKinematics sample_machine sample_axes) = true.
Proof.
  split.
  - reflexivity.
  - destruct (cartesian_round_trip sample_machine sample_axes eq_refl)
      as (sol & p' & Hv & _).
    exact Hv.
Defined.

(* ================================================================== *)
(** * 20. The engine life cycle                                       *)
(* ================================================================== *)

Section Lifecycle.
Context {D : Type} {HS : Scalar D} {G : Type} {HG : MaterialGrid G}.
Context {Tool X : Type} {HX : EngineHooks (D := D) (G := G) Tool X}.

Lemma make_uninitialized (engineType : string) (fixedTimeStep : D) (x : X) :
  initialized_ (SimulationEngineBase_make engineType fixedTimeStep x) = false.
Proof. reflexivity. Qed.

Lemma uninitialized_step_result (e : SimulationEngineBase D X)
  (state : SimulationState D G) (sweep : ToolSweep D Tool) :
  initialized_ e = false ->
  SimulationEngineBase_step e state sweep =
  (StepResult_makeError SimulationInvalidState
     "Engine not initialized. Call initialize() first." true, e, state).
Proof.
  intros Hi. unfold SimulationEngineBase_step. rewrite Hi. reflexivity.
Qed.

Lemma reset_success (e : SimulationEngineBase D X) (state : SimulationState D G) :
  Error_isSuccess (fst (fst (SimulationEngineBase_reset e state))) = true ->
  SimulationEngineBase_reset e state =
  (fst (fst (doReset (derived_ e) state)),
   mkSimulationEngineBase (engineType_ e) (SimulationTime_reset (time_ e)) false
                          (snd (fst (doReset (derived_ e) state))),
   snd (doReset (derived_ e) state)).
Proof.
  unfold SimulationEngineBase_reset.
  destruct (doReset (derived_ e) state) as [[err x] st]. cbn [fst snd].
  destruct (Error_isSuccess err) eqn:He; cbn [fst snd]; intros Hs.
  - reflexivity.
  - rewrite He in Hs. discriminate.
Qed.

End Lifecycle.

(** C2, with the flag the code sets.  [step] on an uninitialized
    engine (never initialized since construction, or reset since)
    returns a result
    whose error has code [SimulationInvalidState] and is flagged
    recoverable; the engine and the state are returned as they were, so
    the state's step counter is not incremented. *)
Theorem step_uninitialized :
  forall {D : Type} {HS : Scalar D} {G : Type} {HG : MaterialGrid G}
         {Tool X : Type} {HX : EngineHooks (D := D) (G := G) Tool X}
         (e : SimulationEngineBase D X) (state : SimulationState D G)
         (sweep : ToolSweep D Tool),
    initialized_ e = false ->
    let r := fst (fst (SimulationEngineBase_step e state sweep)) in
    let e' := snd (fst (SimulationEngineBase_step e state sweep)) in
    let state' := snd (SimulationEngineBase_step e state sweep) in
    Error_getCode (error r) = SimulationInvalidState /\
    StepResult_hasError r = true /\
    StepResult_isSuccess r = false /\
    Error_isRecoverable (error r) = true /\
    e' = e /\
    state' = state /\
    SimulationState_getStepCount state' = SimulationState_getStepCount state.
Proof.
  intros D HS G HG Tool X HX e state sweep Hi.
  rewrite (uninitialized_step_result e state sweep Hi). cbn [fst snd].
  repeat split; reflexivity.
Qed.

Lemma step_uninitialized_witness :
  initialized_ (demo_engine []) = false /\
  SimulationState_getStepCount
    (snd (SimulationEngineBase_step (demo_engine []) demo_state demo_sweep)) = 0%Z.
Proof.
  split.
  - reflexivity.
  - exact (proj2 (proj2 (proj2 (proj2 (proj2 (proj2
      (step_uninitialized (demo_engine []) demo_state demo_sweep eq_refl))))))).
Defined.

(** C2, as stated, fails: the error returned by [step] before
    [initialize] is flagged recoverable, not non-retryable. *)
Lemma step_uninitialized_counterexample :
  Error_isRecoverable
    (error (fst (fst (SimulationEngineBase_step (demo_engine []) demo_state demo_sweep))))
  = true.
Proof. reflexivity. Qed.

(** C3, for the engine's own clock.  A successful [reset] leaves the
    engine Uninitialized with its own clock ([time_]) back at accumulated time
    0.0 and step count 0, the time step kept.  The state is the one
    [doReset] returns: with the inherited no-op [doReset] it is the
    state passed in, step counter and time accumulator included. *)
Theorem reset_returns_to_uninitialized :
  forall {D : Type} {HS : Scalar D} {G : Type} {HG : MaterialGrid G}
         {Tool X : Type} {HX : EngineHooks (D := D) (G := G) Tool X}
         (e : SimulationEngineBase D X) (state : SimulationState D G),
    Error_isSuccess (fst (fst (SimulationEngineBase_reset e state))) = true ->
    let e' := snd (fst (SimulationEngineBase_reset e state)) in
    let state' := snd (SimulationEngineBase_reset e state) in
    SimulationEngineBase_isInitialized e' = false /\
    accumulatedTime_ (SimulationEngineBase_getTime e') = of_Z 0 /\
    time_stepCount_ (SimulationEngineBase_getTime e') = 0%Z /\
    fixedTimeStep_ (SimulationEngineBase_getTime e') =
      fixedTimeStep_ (SimulationEngineBase_getTime e) /\
    state' = snd (doReset (derived_ e) state) /\
    ((forall x s, doReset x s = doReset_default x s) ->
     state' = state /\
     SimulationState_getStepCount state' = SimulationState_getStepCount state /\
     SimulationState_getTimeAccumulator state' = SimulationState_getTimeAccumulator state).
Proof.
  intros D HS G HG Tool X HX e state Hs.
  rewrite (reset_success e state Hs). cbn [fst snd].
  repeat split; try reflexivity;
    rewrite (H (derived_ e) state); reflexivity.
Qed.

Lemma reset_returns_to_uninitialized_witness :
  Error_isSuccess (fst (fst demo_lifecycle)) = true /\
  SimulationEngineBase_isInitialized (snd (fst demo_lifecycle)) = false.
Proof.
  split.
  - reflexivity.
  - exact (proj1 (reset_returns_to_uninitialized (Tool := unit)
                    (fst demo_stepped) (snd demo_stepped) eq_refl)).
Defined.

(** C3, as stated, fails: after [initialize], two successful steps and
    a successful [reset] of an engine that inherits [doReset], the
    state's step counter is still 2 and its time accumulator 0.002. *)
Lemma reset_state_counterexample :
  Error_isSuccess (fst (fst demo_lifecycle)) = true /\
  SimulationState_getStepCount (snd demo_lifecycle) = 2%Z /\
  SimulationState_getTimeAccumulator (snd demo_lifecycle) = lit 2 3 /\
  deqb (SimulationState_getTimeAccumulator (snd demo_lifecycle)) (of_Z 0) = false.
Proof. repeat split; reflexivity. Qed.

(* ================================================================== *)
(** * 21. Stepping: the collision stop                                *)
(* ================================================================== *)

Section CollisionStop.
Context {D : Type} {HS : Scalar D} {G : Type} {HG : MaterialGrid G}.
Context {Tool E : Type} {HE : ISimulationEngine (D := D) (G := G) Tool E}.

Lemma isSuccess_collision (r : StepResult D) :
  collisionDetected r = true -> StepResult_isSuccess r = false.
Proof.
  intros Hc. unfold StepResult_isSuccess. rewrite Hc. apply andb_false_r.
Qed.

Lemma uint64_incr_small (n : Z) :
  (0 <= n)%Z -> (n + 1 < uint64_modulus)%Z -> uint64_incr n = (n + 1)%Z.
Proof.
  intros H0 H1. unfold uint64_incr. apply Z.mod_small. lia.
Qed.

(** If the first [k] iterations all count, the loop over [k + m]
    iterations goes on from where they ended. *)
Lemma stepN_loop_prefix (k : nat) :
  forall (m : nat) (c : StepController D E) (s : SimulationState D G)
         (sweep : ToolSweep D Tool) (executed : Z)
         (c_k : StepController D E) (s_k : SimulationState D G)
         (rs : list (StepResult D)),
    (0 <= executed)%Z -> (executed + Z.of_nat k < uint64_modulus)%Z ->
    StepController_stepN_loop k c s sweep executed =
      ((executed + Z.of_nat k)%Z, c_k, s_k, rs) ->
    StepController_stepN_loop (k + m) c s sweep executed =
      (let '(n, c', s', rs') :=
         StepController_stepN_loop m c_k s_k sweep (executed + Z.of_nat k)%Z in
       (n, c', s', rs ++ rs')).
Proof.
  induction k as [ | k IH]; intros m c s sweep executed c_k s_k rs H0 Hlt Hrun.
  - cbn [StepController_stepN_loop Nat.add] in *.
    replace (executed + Z.of_nat 0)%Z with executed in * by (cbn; lia).
    injection Hrun as -> -> <-.
    destruct (StepController_stepN_loop m c_k s_k sweep executed) as [[[n c'] s'] rs'].
    reflexivity.
  - replace (executed + Z.of_nat (S k))%Z with (executed + 1 + Z.of_nat k)%Z in * by lia.
    change (S k + m)%nat with (S (k + m)).
    cbn [StepController_stepN_loop] in *.
    destruct (StepController_stepOnce c s sweep) as [[ok c1] s1].
    destruct ok; cbn [negb] in *.
    + rewrite (uint64_incr_small executed H0) in * by lia.
      destruct (StepController_stepN_loop k c1 s1 sweep (executed + 1))
        as [[[n0 c0] s0] rs0] eqn:Ek.
      injection Hrun as -> -> -> <-.
      rewrite (IH m c1 s1 sweep (executed + 1)%Z c_k s_k rs0) by (try lia; exact Ek).
      destruct (StepController_stepN_loop m c_k s_k sweep (executed + 1 + Z.of_nat k))
        as [[[n c'] s'] rs'].
      reflexivity.
    + injection Hrun as He. lia.
Qed.

End CollisionStop.

(** C10.  A step result with [collisionDetected] set is never a
    success, whatever its error says.  So [stepOnce] returns false for a
    step in which the engine reports a collision (caching that result),
    and [stepN], when the first [k] steps count and the engine reports
    a collision in the next one, stops there and returns [k]: the
    collision step ran on the engine but is not counted. *)
Theorem collision_stops_stepping :
  forall {D : Type} {HS : Scalar D} {G : Type} {HG : MaterialGrid G}
         {Tool E : Type} {HE : ISimulationEngine (D := D) (G := G) Tool E},
    (forall r : StepResult D,
       collisionDetected r = true -> StepResult_isSuccess r = false) /\
    (forall (c : StepController D E) (s : SimulationState D G)
            (sweep : ToolSweep D Tool) (e e' : E) (r : StepResult D)
            (s' : SimulationState D G),
       engine_ c = Some e -> SimulationState_isValid s = true ->
       step e s sweep = (r, e', s') -> collisionDetected r = true ->
       StepController_stepOnce c s sweep = (false, mkStepController (Some e') r, s')) /\
    (forall (c c_k : StepController D E) (s s_k s' : SimulationState D G)
            (sweep : ToolSweep D Tool) (k numSteps : Z) (e e' : E)
            (r : StepResult D),
       (0 <= k < numSteps)%Z -> is_uint64 numSteps ->
       StepController_stepN c s sweep k = (k, c_k, s_k) ->
       engine_ c_k = Some e -> SimulationState_isValid s_k = true ->
       step e s_k sweep = (r, e', s') -> collisionDetected r = true ->
       StepController_stepN c s sweep numSteps =
         (k, mkStepController (Some e') r, s')).
Proof.
  intros D HS G HG Tool E HE.
  assert (Honce : forall (c : StepController D E) (s : SimulationState D G)
            (sweep : ToolSweep D Tool) (e e' : E) (r : StepResult D)
            (s' : SimulationState D G),
       engine_ c = Some e -> SimulationState_isValid s = true ->
       step e s sweep = (r, e', s') -> collisionDetected r = true ->
       StepController_stepOnce c s sweep = (false, mkStepController (Some e') r, s')).
  { intros c s sweep e e' r s' Hc Hv Hstep Hcol.
    unfold StepController_stepOnce. rewrite Hc, Hv, Hstep. cbn [negb].
    rewrite (isSuccess_collision r Hcol). reflexivity. }
  split; [exact isSuccess_collision | ]. split; [exact Honce | ].
  intros c c_k s s_k s' sweep k numSteps e e' r Hk [_ Hn] Hrun He Hv Hstep Hcol.
  unfold StepController_stepN, StepController_stepN_run in *.
  destruct (engine_ c) as [e0 | ] eqn:Ec.
  - destruct (SimulationState_isValid s) eqn:Hvs; cbn [negb] in *.
    + destruct (StepController_stepN_loop (Z.to_nat k) c s sweep 0)
        as [[[n0 c0] s0] rs0] eqn:Ek.
      injection Hrun as -> -> ->.
      replace (Z.to_nat numSteps)
        with (Z.to_nat k + S (Z.to_nat (numSteps - k - 1)))%nat by lia.
      rewrite (stepN_loop_prefix (Z.to_nat k) (S (Z.to_nat (numSteps - k - 1)))
                 c s sweep 0%Z c_k s_k rs0).
      * cbn [StepController_stepN_loop].
        rewrite (Honce c_k s_k sweep e e' r s' He Hv Hstep Hcol). cbn [negb].
        f_equal. f_equal. lia.
      * lia.
      * lia.
      * rewrite Ek. f_equal. f_equal. f_equal. lia.
    + injection Hrun as <- <- <-. rewrite Hv in Hvs. discriminate.
  - injection Hrun as <- <- <-. rewrite He in Ec. discriminate.
Qed.

Lemma collision_stops_stepping_witness :
  StepController_lastStepHadCollision
    (snd (fst (StepController_stepN demo_controller_1 demo_state demo_sweep 2))) = false /\
  fst (fst (StepController_stepN demo_controller_1 demo_state demo_sweep 5)) = 2%Z /\
  StepController_lastStepHadCollision
    (snd (fst (StepController_stepN demo_controller_1 demo_state demo_sweep 5))) = true.
Proof.
  pose (run2 := StepController_stepN demo_controller_1 demo_state demo_sweep 2).
  pose (c_k := snd (fst run2)).
  pose (s_k := snd run2).
  pose (e := match engine_ c_k with Some e => e | None => demo_engine [] end).
  pose (out := step e s_k demo_sweep).
  pose proof (proj2 (proj2 (collision_stops_stepping (Tool := unit)))
                demo_controller_1 c_k demo_state s_k (snd out) demo_sweep
                2%Z 5%Z e (snd (fst out)) (fst (fst out))) as Hstop.
  rewrite Hstop.
  - repeat split; reflexivity.
  - lia.
  - split; [discriminate | reflexivity].
  - vm_compute. reflexivity.
  - vm_compute. reflexivity.
  - vm_compute. reflexivity.
  - vm_compute. reflexivity.
  - vm_compute. reflexivity.
Defined.

(* ================================================================== *)
(** * 22. Tool changes                                                *)
(* ================================================================== *)

Section ToolChange.
Context {D : Type} {HS : Scalar D}.

Lemma toolConsistency_loop_toolChange (s : ToolpathState D) (n : string)
  (moves : list (ToolpathMove D)) :
  ToolpathState_getActiveToolId s = EmptyString ->
  In (ToolpathMove_toolChange s n) moves ->
  forall i, exists e, validateToolConsistency_loop moves i = Thrown e.
Proof.
  intros Hs. induction moves as [ | move rest IH]; intros Hin i.
  - destruct Hin.
  - cbn [validateToolConsistency_loop].
    destruct Hin as [-> | Hin].
    + unfold ToolpathMove_toolChange, ToolpathMove_getMoveType, ToolpathMove_getEndState.
      cbn [moveType_ endState_ MoveType_eqb].
      rewrite Hs. cbn [String.eqb throwIf andThen].
      eexists. reflexivity.
    + destruct (if MoveType_eqb (ToolpathMove_getMoveType move) ToolChange
                then _ else _) as [ | e1]; cbn [andThen].
      * destruct (if isCuttingMove (ToolpathMove_getMoveType move)
                  then _ else _) as [ | e2]; cbn [andThen].
        -- apply IH. exact Hin.
        -- eexists. reflexivity.
      * eexists. reflexivity.
Qed.

End ToolChange.

(** C9.  [ToolpathMove::toolChange(s, n)] returns a tool-change move
    that starts and ends in [s]: [n] is ignored, and the end state's
    active tool id is that of [s].  Hence, when [s] has an empty active
    tool id, every toolpath containing the move fails
    [validateToolConsistency]. *)
Theorem toolChange_ignores_newToolId :
  forall {D : Type} {HS : Scalar D},
    (forall (s : ToolpathState D) (n : string),
       ToolpathMove_getMoveType (ToolpathMove_toolChange s n) = ToolChange /\
       ToolpathMove_getStartState (ToolpathMove_toolChange s n) = s /\
       ToolpathMove_getEndState (ToolpathMove_toolChange s n) = s /\
       ToolpathState_getActiveToolId
         (ToolpathMove_getEndState (ToolpathMove_toolChange s n)) =
       ToolpathState_getActiveToolId s) /\
    (forall (s : ToolpathState D) (n : string) (toolpath : Toolpath D)
            (machine : Machine D),
       ToolpathState_getActiveToolId s = EmptyString ->
       In (ToolpathMove_toolChange s n) (Toolpath_getMoves toolpath) ->
       exists e, ToolpathValidator_validateToolConsistency toolpath machine = Thrown e).
Proof.
  intros D HS. split.
  - intros s n. repeat split.
  - intros s n toolpath machine Hs Hin.
    unfold ToolpathValidator_validateToolConsistency.
    exact (toolConsistency_loop_toolChange s n (Toolpath_getMoves toolpath) Hs Hin 0).
Qed.

Lemma toolChange_ignores_newToolId_witness :
  ToolpathValidator_validateToolConsistency
    (Toolpath_appendMove (Toolpath_make "job" "mill")
                         (ToolpathMove_toolChange no_tool_state "T7"))
    bare_machine
  = Thrown (ToolChangeNoToolId 0).
Proof.
  destruct (proj2 toolChange_ignores_newToolId no_tool_state "T7"%string
              (Toolpath_appendMove (Toolpath_make "job" "mill")
                                   (ToolpathMove_toolChange no_tool_state "T7"))
              bare_machine eq_refl (or_introl eq_refl)) as [e He].
  reflexivity.
Defined.

(* ================================================================== *)
(** * 23. Toolpath continuity                                         *)
(* ================================================================== *)

Section Continuity.
Context {D : Type} {HS : Scalar D}.

Lemma validateContinuity_gap (move1 move2 : ToolpathMove D) (index1 : nat) :
  dltb (lit 1 6) (continuity_gap move1 move2) = true ->
  ToolpathValidator_validateContinuity move1 move2 index1 =
  Thrown (Discontinuity index1
            (ToolpathState_getPosition (ToolpathMove_getEndState move1))
            (ToolpathState_getPosition (ToolpathMove_getStartState move2))
            (continuity_gap move1 move2)).
Proof.
  intros Hgap. unfold ToolpathValidator_validateContinuity.
  fold (continuity_gap move1 move2). rewrite Hgap. reflexivity.
Qed.

Lemma validateContinuity_no_gap (move1 move2 : ToolpathMove D) (index1 : nat) :
  dltb (lit 1 6) (continuity_gap move1 move2) = false ->
  ToolpathValidator_validateContinuity move1 move2 index1 = Returned.
Proof.
  intros Hgap. unfold ToolpathValidator_validateContinuity.
  fold (continuity_gap move1 move2). rewrite Hgap. reflexivity.
Qed.

(** Every error of the per-move checks names the index passed in. *)
Lemma validateArc_index (move : ToolpathMove D) (i : nat) (e : ValidationError D) :
  ToolpathValidator_validateArc move i = Thrown e -> ValidationError_index e = i.
Proof.
  unfold ToolpathValidator_validateArc, throwIf.
  destruct (ToolpathMove_getArcCenter move) as [center | ].
  - destruct (dltb _ _); cbn [andThen].
    + intros [= <-]. reflexivity.
    + destruct (dltb _ _); [intros [= <-]; reflexivity | discriminate].
  - intros [= <-]. reflexivity.
Qed.

Lemma validateMove_index (move : ToolpathMove D) (i : nat) (e : ValidationError D) :
  ToolpathValidator_validateMove move i = Thrown e -> ValidationError_index e = i.
Proof.
  unfold ToolpathValidator_validateMove, throwIf.
  destruct (negb (ToolpathMove_isValid move)); cbn [andThen];
    [intros [= <-]; reflexivity | ].
  destruct (ToolpathMove_isZeroLength move && _ && _ && _ && _)%bool; cbn [andThen];
    [intros [= <-]; reflexivity | ].
  destruct (requiresFeedrate _ && _)%bool; cbn [andThen];
    [intros [= <-]; reflexivity | ].
  destruct (isArcMove (ToolpathMove_getMoveType move)).
  - destruct (ToolpathValidator_validateArc move i) as [ | ea] eqn:Ea; cbn [andThen].
    + destruct (_ && _)%bool; [intros [= <-]; reflexivity | discriminate].
    + intros [= <-]. exact (validateArc_index move i ea Ea).
  - cbn [andThen]. destruct (_ && _)%bool; [intros [= <-]; reflexivity | discriminate].
Qed.

Lemma validateContinuity_index (move1 move2 : ToolpathMove D) (i : nat)
  (e : ValidationError D) :
  ToolpathValidator_validateContinuity move1 move2 i = Thrown e ->
  ValidationError_index e = i.
Proof.
  unfold ToolpathValidator_validateContinuity, throwIf.
  destruct (dltb _ _); [intros [= <-]; reflexivity | discriminate].
Qed.

(** With a gap after move [j + i], the loop started at [j] throws, and
    the index it names is at most [j + i]. *)
Lemma validate_loop_gap (moves : list (ToolpathMove D)) (machine : option (Machine D)) :
  forall (i j : nat) (move1 move2 : ToolpathMove D),
    nth_error moves i = Some move1 -> nth_error moves (S i) = Some move2 ->
    dltb (lit 1 6) (continuity_gap move1 move2) = true ->
    exists e, validate_loop moves machine j = Thrown e /\
              ValidationError_index e <= j + i.
Proof.
  induction moves as [ | move rest IH]; intros i j move1 move2 H1 H2 Hgap.
  - destruct i; discriminate.
  - cbn [validate_loop].
    destruct (ToolpathValidator_validateMove move j) as [ | e0] eqn:Em; cbn [andThen].
    2:{ exists e0. split; [reflexivity | ].
        rewrite (validateMove_index move j e0 Em). lia. }
    destruct i as [ | i].
    + cbn in H1, H2. injection H1 as ->.
      destruct rest as [ | next rest']; [discriminate | ].
      cbn in H2. injection H2 as ->.
      rewrite (validateContinuity_gap move1 move2 j Hgap). cbn [andThen].
      eexists. split; [reflexivity | ]. cbn. lia.
    + cbn [nth_error] in H1, H2.
      destruct (match rest with
                | [] => Returned
                | next :: _ => ToolpathValidator_validateContinuity move next j
                end) as [ | e1] eqn:Ec; cbn [andThen].
      2:{ exists e1. split; [reflexivity | ].
          destruct rest as [ | next rest']; [discriminate | ].
          rewrite (validateContinuity_index move next j e1 Ec). lia. }
      destruct (match machine with
                | Some m => ToolpathValidator_validateMachineLimits move m j
                | None => Returned
                end) as [ | e2] eqn:El; cbn [andThen].
      * destruct (IH i (S j) move1 move2 H1 H2 Hgap) as (e & He & Hi).
        exists e. split; [exact He | lia].
      * exists e2. split; [reflexivity | ].
        destruct machine as [m | ]; [ | discriminate].
        revert El. clear.
        unfold ToolpathValidator_validateMachineLimits, checkAxisLimit, throwIf.
        destruct (rotaryAxes_ (ToolpathMove_getStartState move)) as [[sa sb] sc].
        destruct (rotaryAxes_ (ToolpathMove_getEndState move)) as [[ea eb] ec].
        repeat match goal with
               | |- andThen (match ?a with Some _ => _ | None => _ end) _ = _ -> _ =>
                   destruct a; cbn [andThen]
               | |- andThen (if ?b then _ else _) _ = _ -> _ =>
                   destruct b; cbn [andThen]; [intros [= <-]; cbn; lia | ]
               | |- (match ?a with Some _ => _ | None => _ end) = _ -> _ =>
                   destruct a
               | |- (if ?b then _ else _) = _ -> _ =>
                   destruct b
               | |- Thrown _ = Thrown _ -> _ => intros [= <-]; cbn; lia
               | |- Returned = Thrown _ -> _ => discriminate
               end.
Qed.

Lemma validate_loop_cons (move : ToolpathMove D) (rest : list (ToolpathMove D))
  (machine : option (Machine D)) (j : nat) :
  validate_loop (move :: rest) machine j =
  andThen (ToolpathValidator_validateMove move j)
    (andThen (match rest with
              | next :: _ => ToolpathValidator_validateContinuity move next j
              | [] => Returned
              end)
       (andThen (match machine with
                 | Some m => ToolpathValidator_validateMachineLimits move m j
                 | None => Returned
                 end)
          (validate_loop rest machine (S j)))).
Proof. reflexivity. Qed.

(** None of the checks but [validateContinuity] throws a
    discontinuity. *)
Lemma validateArc_not_discontinuity (move : ToolpathMove D) (i : nat)
  (e : ValidationError D) :
  ToolpathValidator_validateArc move i = Thrown e ->
  ValidationError_isDiscontinuity e = false.
Proof.
  unfold ToolpathValidator_validateArc, throwIf.
  destruct (ToolpathMove_getArcCenter move) as [center | ].
  - destruct (dltb _ _); cbn [andThen].
    + intros [= <-]. reflexivity.
    + destruct (dltb _ _); [intros [= <-]; reflexivity | discriminate].
  - intros [= <-]. reflexivity.
Qed.

Lemma validateMove_not_discontinuity (move : ToolpathMove D) (i : nat)
  (e : ValidationError D) :
  ToolpathValidator_validateMove move i = Thrown e ->
  ValidationError_isDiscontinuity e = false.
Proof.
  unfold ToolpathValidator_validateMove, throwIf.
  destruct (negb (ToolpathMove_isValid move)); cbn [andThen];
    [intros [= <-]; reflexivity | ].
  destruct (ToolpathMove_isZeroLength move && _ && _ && _ && _)%bool; cbn [andThen];
    [intros [= <-]; reflexivity | ].
  destruct (requiresFeedrate _ && _)%bool; cbn [andThen];
    [intros [= <-]; reflexivity | ].
  destruct (isArcMove (ToolpathMove_getMoveType move)).
  - destruct (ToolpathValidator_validateArc move i) as [ | ea] eqn:Ea; cbn [andThen].
    + destruct (_ && _)%bool; [intros [= <-]; reflexivity | discriminate].
    + intros [= <-]. exact (validateArc_not_discontinuity move i ea Ea).
  - cbn [andThen]. destruct (_ && _)%bool; [intros [= <-]; reflexivity | discriminate].
Qed.

Lemma validateMachineLimits_not_discontinuity (move : ToolpathMove D)
  (m : Machine D) (i : nat) (e : ValidationError D) :
  ToolpathValidator_validateMachineLimits move m i = Thrown e ->
  ValidationError_isDiscontinuity e = false.
Proof.
  unfold ToolpathValidator_validateMachineLimits, checkAxisLimit, throwIf.
  destruct (rotaryAxes_ (ToolpathMove_getStartState move)) as [[sa sb] sc].
  destruct (rotaryAxes_ (ToolpathMove_getEndState move)) as [[ea eb] ec].
  repeat match goal with
         | |- andThen (match ?a with Some _ => _ | None => _ end) _ = _ -> _ =>
             destruct a; cbn [andThen]
         | |- andThen (if ?b then _ else _) _ = _ -> _ =>
             destruct b; cbn [andThen]; [intros [= <-]; reflexivity | ]
         | |- (match ?a with Some _ => _ | None => _ end) = _ -> _ =>
             destruct a
         | |- (if ?b then _ else _) = _ -> _ =>
             destruct b
         | |- Thrown _ = Thrown _ -> _ => intros [= <-]; reflexivity
         | |- Returned = Thrown _ -> _ => discriminate
         end.
Qed.

Lemma validateToolConsistency_loop_not_discontinuity (moves : list (ToolpathMove D)) :
  forall (j : nat) (e : ValidationError D),
    validateToolConsistency_loop moves j = Thrown e ->
    ValidationError_isDiscontinuity e = false.
Proof.
  induction moves as [ | move rest IH]; intros j e; cbn [validateToolConsistency_loop].
  - discriminate.
  - unfold throwIf.
    repeat match goal with
           | |- andThen (if ?b then _ else _) _ = _ -> _ => destruct b; cbn [andThen]
           | |- Thrown _ = Thrown _ -> _ => intros [= <-]; reflexivity
           end.
    all: apply IH.
Qed.

(** With a gap after move [i], the loop started at [j] throws the
    discontinuity naming that move exactly when every check it makes
    before returns. *)
Lemma validate_loop_names_gap (moves : list (ToolpathMove D)) (machine : option (Machine D)) :
  forall (i j : nat) (move1 move2 : ToolpathMove D),
    nth_error moves i = Some move1 -> nth_error moves (S i) = Some move2 ->
    dltb (lit 1 6) (continuity_gap move1 move2) = true ->
    validate_loop moves machine j =
      Thrown (Discontinuity (j + i)
                (ToolpathState_getPosition (ToolpathMove_getEndState move1))
                (ToolpathState_getPosition (ToolpathMove_getStartState move2))
                (continuity_gap move1 move2))
    <->
    (forall k move, k <= i -> nth_error moves k = Some move ->
       ToolpathValidator_validateMove move (j + k) = Returned) /\
    (forall k move next, k < i ->
       nth_error moves k = Some move -> nth_error moves (S k) = Some next ->
       ToolpathValidator_validateContinuity move next (j + k) = Returned) /\
    (forall k move m, k < i -> machine = Some m -> nth_error moves k = Some move ->
       ToolpathValidator_validateMachineLimits move m (j + k) = Returned).
Proof.
  induction moves as [ | move rest IH]; intros i j move1 move2 H1 H2 Hgap.
  - destruct i; discriminate.
  - rewrite validate_loop_cons. destruct i as [ | i].
    + (* the gap is after the first move of the list *)
      cbn in H1. injection H1 as ->.
      destruct rest as [ | next rest']; [discriminate | ].
      cbn in H2. injection H2 as ->.
      rewrite (validateContinuity_gap move1 move2 j Hgap), Nat.add_0_r.
      split.
      * intros Hthrow.
        destruct (ToolpathValidator_validateMove move1 j) as [ | e0] eqn:Em;
          cbn [andThen] in Hthrow.
        -- split; [ | split].
           ++ intros k move Hk Hn. assert (k = 0) as -> by lia.
              cbn in Hn. injection Hn as <-. rewrite Nat.add_0_r. exact Em.
           ++ intros k move next Hk. lia.
           ++ intros k move m Hk. lia.
        -- injection Hthrow as ->.
           pose proof (validateMove_not_discontinuity move1 j _ Em) as Hd.
           discriminate Hd.
      * intros (Hm & _ & _).
        specialize (Hm 0 move1 (Nat.le_refl 0) eq_refl).
        rewrite Nat.add_0_r in Hm. rewrite Hm. reflexivity.
    + (* the gap is further on *)
      cbn [nth_error] in H1, H2.
      destruct rest as [ | next rest']; [destruct i; discriminate | ].
      specialize (IH i (S j) move1 move2 H1 H2 Hgap).
      replace (S j + i) with (j + S i) in IH by lia.
      split.
      * intros Hthrow.
        destruct (ToolpathValidator_validateMove move j) as [ | e0] eqn:Em;
          cbn [andThen] in Hthrow.
        2:{ injection Hthrow as ->.
            pose proof (validateMove_not_discontinuity move j _ Em) as Hd.
            discriminate Hd. }
        destruct (ToolpathValidator_validateContinuity move next j) as [ | e1] eqn:Ec;
          cbn [andThen] in Hthrow.
        2:{ injection Hthrow as ->.
            pose proof (validateContinuity_index move next j _ Ec) as Hi.
            cbn in Hi. lia. }
        assert (El : forall m, machine = Some m ->
                       ToolpathValidator_validateMachineLimits move m j = Returned).
        { intros m ->.
          destruct (ToolpathValidator_validateMachineLimits move m j) as [ | e2] eqn:El;
            [reflexivity | ].
          cbn [andThen] in Hthrow. injection Hthrow as ->.
          pose proof (validateMachineLimits_not_discontinuity move m j _ El) as Hd.
          discriminate Hd. }
        assert (Hrest : validate_loop (next :: rest') machine (S j) =
                        Thrown (Discontinuity (j + S i)
                          (ToolpathState_getPosition (ToolpathMove_getEndState move1))
                          (ToolpathState_getPosition (ToolpathMove_getStartState move2))
                          (continuity_gap move1 move2))).
        { destruct machine as [m | ]; [rewrite (El m eq_refl) in Hthrow | ];
            cbn [andThen] in Hthrow; exact Hthrow. }
        apply IH in Hrest. destruct Hrest as (Rm & Rc & Rl).
        split; [ | split].
        -- intros [ | k] mv Hk Hn.
           ++ cbn in Hn. injection Hn as <-. rewrite Nat.add_0_r. exact Em.
           ++ cbn [nth_error] in Hn. replace (j + S k) with (S j + k) by lia.
              apply Rm; [lia | exact Hn].
        -- intros [ | k] mv nx Hk Hn Hn'.
           ++ cbn in Hn, Hn'. injection Hn as <-. injection Hn' as <-.
              rewrite Nat.add_0_r. exact Ec.
           ++ cbn [nth_error] in Hn, Hn'. replace (j + S k) with (S j + k) by lia.
              apply (Rc k mv nx); [lia | exact Hn | exact Hn'].
        -- intros [ | k] mv m Hk Hmach Hn.
           ++ cbn in Hn. injection Hn as <-. rewrite Nat.add_0_r. exact (El m Hmach).
           ++ cbn [nth_error] in Hn. replace (j + S k) with (S j + k) by lia.
              apply (Rl k mv m); [lia | exact Hmach | exact Hn].
      * intros (Hm & Hc & Hl).
        pose proof (Hm 0 move (Nat.le_0_l _) eq_refl) as Em.
        pose proof (Hc 0 move next (Nat.lt_0_succ _) eq_refl eq_refl) as Ec.
        rewrite Nat.add_0_r in Em, Ec. rewrite Em, Ec. cbn [andThen].
        assert (Hrest : validate_loop (next :: rest') machine (S j) =
                        Thrown (Discontinuity (j + S i)
                          (ToolpathState_getPosition (ToolpathMove_getEndState move1))
                          (ToolpathState_getPosition (ToolpathMove_getStartState move2))
                          (continuity_gap move1 move2))).
        { apply IH. split; [ | split].
          - intros k mv Hk Hn. replace (S j + k) with (j + S k) by lia.
            apply Hm; [lia | exact Hn].
          - intros k mv nx Hk Hn Hn'. replace (S j + k) with (j + S k) by lia.
            apply (Hc (S k) mv nx); [lia | exact Hn | exact Hn'].
          - intros k mv m Hk Hmach Hn. replace (S j + k) with (j + S k) by lia.
            apply (Hl (S k) mv m); [lia | exact Hmach | exact Hn]. }
        destruct machine as [m | ]; [ | exact Hrest].
        pose proof (Hl 0 move m (Nat.lt_0_succ _) eq_refl eq_refl) as El.
        rewrite Nat.add_0_r in El. rewrite El. exact Hrest.
Qed.

(** When no two adjacent moves are further apart than 1e-6, the loop
    never throws a discontinuity. *)
Lemma validate_loop_no_gap (moves : list (ToolpathMove D)) (machine : option (Machine D)) :
  forall (j : nat) (e : ValidationError D),
    (forall i move1 move2,
       nth_error moves i = Some move1 -> nth_error moves (S i) = Some move2 ->
       dltb (lit 1 6) (continuity_gap move1 move2) = false) ->
    validate_loop moves machine j = Thrown e ->
    ValidationError_isDiscontinuity e = false.
Proof.
  induction moves as [ | move rest IH]; intros j e Hno.
  - discriminate.
  - rewrite validate_loop_cons.
    destruct (ToolpathValidator_validateMove move j) as [ | e0] eqn:Em; cbn [andThen].
    2:{ intros [= <-]. exact (validateMove_not_discontinuity move j e0 Em). }
    assert (Ec : match rest with
                 | next :: _ => ToolpathValidator_validateContinuity move next j
                 | [] => Returned
                 end = Returned).
    { destruct rest as [ | next rest']; [reflexivity | ].
      apply validateContinuity_no_gap. exact (Hno 0 move next eq_refl eq_refl). }
    rewrite Ec. cbn [andThen].
    assert (Hrest : validate_loop rest machine (S j) = Thrown e ->
                    ValidationError_isDiscontinuity e = false).
    { apply IH. intros i move1 move2 Hn Hn'. exact (Hno (S i) move1 move2 Hn Hn'). }
    destruct machine as [m | ]; [ | exact Hrest].
    destruct (ToolpathValidator_validateMachineLimits move m j) as [ | e2] eqn:El;
      cbn [andThen]; [exact Hrest | ].
    intros [= <-]. exact (validateMachineLimits_not_discontinuity move m j e2 El).
Qed.

End Continuity.

(** In double precision a point is at distance 0 (or NaN, when a
    coordinate is not finite) from itself: never more than 1e-6. *)
Lemma chained_no_gap (move1 move2 : ToolpathMove float) :
  ToolpathMove_getStartState move2 = ToolpathMove_getEndState move1 ->
  dltb (lit 1 6) (continuity_gap move1 move2) = false.
Proof.
  intros Hs. unfold continuity_gap. rewrite Hs.
  destruct (ToolpathState_getPosition (ToolpathMove_getEndState move1)) as [x y z].
  unfold Vec3_length, Vec3_sub. cbn [vx vy vz dsub binary64].
  destruct (Binary64.sub_diag x) as [-> | ->],
           (Binary64.sub_diag y) as [-> | ->],
           (Binary64.sub_diag z) as [-> | ->]; reflexivity.
Qed.

(** C4 as stated fails: [validate] names the first check that fails,
    not every gap.  In [two_gap_toolpath] move 1 ends at (2, 0, 0) and
    move 2 starts at (2, 0, 0.5), yet the error names move 0, where the
    first gap is. *)
Lemma continuity_index_counterexample :
  exists move1 move2 : ToolpathMove float,
    nth_error (Toolpath_getMoves two_gap_toolpath) 1 = Some move1 /\
    nth_error (Toolpath_getMoves two_gap_toolpath) 2 = Some move2 /\
    dltb (lit 1 6) (continuity_gap move1 move2) = true /\
    ToolpathValidator_validate two_gap_toolpath None =
      Thrown (Discontinuity 0 (mkVec3 (of_Z 1) (of_Z 0) (of_Z 0))
                              (mkVec3 (of_Z 1) (of_Z 0) (lit 5 1)) (lit 5 1)) /\
    (forall e, ToolpathValidator_validate two_gap_toolpath None = Thrown e ->
               ValidationError_index e <> 1).
Proof.
  eexists. eexists.
  split; [reflexivity | ]. split; [reflexivity | ]. split; [reflexivity | ].
  split; [reflexivity | ].
  intros e He. vm_compute in He. injection He as <-. cbn. discriminate.
Qed.

(** C4, as amended.  Toolpath continuity, in double precision.
    (1) [validateContinuity(move1, move2, i)] throws the discontinuity
        error naming [i] whenever the distance from the end position of
        [move1] to the start position of [move2] exceeds 1e-6.
    (2) [validate] fails on every toolpath that has such a gap after
        some move [i], with or without a machine.  It stops at the
        first check that fails, so the index its error names is at most
        [i]; and its error is the discontinuity naming [i] exactly when
        every check made before returns: [validateMove] on the moves
        [0 .. i] and, on the moves before [i], the continuity check and
        (with a machine) the machine limits.
    (3) In a toolpath built by chaining (each move starts in the state
        the previous one ended in), [validateContinuity] returns for
        every pair of adjacent moves, and [validate] never fails with a
        discontinuity, with or without a machine. *)
Theorem continuity_first_violation :
  (forall (move1 move2 : ToolpathMove float) (i : nat),
     dltb (lit 1 6) (continuity_gap move1 move2) = true ->
     ToolpathValidator_validateContinuity move1 move2 i =
     Thrown (Discontinuity i
               (ToolpathState_getPosition (ToolpathMove_getEndState move1))
               (ToolpathState_getPosition (ToolpathMove_getStartState move2))
               (continuity_gap move1 move2))) /\
  (forall (toolpath : Toolpath float) (machine : option (Machine float)) (i : nat)
          (move1 move2 : ToolpathMove float),
     nth_error (Toolpath_getMoves toolpath) i = Some move1 ->
     nth_error (Toolpath_getMoves toolpath) (S i) = Some move2 ->
     dltb (lit 1 6) (continuity_gap move1 move2) = true ->
     ToolpathValidator_isValid toolpath machine = false /\
     (exists e, ToolpathValidator_validate toolpath machine = Thrown e /\
                ValidationError_index e <= i) /\
     (ToolpathValidator_validate toolpath machine =
        Thrown (Discontinuity i
                  (ToolpathState_getPosition (ToolpathMove_getEndState move1))
                  (ToolpathState_getPosition (ToolpathMove_getStartState move2))
                  (continuity_gap move1 move2))
      <-> checks_before_pass (Toolpath_getMoves toolpath) machine i)) /\
  (forall (toolpath : Toolpath float) (machine : option (Machine float)),
     chained (Toolpath_getMoves toolpath) ->
     (forall (i : nat) (move1 move2 : ToolpathMove float),
        nth_error (Toolpath_getMoves toolpath) i = Some move1 ->
        nth_error (Toolpath_getMoves toolpath) (S i) = Some move2 ->
        ToolpathValidator_validateContinuity move1 move2 i = Returned) /\
     (forall e : ValidationError float,
        ToolpathValidator_validate toolpath machine = Thrown e ->
        ValidationError_isDiscontinuity e = false)).
Proof.
  split; [ | split].
  - intros move1 move2 i Hgap. exact (validateContinuity_gap move1 move2 i Hgap).
  - intros toolpath machine i move1 move2 H1 H2 Hgap.
    assert (Hne : Toolpath_isEmpty toolpath = false).
    { unfold Toolpath_isEmpty, Toolpath_getMoves in *.
      destruct (moves_ toolpath); [destruct i; discriminate | reflexivity]. }
    assert (Hthrow : exists e, ToolpathValidator_validate toolpath machine = Thrown e /\
                               ValidationError_index e <= i).
    { unfold ToolpathValidator_validate. rewrite Hne.
      destruct (validate_loop_gap (Toolpath_getMoves toolpath) machine i 0
                  move1 move2 H1 H2 Hgap) as (e & He & Hi).
      rewrite He. exists e. split; [reflexivity | exact Hi]. }
    split; [ | split; [exact Hthrow | ]].
    + destruct Hthrow as (e & He & _). unfold ToolpathValidator_isValid. rewrite He.
      reflexivity.
    + pose proof (validate_loop_names_gap (Toolpath_getMoves toolpath) machine i 0
                    move1 move2 H1 H2 Hgap) as Hloop.
      cbn [Nat.add] in Hloop. fold (checks_before_pass (Toolpath_getMoves toolpath) machine i) in Hloop.
      rewrite <- Hloop. unfold ToolpathValidator_validate. rewrite Hne.
      destruct (validate_loop (Toolpath_getMoves toolpath) machine 0) as [ | e0] eqn:El;
        cbn [andThen].
      * destruct (validate_loop_gap (Toolpath_getMoves toolpath) machine i 0
                    move1 move2 H1 H2 Hgap) as (e & He & _).
        rewrite El in He. discriminate He.
      * reflexivity.
  - intros toolpath machine Hch.
    assert (Hno : forall i move1 move2,
              nth_error (Toolpath_getMoves toolpath) i = Some move1 ->
              nth_error (Toolpath_getMoves toolpath) (S i) = Some move2 ->
              dltb (lit 1 6) (continuity_gap move1 move2) = false).
    { intros i move1 move2 H1 H2. apply chained_no_gap. exact (Hch i move1 move2 H1 H2). }
    split.
    + intros i move1 move2 H1 H2.
      apply validateContinuity_no_gap. exact (Hno i move1 move2 H1 H2).
    + intros e. unfold ToolpathValidator_validate.
      destruct (Toolpath_isEmpty toolpath); [discriminate | ].
      destruct (validate_loop (Toolpath_getMoves toolpath) machine 0) as [ | e0] eqn:El;
        cbn [andThen].
      * destruct machine as [m | ]; [ | discriminate].
        apply validateToolConsistency_loop_not_discontinuity.
      * intros [= <-].
        exact (validate_loop_no_gap (Toolpath_getMoves toolpath) machine 0 e0 Hno El).
Qed.

Lemma continuity_first_violation_witness :
  ToolpathValidator_validate gapped_toolpath None
  = Thrown (Discontinuity 0 (mkVec3 (of_Z 1) (of_Z 0) (of_Z 0))
                            (mkVec3 (of_Z 1) (of_Z 0) (lit 5 1)) (lit 5 1)).
Proof.
  apply (proj2 (proj2 (proj2 (proj1 (proj2 continuity_first_violation)
                                gapped_toolpath None 0 _ _ eq_refl eq_refl eq_refl)))).
  split; [ | split].
  - intros k move Hk Hn. assert (k = 0) as -> by lia.
    cbn in Hn. injection Hn as <-. reflexivity.
  - intros k move next Hk. lia.
  - intros k move m Hk Hm. discriminate Hm.
Defined.

(* ================================================================== *)
(** * 24. Arc validation                                              *)
(* ================================================================== *)

Section Arc.
Context {D : Type} {HS : Scalar D}.

Lemma validateArc_unfold (move : ToolpathMove D) (index : nat) (center : Vec3 D) :
  ToolpathMove_getArcCenter move = Some center ->
  ToolpathValidator_validateArc move index =
  andThen
    (throwIf (dltb (lit 1 6)
                (dabs (dsub (arc_startRadius move center) (arc_endRadius move center))))
       (ArcInconsistentRadius index (arc_startRadius move center)
          (arc_endRadius move center)
          (dabs (dsub (arc_startRadius move center) (arc_endRadius move center)))))
    (throwIf (dltb (arc_startRadius move center) (lit 1 9)) (ArcZeroRadius index)).
Proof.
  intros Hc. unfold ToolpathValidator_validateArc. rewrite Hc. reflexivity.
Qed.

(** When [validateArc] throws on an arc move, so does [validateMove]. *)
Lemma validateMove_arc_throws (move : ToolpathMove D) (index : nat)
  (e : ValidationError D) :
  isArcMove (ToolpathMove_getMoveType move) = true ->
  ToolpathValidator_validateArc move index = Thrown e ->
  exists e', ToolpathValidator_validateMove move index = Thrown e'.
Proof.
  intros Harc Ha. unfold ToolpathValidator_validateMove, throwIf.
  rewrite Harc, Ha.
  destruct (negb (ToolpathMove_isValid move)); cbn [andThen];
    [eexists; reflexivity | ].
  destruct (ToolpathMove_isZeroLength move && _ && _ && _ && _)%bool; cbn [andThen];
    [eexists; reflexivity | ].
  destruct (requiresFeedrate _ && _)%bool; cbn [andThen]; eexists; reflexivity.
Qed.

Lemma isArcMove_not_rapid (type : MoveType) :
  isArcMove type = true -> MoveType_eqb type Rapid = false.
Proof. destruct type; cbn; congruence. Qed.

Lemma isArcMove_requiresFeedrate (type : MoveType) :
  isArcMove type = true -> requiresFeedrate type = true.
Proof. destruct type; cbn; congruence. Qed.

End Arc.

(** In double precision [|r - r|] is 0 or NaN: never more than 1e-6. *)
Lemma equal_radii_no_error (r : float) :
  dltb (lit 1 6) (dabs (dsub r r)) = false.
Proof.
  cbn [dsub dabs binary64].
  destruct (Binary64.sub_diag r) as [-> | ->]; reflexivity.
Qed.

(** C5, with the conditions under which an arc passes.  Arc
    validation, in double precision.
    (1) An arc move whose start-to-center and end-to-center distances
        differ by more than 1e-6 fails [validateArc] with the
        inconsistent-radius error, and fails [validateMove].
    (2) An arc move whose start radius is below 1e-9 fails
        [validateArc] and [validateMove].
    (3) An arc move built by [ToolpathMove::arc] with finite start and
        end states, feed rate > 0 on the end state, equal start and end
        radii, a start radius not below 1e-9, and end points that are
        not within 1e-6 of each other (squared distance not below
        1e-12), passes [validateMove]. *)
Theorem arc_validation :
  (forall (move : ToolpathMove float) (index : nat) (center : Vec3 float),
     isArcMove (ToolpathMove_getMoveType move) = true ->
     ToolpathMove_getArcCenter move = Some center ->
     dltb (lit 1 6)
          (dabs (dsub (arc_startRadius move center) (arc_endRadius move center))) = true ->
     ToolpathValidator_validateArc move index =
       Thrown (ArcInconsistentRadius index (arc_startRadius move center)
                 (arc_endRadius move center)
                 (dabs (dsub (arc_startRadius move center) (arc_endRadius move center)))) /\
     exists e, ToolpathValidator_validateMove move index = Thrown e) /\
  (forall (move : ToolpathMove float) (index : nat) (center : Vec3 float),
     isArcMove (ToolpathMove_getMoveType move) = true ->
     ToolpathMove_getArcCenter move = Some center ->
     dltb (arc_startRadius move center) (lit 1 9) = true ->
     (exists e, ToolpathValidator_validateArc move index = Thrown e) /\
     exists e, ToolpathValidator_validateMove move index = Thrown e) /\
  (forall (arcType : MoveType) (start end_ : ToolpathState float)
          (center : Vec3 float) (index : nat),
     let move := ToolpathMove_arc arcType start end_ center in
     isArcMove arcType = true ->
     ToolpathState_isValid start = true ->
     ToolpathState_isValid end_ = true ->
     ToolpathState_hasFeedRate end_ = true ->
     arc_startRadius move center = arc_endRadius move center ->
     dltb (arc_startRadius move center) (lit 1 9) = false ->
     ToolpathMove_isZeroLength move = false ->
     ToolpathValidator_validateArc move index = Returned /\
     ToolpathValidator_validateMove move index = Returned).
Proof.
  split; [ | split].
  - intros move index center Harc Hc Herr.
    assert (Ha : ToolpathValidator_validateArc move index =
       Thrown (ArcInconsistentRadius index (arc_startRadius move center)
                 (arc_endRadius move center)
                 (dabs (dsub (arc_startRadius move center) (arc_endRadius move center))))).
    { rewrite (validateArc_unfold move index center Hc). rewrite Herr. reflexivity. }
    split; [exact Ha | ].
    exact (validateMove_arc_throws move index _ Harc Ha).
  - intros move index center Harc Hc Hzero.
    assert (Ha : exists e, ToolpathValidator_validateArc move index = Thrown e).
    { rewrite (validateArc_unfold move index center Hc). rewrite Hzero.
      unfold throwIf. destruct (dltb (lit 1 6) _); cbn [andThen]; eexists; reflexivity. }
    split; [exact Ha | ].
    destruct Ha as [e Ha]. exact (validateMove_arc_throws move index e Harc Ha).
  - intros arcType start end_ center index move Harc Hvs Hve Hfeed Hr Hnz Hlen.
    assert (Ha : ToolpathValidator_validateArc move index = Returned).
    { rewrite (validateArc_unfold move index center eq_refl).
      rewrite <- Hr, equal_radii_no_error, Hnz. reflexivity. }
    split; [exact Ha | ].
    unfold ToolpathValidator_validateMove. rewrite Ha, Hlen.
    unfold ToolpathMove_isValid.
    subst move. cbn [ToolpathMove_arc ToolpathMove_getMoveType ToolpathMove_getEndState
                     moveType_ startState_ endState_ arcCenter_ rapidAllowed_
                     ToolpathMove_isRapidAllowed].
    rewrite Hvs, Hve, Hfeed, Harc, (isArcMove_not_rapid arcType Harc),
            (isArcMove_requiresFeedrate arcType Harc).
    reflexivity.
Qed.

Lemma arc_validation_witness :
  ToolpathValidator_validateArc quarter_circle_arc 0 = Returned /\
  ToolpathValidator_validateMove quarter_circle_arc 0 = Returned.
Proof.
  apply (proj2 (proj2 arc_validation) ArcCCW full_circle_state quarter_circle_end
           (mkVec3 (of_Z 0) (of_Z 0) (of_Z 0)) 0); vm_compute; reflexivity.
Defined.

(** C5, as stated, fails: the full circle around the origin has equal
    start and end radii (both 1) and feed rate 100 > 0, passes
    [validateArc], and yet fails validation, as a zero-length move. *)
Lemma arc_equal_radii_counterexample :
  arc_startRadius full_circle_arc (mkVec3 (of_Z 0) (of_Z 0) (of_Z 0)) = of_Z 1 /\
  arc_endRadius full_circle_arc (mkVec3 (of_Z 0) (of_Z 0) (of_Z 0)) = of_Z 1 /\
  ToolpathState_hasFeedRate (ToolpathMove_getEndState full_circle_arc) = true /\
  ToolpathValidator_validateArc full_circle_arc 0 = Returned /\
  ToolpathValidator_validateMove full_circle_arc 0 = Thrown (MoveZeroLength 0).
Proof. repeat split; reflexivity. Qed.


(* ================================================================== *)
(** * 25. Spherical interpolation                                     *)
(* ================================================================== *)

(** C8, as stated, fails at [t = 1]: [slerp] negates [q2] when the dot
    product is negative, and interpolates towards [-q2].  From the
    identity to its negative the dot product is -1; after the negation
    it is 1, the linear branch runs, and the result at [t = 1] is the
    identity, at distance 2 from [q2], whatever [std::sin] and
    [std::acos] compute. *)
Lemma slerp_end_counterexample :
  forall HL : Libm float,
    ToolSweep_slerp Quaternion_identity minus_identity (of_Z 1) = Quaternion_identity /\
    dsub (qw (ToolSweep_slerp Quaternion_identity minus_identity (of_Z 1)))
         (qw minus_identity) = of_Z 2.
Proof.
  intros HL. split; vm_compute; reflexivity.
Qed.

(* ================================================================== *)
(** * 26. The order of binary64                                       *)
(* ================================================================== *)

Module Binary64Order.

Lemma ltb_leb (a b : float) :
  PrimFloat.ltb a b = true -> PrimFloat.leb a b = true.
Proof.
  rewrite FloatAxioms.leb_spec, FloatAxioms.ltb_spec. unfold SFleb, SFltb.
  destruct (SFcompare (Prim2SF a) (Prim2SF b)) as [[] | ]; congruence.
Qed.

Lemma not_leb_not_ltb (a b : float) :
  PrimFloat.leb a b = false -> PrimFloat.ltb a b = false.
Proof.
  intros Hle. destruct (PrimFloat.ltb a b) eqn:Hlt; [ | reflexivity].
  rewrite (ltb_leb a b Hlt) in Hle. discriminate.
Qed.

Lemma ltb_asym (a b : float) :
  PrimFloat.ltb a b = true -> PrimFloat.ltb b a = false.
Proof. intros Hlt. apply Binary64.leb_not_ltb, ltb_leb, Hlt. Qed.

Lemma eqb_leb (a b : float) :
  PrimFloat.eqb a b = true -> PrimFloat.leb a b = true.
Proof.
  rewrite FloatAxioms.leb_spec, FloatAxioms.eqb_spec. unfold SFleb, SFeqb.
  destruct (SFcompare (Prim2SF a) (Prim2SF b)) as [[] | ]; congruence.
Qed.

(** A value that is not NaN compares with itself. *)
Lemma SFcompare_refl (x : spec_float) :
  x <> S754_nan -> SFcompare x x = Some Eq.
Proof.
  destruct x as [s | s | | s m e]; intros Hn; cbn.
  - reflexivity.
  - destruct s; reflexivity.
  - contradiction.
  - rewrite Z.compare_refl, Pos.compare_cont_refl. destruct s; reflexivity.
Qed.

Lemma SFcompare_some (x y : spec_float) :
  x <> S754_nan -> y <> S754_nan -> exists c, SFcompare x y = Some c.
Proof.
  destruct x as [sx | sx | | sx mx ex], y as [sy | sy | | sy my ey];
    intros Hx Hy; try contradiction; cbn; eexists; reflexivity.
Qed.

Lemma eqb_refl_not_nan (x : float) :
  PrimFloat.eqb x x = true -> Prim2SF x <> S754_nan.
Proof.
  rewrite FloatAxioms.eqb_spec. unfold SFeqb. intros He Hn.
  rewrite Hn in He. discriminate.
Qed.

Lemma not_nan_eqb_refl (x : float) :
  Prim2SF x <> S754_nan -> PrimFloat.eqb x x = true.
Proof.
  intros Hn. rewrite FloatAxioms.eqb_spec. unfold SFeqb.
  rewrite (SFcompare_refl _ Hn). reflexivity.
Qed.

(** Both sides of a true [<=] are not NaN. *)
Lemma leb_eqb_refl_l (a x : float) :
  PrimFloat.leb a x = true -> PrimFloat.eqb a a = true.
Proof.
  intros Hle. apply not_nan_eqb_refl. intros Hn.
  rewrite FloatAxioms.leb_spec in Hle. unfold SFleb in Hle.
  rewrite Hn in Hle. discriminate.
Qed.

Lemma ltb_eqb_refl (a b : float) :
  PrimFloat.ltb a b = true -> PrimFloat.eqb a a = true /\ PrimFloat.eqb b b = true.
Proof.
  intros Hlt. apply ltb_leb in Hlt. split.
  - exact (leb_eqb_refl_l a b Hlt).
  - exact (Binary64.leb_eqb_refl a b Hlt).
Qed.

Lemma leb_refl (x : float) :
  PrimFloat.eqb x x = true -> PrimFloat.leb x x = true.
Proof. apply eqb_leb. Qed.

(** The order is total away from NaN. *)
Lemma not_ltb_leb (a b : float) :
  PrimFloat.eqb a a = true -> PrimFloat.eqb b b = true ->
  PrimFloat.ltb b a = false -> PrimFloat.leb a b = true.
Proof.
  intros Ha Hb. apply eqb_refl_not_nan in Ha. apply eqb_refl_not_nan in Hb.
  rewrite FloatAxioms.leb_spec, FloatAxioms.ltb_spec. unfold SFleb, SFltb.
  rewrite (Binary64.SFcompare_antisym (Prim2SF a) (Prim2SF b)).
  destruct (SFcompare_some _ _ Ha Hb) as [c ->].
  destruct c; simpl; congruence.
Qed.

(** A finite value is not NaN. *)
Lemma is_finite_eqb_refl (x : float) :
  PrimFloat.is_finite x = true -> PrimFloat.eqb x x = true.
Proof.
  intros Hf. apply not_nan_eqb_refl.
  destruct (Binary64.is_finite_SF x Hf) as [[s ->] | (s & m & e & ->)]; discriminate.
Qed.

(** NaN compares with nothing. *)
Lemma nan_ltb_l (x y : float) :
  PrimFloat.eqb x x = false -> PrimFloat.ltb x y = false.
Proof.
  intros Hx. destruct (PrimFloat.ltb x y) eqn:Hlt; [ | reflexivity].
  destruct (ltb_eqb_refl x y Hlt) as [Hxx _]. congruence.
Qed.

Lemma nan_ltb_r (x y : float) :
  PrimFloat.eqb y y = false -> PrimFloat.ltb x y = false.
Proof.
  intros Hy. destruct (PrimFloat.ltb x y) eqn:Hlt; [ | reflexivity].
  destruct (ltb_eqb_refl x y Hlt) as [_ Hyy]. congruence.
Qed.

Lemma nan_leb_l (x y : float) :
  PrimFloat.eqb x x = false -> PrimFloat.leb x y = false.
Proof.
  intros Hx. destruct (PrimFloat.leb x y) eqn:Hle; [ | reflexivity].
  rewrite (leb_eqb_refl_l x y Hle) in Hx. discriminate.
Qed.

Lemma nan_leb_r (x y : float) :
  PrimFloat.eqb y y = false -> PrimFloat.leb x y = false.
Proof.
  intros Hy. destruct (PrimFloat.leb x y) eqn:Hle; [ | reflexivity].
  rewrite (Binary64.leb_eqb_refl x y Hle) in Hy. discriminate.
Qed.

Ltac compare_cases :=
  repeat match goal with
         | |- context [PosDef.Pos.compare_cont Eq ?x ?y] =>
             change (PosDef.Pos.compare_cont Eq x y) with (Pos.compare x y)
         end;
  repeat match goal with
         | |- context [Z.compare ?x ?y] => destruct (Z.compare_spec x y)
         end;
  repeat match goal with
         | |- context [Pos.compare ?x ?y] => destruct (Pos.compare_spec x y)
         end;
  cbn; try discriminate; try reflexivity; try lia.

Lemma SFleb_trans (a b c : spec_float) :
  SFleb a b = true -> SFleb b c = true -> SFleb a c = true.
Proof.
  unfold SFleb.
  destruct a as [sa | sa | | sa ma ea], b as [sb | sb | | sb mb eb],
           c as [sc | sc | | sc mc ec]; cbn;
    try discriminate; try reflexivity;
    repeat match goal with s : bool |- _ => destruct s end;
    cbn; try discriminate; try reflexivity.
  all: compare_cases.
Qed.

(** [<=] is transitive. *)
Lemma leb_trans (a b c : float) :
  PrimFloat.leb a b = true -> PrimFloat.leb b c = true -> PrimFloat.leb a c = true.
Proof. rewrite !FloatAxioms.leb_spec. apply SFleb_trans. Qed.

Ltac float_cases :=
  repeat match goal with s : bool |- _ => destruct s end;
  cbn; try discriminate; try reflexivity;
  compare_cases; intros; try discriminate; try reflexivity; try lia.

Lemma SFeqb_sym (a b : spec_float) : SFeqb a b = SFeqb b a.
Proof.
  unfold SFeqb.
  destruct a as [sa | sa | | sa ma ea], b as [sb | sb | | sb mb eb]; cbn;
    try reflexivity.
  all: float_cases.
Qed.

Lemma SFeqb_trans (a b c : spec_float) :
  SFeqb a b = true -> SFeqb b c = true -> SFeqb a c = true.
Proof.
  unfold SFeqb.
  destruct a as [sa | sa | | sa ma ea], b as [sb | sb | | sb mb eb],
           c as [sc | sc | | sc mc ec]; cbn;
    try discriminate; try reflexivity.
  all: float_cases.
Qed.

Lemma SFeqb_ltb_r (a b c : spec_float) :
  SFeqb a b = true -> SFltb c a = SFltb c b.
Proof.
  unfold SFeqb, SFltb.
  destruct a as [sa | sa | | sa ma ea], b as [sb | sb | | sb mb eb],
           c as [sc | sc | | sc mc ec]; cbn;
    try discriminate; try reflexivity.
  all: float_cases.
Qed.

(** [==] is symmetric and transitive (not reflexive: NaN), and [<]
    does not tell apart two values that compare equal. *)
Lemma eqb_sym (a b : float) : PrimFloat.eqb a b = PrimFloat.eqb b a.
Proof. rewrite !FloatAxioms.eqb_spec. apply SFeqb_sym. Qed.

Lemma eqb_trans (a b c : float) :
  PrimFloat.eqb a b = true -> PrimFloat.eqb b c = true -> PrimFloat.eqb a c = true.
Proof. rewrite !FloatAxioms.eqb_spec. apply SFeqb_trans. Qed.

Lemma eqb_ltb_r (a b c : float) :
  PrimFloat.eqb a b = true -> PrimFloat.ltb c a = PrimFloat.ltb c b.
Proof. rewrite !FloatAxioms.eqb_spec, !FloatAxioms.ltb_spec. apply SFeqb_ltb_r. Qed.

(** Values that compare equal are both finite or both not. *)
Lemma eqb_is_finite (a b : float) :
  PrimFloat.eqb a b = true -> PrimFloat.is_finite a = PrimFloat.is_finite b.
Proof.
  unfold PrimFloat.is_finite, PrimFloat.is_nan, PrimFloat.is_infinity.
  rewrite !FloatAxioms.eqb_spec, !FloatAxioms.abs_spec.
  change (Prim2SF infinity) with (S754_infinity false).
  unfold SFeqb.
  destruct (Prim2SF a) as [sa | sa | | sa ma ea],
           (Prim2SF b) as [sb | sb | | sb mb eb]; cbn;
    try discriminate; try reflexivity.
  all: float_cases.
Qed.

End Binary64Order.

(* ================================================================== *)
(** * 27. Errors and the simulation clock                             *)
(* ================================================================== *)

(** X1.  [Error::make] keeps the code, the message and the recoverable
    flag it is given, and derives the severity from the code alone:
    Warning for [MachineLimitExceeded], Error for every other code,
    [Success] included.  So an error built by [make] is never fatal, and
    it is an error exactly when its code is not [Success]. *)
Theorem Error_make_severity :
  forall (code : ErrorCode) (message : string) (recoverable : bool),
    let e := Error_make code message recoverable in
    Error_getCode e = code /\
    Error_getMessage e = message /\
    Error_isRecoverable e = recoverable /\
    Error_getSeverity e =
      match code with
      | MachineLimitExceeded => SeverityWarning
      | _ => SeverityError
      end /\
    Error_isFatal e = false /\
    (Error_isError e = true <-> code <> Success) /\
    (Error_isSuccess e = true <-> code = Success).
Proof.
  intros code message recoverable e.
  destruct code; cbn; repeat split; try reflexivity; try discriminate;
    try congruence.
Qed.

Section Clock.

Lemma uint64_incr_range (n : Z) : is_uint64 (uint64_incr n).
Proof.
  unfold is_uint64, uint64_incr, uint64_modulus.
  apply Z.mod_pos_bound. reflexivity.
Qed.

Lemma SimulationTime_apply_positive (t : SimulationTime float)
  (call : SimulationTime_call float) :
  PrimFloat.ltb PrimFloat.zero (fixedTimeStep_ t) = true ->
  PrimFloat.ltb PrimFloat.zero (fixedTimeStep_ (SimulationTime_apply t call)) = true.
Proof.
  intros Hp. destruct call as [ | | timeStep]; cbn [SimulationTime_apply].
  - exact Hp.
  - exact Hp.
  - unfold SimulationTime_setFixedTimeStep. cbn [dltb binary64 of_Z float_of_Z].
    destruct (PrimFloat.ltb PrimFloat.zero timeStep) eqn:Hts; [exact Hts | exact Hp].
Qed.

Lemma SimulationTime_apply_count (t : SimulationTime float)
  (call : SimulationTime_call float) :
  is_uint64 (time_stepCount_ t) ->
  is_uint64 (time_stepCount_ (SimulationTime_apply t call)).
Proof.
  intros Hc. destruct call as [ | | timeStep]; cbn [SimulationTime_apply].
  - apply uint64_incr_range.
  - cbn. unfold is_uint64, uint64_modulus. lia.
  - unfold SimulationTime_setFixedTimeStep.
    destruct (dltb _ _); exact Hc.
Qed.

End Clock.

(** X2.  The time step of a [SimulationTime] is positive for the whole
    life of the object, in double precision: the constructor replaces a
    step that is not [> 0] (zero, negative, NaN) by 0.001,
    [setFixedTimeStep] ignores such a step, and [step] and [reset] keep
    it.  The step count stays a [uint64].  So [isValid] can only fail
    through a value that is not finite. *)
Theorem SimulationTime_step_positive :
  forall (fixedTimeStep : float) (calls : list (SimulationTime_call float)),
    let t := fold_left SimulationTime_apply calls (SimulationTime_make fixedTimeStep) in
    dltb (of_Z 0) (SimulationTime_getFixedTimeStep t) = true /\
    is_uint64 (SimulationTime_getStepCount t) /\
    SimulationTime_isValid t =
      disfinite (SimulationTime_getAccumulatedTime t) &&
      disfinite (SimulationTime_getFixedTimeStep t).
Proof.
  intros fixedTimeStep calls.
  assert (Hinv : forall (cs : list (SimulationTime_call float)) (t0 : SimulationTime float),
             PrimFloat.ltb PrimFloat.zero (fixedTimeStep_ t0) = true ->
             is_uint64 (time_stepCount_ t0) ->
             PrimFloat.ltb PrimFloat.zero
               (fixedTimeStep_ (fold_left SimulationTime_apply cs t0)) = true /\
             is_uint64 (time_stepCount_ (fold_left SimulationTime_apply cs t0))).
  { induction cs as [ | call cs IH]; intros t0 Hp Hc; cbn [fold_left].
    - split; assumption.
    - apply IH.
      + apply SimulationTime_apply_positive. exact Hp.
      + apply SimulationTime_apply_count. exact Hc. }
  assert (H0 : PrimFloat.ltb PrimFloat.zero
                 (fixedTimeStep_ (SimulationTime_make fixedTimeStep)) = true).
  { unfold SimulationTime_make. cbn [fixedTimeStep_ dltb binary64 of_Z float_of_Z].
    destruct (PrimFloat.ltb PrimFloat.zero fixedTimeStep) eqn:Hts;
      [exact Hts | reflexivity]. }
  assert (Hc0 : is_uint64 (time_stepCount_ (SimulationTime_make fixedTimeStep))).
  { cbn. unfold is_uint64, uint64_modulus. lia. }
  destruct (Hinv calls _ H0 Hc0) as [Hp Hc].
  intros t. fold t in Hp, Hc.
  split; [exact Hp | split; [exact Hc | ]].
  unfold SimulationTime_isValid, SimulationTime_getAccumulatedTime,
    SimulationTime_getFixedTimeStep.
  cbn [dltb binary64 of_Z float_of_Z]. rewrite Hp. reflexivity.
Qed.

(* ================================================================== *)
(** * 28. More of the engine life cycle                               *)
(* ================================================================== *)

(** X3.  [initialize] changes the life-cycle state only when it
    succeeds.  On an invalid state it returns the non-recoverable
    [SimulationInvalidState] error and leaves the engine and the state
    alone.  When it returns success the state was valid, the engine is
    Initialized and its clock is back at zero.  When it returns an error
    the engine keeps its life-cycle state and its clock: a failed
    re-initialization leaves an Initialized engine Initialized.  The
    type name and the time step are never changed. *)
Theorem initialize_outcome :
  forall {D : Type} {HS : Scalar D} {G : Type} {HG : MaterialGrid G}
         {Tool X : Type} {HX : EngineHooks (D := D) (G := G) Tool X}
         (e : SimulationEngineBase D X) (state : SimulationState D G),
    let err := fst (fst (SimulationEngineBase_initialize e state)) in
    let e' := snd (fst (SimulationEngineBase_initialize e state)) in
    let state' := snd (SimulationEngineBase_initialize e state) in
    engineType_ e' = engineType_ e /\
    fixedTimeStep_ (SimulationEngineBase_getTime e') =
      fixedTimeStep_ (SimulationEngineBase_getTime e) /\
    (SimulationState_isValid state = false ->
       Error_getCode err = SimulationInvalidState /\
       Error_isRecoverable err = false /\
       e' = e /\ state' = state) /\
    (Error_isSuccess err = true ->
       SimulationState_isValid state = true /\
       SimulationEngineBase_isInitialized e' = true /\
       accumulatedTime_ (SimulationEngineBase_getTime e') = of_Z 0 /\
       time_stepCount_ (SimulationEngineBase_getTime e') = 0%Z) /\
    (Error_isSuccess err = false ->
       SimulationEngineBase_isInitialized e' = SimulationEngineBase_isInitialized e /\
       SimulationEngineBase_getTime e' = SimulationEngineBase_getTime e).
Proof.
  intros D HS G HG Tool X HX e state.
  unfold SimulationEngineBase_initialize.
  destruct (SimulationState_isValid state) eqn:Hv; cbn [negb].
  - destruct (doInitialize (derived_ e) state) as [[err x] st].
    destruct (Error_isSuccess err) eqn:He; cbn [fst snd];
      cbn [engineType_ time_ initialized_ SimulationEngineBase_getTime
           SimulationEngineBase_isInitialized SimulationTime_reset
           fixedTimeStep_ accumulatedTime_ time_stepCount_];
      rewrite ?He; repeat split; try reflexivity; try discriminate.
  - cbn [fst snd]. repeat split; try reflexivity; discriminate.
Qed.

(* ================================================================== *)
(** * 29. The step controller                                         *)
(* ================================================================== *)

Section ControllerContract.
Context {D : Type} {HS : Scalar D} {G : Type} {HG : MaterialGrid G}.
Context {Tool E : Type} {HE : ISimulationEngine (D := D) (G := G) Tool E}.

(** [stepOnce] returns whether the result it caches is a success. *)
Lemma stepOnce_ok (c : StepController D E) (s : SimulationState D G)
  (sweep : ToolSweep D Tool) :
  fst (fst (StepController_stepOnce c s sweep)) =
  StepResult_isSuccess (lastResult_ (snd (fst (StepController_stepOnce c s sweep)))).
Proof.
  unfold StepController_stepOnce.
  destruct (engine_ c) as [e | ]; [ | reflexivity].
  destruct (SimulationState_isValid s); cbn [negb]; [ | reflexivity].
  destruct (step e s sweep) as [[r e'] s']. reflexivity.
Qed.

(** The shape of a run of the loop: successes, then at most one result
    that is not a success, which ends the run. *)
Lemma stepN_loop_trace (remaining : nat) :
  forall (c : StepController D E) (s : SimulationState D G)
         (sweep : ToolSweep D Tool) (executed : Z),
    (0 <= executed)%Z -> (executed + Z.of_nat remaining < uint64_modulus)%Z ->
    let '(n, c', s', rs) := StepController_stepN_loop remaining c s sweep executed in
    let successes := List.length (filter StepResult_isSuccess rs) in
    n = (executed + Z.of_nat successes)%Z /\
    (successes <= remaining)%nat /\
    List.length rs = (successes + (if (successes <? remaining)%nat then 1 else 0))%nat /\
    (remaining = 0%nat -> c' = c) /\
    ((successes < remaining)%nat -> StepResult_isSuccess (lastResult_ c') = false) /\
    ((0 < remaining)%nat -> successes = remaining ->
     StepResult_isSuccess (lastResult_ c') = true).
Proof.
  induction remaining as [ | remaining IH]; intros c s sweep executed H0 Hlt.
  - cbn. repeat split; try reflexivity; lia.
  - cbn [StepController_stepN_loop].
    pose proof (stepOnce_ok c s sweep) as Hok.
    destruct (StepController_stepOnce c s sweep) as [[ok c1] s1].
    cbn [fst snd] in Hok.
    destruct ok; cbn [negb].
    + specialize (IH c1 s1 sweep (uint64_incr executed)).
      rewrite (uint64_incr_small executed H0) in * by lia.
      destruct (StepController_stepN_loop remaining c1 s1 sweep (executed + 1))
        as [[[n c'] s'] rs].
      destruct IH as (Hn & Hle & Hlen & Hz & Hfail & Hall); [lia | lia | ].
      cbn [filter]. rewrite <- Hok. cbn [List.length].
      set (f := List.length (filter StepResult_isSuccess rs)) in *.
      split; [lia | ]. split; [lia | ].
      split.
      { rewrite Hlen. change (S f <? S remaining)%nat with (f <? remaining)%nat. lia. }
      split; [discriminate | ].
      split.
      { intros Hf. apply Hfail. lia. }
      intros _ Hf.
      destruct remaining as [ | remaining'].
      * rewrite (Hz eq_refl). symmetry. exact Hok.
      * apply Hall; lia.
    + cbn [filter]. rewrite <- Hok. cbn [List.length].
      split; [lia | ]. split; [lia | ].
      split; [reflexivity | ].
      split; [discriminate | ].
      split; [intros _; reflexivity | ].
      intros _ Hf. discriminate Hf.
Qed.

End ControllerContract.

(** X4.  What [stepN(state, sweep, numSteps)] returns, for a controller
    with an engine and a valid state.  The return value is the number of
    step results of the run that are a success; it is at most
    [numSteps].  The run makes one call of [stepOnce] more than that
    when it stops early, none more when it runs to the end.  Afterwards
    [lastStepSucceeded()] is false when fewer than [numSteps] steps were
    counted, and true when all of [numSteps >= 1] were. *)
Theorem stepN_return_contract :
  forall {D : Type} {HS : Scalar D} {G : Type} {HG : MaterialGrid G}
         {Tool E : Type} {HE : ISimulationEngine (D := D) (G := G) Tool E}
         (c : StepController D E) (s : SimulationState D G)
         (sweep : ToolSweep D Tool) (numSteps : Z) (e : E),
    engine_ c = Some e -> SimulationState_isValid s = true -> is_uint64 numSteps ->
    let run := StepController_stepN_run c s sweep numSteps in
    let n := fst (fst (fst run)) in
    let c' := snd (fst (fst run)) in
    let results := snd run in
    StepController_stepN c s sweep numSteps = (n, c', snd (fst run)) /\
    (0 <= n <= numSteps)%Z /\
    n = Z.of_nat (List.length (filter StepResult_isSuccess results)) /\
    Z.of_nat (List.length results) = (n + (if (n <? numSteps)%Z then 1 else 0))%Z /\
    ((n < numSteps)%Z -> StepController_lastStepSucceeded c' = false) /\
    ((0 < numSteps)%Z -> n = numSteps -> StepController_lastStepSucceeded c' = true).
Proof.
  intros D HS G HG Tool E HE c s sweep numSteps e Hc Hv [Hn0 Hn1].
  unfold StepController_stepN, StepController_stepN_run. rewrite Hc, Hv. cbn [negb].
  pose proof (stepN_loop_trace (Z.to_nat numSteps) c s sweep 0%Z) as Ht.
  destruct (StepController_stepN_loop (Z.to_nat numSteps) c s sweep 0)
    as [[[n c'] s'] rs].
  cbn [fst snd]. cbv zeta in Ht.
  destruct Ht as (Hn & Hle & Hlen & _ & Hfail & Hall); [lia | lia | ].
  set (f := List.length (filter StepResult_isSuccess rs)) in *.
  unfold StepController_lastStepSucceeded.
  split; [reflexivity | ]. split; [lia | ]. split; [lia | ].
  split.
  { rewrite Hlen.
    destruct (Nat.ltb_spec f (Z.to_nat numSteps)), (Z.ltb_spec n numSteps); lia. }
  split.
  - intros Hlt. apply Hfail. lia.
  - intros Hpos Heq. apply Hall; lia.
Qed.

Lemma stepN_return_contract_witness :
  fst (fst (StepController_stepN demo_controller_1 demo_state demo_sweep 5)) = 2%Z /\
  StepController_lastStepSucceeded
    (snd (fst (StepController_stepN demo_controller_1 demo_state demo_sweep 5))) = false.
Proof.
  pose proof (stepN_return_contract (Tool := unit) demo_controller_1 demo_state demo_sweep
                5%Z (demo_engine_ready demo_script) eq_refl eq_refl) as Hrun.
  destruct Hrun as (Heq & _ & Hn & _ & Hfail & _).
  - split; [discriminate | reflexivity].
  - rewrite Heq. cbn [fst snd]. split.
    + rewrite Hn. vm_compute. reflexivity.
    + apply Hfail. rewrite Hn. vm_compute. reflexivity.
Defined.

Section Overloads.
Context {D : Type} {HS : Scalar D} {G : Type} {HG : MaterialGrid G}.
Context {Tool E : Type} {HE : ISimulationEngine (D := D) (G := G) Tool E}.

Lemma stepN_sweeps_loop_repeat (k : nat) :
  forall (c : StepController D E) (s : SimulationState D G)
         (sweep : ToolSweep D Tool) (executed : Z),
    StepController_stepN_sweeps_loop (repeat sweep k) c s executed =
    StepController_stepN_loop k c s sweep executed.
Proof.
  induction k as [ | k IH]; intros c s sweep executed.
  - reflexivity.
  - cbn [repeat StepController_stepN_sweeps_loop StepController_stepN_loop].
    destruct (StepController_stepOnce c s sweep) as [[ok c1] s1].
    destruct ok; cbn [negb]; [ | reflexivity].
    rewrite IH. reflexivity.
Qed.

End Overloads.

(** X5.  The two overloads of [stepN] agree: stepping over a vector
    that holds the same sweep [k] times is stepping [k] times with that
    sweep.  The count returned, the controller and the state are the
    same, for every engine, the empty vector and [k = 0] included. *)
Theorem stepN_overloads_agree :
  forall {D : Type} {HS : Scalar D} {G : Type} {HG : MaterialGrid G}
         {Tool E : Type} {HE : ISimulationEngine (D := D) (G := G) Tool E}
         (c : StepController D E) (s : SimulationState D G)
         (sweep : ToolSweep D Tool) (k : nat),
    is_uint64 (Z.of_nat k) ->
    StepController_stepN_sweeps c s (repeat sweep k) =
    StepController_stepN c s sweep (Z.of_nat k).
Proof.
  intros D HS G HG Tool E HE c s sweep k _.
  unfold StepController_stepN_sweeps, StepController_stepN,
    StepController_stepN_sweeps_run, StepController_stepN_run.
  rewrite Nat2Z.id.
  destruct (engine_ c) as [e | ]; [ | reflexivity].
  destruct (SimulationState_isValid s); cbn [negb]; [ | reflexivity].
  destruct k as [ | k].
  - reflexivity.
  - cbn [repeat].
    rewrite <- (stepN_sweeps_loop_repeat (S k) c s sweep 0%Z).
    reflexivity.
Qed.

Lemma stepN_overloads_agree_witness :
  StepController_stepN_sweeps demo_controller_1 demo_state
    [demo_sweep; demo_sweep; demo_sweep] =
  StepController_stepN demo_controller_1 demo_state demo_sweep 3.
Proof.
  apply (stepN_overloads_agree (Tool := unit) demo_controller_1 demo_state demo_sweep 3).
  split; [discriminate | reflexivity].
Defined.

(** X6.  A controller without an engine does nothing.  The constructor
    records an [InvalidArgument] error for a null engine; from then on
    [initialize], [stepOnce] and [reset] return false with a
    non-recoverable [InvalidState] error, both overloads of [stepN]
    return 0 without recording anything, [isValid] is false, and no
    call changes the simulation state. *)
Theorem null_engine_controller :
  forall {D : Type} {HS : Scalar D} {G : Type} {HG : MaterialGrid G}
         {Tool E : Type} {HE : ISimulationEngine (D := D) (G := G) Tool E}
         (s : SimulationState D G) (sweep : ToolSweep D Tool)
         (sweeps : list (ToolSweep D Tool)) (numSteps : Z),
    let c0 : StepController D E := StepController_make None in
    let failed : StepController D E :=
      mkStepController None (StepResult_makeError InvalidState "Engine is null" false) in
    engine_ c0 = None /\
    Error_getCode (error (StepController_getLastStepResult c0)) = InvalidArgument /\
    StepController_lastStepHadError c0 = true /\
    (forall c : StepController D E,
       engine_ c = None ->
       StepController_isValid c = false /\
       StepController_initialize c s = (false, failed, s) /\
       StepController_stepOnce c s sweep = (false, failed, s) /\
       StepController_reset c s = (false, failed, s) /\
       StepController_stepN c s sweep numSteps = (0%Z, c, s) /\
       StepController_stepN_sweeps c s sweeps = (0%Z, c, s)) /\
    StepController_lastStepSucceeded failed = false /\
    Error_isRecoverable (error (StepController_getLastStepResult failed)) = false.
Proof.
  intros D HS G HG Tool E HE s sweep sweeps numSteps c0 failed.
  split; [reflexivity | ]. split; [reflexivity | ]. split; [reflexivity | ].
  split; [ | split; reflexivity].
  intros c Hc.
  unfold StepController_isValid, StepController_initialize, StepController_stepOnce,
    StepController_reset, StepController_stepN, StepController_stepN_run,
    StepController_stepN_sweeps, StepController_stepN_sweeps_run.
  rewrite Hc. repeat split; reflexivity.
Qed.

(** X7.  An invalid state (no material grid, or an invalid one) is
    never handed to the engine.  [stepOnce] returns false and records
    the non-recoverable [SimulationInvalidState] error; both overloads
    of [stepN] return 0 and record nothing.  The engine object and the
    state are as before. *)
Theorem invalid_state_not_stepped :
  forall {D : Type} {HS : Scalar D} {G : Type} {HG : MaterialGrid G}
         {Tool E : Type} {HE : ISimulationEngine (D := D) (G := G) Tool E}
         (c : StepController D E) (e : E) (s : SimulationState D G)
         (sweep : ToolSweep D Tool) (sweeps : list (ToolSweep D Tool)) (numSteps : Z),
    engine_ c = Some e -> SimulationState_isValid s = false ->
    StepController_stepOnce c s sweep =
      (false,
       mkStepController (Some e)
         (StepResult_makeError SimulationInvalidState "Simulation state is invalid" false),
       s) /\
    Error_isRecoverable
      (error (StepController_getLastStepResult
                (snd (fst (StepController_stepOnce c s sweep))))) = false /\
    StepController_stepN c s sweep numSteps = (0%Z, c, s) /\
    StepController_stepN_sweeps c s sweeps = (0%Z, c, s).
Proof.
  intros D HS G HG Tool E HE c e s sweep sweeps numSteps Hc Hv.
  unfold StepController_stepOnce, StepController_stepN, StepController_stepN_run,
    StepController_stepN_sweeps, StepController_stepN_sweeps_run.
  rewrite Hc, Hv. cbn [negb fst snd]. repeat split; reflexivity.
Qed.

Lemma invalid_state_not_stepped_witness :
  SimulationState_isValid gridless_state = false /\
  StepController_stepN demo_controller_1 gridless_state demo_sweep 5 =
    (0%Z, demo_controller_1, gridless_state).
Proof.
  split.
  - reflexivity.
  - exact (proj1 (proj2 (proj2
      (invalid_state_not_stepped (Tool := unit) demo_controller_1
         (demo_engine_ready demo_script) gridless_state demo_sweep [] 5%Z
         eq_refl eq_refl)))).
Defined.

(** X8.  How the controller reports what the engine's [initialize] and
    [reset] return.  The controller returns true exactly when the engine
    returns a success, and [lastStepSucceeded()] says the same.  On an
    error the recorded result repeats the engine error's code, message
    and recoverable flag, but not its severity: the error is rebuilt
    with [Error::make], so a fatal engine error is recorded as not
    fatal. *)
Theorem controller_reports_engine_error :
  forall {D : Type} {HS : Scalar D} {G : Type} {HG : MaterialGrid G}
         {Tool E : Type} {HE : ISimulationEngine (D := D) (G := G) Tool E}
         (c : StepController D E) (e : E) (s : SimulationState D G),
    engine_ c = Some e ->
    let report (call : E -> SimulationState D G -> Error * E * SimulationState D G)
               (out : bool * StepController D E * SimulationState D G) : Prop :=
      let err := fst (fst (call e s)) in
      let recorded := error (StepController_getLastStepResult (snd (fst out))) in
      fst (fst out) = Error_isSuccess err /\
      engine_ (snd (fst out)) = Some (snd (fst (call e s))) /\
      snd out = snd (call e s) /\
      StepController_lastStepSucceeded (snd (fst out)) = Error_isSuccess err /\
      StepController_lastStepHadCollision (snd (fst out)) = false /\
      Error_isFatal recorded = false /\
      (Error_isSuccess err = false ->
         Error_getCode recorded = Error_getCode err /\
         Error_getMessage recorded = Error_getMessage err /\
         Error_isRecoverable recorded = Error_isRecoverable err) in
    report (fun e s => initialize e s) (StepController_initialize c s) /\
    report (fun e s => reset e s) (StepController_reset c s).
Proof.
  intros D HS G HG Tool E HE c e s Hc report.
  assert (Hfatal : forall code message recoverable,
             Error_isFatal (Error_make code message recoverable) = false).
  { intros code message recoverable. destruct code; reflexivity. }
  unfold report, StepController_initialize, StepController_reset,
    StepController_lastStepSucceeded, StepController_lastStepHadCollision,
    StepController_getLastStepResult.
  rewrite Hc. split.
  - destruct (initialize e s) as [[err e'] s'].
    destruct (Error_isSuccess err) eqn:He; cbn [fst snd engine_ lastResult_];
      rewrite He.
    + do 6 (split; [reflexivity | ]). intros Hf. discriminate Hf.
    + unfold StepResult_makeError, StepResult_isSuccess. cbn [error collisionDetected].
      rewrite Hfatal. unfold Error_isSuccess, Error_make, Error_getCode.
      cbn [code_ message_ recoverable_]. unfold Error_isSuccess in He. rewrite He.
      do 6 (split; [reflexivity | ]). intros _. repeat split; reflexivity.
  - destruct (reset e s) as [[err e'] s'].
    destruct (Error_isSuccess err) eqn:He; cbn [fst snd engine_ lastResult_];
      rewrite He.
    + do 6 (split; [reflexivity | ]). intros Hf. discriminate Hf.
    + unfold StepResult_makeError, StepResult_isSuccess. cbn [error collisionDetected].
      rewrite Hfatal. unfold Error_isSuccess, Error_make, Error_getCode.
      cbn [code_ message_ recoverable_]. unfold Error_isSuccess in He. rewrite He.
      do 6 (split; [reflexivity | ]). intros _. repeat split; reflexivity.
Qed.

Lemma controller_reports_engine_error_witness :
  fst (fst (StepController_initialize (Tool := unit)
              (StepController_make (Some (demo_engine []))) gridless_state)) = false /\
  Error_getCode
    (error (StepController_getLastStepResult
              (snd (fst (StepController_initialize (Tool := unit)
                           (StepController_make (Some (demo_engine []))) gridless_state)))))
  = SimulationInvalidState.
Proof.
  pose proof (controller_reports_engine_error (Tool := unit)
                (StepController_make (Some (demo_engine []))) (demo_engine [])
                gridless_state eq_refl) as Hr.
  cbv zeta beta in Hr. destruct Hr as [(H1 & _ & _ & _ & _ & _ & H7) _].
  split.
  - rewrite H1. reflexivity.
  - rewrite (proj1 (H7 eq_refl)). reflexivity.
Defined.

Section Accounting.
Context {D : Type} {HS : Scalar D} {G : Type} {HG : MaterialGrid G}.
Context {Tool X : Type} {HX : EngineHooks (D := D) (G := G) Tool X}.

Local Abbreviation Engine := (SimulationEngineBase D X).
Local Abbreviation Controller := (StepController D Engine).

Lemma iter_uint64_incr (k : nat) (n : Z) :
  is_uint64 n ->
  Nat.iter k uint64_incr n = ((n + Z.of_nat k) mod uint64_modulus)%Z.
Proof.
  intros Hn. induction k as [ | k IH].
  - cbn [Nat.iter nat_rect]. rewrite Z.add_0_r. symmetry. apply Z.mod_small. exact Hn.
  - rewrite Nat.iter_succ, IH. unfold uint64_incr.
    rewrite Z.add_mod_idemp_l by (unfold uint64_modulus; lia).
    f_equal. lia.
Qed.

Lemma accumulate_succ_r (k : nat) (delta start : D) :
  accumulate (S k) delta start = accumulate k delta (dadd start delta).
Proof. unfold accumulate. rewrite Nat.iter_succ_r. reflexivity. Qed.

(** One call of [stepOnce] that reaches [doStep]. *)
Lemma stepOnce_accounting (c : Controller) (s : SimulationState D G)
  (sweep : ToolSweep D Tool) (e : Engine) :
  doStep_keeps_bookkeeping (H1 := HX) ->
  engine_ c = Some e -> initialized_ e = true -> SimulationState_isValid s = true ->
  let '(ok, c1, s1) := StepController_stepOnce c s sweep in
  stepCount_ s1 = uint64_incr (stepCount_ s) /\
  timeAccumulator_ s1 = dadd (timeAccumulator_ s) (fixedTimeStep_ (time_ e)) /\
  SimulationState_isValid s1 = true /\
  exists e1 : Engine,
    engine_ c1 = Some e1 /\ initialized_ e1 = true /\
    fixedTimeStep_ (time_ e1) = fixedTimeStep_ (time_ e) /\
    time_stepCount_ (time_ e1) = uint64_incr (time_stepCount_ (time_ e)) /\
    accumulatedTime_ (time_ e1) =
      dadd (accumulatedTime_ (time_ e)) (fixedTimeStep_ (time_ e)).
Proof.
  intros Hk Hc Hi Hv.
  unfold StepController_stepOnce. rewrite Hc, Hv. cbn [negb].
  cbn [step SimulationEngineBase_engine]. unfold SimulationEngineBase_step.
  rewrite Hi, Hv. cbn [negb].
  pose proof (Hk (derived_ e) (SimulationState_incrementStepCount s) sweep) as Hd.
  destruct (doStep (derived_ e) (SimulationState_incrementStepCount s) sweep)
    as [[r x] st].
  cbn [snd] in Hd. destruct Hd as (Hd1 & Hd2 & Hd3).
  unfold SimulationState_getStepCount, SimulationState_getTimeAccumulator in Hd1, Hd2.
  cbn [stepCount_ timeAccumulator_ SimulationState_incrementStepCount] in Hd1, Hd2.
  cbn [lastResult_ engine_].
  split; [cbn; exact Hd1 | ].
  split; [cbn; rewrite Hd2; reflexivity | ].
  split.
  - unfold SimulationState_isValid in *. cbn in *. rewrite Hd3. exact Hv.
  - eexists. split; [reflexivity | ]. cbn. repeat split; reflexivity || exact Hi.
Qed.

(** The state's counter and the engine's clock advance once per call of
    [stepOnce], the last, failing one included. *)
Lemma stepN_loop_accounting (remaining : nat) :
  doStep_keeps_bookkeeping (H1 := HX) ->
  forall (c : Controller) (s : SimulationState D G) (sweep : ToolSweep D Tool)
         (executed : Z) (e : Engine),
    engine_ c = Some e -> initialized_ e = true -> SimulationState_isValid s = true ->
    let '(n, c', s', rs) := StepController_stepN_loop remaining c s sweep executed in
    stepCount_ s' = Nat.iter (List.length rs) uint64_incr (stepCount_ s) /\
    timeAccumulator_ s' =
      accumulate (List.length rs) (fixedTimeStep_ (time_ e)) (timeAccumulator_ s) /\
    exists e' : Engine,
      engine_ c' = Some e' /\ initialized_ e' = true /\
      fixedTimeStep_ (time_ e') = fixedTimeStep_ (time_ e) /\
      time_stepCount_ (time_ e') =
        Nat.iter (List.length rs) uint64_incr (time_stepCount_ (time_ e)) /\
      accumulatedTime_ (time_ e') =
        accumulate (List.length rs) (fixedTimeStep_ (time_ e)) (accumulatedTime_ (time_ e)).
Proof.
  intros Hk. induction remaining as [ | remaining IH]; intros c s sweep executed e Hc Hi Hv.
  - cbn [StepController_stepN_loop List.length].
    split; [reflexivity | ]. split; [reflexivity | ].
    exists e. repeat split; assumption || reflexivity.
  - cbn [StepController_stepN_loop].
    pose proof (stepOnce_accounting c s sweep e Hk Hc Hi Hv) as Hone.
    destruct (StepController_stepOnce c s sweep) as [[ok c1] s1].
    destruct Hone as (Hs1 & Ht1 & Hv1 & e1 & Hc1 & Hi1 & Hf1 & Hn1 & Ha1).
    destruct ok; cbn [negb].
    + specialize (IH c1 s1 sweep (uint64_incr executed) e1 Hc1 Hi1 Hv1).
      destruct (StepController_stepN_loop remaining c1 s1 sweep (uint64_incr executed))
        as [[[n c'] s'] rs].
      destruct IH as (Hs' & Ht' & e' & Hc' & Hi' & Hf' & Hn' & Ha').
      cbn [List.length]. rewrite !Nat.iter_succ_r, !accumulate_succ_r.
      rewrite Hf1 in Ht', Ha'.
      split; [rewrite Hs', Hs1; reflexivity | ].
      split; [rewrite Ht', Ht1; reflexivity | ].
      exists e'. split; [exact Hc' | ]. split; [exact Hi' | ].
      split; [congruence | ].
      split; [rewrite Hn', Hn1; reflexivity | ].
      rewrite Ha', Ha1. reflexivity.
    + cbn [List.length]. rewrite !Nat.iter_succ_r, !accumulate_succ_r.
      cbn [Nat.iter nat_rect accumulate].
      split; [exact Hs1 | ]. split; [exact Ht1 | ].
      exists e1. repeat split; assumption.
Qed.

End Accounting.



(* ================================================================== *)
(** * 30. The validator: what it reports and what it accepts          *)
(* ================================================================== *)

Section ValidatorFacts.
Context {D : Type} {HS : Scalar D}.

Lemma andThen_thrown (a b : Outcome D) (e : ValidationError D) :
  andThen a b = Thrown e -> a = Thrown e \/ (a = Returned /\ b = Thrown e).
Proof. destruct a as [ | ea]; cbn; intros Hab; [right | left]; auto. Qed.

Lemma andThen_returned (a b : Outcome D) :
  andThen a b = Returned <-> a = Returned /\ b = Returned.
Proof.
  destruct a as [ | ea]; cbn; split; [intros Hab | intros [Ha Hb] | intros Hab | intros [Ha Hb]];
    try discriminate; auto.
Qed.

Lemma throwIf_returned (cond : bool) (e : ValidationError D) :
  throwIf cond e = Returned <-> cond = false.
Proof. destruct cond; cbn; split; congruence. Qed.

(** What [isValid] has established when it returns true. *)
Lemma isValid_parts (move : ToolpathMove D) :
  ToolpathMove_isValid move = true ->
  ToolpathState_isValid (startState_ move) = true /\
  ToolpathState_isValid (endState_ move) = true /\
  requiresFeedrate (moveType_ move) && negb (ToolpathState_hasFeedRate (endState_ move))
    = false /\
  (isArcMove (moveType_ move) = true -> exists center, arcCenter_ move = Some center) /\
  MoveType_eqb (moveType_ move) Rapid && negb (rapidAllowed_ move) = false.
Proof.
  unfold ToolpathMove_isValid.
  destruct (ToolpathState_isValid (startState_ move)); cbn [negb orb];
    [ | discriminate].
  destruct (ToolpathState_isValid (endState_ move)); cbn [negb];
    [ | discriminate].
  destruct (requiresFeedrate (moveType_ move) &&
            negb (ToolpathState_hasFeedRate (endState_ move)))%bool; [discriminate | ].
  destruct (isArcMove (moveType_ move)); cbn [andb].
  - destruct (arcCenter_ move) as [center | ]; cbn [negb]; [ | discriminate].
    destruct (MoveType_eqb (moveType_ move) Rapid && negb (rapidAllowed_ move))%bool;
      [discriminate | ].
    intros _. repeat split. intros _. exists center. reflexivity.
  - destruct (MoveType_eqb (moveType_ move) Rapid && negb (rapidAllowed_ move))%bool;
      [discriminate | ].
    intros _. repeat split. intros Hf. discriminate Hf.
Qed.

Lemma validateMove_kinds (move : ToolpathMove D) (index : nat) (e : ValidationError D) :
  ToolpathValidator_validateMove move index = Thrown e ->
  ValidationError_fromMoveCheck e = true.
Proof.
  unfold ToolpathValidator_validateMove, throwIf, ToolpathMove_getMoveType,
    ToolpathMove_getEndState, ToolpathMove_isRapidAllowed.
  destruct (ToolpathMove_isValid move) eqn:Hv; cbn [negb andThen];
    [ | intros [= <-]; reflexivity].
  destruct (isValid_parts move Hv) as (_ & _ & Hfeed & Hcenter & Hrapid).
  rewrite Hfeed, Hrapid.
  destruct (ToolpathMove_isZeroLength move && _ && _ && _ && _)%bool; cbn [andThen];
    [intros [= <-]; reflexivity | ].
  destruct (isArcMove (moveType_ move)) eqn:Ha; [ | discriminate].
  destruct (Hcenter eq_refl) as [center Hc].
  unfold ToolpathValidator_validateArc, ToolpathMove_getArcCenter, throwIf.
  rewrite Hc.
  destruct (dltb _ _); cbn [andThen]; [intros [= <-]; reflexivity | ].
  destruct (dltb _ _); cbn [andThen]; [intros [= <-]; reflexivity | discriminate].
Qed.

Lemma checkAxisLimit_thrown (axis : option (AxisDefinition D)) (type : AxisType)
  (which : Endpoint) (v : D) (index : nat) (e : ValidationError D) :
  checkAxisLimit axis type which v index = Thrown e ->
  ValidationError_index e = index /\ ValidationError_shadowed e = false /\
  ValidationError_fromMoveCheck e = false.
Proof.
  unfold checkAxisLimit, throwIf. destruct axis as [a | ]; [ | discriminate].
  destruct (_ || _)%bool; [ | discriminate].
  intros [= <-]. repeat split.
Qed.

Lemma validateMachineLimits_thrown (move : ToolpathMove D) (machine : Machine D)
  (index : nat) (e : ValidationError D) :
  ToolpathValidator_validateMachineLimits move machine index = Thrown e ->
  ValidationError_index e = index /\ ValidationError_shadowed e = false /\
  ValidationError_fromMoveCheck e = false.
Proof.
  unfold ToolpathValidator_validateMachineLimits.
  destruct (rotaryAxes_ (ToolpathMove_getStartState move)) as [[startA startB] startC].
  destruct (rotaryAxes_ (ToolpathMove_getEndState move)) as [[endA endB] endC].
  intros Ht.
  repeat (apply andThen_thrown in Ht;
          destruct Ht as [Ht | [_ Ht]];
          [exact (checkAxisLimit_thrown _ _ _ _ _ _ Ht) | ]).
  destruct (ToolpathState_isSpindleRunning _); [ | discriminate].
  unfold throwIf in Ht. destruct (_ || _)%bool; [ | discriminate].
  injection Ht as <-. repeat split.
Qed.

Lemma validateContinuity_kinds (move1 move2 : ToolpathMove D) (i : nat)
  (e : ValidationError D) :
  ToolpathValidator_validateContinuity move1 move2 i = Thrown e ->
  ValidationError_shadowed e = false /\ ValidationError_needsMachine e = false.
Proof.
  unfold ToolpathValidator_validateContinuity, throwIf.
  destruct (dltb _ _); [intros [= <-]; split; reflexivity | discriminate].
Qed.

Lemma fromMoveCheck_kinds (e : ValidationError D) :
  ValidationError_fromMoveCheck e = true ->
  ValidationError_shadowed e = false /\ ValidationError_needsMachine e = false.
Proof. destruct e; cbn; intros Hk; try discriminate; split; reflexivity. Qed.

(** The errors of the main loop: their kind and the index they name. *)
Lemma validate_loop_thrown (moves : list (ToolpathMove D)) (machine : option (Machine D)) :
  forall (j : nat) (e : ValidationError D),
    validate_loop moves machine j = Thrown e ->
    ValidationError_shadowed e = false /\
    (machine = None -> ValidationError_needsMachine e = false) /\
    (j <= ValidationError_index e < j + List.length moves)%nat.
Proof.
  induction moves as [ | move rest IH]; intros j e Ht.
  - discriminate Ht.
  - rewrite validate_loop_cons in Ht. cbn [List.length].
    apply andThen_thrown in Ht. destruct Ht as [Ht | [_ Ht]].
    { pose proof (validateMove_index move j e Ht) as Hi.
      apply validateMove_kinds in Ht. apply fromMoveCheck_kinds in Ht.
      destruct Ht as [Hs Hm]. split; [exact Hs | ]. split; [intros _; exact Hm | lia]. }
    apply andThen_thrown in Ht. destruct Ht as [Ht | [_ Ht]].
    { destruct rest as [ | next rest']; [discriminate Ht | ].
      pose proof (validateContinuity_index move next j e Ht) as Hi.
      apply validateContinuity_kinds in Ht. destruct Ht as [Hs Hm].
      split; [exact Hs | ]. split; [intros _; exact Hm | lia]. }
    apply andThen_thrown in Ht. destruct Ht as [Ht | [_ Ht]].
    { destruct machine as [m | ]; [ | discriminate Ht].
      apply validateMachineLimits_thrown in Ht. destruct Ht as (Hi & Hs & _).
      split; [exact Hs | ]. split; [intros Hn; discriminate Hn | lia]. }
    destruct (IH (S j) e Ht) as (Hs & Hm & Hi).
    split; [exact Hs | ]. split; [exact Hm | lia].
Qed.

Lemma validateToolConsistency_loop_thrown (moves : list (ToolpathMove D)) :
  forall (j : nat) (e : ValidationError D),
    validateToolConsistency_loop moves j = Thrown e ->
    ValidationError_shadowed e = false /\
    (j <= ValidationError_index e < j + List.length moves)%nat.
Proof.
  induction moves as [ | move rest IH]; intros j e Ht.
  - discriminate Ht.
  - cbn [validateToolConsistency_loop List.length] in *.
    apply andThen_thrown in Ht. destruct Ht as [Ht | [_ Ht]].
    { destruct (MoveType_eqb _ ToolChange); [ | discriminate Ht].
      unfold throwIf in Ht. destruct (String.eqb _ _); [ | discriminate Ht].
      injection Ht as <-. cbn. split; [reflexivity | lia]. }
    apply andThen_thrown in Ht. destruct Ht as [Ht | [_ Ht]].
    { destruct (isCuttingMove _); [ | discriminate Ht].
      unfold throwIf in Ht. destruct (String.eqb _ _); [ | discriminate Ht].
      injection Ht as <-. cbn. split; [reflexivity | lia]. }
    destruct (IH (S j) e Ht) as (Hs & Hi). split; [exact Hs | lia].
Qed.

End ValidatorFacts.

(** X10.  Which errors validation can end with.  [validateMove] only
    ever reports an invalid move, a zero-length move or one of the two
    arc-geometry errors: the throw sites for a missing feed rate, a
    missing arc center and a rapid that is not allowed cannot be
    reached, because [isValid] has rejected those moves before.  The
    same holds for [validate]; without a machine it reports no axis,
    spindle or tool error either, so nothing then asks a cutting move
    for an active tool. *)
Theorem validate_error_kinds :
  forall {D : Type} {HS : Scalar D},
    (forall (move : ToolpathMove D) (index : nat) (e : ValidationError D),
       ToolpathValidator_validateMove move index = Thrown e ->
       ValidationError_fromMoveCheck e = true /\
       ValidationError_shadowed e = false) /\
    (forall (toolpath : Toolpath D) (machine : option (Machine D))
            (e : ValidationError D),
       ToolpathValidator_validate toolpath machine = Thrown e ->
       ValidationError_shadowed e = false /\
       (machine = None -> ValidationError_needsMachine e = false)).
Proof.
  intros D HS. split.
  - intros move index e Ht. apply validateMove_kinds in Ht.
    split; [exact Ht | apply fromMoveCheck_kinds; exact Ht].
  - intros toolpath machine e. unfold ToolpathValidator_validate.
    destruct (Toolpath_isEmpty toolpath); [discriminate | ].
    intros Ht. apply andThen_thrown in Ht. destruct Ht as [Ht | [_ Ht]].
    + destruct (validate_loop_thrown _ _ _ _ Ht) as (Hs & Hm & _).
      split; assumption.
    + destruct machine as [m | ]; [ | discriminate Ht].
      unfold ToolpathValidator_validateToolConsistency in Ht.
      destruct (validateToolConsistency_loop_thrown _ _ _ Ht) as (Hs & _).
      split; [exact Hs | intros Hn; discriminate Hn].
Qed.

(** X11.  A validation error always names a move of the toolpath: the
    index in the message is below [getMoveCount()]. *)
Theorem validate_error_index_in_range :
  forall {D : Type} {HS : Scalar D}
         (toolpath : Toolpath D) (machine : option (Machine D)) (e : ValidationError D),
    ToolpathValidator_validate toolpath machine = Thrown e ->
    (ValidationError_index e < Toolpath_getMoveCount toolpath)%nat.
Proof.
  intros D HS toolpath machine e. unfold ToolpathValidator_validate, Toolpath_getMoveCount.
  destruct (Toolpath_isEmpty toolpath); [discriminate | ].
  intros Ht. apply andThen_thrown in Ht. destruct Ht as [Ht | [_ Ht]].
  - destruct (validate_loop_thrown _ _ _ _ Ht) as (_ & _ & Hi).
    unfold Toolpath_getMoves in Hi. lia.
  - destruct machine as [m | ]; [ | discriminate Ht].
    unfold ToolpathValidator_validateToolConsistency in Ht.
    destruct (validateToolConsistency_loop_thrown _ _ _ Ht) as (_ & Hi).
    unfold Toolpath_getMoves in Hi. lia.
Qed.

Lemma validate_error_index_in_range_witness :
  exists e : ValidationError float,
    ToolpathValidator_validate gapped_toolpath None = Thrown e /\
    (ValidationError_index e < 2)%nat.
Proof.
  destruct (ToolpathValidator_validate gapped_toolpath None) as [ | e] eqn:Hv.
  - vm_compute in Hv. discriminate Hv.
  - exists e. split; [reflexivity | ].
    exact (validate_error_index_in_range gapped_toolpath None e Hv).
Defined.

Section ValidatorAccepts.
Context {D : Type} {HS : Scalar D}.

(** The main loop returns exactly when every check it makes returns. *)
Lemma validate_loop_returned (moves : list (ToolpathMove D)) (machine : option (Machine D)) :
  forall j : nat,
    validate_loop moves machine j = Returned <->
    (forall (i : nat) (move : ToolpathMove D),
       nth_error moves i = Some move ->
       ToolpathValidator_validateMove move (j + i) = Returned /\
       (forall next, nth_error moves (S i) = Some next ->
                     ToolpathValidator_validateContinuity move next (j + i) = Returned) /\
       (forall m, machine = Some m ->
                  ToolpathValidator_validateMachineLimits move m (j + i) = Returned)).
Proof.
  induction moves as [ | move rest IH]; intros j.
  - split; [ | reflexivity]. intros _ i m Hn. destruct i; discriminate Hn.
  - rewrite validate_loop_cons, !andThen_returned, (IH (S j)). clear IH. split.
    + intros (Hm & Hc & Hl & Hrest) i mv Hn. destruct i as [ | i].
      * injection Hn as <-. rewrite Nat.add_0_r.
        split; [exact Hm | ]. split.
        -- intros next Hnext. cbn in Hnext. destruct rest as [ | r rest'];
             [discriminate Hnext | ]. injection Hnext as <-. exact Hc.
        -- intros m ->. exact Hl.
      * cbn [nth_error] in Hn. rewrite Nat.add_succ_r.
        exact (Hrest i mv Hn).
    + intros Hall.
      destruct (Hall 0%nat move eq_refl) as (Hm & Hc & Hl).
      rewrite Nat.add_0_r in Hm, Hc, Hl.
      split; [exact Hm | ]. split.
      { destruct rest as [ | r rest']; [reflexivity | ]. apply Hc. reflexivity. }
      split.
      { destruct machine as [m | ]; [ | reflexivity]. apply Hl. reflexivity. }
      intros i mv Hn. simpl. rewrite <- Nat.add_succ_r.
      exact (Hall (S i) mv Hn).
Qed.

(** The tool check returns exactly when every tool change and every
    cutting move ends with a tool id: it looks at one move at a time. *)
Lemma validateToolConsistency_loop_returned (moves : list (ToolpathMove D)) :
  forall j : nat,
    validateToolConsistency_loop moves j = Returned <->
    (forall move : ToolpathMove D,
       In move moves -> needsToolId (ToolpathMove_getMoveType move) = true ->
       ToolpathState_hasActiveTool (ToolpathMove_getEndState move) = true).
Proof.
  induction moves as [ | move rest IH]; intros j.
  - split; [ | reflexivity]. intros _ m Hin. destruct Hin.
  - cbn [validateToolConsistency_loop]. rewrite !andThen_returned, (IH (S j)). clear IH.
    unfold needsToolId, ToolpathState_hasActiveTool, ToolpathState_getActiveToolId, throwIf.
    split.
    + intros (Hc & Hk & Hrest) mv [<- | Hin] Hneeds; [ | exact (Hrest mv Hin Hneeds)].
      destruct (String.eqb _ _); [ | reflexivity].
      destruct (MoveType_eqb _ ToolChange); [discriminate Hc | ].
      destruct (isCuttingMove _); [discriminate Hk | discriminate Hneeds].
    + intros Hall. pose proof (Hall move (or_introl eq_refl)) as Hm.
      split; [ | split].
      * destruct (MoveType_eqb _ ToolChange); [ | reflexivity].
        specialize (Hm eq_refl). destruct (String.eqb _ _); [discriminate Hm | reflexivity].
      * destruct (isCuttingMove _); [ | reflexivity].
        rewrite orb_true_r in Hm.
        specialize (Hm eq_refl). destruct (String.eqb _ _); [discriminate Hm | reflexivity].
      * intros mv Hin Hneeds. apply Hall; [right; exact Hin | exact Hneeds].
Qed.

Lemma validateMove_returned_isValid (move : ToolpathMove D) (index : nat) :
  ToolpathValidator_validateMove move index = Returned ->
  ToolpathMove_isValid move = true.
Proof.
  unfold ToolpathValidator_validateMove. rewrite andThen_returned, throwIf_returned.
  intros [Hv _]. destruct (ToolpathMove_isValid move); [reflexivity | discriminate Hv].
Qed.

End ValidatorAccepts.

(** X12.  What [validate] accepts.  It returns exactly when each move
    passes [validateMove], each move and its successor pass
    [validateContinuity], and, with a machine, each move passes
    [validateMachineLimits] and each tool change and cutting move ends
    with a non-empty tool id.  The tool check looks at one move at a
    time: nothing relates the tool of a cutting move to the tool change
    before it.  A toolpath that validates satisfies
    [Toolpath::isValid()]. *)
Theorem validate_returns_iff :
  forall {D : Type} {HS : Scalar D}
         (toolpath : Toolpath D) (machine : option (Machine D)),
    (ToolpathValidator_validate toolpath machine = Returned <->
     (forall (i : nat) (move : ToolpathMove D),
        Toolpath_getMove toolpath i = Some move ->
        ToolpathValidator_validateMove move i = Returned /\
        (forall next, Toolpath_getMove toolpath (S i) = Some next ->
                      ToolpathValidator_validateContinuity move next i = Returned) /\
        (forall m, machine = Some m ->
                   ToolpathValidator_validateMachineLimits move m i = Returned /\
                   (needsToolId (ToolpathMove_getMoveType move) = true ->
                    ToolpathState_hasActiveTool (ToolpathMove_getEndState move) = true)))) /\
    (ToolpathValidator_isValid toolpath machine = true -> Toolpath_isValid toolpath = true).
Proof.
  intros D HS toolpath machine.
  assert (Hiff :
    ToolpathValidator_validate toolpath machine = Returned <->
     (forall (i : nat) (move : ToolpathMove D),
        Toolpath_getMove toolpath i = Some move ->
        ToolpathValidator_validateMove move i = Returned /\
        (forall next, Toolpath_getMove toolpath (S i) = Some next ->
                      ToolpathValidator_validateContinuity move next i = Returned) /\
        (forall m, machine = Some m ->
                   ToolpathValidator_validateMachineLimits move m i = Returned /\
                   (needsToolId (ToolpathMove_getMoveType move) = true ->
                    ToolpathState_hasActiveTool (ToolpathMove_getEndState move) = true)))).
  { unfold ToolpathValidator_validate, Toolpath_isEmpty, Toolpath_getMove, Toolpath_getMoves,
      ToolpathValidator_validateToolConsistency, Toolpath_getMoves.
    destruct (moves_ toolpath) as [ | move0 rest] eqn:Hmoves.
    - split; [ | reflexivity]. intros _ i m Hn. destruct i; discriminate Hn.
    - rewrite <- Hmoves. clear Hmoves move0 rest.
      rewrite andThen_returned, (validate_loop_returned (moves_ toolpath) machine 0).
      split.
      + intros [Hloop Htool] i move Hn.
        destruct (Hloop i move Hn) as (Hm & Hc & Hl). cbn [Nat.add] in Hm, Hc, Hl.
        split; [exact Hm | ]. split; [exact Hc | ].
        intros m Hmach. split; [exact (Hl m Hmach) | ].
        subst machine.
        rewrite validateToolConsistency_loop_returned in Htool.
        apply Htool. exact (nth_error_In _ _ Hn).
      + intros Hall. split.
        * intros i move Hn. destruct (Hall i move Hn) as (Hm & Hc & Hl).
          cbn [Nat.add]. split; [exact Hm | ]. split; [exact Hc | ].
          intros m Hmach. exact (proj1 (Hl m Hmach)).
        * destruct machine as [m | ]; [ | reflexivity].
          rewrite validateToolConsistency_loop_returned.
          intros move Hin. destruct (In_nth_error _ _ Hin) as [i Hn].
          destruct (Hall i move Hn) as (_ & _ & Hl).
          exact (proj2 (Hl m eq_refl)). }
  split; [exact Hiff | ].
  unfold ToolpathValidator_isValid, Toolpath_isValid.
  destruct (ToolpathValidator_validate toolpath machine) eqn:Hv; [ | discriminate].
  intros _. apply forallb_forall. intros move Hin.
  destruct (In_nth_error _ _ Hin) as [i Hn].
  destruct (proj1 Hiff eq_refl i move Hn) as (Hm & _).
  exact (validateMove_returned_isValid move i Hm).
Qed.

(** X13.  The control moves.  [dwell], [toolChange], [spindleStart] and
    [spindleStop] build a move that starts and ends in the state they
    are given: the duration, the tool id and the RPM passed in do not
    reach the end state, so after [spindleStop] the end state still
    reports the spindle running if it was.  Such a move is never
    zero-length, has length 0 (as has every move of a control type or
    of type dwell), and passes [validateMove] exactly when
    the state is valid (finite), whatever the duration, RPM or tool id.
    Its estimated time is the duration as given (for a dwell), 5 s (tool
    change) or 0.1 s (spindle start and stop). *)
Theorem control_moves :
  forall {D : Type} {HS : Scalar D} {HL : Libm D}
         (state : ToolpathState D) (duration rpm defaultRapidRate : D)
         (newToolId : string) (index : nat),
    Forall
      (fun move : ToolpathMove D =>
         ToolpathMove_getStartState move = state /\
         ToolpathMove_getEndState move = state /\
         ToolpathMove_isZeroLength move = false /\
         ToolpathMove_getLength move = of_Z 0 /\
         ToolpathValidator_validateMove move index =
           (if ToolpathState_isValid state then Returned else Thrown (MoveInvalid index)))
      [ToolpathMove_dwell state duration; ToolpathMove_toolChange state newToolId;
       ToolpathMove_spindleStart state rpm; ToolpathMove_spindleStop state] /\
    ToolpathMove_getEstimatedTime (ToolpathMove_dwell state duration) defaultRapidRate
      = duration /\
    ToolpathMove_getEstimatedTime (ToolpathMove_toolChange state newToolId) defaultRapidRate
      = of_Z 5 /\
    ToolpathMove_getEstimatedTime (ToolpathMove_spindleStart state rpm) defaultRapidRate
      = lit 1 1 /\
    ToolpathMove_getEstimatedTime (ToolpathMove_spindleStop state) defaultRapidRate
      = lit 1 1 /\
    ToolpathState_isSpindleRunning (ToolpathMove_getEndState (ToolpathMove_spindleStop state))
      = ToolpathState_isSpindleRunning state /\
    ToolpathState_getSpindleRPM (ToolpathMove_getEndState (ToolpathMove_spindleStart state rpm))
      = ToolpathState_getSpindleRPM state /\
    ToolpathState_getActiveToolId
      (ToolpathMove_getEndState (ToolpathMove_toolChange state newToolId))
      = ToolpathState_getActiveToolId state /\
    (forall move : ToolpathMove D,
       isControlMove (ToolpathMove_getMoveType move) ||
       MoveType_eqb (ToolpathMove_getMoveType move) Dwell = true ->
       ToolpathMove_isZeroLength move = false /\
       ToolpathMove_getLength move = of_Z 0).
Proof.
  intros D HS HL state duration rpm defaultRapidRate newToolId index.
  split; [ | do 7 (split; [reflexivity | ])].
  2: { intros move. unfold ToolpathMove_getMoveType, ToolpathMove_isZeroLength,
         ToolpathMove_getLength, isControlMove.
       destruct (moveType_ move); cbn; intros Hc; try discriminate Hc;
         split; reflexivity. }
  repeat constructor;
    unfold ToolpathValidator_validateMove, ToolpathMove_isValid, throwIf;
    cbn [ToolpathMove_dwell ToolpathMove_toolChange ToolpathMove_spindleStart
         ToolpathMove_spindleStop ToolpathMove_getMoveType ToolpathMove_isZeroLength
         ToolpathMove_getEndState ToolpathMove_isRapidAllowed
         moveType_ startState_ endState_ arcCenter_ rapidAllowed_
         MoveType_eqb requiresFeedrate isCuttingMove isArcMove orb andb negb];
    destruct (ToolpathState_isValid state); reflexivity.
Qed.

(* ================================================================== *)
(** * 31. Travel limits and rates in double precision                 *)
(* ================================================================== *)

Section Limits.

(** [std::max(lo, std::min(hi, x))] lies in [[lo, hi]] when [lo <= hi]. *)
Lemma clamp_within (lo hi x : float) :
  PrimFloat.leb lo hi = true ->
  PrimFloat.leb lo (std_max lo (std_min hi x)) = true /\
  PrimFloat.leb (std_max lo (std_min hi x)) hi = true.
Proof.
  intros Hle.
  pose proof (Binary64Order.leb_refl lo (Binary64Order.leb_eqb_refl_l lo hi Hle)) as Hlo.
  pose proof (Binary64Order.leb_refl hi (Binary64.leb_eqb_refl lo hi Hle)) as Hhi.
  unfold std_max, std_min. cbn [dltb binary64].
  destruct (PrimFloat.ltb x hi) eqn:H1.
  - destruct (PrimFloat.ltb lo x) eqn:H2.
    + split; apply Binary64Order.ltb_leb; assumption.
    + split; assumption.
  - destruct (PrimFloat.ltb lo hi) eqn:H2; split; assumption.
Qed.

(** A NaN is clamped to a limit. *)
Lemma clamp_nan (lo hi x : float) :
  PrimFloat.eqb x x = false ->
  std_max lo (std_min hi x) = if PrimFloat.ltb lo hi then hi else lo.
Proof.
  intros Hx. unfold std_max, std_min. cbn [dltb binary64].
  rewrite (Binary64Order.nan_ltb_l x hi Hx). reflexivity.
Qed.

(** The two-sided test with [<] and [>] against the one with [>=] and
    [<=], away from NaN. *)
Lemma outside_iff_not_inside (lo hi x : float) :
  PrimFloat.eqb lo lo = true -> PrimFloat.eqb hi hi = true -> PrimFloat.eqb x x = true ->
  PrimFloat.ltb x lo || PrimFloat.ltb hi x = negb (PrimFloat.leb lo x && PrimFloat.leb x hi).
Proof.
  intros Hlo Hhi Hx.
  destruct (PrimFloat.ltb x lo) eqn:H1; cbn [orb].
  - destruct (PrimFloat.leb lo x) eqn:H2; [ | reflexivity].
    rewrite (Binary64.leb_not_ltb lo x H2) in H1. discriminate H1.
  - rewrite (Binary64Order.not_ltb_leb lo x Hlo Hx H1). cbn [andb].
    destruct (PrimFloat.ltb hi x) eqn:H3.
    + destruct (PrimFloat.leb x hi) eqn:H4; [ | reflexivity].
      rewrite (Binary64.leb_not_ltb x hi H4) in H3. discriminate H3.
    + rewrite (Binary64Order.not_ltb_leb x hi Hx Hhi H3). reflexivity.
Qed.

End Limits.

(** X14.  Axis travel limits in double precision.  The
    [AxisDefinition] constructor never leaves [min > max]; given limits
    that are not NaN it leaves [min <= max].  Then [clampPosition]
    returns a position that [isPositionValid] accepts, for every input:
    a NaN is clamped to a limit.  For a position that is not NaN the
    limit test of [validateMachineLimits] ([<] and [>]) passes exactly
    when [isPositionValid] ([>=] and [<=]) holds; a NaN position passes
    the validator's test although [isPositionValid] rejects it. *)
Theorem axis_limits :
  forall (minPosition maxPosition position : float)
         (type : AxisType) (which : Endpoint) (index : nat),
    let a := AxisDefinition_make minPosition maxPosition in
    dltb (AxisDefinition_getMaxPosition a) (AxisDefinition_getMinPosition a) = false /\
    (deqb minPosition minPosition = true -> deqb maxPosition maxPosition = true ->
     dleb (AxisDefinition_getMinPosition a) (AxisDefinition_getMaxPosition a) = true /\
     AxisDefinition_isPositionValid a (AxisDefinition_clampPosition a position) = true /\
     (deqb position position = true ->
      (checkAxisLimit (Some a) type which position index = Returned <->
       AxisDefinition_isPositionValid a position = true))) /\
    (deqb position position = false ->
     AxisDefinition_isPositionValid a position = false /\
     checkAxisLimit (Some a) type which position index = Returned).
Proof.
  intros minPosition maxPosition position type which index a.
  assert (Hord : PrimFloat.ltb (maxPosition_ a) (minPosition_ a) = false).
  { unfold a, AxisDefinition_make. cbn [dltb binary64].
    destruct (PrimFloat.ltb maxPosition minPosition) eqn:Hs; cbn [minPosition_ maxPosition_].
    - apply Binary64Order.ltb_asym. exact Hs.
    - exact Hs. }
  assert (Hnan : PrimFloat.eqb minPosition minPosition = true ->
                 PrimFloat.eqb maxPosition maxPosition = true ->
                 PrimFloat.eqb (minPosition_ a) (minPosition_ a) = true /\
                 PrimFloat.eqb (maxPosition_ a) (maxPosition_ a) = true).
  { intros Hlo Hhi. unfold a, AxisDefinition_make.
    destruct (dltb maxPosition minPosition); cbn [minPosition_ maxPosition_];
      split; assumption. }
  unfold AxisDefinition_getMaxPosition, AxisDefinition_getMinPosition,
    AxisDefinition_isPositionValid, AxisDefinition_clampPosition, checkAxisLimit.
  rewrite throwIf_returned. cbn [dltb dleb deqb binary64].
  split; [exact Hord | ]. split.
  - intros Hlo Hhi. destruct (Hnan Hlo Hhi) as [Hlo' Hhi'].
    pose proof (Binary64Order.not_ltb_leb _ _ Hlo' Hhi' Hord) as Hle.
    split; [exact Hle | ]. split.
    + destruct (clamp_within _ _ position Hle) as [H1 H2]. rewrite H1, H2. reflexivity.
    + intros Hx. rewrite (outside_iff_not_inside _ _ _ Hlo' Hhi' Hx).
      destruct (PrimFloat.leb (minPosition_ a) position && PrimFloat.leb position (maxPosition_ a))%bool;
        cbn [negb]; split; congruence.
  - intros Hx.
    rewrite (Binary64Order.nan_leb_r (minPosition_ a) position Hx).
    rewrite (Binary64Order.nan_ltb_l position (minPosition_ a) Hx).
    rewrite (Binary64Order.nan_ltb_r (maxPosition_ a) position Hx).
    split; reflexivity.
Qed.

(** X15.  The spindle's RPM range in double precision.  Whatever the
    constructor is given (negative values and NaN included), it leaves
    [0 <= minRPM <= maxRPM], so neither bound is NaN.  [clampRPM] then
    returns a speed that [isRPMValid] accepts, for every input; and for
    a speed that is not NaN the validator's RPM test ([<] and [>])
    fails exactly when [isRPMValid] rejects the speed. *)
Theorem spindle_range :
  forall (maxRPM minRPM rpm : float),
    let s := Spindle_make maxRPM minRPM in
    dleb (of_Z 0) (minRPM_ s) = true /\
    dleb (minRPM_ s) (maxRPM_ s) = true /\
    Spindle_isRPMValid s (Spindle_clampRPM s rpm) = true /\
    (deqb rpm rpm = true ->
     dltb rpm (minRPM_ s) || dltb (maxRPM_ s) rpm = negb (Spindle_isRPMValid s rpm)).
Proof.
  intros maxRPM minRPM rpm s.
  set (hi0 := if PrimFloat.ltb PrimFloat.zero maxRPM then maxRPM else PrimFloat.zero).
  set (lo0 := if PrimFloat.leb PrimFloat.zero minRPM then minRPM else PrimFloat.zero).
  assert (Hhi0 : PrimFloat.leb PrimFloat.zero hi0 = true).
  { unfold hi0. destruct (PrimFloat.ltb PrimFloat.zero maxRPM) eqn:Hm.
    - apply Binary64Order.ltb_leb. exact Hm.
    - reflexivity. }
  assert (Hlo0 : PrimFloat.leb PrimFloat.zero lo0 = true).
  { unfold lo0. destruct (PrimFloat.leb PrimFloat.zero minRPM) eqn:Hm.
    - exact Hm.
    - reflexivity. }
  assert (Hs : s = if PrimFloat.ltb hi0 lo0 then mkSpindle lo0 hi0 else mkSpindle hi0 lo0).
  { reflexivity. }
  assert (Hrange : PrimFloat.leb PrimFloat.zero (minRPM_ s) = true /\
                   PrimFloat.leb (minRPM_ s) (maxRPM_ s) = true).
  { rewrite Hs. destruct (PrimFloat.ltb hi0 lo0) eqn:Hsw; cbn [minRPM_ maxRPM_].
    - split; [exact Hhi0 | apply Binary64Order.ltb_leb; exact Hsw].
    - split; [exact Hlo0 | ].
      apply Binary64Order.not_ltb_leb.
      + exact (Binary64.leb_eqb_refl _ _ Hlo0).
      + exact (Binary64.leb_eqb_refl _ _ Hhi0).
      + exact Hsw. }
  destruct Hrange as [H0 Hle].
  unfold Spindle_isRPMValid, Spindle_clampRPM. cbn [dltb dleb deqb binary64 of_Z float_of_Z].
  split; [exact H0 | ]. split; [exact Hle | ]. split.
  - destruct (clamp_within _ _ rpm Hle) as [H1 H2]. rewrite H1, H2. reflexivity.
  - intros Hx. apply outside_iff_not_inside.
    + exact (Binary64Order.leb_eqb_refl_l _ _ Hle).
    + exact (Binary64.leb_eqb_refl _ _ Hle).
    + exact Hx.
Qed.

(** X16.  Feed rate and spindle speed of a [ToolpathState], in double
    precision.  Both constructors store 0 for a rate that is not
    [>= 0], so the stored feed rate and spindle speed always compare
    [>= 0]: they are never negative and never NaN.  [hasFeedRate()] and
    [isSpindleRunning()] hold exactly when the value handed to the
    constructor was [> 0]. *)
Theorem ToolpathState_rates_sanitized :
  forall (position : Vec3 float) (rotaryAxes : float * float * float)
         (feedRate spindleRPM : float) (activeToolId : string)
         (coolantState : CoolantState) (coordinateMode : CoordinateMode),
    let s := ToolpathState_make_rotary position rotaryAxes feedRate spindleRPM
               activeToolId coolantState coordinateMode in
    let s3 := ToolpathState_make position feedRate spindleRPM
                activeToolId coolantState coordinateMode in
    dleb (of_Z 0) (ToolpathState_getFeedRate s) = true /\
    dleb (of_Z 0) (ToolpathState_getSpindleRPM s) = true /\
    ToolpathState_hasFeedRate s = dltb (of_Z 0) feedRate /\
    ToolpathState_isSpindleRunning s = dltb (of_Z 0) spindleRPM /\
    ToolpathState_getFeedRate s3 = ToolpathState_getFeedRate s /\
    ToolpathState_getSpindleRPM s3 = ToolpathState_getSpindleRPM s /\
    ToolpathState_getPosition s3 = position /\
    ToolpathState_getActiveToolId s3 = activeToolId.
Proof.
  intros position rotaryAxes feedRate spindleRPM activeToolId coolantState coordinateMode s s3.
  assert (Hclamp : forall r : float,
             PrimFloat.leb PrimFloat.zero
               (if PrimFloat.leb PrimFloat.zero r then r else PrimFloat.zero) = true /\
             PrimFloat.ltb PrimFloat.zero
               (if PrimFloat.leb PrimFloat.zero r then r else PrimFloat.zero)
             = PrimFloat.ltb PrimFloat.zero r).
  { intros r. destruct (PrimFloat.leb PrimFloat.zero r) eqn:Hr.
    - split; [exact Hr | reflexivity].
    - split; [reflexivity | ].
      rewrite (Binary64Order.not_leb_not_ltb _ _ Hr). reflexivity. }
  unfold s, s3, ToolpathState_make, ToolpathState_make_rotary, ToolpathState_getFeedRate,
    ToolpathState_getSpindleRPM, ToolpathState_hasFeedRate, ToolpathState_isSpindleRunning,
    ToolpathState_getPosition, ToolpathState_getActiveToolId.
  cbn [feedRate_ spindleRPM_ state_position_ activeToolId_ dleb dltb binary64 of_Z float_of_Z].
  destruct (Hclamp feedRate) as [Hf1 Hf2]. destruct (Hclamp spindleRPM) as [Hr1 Hr2].
  repeat split; assumption.
Qed.

(* ================================================================== *)
(** * 32. Cartesian kinematics: reach and work envelope               *)
(* ================================================================== *)

Section CartesianReach.

Lemma normalized_identity_binary64 :
  Quaternion_normalized (Quaternion_identity (D := float)) = Quaternion_identity.
Proof. reflexivity. Qed.

(** [inverseKinematics], evaluated: the axis positions are the target
    position, and the forward-kinematics check on them cannot fail. *)
Lemma Cartesian3Axis_inverseKinematics_eq (k : Cartesian3Axis float)
  (targetPose : Transform float) :
  Cartesian3Axis_inverseKinematics k targetPose =
  if Cartesian3Axis_outOfLimits k (vx (position_ targetPose)) (vy (position_ targetPose))
                                (vz (position_ targetPose))
  then []
  else [mkIK (mkAxes6 (vx (position_ targetPose)) (vy (position_ targetPose))
                      (vz (position_ targetPose)) (of_Z 0) (of_Z 0) (of_Z 0))
             (Transform_of_position (position_ targetPose)) true].
Proof.
  unfold Cartesian3Axis_inverseKinematics, Transform_getPosition.
  destruct (Cartesian3Axis_outOfLimits k _ _ _) eqn:Hout; [reflexivity | ].
  unfold Cartesian3Axis_forwardKinematics.
  cbn [Axes6_fill Axes6_set Axes6_get axX axY axZ axA axB axC].
  rewrite Hout. cbn [fk_toolPose fk_valid].
  unfold Transform_make. rewrite normalized_identity_binary64.
  destruct targetPose as [[x y z] q]. reflexivity.
Qed.

Lemma isPoseReachable_eq (k : Cartesian3Axis float) (targetPose : Transform float) :
  isPoseReachable k targetPose =
  negb (Cartesian3Axis_outOfLimits k (vx (position_ targetPose)) (vy (position_ targetPose))
                                   (vz (position_ targetPose))).
Proof.
  unfold isPoseReachable. cbn [inverseKinematics Cartesian3Axis_kinematics].
  rewrite Cartesian3Axis_inverseKinematics_eq.
  destruct (Cartesian3Axis_outOfLimits k _ _ _); reflexivity.
Qed.

End CartesianReach.

(** X17.  Inverse kinematics of the 3-axis machine, in double
    precision.  It looks at the position of the target pose only.  Out
    of the limits there is no solution; within them there is exactly
    one, it is valid, its axis positions are the target position with A,
    B and C at 0, and its pose is the target position with the identity
    rotation: the orientation asked for is dropped, not checked.
    [isPoseReachable] is the limit test on the position. *)
Theorem inverseKinematics_position_only :
  forall (k : Cartesian3Axis float) (targetPose : Transform float),
    let p := Transform_getPosition targetPose in
    Cartesian3Axis_inverseKinematics k targetPose =
      (if Cartesian3Axis_outOfLimits k (vx p) (vy p) (vz p)
       then []
       else [mkIK (mkAxes6 (vx p) (vy p) (vz p) (of_Z 0) (of_Z 0) (of_Z 0))
                  (Transform_of_position p) true]) /\
    isPoseReachable k targetPose =
      negb (Cartesian3Axis_outOfLimits k (vx p) (vy p) (vz p)) /\
    (forall rotation : Quaternion float,
       Cartesian3Axis_inverseKinematics k (Transform_make p rotation) =
       Cartesian3Axis_inverseKinematics k targetPose).
Proof.
  intros k targetPose p. unfold p, Transform_getPosition.
  split; [apply Cartesian3Axis_inverseKinematics_eq | ].
  split; [apply isPoseReachable_eq | ].
  intros rotation. rewrite !Cartesian3Axis_inverseKinematics_eq. reflexivity.
Qed.

(** X18.  Reach against the work envelope, in double precision.  A
    position inside [getWorkEnvelope()] is reachable.  For a valid
    machine ([min < max] on X, Y and Z) the envelope is a valid box, and
    a position without NaN is reachable exactly when the envelope
    contains it.  A position that is NaN on all three axes is reported
    reachable by every machine, although no envelope contains it: the
    limit test is written with [<] and [>], which a NaN never
    satisfies. *)
Theorem workEnvelope_reachable :
  forall (k : Cartesian3Axis float) (targetPose : Transform float),
    let p := Transform_getPosition targetPose in
    let envelope := Cartesian3Axis_getWorkEnvelope k in
    (AABB_contains envelope p = true -> isPoseReachable k targetPose = true) /\
    (Cartesian3Axis_isValid k = true ->
     AABB_isValid envelope = true /\
     (deqb (vx p) (vx p) && deqb (vy p) (vy p) && deqb (vz p) (vz p) = true ->
      isPoseReachable k targetPose = AABB_contains envelope p)) /\
    (deqb (vx p) (vx p) || deqb (vy p) (vy p) || deqb (vz p) (vz p) = false ->
     isPoseReachable k targetPose = true /\ AABB_contains envelope p = false).
Proof.
  intros k targetPose p envelope.
  rewrite isPoseReachable_eq. unfold p, envelope, Transform_getPosition.
  destruct targetPose as [[x y z] q]. destruct k as [[xlo xhi] [ylo yhi] [zlo zhi]].
  unfold Cartesian3Axis_outOfLimits, AABB_contains, AABB_isValid,
    Cartesian3Axis_getWorkEnvelope, Cartesian3Axis_isValid.
  cbn [position_ vx vy vz xLimits_ yLimits_ zLimits_ fst snd aabb_min aabb_max
       dltb dleb deqb binary64].
  split; [ | split].
  - intros Hin.
    apply andb_prop in Hin. destruct Hin as [Hin Hz2].
    apply andb_prop in Hin. destruct Hin as [Hin Hz1].
    apply andb_prop in Hin. destruct Hin as [Hin Hy2].
    apply andb_prop in Hin. destruct Hin as [Hin Hy1].
    apply andb_prop in Hin. destruct Hin as [Hx1 Hx2].
    rewrite (Binary64.leb_not_ltb _ _ Hx1), (Binary64.leb_not_ltb _ _ Hx2),
      (Binary64.leb_not_ltb _ _ Hy1), (Binary64.leb_not_ltb _ _ Hy2),
      (Binary64.leb_not_ltb _ _ Hz1), (Binary64.leb_not_ltb _ _ Hz2).
    reflexivity.
  - intros Hk.
    apply andb_prop in Hk. destruct Hk as [Hk Hz].
    apply andb_prop in Hk. destruct Hk as [Hx Hy].
    split.
    + rewrite (Binary64Order.ltb_leb _ _ Hx), (Binary64Order.ltb_leb _ _ Hy),
        (Binary64Order.ltb_leb _ _ Hz). reflexivity.
    + intros Hp.
      apply andb_prop in Hp. destruct Hp as [Hp Hpz].
      apply andb_prop in Hp. destruct Hp as [Hpx Hpy].
      destruct (Binary64Order.ltb_eqb_refl _ _ Hx) as [Hxlo Hxhi].
      destruct (Binary64Order.ltb_eqb_refl _ _ Hy) as [Hylo Hyhi].
      destruct (Binary64Order.ltb_eqb_refl _ _ Hz) as [Hzlo Hzhi].
      rewrite <- (orb_assoc _ (PrimFloat.ltb y ylo) (PrimFloat.ltb yhi y)).
      rewrite <- (orb_assoc _ (PrimFloat.ltb z zlo) (PrimFloat.ltb zhi z)).
      rewrite (outside_iff_not_inside _ _ _ Hxlo Hxhi Hpx),
        (outside_iff_not_inside _ _ _ Hylo Hyhi Hpy),
        (outside_iff_not_inside _ _ _ Hzlo Hzhi Hpz).
      destruct (PrimFloat.leb xlo x), (PrimFloat.leb x xhi), (PrimFloat.leb ylo y),
        (PrimFloat.leb y yhi), (PrimFloat.leb zlo z), (PrimFloat.leb z zhi); reflexivity.
  - intros Hnan.
    apply orb_false_elim in Hnan. destruct Hnan as [Hnan Hpz].
    apply orb_false_elim in Hnan. destruct Hnan as [Hpx Hpy].
    rewrite (Binary64Order.nan_ltb_l x xlo Hpx), (Binary64Order.nan_ltb_r xhi x Hpx),
      (Binary64Order.nan_ltb_l y ylo Hpy), (Binary64Order.nan_ltb_r yhi y Hpy),
      (Binary64Order.nan_ltb_l z zlo Hpz), (Binary64Order.nan_ltb_r zhi z Hpz),
      (Binary64Order.nan_leb_r xlo x Hpx).
    split; reflexivity.
Qed.

(* ================================================================== *)
(** * 33. Tool sweeps: the parameter                                  *)
(* ================================================================== *)

Section SweepParameter.
Context {Tool : Type}.

(** [getTransformAt] sees its parameter through the clamp only. *)
Lemma getTransformAt_clamp {D : Type} {HS : Scalar D} {HL : Libm D}
  (s : ToolSweep D Tool) (t t' : D) :
  std_max (of_Z 0) (std_min (of_Z 1) t) = std_max (of_Z 0) (std_min (of_Z 1) t') ->
  ToolSweep_getTransformAt s t = ToolSweep_getTransformAt s t'.
Proof.
  intros Hc. unfold ToolSweep_getTransformAt. rewrite Hc. reflexivity.
Qed.

(** Anything [<= 0] is [< 1]. *)
Lemma leb_zero_ltb_one (t : float) :
  PrimFloat.leb t PrimFloat.zero = true -> PrimFloat.ltb t PrimFloat.one = true.
Proof.
  rewrite FloatAxioms.leb_spec, FloatAxioms.ltb_spec. unfold SFleb, SFltb.
  replace (Prim2SF PrimFloat.zero) with (S754_zero false) by reflexivity.
  replace (Prim2SF PrimFloat.one) with (S754_finite false 4503599627370496 (-52))
    by reflexivity.
  destruct (Prim2SF t) as [s | s | | s m e]; intros Hle.
  - reflexivity.
  - destruct s; [reflexivity | discriminate Hle].
  - discriminate Hle.
  - destruct s; [reflexivity | discriminate Hle].
Qed.

Lemma clamp_low (t : float) :
  PrimFloat.leb t PrimFloat.zero = true ->
  std_max (of_Z 0) (std_min (of_Z 1) t) = PrimFloat.zero.
Proof.
  intros Hle. unfold std_max, std_min. cbn [dltb binary64 of_Z float_of_Z].
  change (PrimFloat.of_uint63 (Uint63.of_Z 1)) with PrimFloat.one.
  rewrite (leb_zero_ltb_one t Hle), (Binary64.leb_not_ltb t PrimFloat.zero Hle).
  reflexivity.
Qed.

Lemma clamp_high (t : float) :
  PrimFloat.ltb t PrimFloat.one = false ->
  std_max (of_Z 0) (std_min (of_Z 1) t) = PrimFloat.one.
Proof.
  intros Hlt. unfold std_max, std_min. cbn [dltb binary64 of_Z float_of_Z].
  change (PrimFloat.of_uint63 (Uint63.of_Z 1)) with PrimFloat.one.
  rewrite Hlt. reflexivity.
Qed.

End SweepParameter.

(** X21.  The parameter of [getTransformAt], in double precision.  The
    clamped parameter always lies in [[0, 1]].  Every [t <= 0] gives the
    transform of [t = 0] and every [t] that is not [< 1] gives the
    transform of [t = 1]: that covers [t >= 1], and NaN, which is
    treated as 1.  A parameter strictly between 0 and 1 is used as it
    is. *)
Theorem getTransformAt_clamps :
  forall {HL : Libm float} {Tool : Type} (s : ToolSweep float Tool) (t : float),
    let clamped := std_max (of_Z 0) (std_min (of_Z 1) t) in
    dleb (of_Z 0) clamped = true /\
    dleb clamped (of_Z 1) = true /\
    ToolSweep_getTransformAt s t = ToolSweep_getTransformAt s clamped /\
    (dleb t (of_Z 0) = true ->
     ToolSweep_getTransformAt s t = ToolSweep_getTransformAt s (of_Z 0)) /\
    (dltb t (of_Z 1) = false ->
     ToolSweep_getTransformAt s t = ToolSweep_getTransformAt s (of_Z 1)) /\
    (deqb t t = false ->
     ToolSweep_getTransformAt s t = ToolSweep_getTransformAt s (of_Z 1)) /\
    (dltb (of_Z 0) t = true -> dltb t (of_Z 1) = true -> clamped = t).
Proof.
  intros HL Tool s t clamped.
  assert (H01 : PrimFloat.leb PrimFloat.zero PrimFloat.one = true) by reflexivity.
  assert (Hone : (of_Z 1 : float) = PrimFloat.one) by reflexivity.
  assert (Hzero : (of_Z 0 : float) = PrimFloat.zero) by reflexivity.
  assert (Hhigh : PrimFloat.ltb t PrimFloat.one = false ->
                  ToolSweep_getTransformAt s t = ToolSweep_getTransformAt s (of_Z 1)).
  { intros Hlt. apply getTransformAt_clamp. rewrite (clamp_high t Hlt).
    symmetry. apply clamp_high. reflexivity. }
  destruct (clamp_within PrimFloat.zero PrimFloat.one t H01) as [Hc0 Hc1].
  split; [exact Hc0 | ]. split; [exact Hc1 | ]. split; [ | split; [ | split; [ | split]]].
  - apply getTransformAt_clamp. unfold clamped. symmetry.
    assert (Hval : std_max (of_Z 0) (std_min (of_Z 1) t) =
                   if PrimFloat.ltb t PrimFloat.one
                   then (if PrimFloat.ltb PrimFloat.zero t then t else PrimFloat.zero)
                   else PrimFloat.one).
    { unfold std_max, std_min. cbn [dltb binary64]. rewrite Hone, Hzero.
      destruct (PrimFloat.ltb t PrimFloat.one); reflexivity. }
    rewrite Hval.
    destruct (PrimFloat.ltb t PrimFloat.one) eqn:H1.
    + destruct (PrimFloat.ltb PrimFloat.zero t) eqn:H2.
      * exact Hval.
      * apply clamp_low. reflexivity.
    + apply clamp_high. reflexivity.
  - intros Hle. apply getTransformAt_clamp. rewrite (clamp_low t Hle).
    symmetry. apply clamp_low. reflexivity.
  - exact Hhigh.
  - intros Hnan. apply Hhigh. apply Binary64Order.nan_ltb_l. exact Hnan.
  - intros H0 H1. unfold clamped, std_max, std_min. cbn [dltb binary64].
    rewrite Hone, Hzero in *. cbn [dltb binary64] in H0, H1. rewrite H1, H0. reflexivity.
Qed.

(* ================================================================== *)
(** * 34. Toolpaths: appending, tool usage, bounding box              *)
(* ================================================================== *)

(** X24.  [appendMove] only appends.  The new move becomes the last
    one, at index [getMoveCount()] of the toolpath before; the moves
    already there keep their index and are not changed, and neither are
    the two identifiers.  The last state becomes the end state of the
    new move; the first state changes only when the toolpath was empty.
    [isValid] is the conjunction with the new move's [isValid], and the
    total length and the estimated machining time grow by the new
    move's length and time, added last. *)
Theorem appendMove_append_only :
  forall {D : Type} {HS : Scalar D} {HL : Libm D}
         (toolpath : Toolpath D) (move : ToolpathMove D) (defaultRapidRate : D),
    let toolpath' := Toolpath_appendMove toolpath move in
    Toolpath_getMoves toolpath' = Toolpath_getMoves toolpath ++ [move] /\
    Toolpath_getMoveCount toolpath' = S (Toolpath_getMoveCount toolpath) /\
    (forall i : nat, (i < Toolpath_getMoveCount toolpath)%nat ->
                     Toolpath_getMove toolpath' i = Toolpath_getMove toolpath i) /\
    Toolpath_getMove toolpath' (Toolpath_getMoveCount toolpath) = Some move /\
    Toolpath_isEmpty toolpath' = false /\
    Toolpath_getLastState toolpath' = ToolpathMove_getEndState move /\
    Toolpath_getFirstState toolpath' =
      (if Toolpath_isEmpty toolpath then ToolpathMove_getStartState move
       else Toolpath_getFirstState toolpath) /\
    Toolpath_isValid toolpath' = Toolpath_isValid toolpath && ToolpathMove_isValid move /\
    Toolpath_getTotalLength toolpath' =
      dadd (Toolpath_getTotalLength toolpath) (ToolpathMove_getLength move) /\
    Toolpath_getEstimatedMachiningTime toolpath' defaultRapidRate =
      dadd (Toolpath_getEstimatedMachiningTime toolpath defaultRapidRate)
           (ToolpathMove_getEstimatedTime move defaultRapidRate) /\
    Toolpath_getId toolpath' = Toolpath_getId toolpath /\
    Toolpath_getMachineId toolpath' = Toolpath_getMachineId toolpath.
Proof.
  intros D HS HL toolpath move defaultRapidRate toolpath'.
  unfold toolpath', Toolpath_getMoves, Toolpath_getMoveCount, Toolpath_getMove,
    Toolpath_isEmpty, Toolpath_getLastState, Toolpath_getFirstState, Toolpath_isValid,
    Toolpath_getTotalLength, Toolpath_getEstimatedMachiningTime, Toolpath_getId,
    Toolpath_getMachineId, Toolpath_appendMove.
  cbn [moves_ id_ machineId_].
  split; [reflexivity | ].
  split; [rewrite length_app; cbn; lia | ].
  split; [intros i Hi; apply nth_error_app1; exact Hi | ].
  split; [rewrite nth_error_app2, Nat.sub_diag by lia; reflexivity | ].
  split; [destruct (moves_ toolpath); reflexivity | ].
  split; [rewrite rev_unit; reflexivity | ].
  split; [destruct (moves_ toolpath); reflexivity | ].
  split; [rewrite forallb_app; cbn; rewrite andb_true_r; reflexivity | ].
  split; [rewrite fold_left_app; reflexivity | ].
  split; [rewrite fold_left_app; reflexivity | ].
  split; reflexivity.
Qed.

Section ToolUsage.
Context {D : Type} {HS : Scalar D}.

Lemma toolUsage_increment_count (toolId toolId' : string) (usage : list (string * nat)) :
  toolUsage_count (toolUsage_increment toolId usage) toolId' =
  if String.eqb toolId toolId'
  then S (toolUsage_count usage toolId')
  else toolUsage_count usage toolId'.
Proof.
  induction usage as [ | [k n] rest IH]; cbn [toolUsage_increment toolUsage_count].
  - destruct (String.eqb toolId toolId'); reflexivity.
  - destruct (String.eqb k toolId) eqn:Hk; cbn [toolUsage_count].
    + apply String.eqb_eq in Hk. subst k.
      destruct (String.eqb toolId toolId'); reflexivity.
    + destruct (String.eqb k toolId') eqn:Hk'; [ | exact IH].
      apply String.eqb_eq in Hk'. subst k. rewrite String.eqb_sym, Hk. reflexivity.
Qed.

Lemma toolUsage_increment_keys (toolId toolId' : string) (usage : list (string * nat)) :
  In toolId' (map fst (toolUsage_increment toolId usage)) <->
  toolId' = toolId \/ In toolId' (map fst usage).
Proof.
  induction usage as [ | [k n] rest IH]; cbn [toolUsage_increment map fst In].
  - intuition.
  - destruct (String.eqb k toolId) eqn:Hk; cbn [map fst In].
    + apply String.eqb_eq in Hk. subst k. intuition.
    + rewrite IH. intuition.
Qed.

Lemma toolUsage_increment_NoDup (toolId : string) (usage : list (string * nat)) :
  NoDup (map fst usage) -> NoDup (map fst (toolUsage_increment toolId usage)).
Proof.
  induction usage as [ | [k n] rest IH]; cbn [toolUsage_increment map fst]; intros Hnd.
  - constructor; [intros [] | constructor].
  - destruct (String.eqb k toolId) eqn:Hk; cbn [map fst].
    + exact Hnd.
    + inversion Hnd as [ | k' l' Hnotin Hrest]; subst. constructor.
      * rewrite toolUsage_increment_keys. intros [Heq | Hin]; [ | contradiction].
        subst k. rewrite String.eqb_refl in Hk. discriminate Hk.
      * apply IH. exact Hrest.
Qed.

Lemma moves_using_app (moves : list (ToolpathMove D)) (move : ToolpathMove D)
  (toolId : string) :
  moves_using (moves ++ [move]) toolId =
  (moves_using moves toolId +
   (if String.eqb (ToolpathState_getActiveToolId (ToolpathMove_getEndState move)) toolId
    then 1 else 0))%nat.
Proof.
  unfold moves_using. rewrite filter_app, length_app. cbn [filter].
  destruct (String.eqb _ toolId); reflexivity.
Qed.

Lemma usage_matches_make (id machineId : string) :
  usage_matches (D := D) (Toolpath_make id machineId).
Proof.
  unfold usage_matches, Toolpath_make. cbn.
  split; [constructor | ]. split.
  - intros toolId. split; [intros [] | lia].
  - intros toolId. destruct (String.eqb toolId EmptyString); reflexivity.
Qed.

Lemma usage_matches_appendMove (toolpath : Toolpath D) (move : ToolpathMove D) :
  usage_matches toolpath -> usage_matches (Toolpath_appendMove toolpath move).
Proof.
  intros (Hnd & Hkeys & Hcount).
  unfold usage_matches, Toolpath_appendMove, ToolpathState_hasActiveTool.
  cbn [toolUsage_ moves_].
  set (tool := ToolpathState_getActiveToolId (ToolpathMove_getEndState move)) in *.
  change (activeToolId_ (ToolpathMove_getEndState move)) with tool.
  destruct (String.eqb tool EmptyString) eqn:Hempty; cbn [negb].
  - apply String.eqb_eq in Hempty.
    split; [exact Hnd | ]. split; [exact Hkeys | ].
    intros toolId. rewrite Hcount, moves_using_app. fold tool. rewrite Hempty.
    destruct (String.eqb toolId EmptyString) eqn:Ht; [reflexivity | ].
    rewrite String.eqb_sym, Ht. lia.
  - split; [apply toolUsage_increment_NoDup; exact Hnd | ]. split.
    + intros toolId. rewrite toolUsage_increment_keys, toolUsage_increment_count, Hkeys.
      destruct (String.eqb tool toolId) eqn:Ht.
      * apply String.eqb_eq in Ht. split; [lia | intros _; left; symmetry; exact Ht].
      * split; [intros [Heq | Hpos]; [ | exact Hpos] | intros Hpos; right; exact Hpos].
        subst toolId. rewrite String.eqb_refl in Ht. discriminate Ht.
    + intros toolId. rewrite toolUsage_increment_count, Hcount, moves_using_app. fold tool.
      destruct (String.eqb tool toolId) eqn:Ht.
      * apply String.eqb_eq in Ht. subst toolId. rewrite Hempty. lia.
      * destruct (String.eqb toolId EmptyString); lia.
Qed.

Lemma usage_matches_fold (moves : list (ToolpathMove D)) :
  forall toolpath : Toolpath D,
    usage_matches toolpath ->
    usage_matches (fold_left Toolpath_appendMove moves toolpath) /\
    moves_ (fold_left Toolpath_appendMove moves toolpath) = moves_ toolpath ++ moves.
Proof.
  induction moves as [ | move rest IH]; intros toolpath Hm; cbn [fold_left].
  - rewrite app_nil_r. split; [exact Hm | reflexivity].
  - destruct (IH (Toolpath_appendMove toolpath move) (usage_matches_appendMove _ _ Hm))
      as [Hm' Hmoves].
    split; [exact Hm' | ]. rewrite Hmoves. cbn [Toolpath_appendMove moves_].
    rewrite <- app_assoc. reflexivity.
Qed.

End ToolUsage.

(** X25.  The tool usage summary counts moves.  In a toolpath built by
    the constructor and [appendMove], [getMoves()] is the sequence of
    moves appended; [getUsedToolIds()] lists each tool id once, never
    the empty id, and exactly the non-empty ids that some move ends
    with; and the count the summary holds for a tool id is the number of
    moves whose end state has that tool active.  Moves that end without
    a tool are not counted anywhere. *)
Theorem toolUsage_counts_moves :
  forall {D : Type} {HS : Scalar D}
         (id machineId : string) (moves : list (ToolpathMove D)),
    let toolpath := Toolpath_build id machineId moves in
    Toolpath_getMoves toolpath = moves /\
    NoDup (Toolpath_getUsedToolIds toolpath) /\
    ~ In EmptyString (Toolpath_getUsedToolIds toolpath) /\
    (forall toolId : string,
       In toolId (Toolpath_getUsedToolIds toolpath) <->
       toolId <> EmptyString /\ (0 < moves_using moves toolId)%nat) /\
    (forall toolId : string,
       toolId <> EmptyString ->
       toolUsage_count (Toolpath_getToolUsageSummary toolpath) toolId =
       moves_using moves toolId).
Proof.
  intros D HS id machineId moves toolpath.
  destruct (usage_matches_fold moves (Toolpath_make id machineId)
              (usage_matches_make id machineId)) as [(Hnd & Hkeys & Hcount) Hmoves].
  fold (Toolpath_build id machineId moves) in Hnd, Hkeys, Hcount, Hmoves.
  fold toolpath in Hnd, Hkeys, Hcount, Hmoves.
  cbn [Toolpath_make moves_ app] in Hmoves.
  unfold Toolpath_getMoves, Toolpath_getUsedToolIds, Toolpath_getToolUsageSummary.
  rewrite Hmoves in Hcount.
  assert (Hiff : forall toolId : string,
             In toolId (map fst (toolUsage_ toolpath)) <->
             toolId <> EmptyString /\ (0 < moves_using moves toolId)%nat).
  { intros toolId. rewrite Hkeys, Hcount.
    destruct (String.eqb toolId EmptyString) eqn:Ht.
    - apply String.eqb_eq in Ht. split; [lia | intros [Hne _]; contradiction].
    - apply String.eqb_neq in Ht. split; [intros Hpos; split; assumption | intros [_ Hpos]; exact Hpos]. }
  split; [exact Hmoves | ]. split; [exact Hnd | ]. split.
  - intros Hin. apply Hiff in Hin. destruct Hin as [Hne _]. apply Hne. reflexivity.
  - split; [exact Hiff | ].
    intros toolId Hne. rewrite Hcount.
    apply String.eqb_neq in Hne. rewrite Hne. reflexivity.
Qed.

Section BoundingBox.

Lemma min3_bounds (lo s e : float) :
  PrimFloat.eqb lo lo = true -> PrimFloat.eqb s s = true -> PrimFloat.eqb e e = true ->
  PrimFloat.leb (std_min_list lo [s; e]) lo = true /\
  PrimFloat.leb (std_min_list lo [s; e]) s = true /\
  PrimFloat.leb (std_min_list lo [s; e]) e = true.
Proof.
  intros Hlo Hs He. unfold std_min_list. cbn [fold_left dltb binary64].
  pose proof (Binary64Order.leb_refl lo Hlo) as Rlo.
  pose proof (Binary64Order.leb_refl s Hs) as Rs.
  pose proof (Binary64Order.leb_refl e He) as Re.
  destruct (PrimFloat.ltb s lo) eqn:H1.
  - pose proof (Binary64Order.ltb_leb _ _ H1) as L1.
    destruct (PrimFloat.ltb e s) eqn:H2.
    + pose proof (Binary64Order.ltb_leb _ _ H2) as L2.
      split; [exact (Binary64Order.leb_trans _ _ _ L2 L1) | split; assumption].
    + split; [exact L1 | split; [exact Rs | ]].
      exact (Binary64Order.not_ltb_leb s e Hs He H2).
  - pose proof (Binary64Order.not_ltb_leb lo s Hlo Hs H1) as L1.
    destruct (PrimFloat.ltb e lo) eqn:H2.
    + pose proof (Binary64Order.ltb_leb _ _ H2) as L2.
      split; [exact L2 | split; [ | exact Re]].
      exact (Binary64Order.leb_trans _ _ _ L2 L1).
    + split; [exact Rlo | split; [exact L1 | ]].
      exact (Binary64Order.not_ltb_leb lo e Hlo He H2).
Qed.

Lemma max3_bounds (hi s e : float) :
  PrimFloat.eqb hi hi = true -> PrimFloat.eqb s s = true -> PrimFloat.eqb e e = true ->
  PrimFloat.leb hi (std_max_list hi [s; e]) = true /\
  PrimFloat.leb s (std_max_list hi [s; e]) = true /\
  PrimFloat.leb e (std_max_list hi [s; e]) = true.
Proof.
  intros Hhi Hs He. unfold std_max_list. cbn [fold_left dltb binary64].
  pose proof (Binary64Order.leb_refl hi Hhi) as Rhi.
  pose proof (Binary64Order.leb_refl s Hs) as Rs.
  pose proof (Binary64Order.leb_refl e He) as Re.
  destruct (PrimFloat.ltb hi s) eqn:H1.
  - pose proof (Binary64Order.ltb_leb _ _ H1) as L1.
    destruct (PrimFloat.ltb s e) eqn:H2.
    + pose proof (Binary64Order.ltb_leb _ _ H2) as L2.
      split; [exact (Binary64Order.leb_trans _ _ _ L1 L2) | split; assumption].
    + split; [exact L1 | split; [exact Rs | ]].
      exact (Binary64Order.not_ltb_leb e s He Hs H2).
  - pose proof (Binary64Order.not_ltb_leb s hi Hs Hhi H1) as L1.
    destruct (PrimFloat.ltb hi e) eqn:H2.
    + pose proof (Binary64Order.ltb_leb _ _ H2) as L2.
      split; [exact L2 | split; [ | exact Re]].
      exact (Binary64Order.leb_trans _ _ _ L1 L2).
    + split; [exact Rhi | split; [exact L1 | ]].
      exact (Binary64Order.not_ltb_leb e hi He Hhi H2).
Qed.

(** One axis of one iteration of the bounding-box loop: the interval
    grows, and it takes in the start and the end coordinate. *)
Lemma axis_extend (lo hi s e : float) :
  PrimFloat.eqb lo lo = true -> PrimFloat.eqb hi hi = true ->
  PrimFloat.eqb s s = true -> PrimFloat.eqb e e = true ->
  let lo' := std_min_list lo [s; e] in
  let hi' := std_max_list hi [s; e] in
  PrimFloat.eqb lo' lo' = true /\ PrimFloat.eqb hi' hi' = true /\
  (PrimFloat.leb lo' s && PrimFloat.leb s hi' = true) /\
  (PrimFloat.leb lo' e && PrimFloat.leb e hi' = true) /\
  (forall p : float,
     PrimFloat.leb lo p && PrimFloat.leb p hi = true ->
     PrimFloat.leb lo' p && PrimFloat.leb p hi' = true).
Proof.
  intros Hlo Hhi Hs He lo' hi'.
  destruct (min3_bounds lo s e Hlo Hs He) as (M1 & M2 & M3).
  destruct (max3_bounds hi s e Hhi Hs He) as (X1 & X2 & X3).
  fold lo' in M1, M2, M3. fold hi' in X1, X2, X3.
  split; [exact (Binary64Order.leb_eqb_refl_l _ _ M1) | ].
  split; [exact (Binary64.leb_eqb_refl _ _ X1) | ].
  split; [rewrite M2, X2; reflexivity | ].
  split; [rewrite M3, X3; reflexivity | ].
  intros p Hp. apply andb_prop in Hp. destruct Hp as [P1 P2].
  rewrite (Binary64Order.leb_trans _ _ _ M1 P1), (Binary64Order.leb_trans _ _ _ P2 X1).
  reflexivity.
Qed.

Lemma contains_axes (mn mx p : Vec3 float) :
  AABB_contains (mkAABB mn mx) p =
  (PrimFloat.leb (vx mn) (vx p) && PrimFloat.leb (vx p) (vx mx)) &&
  (PrimFloat.leb (vy mn) (vy p) && PrimFloat.leb (vy p) (vy mx)) &&
  (PrimFloat.leb (vz mn) (vz p) && PrimFloat.leb (vz p) (vz mx)).
Proof.
  unfold AABB_contains. cbn [aabb_min aabb_max dleb binary64].
  rewrite <- !andb_assoc. reflexivity.
Qed.

Lemma noNaN_axes (v : Vec3 float) :
  Vec3_noNaN v = true ->
  PrimFloat.eqb (vx v) (vx v) = true /\ PrimFloat.eqb (vy v) (vy v) = true /\
  PrimFloat.eqb (vz v) (vz v) = true.
Proof.
  unfold Vec3_noNaN. cbn [deqb binary64]. intros Hv.
  apply andb_prop in Hv. destruct Hv as [Hv Hz].
  apply andb_prop in Hv. destruct Hv as [Hx Hy]. repeat split; assumption.
Qed.

Lemma extendBounds_grows (mn mx : Vec3 float) (move : ToolpathMove float) :
  Vec3_noNaN mn = true -> Vec3_noNaN mx = true ->
  Vec3_noNaN (ToolpathState_getPosition (ToolpathMove_getStartState move)) = true ->
  Vec3_noNaN (ToolpathState_getPosition (ToolpathMove_getEndState move)) = true ->
  let corners := Toolpath_extendBounds (mn, mx) move in
  Vec3_noNaN (fst corners) = true /\ Vec3_noNaN (snd corners) = true /\
  AABB_contains (mkAABB (fst corners) (snd corners))
    (ToolpathState_getPosition (ToolpathMove_getStartState move)) = true /\
  AABB_contains (mkAABB (fst corners) (snd corners))
    (ToolpathState_getPosition (ToolpathMove_getEndState move)) = true /\
  (forall p : Vec3 float,
     AABB_contains (mkAABB mn mx) p = true ->
     AABB_contains (mkAABB (fst corners) (snd corners)) p = true).
Proof.
  intros Hmn Hmx Hs He.
  apply noNaN_axes in Hmn. destruct Hmn as (Nx & Ny & Nz).
  apply noNaN_axes in Hmx. destruct Hmx as (Xx & Xy & Xz).
  apply noNaN_axes in Hs. destruct Hs as (Sx & Sy & Sz).
  apply noNaN_axes in He. destruct He as (Ex & Ey & Ez).
  unfold Toolpath_extendBounds. cbn [fst snd].
  set (s := ToolpathState_getPosition (ToolpathMove_getStartState move)) in *.
  set (e := ToolpathState_getPosition (ToolpathMove_getEndState move)) in *.
  destruct (axis_extend _ _ _ _ Nx Xx Sx Ex) as (Ax1 & Ax2 & Ax3 & Ax4 & Ax5).
  destruct (axis_extend _ _ _ _ Ny Xy Sy Ey) as (Ay1 & Ay2 & Ay3 & Ay4 & Ay5).
  destruct (axis_extend _ _ _ _ Nz Xz Sz Ez) as (Az1 & Az2 & Az3 & Az4 & Az5).
  rewrite !contains_axes. unfold Vec3_noNaN. cbn [vx vy vz deqb binary64].
  split; [rewrite Ax1, Ay1, Az1; reflexivity | ].
  split; [rewrite Ax2, Ay2, Az2; reflexivity | ].
  split; [rewrite Ax3, Ay3, Az3; reflexivity | ].
  split; [rewrite Ax4, Ay4, Az4; reflexivity | ].
  intros p Hp. rewrite contains_axes in Hp. rewrite contains_axes. cbn [vx vy vz].
  apply andb_prop in Hp. destruct Hp as [Hp Pz].
  apply andb_prop in Hp. destruct Hp as [Px Py].
  rewrite (Ax5 _ Px), (Ay5 _ Py), (Az5 _ Pz). reflexivity.
Qed.

Lemma fold_extendBounds (moves : list (ToolpathMove float)) :
  forall mn mx : Vec3 float,
    Vec3_noNaN mn = true -> Vec3_noNaN mx = true ->
    (forall move, In move moves ->
       Vec3_noNaN (ToolpathState_getPosition (ToolpathMove_getStartState move)) = true /\
       Vec3_noNaN (ToolpathState_getPosition (ToolpathMove_getEndState move)) = true) ->
    let corners := fold_left Toolpath_extendBounds moves (mn, mx) in
    (forall p : Vec3 float,
       AABB_contains (mkAABB mn mx) p = true ->
       AABB_contains (mkAABB (fst corners) (snd corners)) p = true) /\
    (forall move, In move moves ->
       AABB_contains (mkAABB (fst corners) (snd corners))
         (ToolpathState_getPosition (ToolpathMove_getStartState move)) = true /\
       AABB_contains (mkAABB (fst corners) (snd corners))
         (ToolpathState_getPosition (ToolpathMove_getEndState move)) = true).
Proof.
  induction moves as [ | move rest IH]; intros mn mx Hmn Hmx Hall; cbn [fold_left].
  - split; [intros p Hp; exact Hp | intros move []].
  - destruct (Hall move (or_introl eq_refl)) as [Hs He].
    destruct (extendBounds_grows mn mx move Hmn Hmx Hs He) as (N1 & N2 & C1 & C2 & G).
    destruct (Toolpath_extendBounds (mn, mx) move) as [mn1 mx1] eqn:Hext.
    cbn [fst snd] in N1, N2, C1, C2, G.
    destruct (IH mn1 mx1 N1 N2 (fun m Hin => Hall m (or_intror Hin))) as [G' C'].
    split.
    + intros p Hp. apply G'. apply G. exact Hp.
    + intros m [<- | Hin].
      * split; apply G'; assumption.
      * exact (C' m Hin).
Qed.

Lemma isValid_state_noNaN (s : ToolpathState float) :
  ToolpathState_isValid s = true -> Vec3_noNaN (ToolpathState_getPosition s) = true.
Proof.
  unfold ToolpathState_isValid, Vec3_noNaN, ToolpathState_getPosition.
  destruct (rotaryAxes_ s) as [[a b] c]. cbn [disfinite deqb binary64].
  intros Hv. do 5 (apply andb_prop in Hv; destruct Hv as [Hv _]).
  apply andb_prop in Hv. destruct Hv as [Hv Fz].
  apply andb_prop in Hv. destruct Hv as [Fx Fy].
  rewrite (Binary64Order.is_finite_eqb_refl _ Fx), (Binary64Order.is_finite_eqb_refl _ Fy),
    (Binary64Order.is_finite_eqb_refl _ Fz).
  reflexivity.
Qed.

End BoundingBox.

(** X26.  The bounding box of a toolpath, in double precision.  For a
    toolpath whose moves are all valid (so every coordinate is finite),
    [getBoundingBox()] is a valid box that contains the start position
    and the end position of every move.  For an empty toolpath it is
    the default box, both corners at the origin. *)
Theorem boundingBox_contains_moves :
  forall toolpath : Toolpath float,
    Toolpath_isValid toolpath = true ->
    let box := Toolpath_getBoundingBox toolpath in
    AABB_isValid box = true /\
    (Toolpath_isEmpty toolpath = true -> box = AABB_default) /\
    (forall move : ToolpathMove float,
       In move (Toolpath_getMoves toolpath) ->
       AABB_contains box
         (ToolpathState_getPosition (ToolpathMove_getStartState move)) = true /\
       AABB_contains box
         (ToolpathState_getPosition (ToolpathMove_getEndState move)) = true).
Proof.
  intros toolpath Hvalid box. unfold box, Toolpath_getBoundingBox, Toolpath_isEmpty,
    Toolpath_getMoves.
  unfold Toolpath_isValid in Hvalid. rewrite forallb_forall in Hvalid.
  destruct (moves_ toolpath) as [ | move0 rest] eqn:Hmoves.
  - split; [reflexivity | ]. split; [reflexivity | intros move []].
  - rewrite <- Hmoves.
    assert (Hall : forall move, In move (moves_ toolpath) ->
              Vec3_noNaN (ToolpathState_getPosition (ToolpathMove_getStartState move)) = true /\
              Vec3_noNaN (ToolpathState_getPosition (ToolpathMove_getEndState move)) = true).
    { intros move Hin. rewrite Hmoves in Hin.
      destruct (isValid_parts move (Hvalid move Hin)) as (Hs & He & _).
      split; apply isValid_state_noNaN; assumption. }
    assert (Hin0 : In move0 (moves_ toolpath)) by (rewrite Hmoves; left; reflexivity).
    destruct (Hall move0 Hin0) as [Hs0 _].
    set (firstPos := ToolpathState_getPosition (ToolpathMove_getStartState move0)) in *.
    destruct (fold_extendBounds (moves_ toolpath) firstPos firstPos Hs0 Hs0 Hall)
      as [_ Hcontains].
    destruct (fold_left Toolpath_extendBounds (moves_ toolpath) (firstPos, firstPos))
      as [minCorner maxCorner].
    cbn [fst snd] in Hcontains.
    split; [ | split; [discriminate | exact Hcontains]].
    destruct (Hcontains move0 Hin0) as [Hc _]. fold firstPos in Hc.
    rewrite contains_axes in Hc.
    apply andb_prop in Hc. destruct Hc as [Hc Hz].
    apply andb_prop in Hc. destruct Hc as [Hx Hy].
    apply andb_prop in Hx. destruct Hx as [Hx1 Hx2].
    apply andb_prop in Hy. destruct Hy as [Hy1 Hy2].
    apply andb_prop in Hz. destruct Hz as [Hz1 Hz2].
    unfold AABB_isValid. cbn [aabb_min aabb_max dleb binary64].
    rewrite (Binary64Order.leb_trans _ _ _ Hx1 Hx2), (Binary64Order.leb_trans _ _ _ Hy1 Hy2),
      (Binary64Order.leb_trans _ _ _ Hz1 Hz2).
    reflexivity.
Qed.

Lemma boundingBox_contains_moves_witness :
  AABB_isValid (Toolpath_getBoundingBox chained_toolpath) = true /\
  AABB_contains (Toolpath_getBoundingBox chained_toolpath)
    (mkVec3 (of_Z 2) (of_Z 0) (of_Z 0)) = true.
Proof.
  pose proof (boundingBox_contains_moves chained_toolpath eq_refl) as Hbox.
  cbv zeta in Hbox. destruct Hbox as (Hv & _ & Hc).
  split; [exact Hv | ].
  exact (proj2 (Hc (ToolpathMove_linear (cut_state (of_Z 1) (of_Z 0) (of_Z 0))
                                        (cut_state (of_Z 2) (of_Z 0) (of_Z 0)))
                   (or_intror (or_introl eq_refl)))).
Defined.

(* ================================================================== *)
(** * 35. Equality of toolpath states, in double precision            *)
(* ================================================================== *)

Lemma CoolantState_eqb_eq (a b : CoolantState) :
  CoolantState_eqb a b = true <-> a = b.
Proof. destruct a, b; cbn; split; intros E; try discriminate E; reflexivity. Qed.

Lemma CoordinateMode_eqb_eq (a b : CoordinateMode) :
  CoordinateMode_eqb a b = true <-> a = b.
Proof. destruct a, b; cbn; split; intros E; try discriminate E; reflexivity. Qed.

Lemma CoolantState_eqb_sym (a b : CoolantState) :
  CoolantState_eqb a b = CoolantState_eqb b a.
Proof. destruct a, b; reflexivity. Qed.

Lemma CoordinateMode_eqb_sym (a b : CoordinateMode) :
  CoordinateMode_eqb a b = CoordinateMode_eqb b a.
Proof. destruct a, b; reflexivity. Qed.

Ltac split_andb :=
  repeat match goal with
         | H : (_ && _)%bool = true |- _ =>
             apply andb_prop in H; destruct H
         end.

(** X28.  [operator==] of [ToolpathState], in double precision.  It is
    symmetric and transitive, and a valid (finite) state equals
    itself.  States that compare equal agree on validity, on
    [hasFeedRate], [isSpindleRunning], the active tool id and
    [isCoolantOn].  It is not reflexive and not identity: a state with
    a NaN coordinate is [!=] itself, and two states that differ in the
    sign of a zero coordinate compare equal. *)
Theorem ToolpathState_equality :
  (forall s other third : ToolpathState float,
     (ToolpathState_isValid s = true -> ToolpathState_eqb s s = true) /\
     ToolpathState_eqb s other = ToolpathState_eqb other s /\
     (ToolpathState_eqb s other = true -> ToolpathState_eqb other third = true ->
      ToolpathState_eqb s third = true) /\
     (ToolpathState_eqb s other = true ->
      ToolpathState_isValid s = ToolpathState_isValid other /\
      ToolpathState_hasFeedRate s = ToolpathState_hasFeedRate other /\
      ToolpathState_isSpindleRunning s = ToolpathState_isSpindleRunning other /\
      ToolpathState_getActiveToolId s = ToolpathState_getActiveToolId other /\
      ToolpathState_isCoolantOn s = ToolpathState_isCoolantOn other)) /\
  (let s := ToolpathState_make (mkVec3 PrimFloat.nan 0%float 0%float) 100%float 0%float
              EmptyString CoolantOff Absolute in
   ToolpathState_neqb s s = true) /\
  (let s := ToolpathState_make (mkVec3 0%float 0%float 0%float) 100%float 0%float
              EmptyString CoolantOff Absolute in
   let other := ToolpathState_make (mkVec3 (-0)%float 0%float 0%float) 100%float 0%float
              EmptyString CoolantOff Absolute in
   ToolpathState_eqb s other = true /\ s <> other).
Proof.
  split; [ | split].
  - intros [[px py pz] [[a b] c] feed rpm tool coolant mode]
           [[px' py' pz'] [[a' b'] c'] feed' rpm' tool' coolant' mode']
           [[px'' py'' pz''] [[a'' b''] c''] feed'' rpm'' tool'' coolant'' mode''].
    unfold ToolpathState_eqb, ToolpathState_isValid, ToolpathState_hasFeedRate,
      ToolpathState_isSpindleRunning, ToolpathState_getActiveToolId,
      ToolpathState_isCoolantOn.
    cbn [state_position_ rotaryAxes_ feedRate_ spindleRPM_ activeToolId_
         coolantState_ coordinateMode_ vx vy vz deqb disfinite dltb binary64].
    split; [ | split; [ | split]].
    + intros Hv. split_andb.
      rewrite !Binary64Order.is_finite_eqb_refl by assumption.
      rewrite String.eqb_refl.
      destruct coolant, mode; reflexivity.
    + rewrite (Binary64Order.eqb_sym px), (Binary64Order.eqb_sym py),
        (Binary64Order.eqb_sym pz), (Binary64Order.eqb_sym a),
        (Binary64Order.eqb_sym b), (Binary64Order.eqb_sym c),
        (Binary64Order.eqb_sym feed), (Binary64Order.eqb_sym rpm),
        (String.eqb_sym tool), (CoolantState_eqb_sym coolant),
        (CoordinateMode_eqb_sym mode).
      reflexivity.
    + intros H1 H2. split_andb.
      repeat (apply andb_true_intro; split).
      all: try (eapply Binary64Order.eqb_trans; eassumption).
      * apply String.eqb_eq.
        transitivity tool'; apply String.eqb_eq; assumption.
      * apply CoolantState_eqb_eq.
        transitivity coolant'; apply CoolantState_eqb_eq; assumption.
      * apply CoordinateMode_eqb_eq.
        transitivity mode'; apply CoordinateMode_eqb_eq; assumption.
    + intros H1. split_andb.
      repeat match goal with
             | E : PrimFloat.eqb ?x ?y = true |- _ =>
                 rewrite (Binary64Order.eqb_is_finite x y E);
                 try rewrite (Binary64Order.eqb_ltb_r x y _ E);
                 clear E
             end.
      repeat match goal with
             | E : String.eqb _ _ = true |- _ => apply String.eqb_eq in E; subst
             | E : CoolantState_eqb _ _ = true |- _ =>
                 apply CoolantState_eqb_eq in E; subst
             end.
      repeat split; reflexivity.
  - vm_compute. reflexivity.
  - split; [vm_compute; reflexivity | ].
    intros E.
    apply (f_equal (fun st => Prim2SF (vx (ToolpathState_getPosition st)))) in E.
    vm_compute in E. discriminate E.
Qed.
